(** * Relaxed reachability over domain transition graphs (MyPOP / L-RPG)

    A shallow embedding of the equivalent-object-group store
    (equivalent_object_group.cpp) and of the reachability engine
    (SAS/dtg_reachability.cpp), with the properties of both that the
    specification states.

    Conventions used throughout.
    - A C++ pointer is an index into an arena: [eog_ref] into the vector
      of all groups (the manager's [equivalent_groups_], in creation
      order), [eo_ref] into the equivalent objects, [fact_ref] into the
      pool of reachable facts.  Two pointers are equal iff the indices are.
    - A call that does not return normally (a failed [assert], a
      dereference of a dangling or null pointer, an index past the end, a
      recursion that never ends) is [None]; a normal return is [Some].
    - [unsigned int] values are [N]; the only conversion that can wrap
      (a vector size stored in an [unsigned int]) is written out. *)

From stdpp Require Import base option list numbers gmap sorting.

Abbreviation Object := nat (only parsing).
Abbreviation eog_ref := nat (only parsing).
Abbreviation eo_ref := nat (only parsing).
Abbreviation fact_ref := nat (only parsing).

(** [std::numeric_limits<unsigned int>::max()]. *)
Definition UINT_MAX : N := 4294967295.

(** Conversion of a [size_t] to [unsigned int]. *)
Definition uint_of_size (n : nat) : N := (N.of_nat n mod (UINT_MAX + 1))%N.

(** reachable_fact.h: the atom (by identity), the array of group pointers
    (one per term of the atom, so its length is the atom's arity) and the
    tombstone. *)
Record ReachableFact := mkReachableFact {
  atom_ : nat;
  term_domain_mapping_ : list eog_ref;
  replaced_by_ : option fact_ref
}.

Record EquivalentObject := mkEquivalentObject {
  object_ : Object;
  equivalent_group_ : eog_ref;
  initial_facts_ : list fact_ref
}.

Record EquivalentObjectGroup := mkEquivalentObjectGroup {
  is_grounded_ : bool;
  link_ : option eog_ref;
  finger_print_ : list bool;
  merged_at_iteration_ : N;
  equivalent_objects_ : list eo_ref;
  reachable_facts_ : list fact_ref;
  size_per_iteration_ : list N
}.

Definition finger_print_size_ (g : EquivalentObjectGroup) : nat :=
  length (finger_print_ g).

Record Heap := mkHeap {
  groups : list EquivalentObjectGroup;
  equivalent_objects : list EquivalentObject;
  facts : list ReachableFact
}.

Definition set_group (h : Heap) (e : eog_ref) (g : EquivalentObjectGroup) : Heap :=
  mkHeap (<[e := g]> (groups h)) (equivalent_objects h) (facts h).

Definition set_fact (h : Heap) (r : fact_ref) (f : ReachableFact) : Heap :=
  mkHeap (groups h) (equivalent_objects h) (<[r := f]> (facts h)).

Global Arguments set_group : simpl never.
Global Arguments set_fact : simpl never.

Definition with_link (l : option eog_ref) (g : EquivalentObjectGroup) :=
  mkEquivalentObjectGroup (is_grounded_ g) l (finger_print_ g)
    (merged_at_iteration_ g) (equivalent_objects_ g) (reachable_facts_ g)
    (size_per_iteration_ g).

Definition with_merged_at_iteration (i : N) (g : EquivalentObjectGroup) :=
  mkEquivalentObjectGroup (is_grounded_ g) (link_ g) (finger_print_ g)
    i (equivalent_objects_ g) (reachable_facts_ g) (size_per_iteration_ g).

Definition with_equivalent_objects (l : list eo_ref) (g : EquivalentObjectGroup) :=
  mkEquivalentObjectGroup (is_grounded_ g) (link_ g) (finger_print_ g)
    (merged_at_iteration_ g) l (reachable_facts_ g) (size_per_iteration_ g).

Definition with_reachable_facts (l : list fact_ref) (g : EquivalentObjectGroup) :=
  mkEquivalentObjectGroup (is_grounded_ g) (link_ g) (finger_print_ g)
    (merged_at_iteration_ g) (equivalent_objects_ g) l (size_per_iteration_ g).

Definition with_size_per_iteration (l : list N) (g : EquivalentObjectGroup) :=
  mkEquivalentObjectGroup (is_grounded_ g) (link_ g) (finger_print_ g)
    (merged_at_iteration_ g) (equivalent_objects_ g) (reachable_facts_ g) l.

Definition with_replaced_by (r : option fact_ref) (f : ReachableFact) :=
  mkReachableFact (atom_ f) (term_domain_mapping_ f) r.

Definition with_term_domain_mapping (l : list eog_ref) (f : ReachableFact) :=
  mkReachableFact (atom_ f) l (replaced_by_ f).

(** [isRootNode()]: the group has not been forwarded. *)
Definition isRootNode (g : EquivalentObjectGroup) : bool :=
  bool_decide (link_ g = None).

(** [ReachableFact::isMarkedForRemoval] (reachable_fact.h). *)
Definition isMarkedForRemoval (f : ReachableFact) : bool :=
  bool_decide (replaced_by_ f ≠ None).

(** [memcmp (a, b, n) == 0] on two [bool] arrays. *)
Definition memcmp_eq (a b : list bool) (n : nat) : bool :=
  bool_decide (take n a = take n b).

Section EquivalentObjectGroups.

(** The two comparisons of reachable facts are implemented in
    reachable_fact.cpp, which is not part of the sources; they read the
    two facts and the groups their terms point to. *)
Variable isEquivalentTo : Heap → fact_ref → fact_ref → bool.
Variable isIdenticalTo : Heap → fact_ref → fact_ref → bool.

(** [EquivalentObject::isInitialStateReachable]: every initial fact of the
    object is equivalent to one of the given reachable facts. *)
Definition EquivalentObject_isInitialStateReachable
    (h : Heap) (eo : EquivalentObject) (reachable_facts : list fact_ref) : bool :=
  forallb (λ initial_fact,
             existsb (λ reachable_fact,
                        isEquivalentTo h initial_fact reachable_fact)
                     reachable_facts)
          (initial_facts_ eo).

(** The scan of [contains]: indices [i], [i+1], ... below [bound] of the
    vector of equivalent objects, stopping at the first hit. *)
Fixpoint contains_scan (h : Heap) (eos : list eo_ref) (object : Object)
    (i : nat) (steps : nat) : option bool :=
  match steps with
  | 0 => Some false
  | S steps' =>
      r ← eos !! i;
      eo ← equivalent_objects h !! r;
      if bool_decide (object_ eo = object) then Some true
      else contains_scan h eos object (S i) steps'
  end.

(** [EquivalentObjectGroup::contains (object, iteration)].  [depth] bounds
    the number of links followed. *)
Fixpoint contains_at (depth : nat) (h : Heap) (e : eog_ref) (object : Object)
    (iteration : N) : option bool :=
  g ← groups h !! e;
  if (merged_at_iteration_ g <=? iteration)%N then
    match depth with
    | 0 => None
    | S depth' =>
        l ← link_ g;
        contains_at depth' h l object iteration
    end
  else
    bound ← size_per_iteration_ g !! N.to_nat iteration;
    contains_scan h (equivalent_objects_ g) object 0 (N.to_nat bound).

(** A chain of links in a heap with [n] groups that does not end within
    [n] steps runs in a cycle, so [n] is all the depth a call can use. *)
Definition EquivalentObjectGroup_contains (h : Heap) (e : eog_ref)
    (object : Object) (iteration : N) : option bool :=
  contains_at (length (groups h)) h e object iteration.

(** [EquivalentObjectGroup::getRootNode]: follow the links to the group
    whose link is null. *)
Fixpoint getRootNode_at (depth : nat) (h : Heap) (e : eog_ref) : option eog_ref :=
  g ← groups h !! e;
  match link_ g with
  | None => Some e
  | Some l =>
      match depth with
      | 0 => None
      | S depth' => getRootNode_at depth' h l
      end
  end.

Definition EquivalentObjectGroup_getRootNode (h : Heap) (e : eog_ref) : option eog_ref :=
  getRootNode_at (length (groups h)) h e.

(** Modelled from the spec: [ReachableFact::updateTermsToRoot] (declared in
    reachable_fact.h, implemented in the absent reachable_fact.cpp) walks
    the term array, replaces each group pointer with its root and returns
    true iff any slot was changed. *)
Definition ReachableFact_updateTermsToRoot (h : Heap) (r : fact_ref)
    : option (Heap * bool) :=
  f ← facts h !! r;
  roots ← mapM (EquivalentObjectGroup_getRootNode h) (term_domain_mapping_ f);
  Some (set_fact h r (with_term_domain_mapping roots f),
        bool_decide (roots ≠ term_domain_mapping_ f)).

(** Modelled from the spec: [ReachableFact::replaceBy] sets [replaced_by_]. *)
Definition ReachableFact_replaceBy (h : Heap) (r replacement : fact_ref)
    : option Heap :=
  f ← facts h !! r;
  Some (set_fact h r (with_replaced_by (Some replacement) f)).

(** [EquivalentObjectGroup::addReachableFact] (the debug check is compiled
    out). *)
Definition EquivalentObjectGroup_addReachableFact (h : Heap) (this : eog_ref)
    (r : fact_ref) : option Heap :=
  g ← groups h !! this;
  Some (set_group h this (with_reachable_facts (reachable_facts_ g ++ [r]) g)).

(** [if (std::find (affected_groups...) == end) affected_groups.push_back]
    for every term of a fact; [skip] is the group left out ([this] in the
    first loop of [merge], none in the second). *)
Fixpoint add_affected (skip : option eog_ref) (terms : list eog_ref)
    (affected_groups : list eog_ref) : list eog_ref :=
  match terms with
  | [] => affected_groups
  | eog :: terms' =>
      if bool_decide (Some eog ≠ skip ∧ eog ∉ affected_groups)
      then add_affected skip terms' (affected_groups ++ [eog])
      else add_affected skip terms' affected_groups
  end.

(** The inner loop of the first pass of [merge]: is there a term whose
    group is no root?  Terms are read in order up to the first such one. *)
Fixpoint has_non_root_term (h : Heap) (terms : list eog_ref) : option bool :=
  match terms with
  | [] => Some false
  | eog :: terms' =>
      g ← groups h !! eog;
      if isRootNode g then has_non_root_term h terms' else Some true
  end.

(** First pass of [merge]: the reverse iteration over [reachable_facts_]
    that erases the facts with a forwarded term.  The reverse iterator
    with base index [k] reads the element at [k - 1]; [erase (base - 1)]
    removes it, and the increment of the iterator moves the base to
    [k - 1]. *)
Fixpoint merge_erase (h : Heap) (this : eog_ref) (k : nat)
    (reachable_facts : list fact_ref) (affected_groups : list eog_ref)
    : option (list fact_ref * list eog_ref) :=
  match k with
  | 0 => Some (reachable_facts, affected_groups)
  | S k' =>
      r ← reachable_facts !! k';
      f ← facts h !! r;
      stale ← has_non_root_term h (term_domain_mapping_ f);
      if stale : bool
      then merge_erase h this k' (delete k' reachable_facts)
             (add_affected (Some this) (term_domain_mapping_ f) affected_groups)
      else merge_erase h this k' reachable_facts affected_groups
  end.

(** Second pass of [merge]: the facts of the other group are rewritten to
    roots and either added to this group or replaced by an identical
    fact that is already there. *)
Fixpoint merge_update (h : Heap) (this : eog_ref) (todo : list fact_ref)
    (updated_facts : list fact_ref) (affected_groups : list eog_ref)
    : option (Heap * list eog_ref) :=
  match todo with
  | [] => Some (h, affected_groups)
  | r :: todo' =>
      f ← facts h !! r;
      if isMarkedForRemoval f
      then merge_update h this todo' updated_facts affected_groups
      else
        '(h1, changed) ← ReachableFact_updateTermsToRoot h r;
        if changed : bool then
          match find (λ u, isIdenticalTo h1 u r) updated_facts with
          | Some identical_fact =>
              if bool_decide (identical_fact = r) then None
              else
                h2 ← ReachableFact_replaceBy h1 r identical_fact;
                f2 ← facts h2 !! r;
                merge_update h2 this todo' updated_facts
                  (add_affected None (term_domain_mapping_ f2) affected_groups)
          | None =>
              h2 ← EquivalentObjectGroup_addReachableFact h1 this r;
              merge_update h2 this todo' (updated_facts ++ [r]) affected_groups
          end
        else
          h2 ← EquivalentObjectGroup_addReachableFact h1 this r;
          merge_update h2 this todo' updated_facts affected_groups
  end.

(** [EquivalentObjectGroup::merge].  Merging a group with itself inserts
    a vector into itself and then iterates over the vector it appends to,
    which has no defined result. *)
Definition EquivalentObjectGroup_merge (h : Heap) (this other_group : eog_ref)
    (affected_groups : list eog_ref) : option (Heap * list eog_ref) :=
  o ← groups h !! other_group;
  g ← groups h !! this;
  if negb (isRootNode o) then None
  else if bool_decide (this = other_group) then None
  else
    let h1 := set_group h this
                (with_equivalent_objects
                   (equivalent_objects_ g ++ equivalent_objects_ o) g) in
    let h2 := set_group h1 other_group (with_link (Some this) o) in
    '(kept, affected1) ← merge_erase h2 this (length (reachable_facts_ g))
                            (reachable_facts_ g) affected_groups;
    g2 ← groups h2 !! this;
    let h3 := set_group h2 this (with_reachable_facts kept g2) in
    merge_update h3 this (reachable_facts_ o) kept affected1.

(** The two loops of [tryToMergeWith] over the equivalent objects of one
    group, stopping at the first object whose initial state is reachable. *)
Fixpoint any_initial_state_reachable (h : Heap) (eos : list eo_ref)
    (reachable_facts : list fact_ref) : option bool :=
  match eos with
  | [] => Some false
  | r :: eos' =>
      eo ← equivalent_objects h !! r;
      if EquivalentObject_isInitialStateReachable h eo reachable_facts
      then Some true
      else any_initial_state_reachable h eos' reachable_facts
  end.

(** The last three statements of [tryToMergeWith]. *)
Definition merge_and_stamp (h : Heap) (this other_group : eog_ref)
    (affected_groups : list eog_ref) (iteration : N)
    : option (Heap * list eog_ref * bool) :=
  '(h1, affected1) ← EquivalentObjectGroup_merge h this other_group affected_groups;
  o ← groups h1 !! other_group;
  Some (set_group h1 other_group (with_merged_at_iteration iteration o),
        affected1, true).

(** [EquivalentObjectGroup::tryToMergeWith].  [depth] bounds the
    redirections to the root nodes: a redirected call is made on roots,
    and redirects no further. *)
Fixpoint tryToMergeWith_at (depth : nat) (h : Heap) (this other_group : eog_ref)
    (affected_groups : list eog_ref) (iteration : N)
    : option (Heap * list eog_ref * bool) :=
  g ← groups h !! this;
  o ← groups h !! other_group;
  if is_grounded_ g || is_grounded_ o then Some (h, affected_groups, false)
  else
    this_root_node ← EquivalentObjectGroup_getRootNode h this;
    other_root_node ← EquivalentObjectGroup_getRootNode h other_group;
    if bool_decide (this_root_node = other_root_node)
    then Some (h, affected_groups, true)
    else if negb (isRootNode g) then
      match depth with
      | 0 => None
      | S depth' =>
          tryToMergeWith_at depth' h this_root_node other_root_node
            affected_groups iteration
      end
    else if negb (isRootNode o) then
      match depth with
      | 0 => None
      | S depth' =>
          tryToMergeWith_at depth' h this other_root_node
            affected_groups iteration
      end
    else if negb (bool_decide (finger_print_size_ g = finger_print_size_ o))
    then None
    else if negb (memcmp_eq (finger_print_ g) (finger_print_ o)
                    (finger_print_size_ g))
    then Some (h, affected_groups, false)
    else
      can_merge ← any_initial_state_reachable h (equivalent_objects_ o)
                     (reachable_facts_ g);
      if negb can_merge then Some (h, affected_groups, false)
      else
        can_merge ← any_initial_state_reachable h (equivalent_objects_ g)
                       (reachable_facts_ o);
        if negb can_merge then Some (h, affected_groups, false)
        else merge_and_stamp h this other_group affected_groups iteration.

Definition EquivalentObjectGroup_tryToMergeWith :=
  tryToMergeWith_at 2.

(** [EquivalentObjectGroup::deleteRemovedFacts]: the same reverse
    iteration with [erase] as in [merge]. *)
Fixpoint deleteRemovedFacts_erase (h : Heap) (k : nat)
    (reachable_facts : list fact_ref) : option (list fact_ref) :=
  match k with
  | 0 => Some reachable_facts
  | S k' =>
      r ← reachable_facts !! k';
      f ← facts h !! r;
      if isMarkedForRemoval f
      then deleteRemovedFacts_erase h k' (delete k' reachable_facts)
      else deleteRemovedFacts_erase h k' reachable_facts
  end.

Definition EquivalentObjectGroup_deleteRemovedFacts (h : Heap) (this : eog_ref)
    : option Heap :=
  g ← groups h !! this;
  kept ← deleteRemovedFacts_erase h (length (reachable_facts_ g))
            (reachable_facts_ g);
  Some (set_group h this (with_reachable_facts kept g)).

(** The loop of [EquivalentObjectGroup::updateEquivalences] over all
    groups; the result of [tryToMergeWith] is dropped. *)
Fixpoint try_all (h : Heap) (this : eog_ref) (all_eogs : list eog_ref)
    (affected_groups : list eog_ref) (iteration : N)
    : option (Heap * list eog_ref) :=
  match all_eogs with
  | [] => Some (h, affected_groups)
  | eog :: all_eogs' =>
      o ← groups h !! eog;
      if negb (isRootNode o)
      then try_all h this all_eogs' affected_groups iteration
      else
        '(h1, affected1, _) ← EquivalentObjectGroup_tryToMergeWith h this eog
                                 affected_groups iteration;
        try_all h1 this all_eogs' affected1 iteration
  end.

(** [EquivalentObjectGroup::updateEquivalences]. *)
Definition EquivalentObjectGroup_updateEquivalences (h : Heap) (this : eog_ref)
    (all_eogs : list eog_ref) (affected_groups : list eog_ref) (iteration : N)
    : option (Heap * list eog_ref) :=
  g ← groups h !! this;
  '(h1, affected1) ←
     (if isRootNode g
      then try_all h this all_eogs affected_groups iteration
      else Some (h, affected_groups));
  g1 ← groups h1 !! this;
  Some (set_group h1 this
          (with_size_per_iteration
             (size_per_iteration_ g1
                ++ [uint_of_size (length (equivalent_objects_ g1))]) g1),
        affected1).

(** The manager's [equivalent_groups_]: every group, in creation order. *)
Definition equivalent_groups_ (h : Heap) : list eog_ref :=
  seq 0 (length (groups h)).

Fixpoint update_each (h : Heap) (todo : list eog_ref) (all_eogs : list eog_ref)
    (affected_groups : list eog_ref) (iteration : N)
    : option (Heap * list eog_ref) :=
  match todo with
  | [] => Some (h, affected_groups)
  | eog :: todo' =>
      '(h1, affected1) ← EquivalentObjectGroup_updateEquivalences h eog all_eogs
                            affected_groups iteration;
      update_each h1 todo' all_eogs affected1 iteration
  end.

Fixpoint purge_each (h : Heap) (affected_groups : list eog_ref) : option Heap :=
  match affected_groups with
  | [] => Some h
  | eog :: affected' =>
      g ← groups h !! eog;
      if isRootNode g
      then h1 ← EquivalentObjectGroup_deleteRemovedFacts h eog;
           purge_each h1 affected'
      else purge_each h affected'
  end.

(** [EquivalentObjectGroupManager::updateEquivalences]. *)
Definition EquivalentObjectGroupManager_updateEquivalences (h : Heap)
    (iteration : N) : option Heap :=
  '(h1, affected_groups) ← update_each h (equivalent_groups_ h)
                              (equivalent_groups_ h) [] iteration;
  purge_each h1 affected_groups.

End EquivalentObjectGroups.

(** ** The store at the start

    [EquivalentObjectGroupManager::EquivalentObjectGroupManager] makes a
    group with one equivalent object for every object, and then the group
    of the facts without terms, which is grounded and has no object and no
    fingerprint.  The fingerprint of an object is computed from the graph
    ([initialiseFingerPrint]) and given here with the object, as is
    [isObjectGrounded]; [pool] holds the reachable facts that exist. *)
Definition EquivalentObjectGroupManager_constructor
    (objects : list (Object * bool * list bool)) (pool : list ReachableFact)
    : Heap :=
  mkHeap
    (imap (λ i '(object, is_grounded, finger_print),
             mkEquivalentObjectGroup is_grounded None finger_print UINT_MAX
               [i] [] [])
          objects
     ++ [mkEquivalentObjectGroup true None [] UINT_MAX [] [] []])
    (imap (λ i '(object, is_grounded, finger_print),
             mkEquivalentObject object i [])
          objects)
    pool.

Definition zero_arity_equivalent_object_group_
    (objects : list (Object * bool * list bool)) : eog_ref :=
  length objects.

Definition set_equivalent_object (h : Heap) (r : eo_ref) (eo : EquivalentObject)
    : Heap :=
  mkHeap (groups h) (<[r := eo]> (equivalent_objects h)) (facts h).

(** [EquivalentObject::addInitialFact]. *)
Definition EquivalentObject_addInitialFact (h : Heap) (this : eo_ref)
    (reachable_fact : fact_ref) : option Heap :=
  eo ← equivalent_objects h !! this;
  if bool_decide (reachable_fact ∈ initial_facts_ eo) then Some h
  else
    EquivalentObjectGroup_addReachableFact
      (set_equivalent_object h this
         (mkEquivalentObject (object_ eo) (equivalent_group_ eo)
            (initial_facts_ eo ++ [reachable_fact])))
      (equivalent_group_ eo) reachable_fact.

(** The loops of [EquivalentObjectGroupManager::initialise] over the
    equivalent objects of the group of a term, and over the terms of an
    initial fact. *)
Fixpoint initialise_objects (h : Heap) (eos : list eo_ref)
    (initial_reachable_fact : fact_ref) : option Heap :=
  match eos with
  | [] => Some h
  | eo :: eos' =>
      h1 ← EquivalentObject_addInitialFact h eo initial_reachable_fact;
      initialise_objects h1 eos' initial_reachable_fact
  end.

Fixpoint initialise_terms (h : Heap) (terms : list eog_ref)
    (initial_reachable_fact : fact_ref) : option Heap :=
  match terms with
  | [] => Some h
  | eog :: terms' =>
      g ← groups h !! eog;
      h1 ← initialise_objects h (equivalent_objects_ g) initial_reachable_fact;
      initialise_terms h1 terms' initial_reachable_fact
  end.

(** [EquivalentObjectGroupManager::initialise]. *)
Fixpoint EquivalentObjectGroupManager_initialise (h : Heap)
    (zero_arity_group : eog_ref) (initial_facts : list fact_ref) : option Heap :=
  match initial_facts with
  | [] => Some h
  | initial_reachable_fact :: initial_facts' =>
      f ← facts h !! initial_reachable_fact;
      h1 ← (if bool_decide (0 < length (term_domain_mapping_ f))
            then initialise_terms h (term_domain_mapping_ f)
                   initial_reachable_fact
            else EquivalentObjectGroup_addReachableFact h zero_arity_group
                   initial_reachable_fact);
      EquivalentObjectGroupManager_initialise h1 zero_arity_group initial_facts'
  end.

(** * The reachability engine (SAS/dtg_reachability.cpp)

    The classes [Bindings], [Term], [Atom], [BoundedAtom], [Transition] and
    [DomainTransitionGraphNode] are declared outside the sources.  They are
    embedded through what the engine reads of them: a term of a bounded
    atom is seen together with the variable domain the bindings give it
    under the atom's step id -- the address of that [std::vector] and the
    objects in it -- and the queries answered by the bindings are
    parameters of the development. *)

(** The loops of the engine that run over a vector are structural and
    return an [option], as in the first part.  Three loops run until
    nothing changes: the open list of [propagateReachableNodes], the
    [while] over the achieved transitions and the [do ... while] of the
    analysis.  They take a bound on their iterations, and end with a
    value, in a failed assertion (or a read that has no defined result),
    or at the bound. *)
Inductive outcome (A : Type) : Type :=
| Returns (a : A)
| Aborts
| OutOfFuel.
Arguments Returns {A} a.
Arguments Aborts {A}.
Arguments OutOfFuel {A}.

Global Instance outcome_ret : MRet outcome := λ A a, Returns a.
Global Instance outcome_bind : MBind outcome := λ A B f m,
  match m with
  | Returns a => f a
  | Aborts => Aborts
  | OutOfFuel => OutOfFuel
  end.

(** The result of a structural function inside a bounded loop. *)
Definition deref {A} (o : option A) : outcome A :=
  match o with
  | Some a => Returns a
  | None => Aborts
  end.

Record Term := mkTerm {
  term_ref : nat;
  domain_ref : nat;
  getDomain : list nat
}.

Record BoundedAtom := mkBoundedAtom {
  getId : nat;
  getPredicate : nat;
  isNegative : bool;
  getTerms : list Term
}.

Record Transition := mkTransition {
  transition_ref : nat;
  getFromNode : nat;
  getToNode : nat;
  getAllPreconditions : list BoundedAtom;
  getVariables : list nat
}.

Record DomainTransitionGraphNode := mkDomainTransitionGraphNode {
  getAtoms : list BoundedAtom;
  getTransitions : list Transition
}.

(** [Term::makeDomainEqualTo] on a term of a freshly created bounded atom. *)
Definition makeDomainEqualTo (domain : list nat) (t : Term) : Term :=
  mkTerm (term_ref t) (domain_ref t) domain.

Definition set_terms (terms : list Term) (a : BoundedAtom) : BoundedAtom :=
  mkBoundedAtom (getId a) (getPredicate a) (isNegative a) terms.

(** [std::set_intersection] on two sorted ranges. *)
Fixpoint set_intersection (a : list nat) : list nat → list nat :=
  fix advance (b : list nat) : list nat :=
    match a, b with
    | [], _ => []
    | _, [] => []
    | x :: a', y :: b' =>
        if decide (x < y) then set_intersection a' b
        else if decide (y < x) then advance b'
        else x :: set_intersection a' b'
    end.

(** The two copies are sorted with [std::sort] (objects are compared by
    address), then intersected. *)
Definition sorted_intersection (initial_fact_domain existing_domain : list nat)
    : list nat :=
  set_intersection (merge_sort (≤) initial_fact_domain)
                   (merge_sort (≤) existing_domain).

(** The map from the address of a variable domain to the objects assigned
    to it so far. *)
Abbreviation assignments := (gmap nat (list nat)).

Section SupportFinder.

(** [Bindings::canUnify (fact, fact_id, atom, atom_id)]. *)
Variable canUnify : BoundedAtom → BoundedAtom → bool.
(** [BoundedAtom::createBoundedAtom]: a copy of the atom under a fresh
    step id, with variable domains of its own. *)
Variable createBoundedAtom : BoundedAtom → BoundedAtom.

(** One term position of the atom to process against the same position of
    the candidate fact; [None] is [terms_supported = false]. *)
Definition bind_term (variable_assignments : assignments)
    (atom_term fact_term : Term) : option assignments :=
  match variable_assignments !! domain_ref atom_term with
  | None =>
      Some (<[domain_ref atom_term := getDomain fact_term]> variable_assignments)
  | Some existing_domain =>
      let intersection :=
        sorted_intersection (getDomain fact_term) existing_domain in
      if bool_decide (intersection = []) then None
      else Some (<[domain_ref atom_term := intersection]> variable_assignments)
  end.

(** The loop over the terms of the atom to process: [Some None] when a
    term is not supported, [None] when the candidate fact has no term at
    the position read. *)
Fixpoint bind_terms (variable_assignments : assignments)
    (atom_terms fact_terms : list Term) (term_index : nat)
    : option (option assignments) :=
  match atom_terms with
  | [] => Some (Some variable_assignments)
  | atom_term :: atom_terms' =>
      fact_term ← fact_terms !! term_index;
      match bind_term variable_assignments atom_term fact_term with
      | None => Some None
      | Some variable_assignments' =>
          bind_terms variable_assignments' atom_terms' fact_terms (S term_index)
      end
  end.

(** The new bounded atom built for one atom to achieve once every atom
    has a supporting fact: each of its terms gets the objects assigned to
    the variable domain of the corresponding term. *)
Fixpoint finalize_terms (variable_assignments : assignments)
    (terms_to_achieve : list Term) (term_index : nat) (new_terms : list Term)
    : option (list Term) :=
  match terms_to_achieve with
  | [] => Some new_terms
  | term_of_atom_to_achieve :: terms' =>
      new_bounded_atom_term ← new_terms !! term_index;
      possible_assignments ←
        variable_assignments !! domain_ref term_of_atom_to_achieve;
      finalize_terms variable_assignments terms' (S term_index)
        (<[term_index := makeDomainEqualTo possible_assignments
                           new_bounded_atom_term]> new_terms)
  end.

Definition finalize_atom (variable_assignments : assignments)
    (atom_to_achieve : BoundedAtom) : option BoundedAtom :=
  let new_bounded_atom := createBoundedAtom atom_to_achieve in
  new_terms ← finalize_terms variable_assignments (getTerms atom_to_achieve) 0
                 (getTerms new_bounded_atom);
  Some (set_terms new_terms new_bounded_atom).

Fixpoint finalize (variable_assignments : assignments)
    (atoms_to_achieve : list BoundedAtom) : option (list BoundedAtom) :=
  match atoms_to_achieve with
  | [] => Some []
  | atom_to_achieve :: atoms' =>
      new_bounded_atom ← finalize_atom variable_assignments atom_to_achieve;
      rest ← finalize variable_assignments atoms';
      Some (new_bounded_atom :: rest)
  end.

(** The loop of [getSupportingFacts] over the known facts.  [recurse] is
    the recursive call; every candidate starts from the assignments of the
    caller, of which it works on a clone. *)
Fixpoint try_candidates
    (recurse : list (list BoundedAtom) → assignments → list BoundedAtom →
               option (list (list BoundedAtom)))
    (supporting_tupples : list (list BoundedAtom))
    (variable_assignments : assignments)
    (atoms_to_achieve : list BoundedAtom) (atom_to_process : BoundedAtom)
    (initial_supporting_facts : list BoundedAtom)
    (candidates : list BoundedAtom) : option (list (list BoundedAtom)) :=
  match candidates with
  | [] => Some supporting_tupples
  | initial_fact :: candidates' =>
      if canUnify initial_fact atom_to_process then
        clone ← bind_terms variable_assignments (getTerms atom_to_process)
                   (getTerms initial_fact) 0;
        match clone with
        | None =>
            try_candidates recurse supporting_tupples variable_assignments
              atoms_to_achieve atom_to_process initial_supporting_facts candidates'
        | Some variable_assignments_clone =>
            let initial_supporting_facts_clone :=
              initial_supporting_facts ++ [initial_fact] in
            supporting_tupples' ←
              (if bool_decide (length initial_supporting_facts_clone
                               = length atoms_to_achieve)
               then
                 finalized_supporting_facts ←
                   finalize variable_assignments_clone atoms_to_achieve;
                 Some (supporting_tupples ++ [finalized_supporting_facts])
               else
                 recurse supporting_tupples variable_assignments_clone
                   initial_supporting_facts_clone);
            try_candidates recurse supporting_tupples' variable_assignments
              atoms_to_achieve atom_to_process initial_supporting_facts candidates'
        end
      else
        try_candidates recurse supporting_tupples variable_assignments
          atoms_to_achieve atom_to_process initial_supporting_facts candidates'
  end.

(** [getSupportingFacts], by recursion on the atoms that are still to be
    processed: [atoms_to_achieve] from index
    [initial_supporting_facts.size ()] on.  None left is the failed
    assertion at the head of the function. *)
Fixpoint getSupportingFacts_from (remaining : list BoundedAtom)
    (supporting_tupples : list (list BoundedAtom))
    (variable_assignments : assignments)
    (atoms_to_achieve : list BoundedAtom)
    (initial_supporting_facts : list BoundedAtom)
    (initial_facts : list BoundedAtom) : option (list (list BoundedAtom)) :=
  match remaining with
  | [] => None
  | atom_to_process :: remaining' =>
      try_candidates
        (λ tupples assigned supporting,
           getSupportingFacts_from remaining' tupples assigned
             atoms_to_achieve supporting initial_facts)
        supporting_tupples variable_assignments atoms_to_achieve
        atom_to_process initial_supporting_facts initial_facts
  end.

(** [DTGReachability::getSupportingFacts]; the result is the vector
    [supporting_tupples] as the call leaves it. *)
Definition getSupportingFacts
    (supporting_tupples : list (list BoundedAtom))
    (variable_assignments : assignments)
    (atoms_to_achieve : list BoundedAtom)
    (initial_supporting_facts : list BoundedAtom)
    (initial_facts : list BoundedAtom) : option (list (list BoundedAtom)) :=
  getSupportingFacts_from
    (drop (length initial_supporting_facts) atoms_to_achieve)
    supporting_tupples variable_assignments atoms_to_achieve
    initial_supporting_facts initial_facts.

End SupportFinder.

(** ** The fixed point

    A node of the graph is its index in [dtg_graph_->getNodes ()]; the two
    maps of the engine, which the constructor fills with one entry per
    node, are lists indexed by node.  A transition is its identity, the
    indices of its two nodes, its preconditions bound under the step id of
    its action, and the addresses of the variable domains of the action's
    variables under that step id. *)

Record Reachability := mkReachability {
  established_facts : list BoundedAtom;
  achieved_transitions : gset nat;
  supported_facts_ : list (list (list BoundedAtom));
  reachable_nodes_ : list (list nat)
}.

Definition with_established_facts (l : list BoundedAtom) (st : Reachability) :=
  mkReachability l (achieved_transitions st) (supported_facts_ st)
    (reachable_nodes_ st).

Definition with_achieved_transitions (a : gset nat) (st : Reachability) :=
  mkReachability (established_facts st) a (supported_facts_ st)
    (reachable_nodes_ st).

Definition with_supported_facts (l : list (list (list BoundedAtom)))
    (st : Reachability) :=
  mkReachability (established_facts st) (achieved_transitions st) l
    (reachable_nodes_ st).

Definition with_reachable_nodes (l : list (list nat)) (st : Reachability) :=
  mkReachability (established_facts st) (achieved_transitions st)
    (supported_facts_ st) l.

(** [std::set::insert] on the open list of [propagateReachableNodes], kept
    in ascending order (the set orders the nodes by address; addresses are
    taken in the order of the indices). *)
Fixpoint set_insert (x : nat) (l : list nat) : list nat :=
  match l with
  | [] => [x]
  | y :: l' =>
      if decide (x < y) then x :: l
      else if decide (x = y) then l
      else y :: set_insert x l'
  end.

(** "Merge the two vectors": the nodes of [to_add] that are not yet part
    of [target] are pushed back, in order. *)
Fixpoint merge_reachable (to_add : list nat) (target : list nat) : list nat :=
  match to_add with
  | [] => target
  | dtg_node_to_add :: to_add' =>
      merge_reachable to_add'
        (if bool_decide (dtg_node_to_add ∈ target) then target
         else target ++ [dtg_node_to_add])
  end.

(** The loop of [propagateReachableNodes] over the nodes reachable from
    the node taken from the open list. *)
Fixpoint propagate_node (dtg_node : nat) (reachable_nodes : list nat)
    (todo : list nat) (rn : list (list nat)) (open_list : list nat)
    : option (list (list nat) * list nat) :=
  match todo with
  | [] => Some (rn, open_list)
  | reachable_dtg_node :: todo' =>
      if bool_decide (dtg_node = reachable_dtg_node)
      then propagate_node dtg_node reachable_nodes todo' rn open_list
      else
        reachable_from_reachable_nodes ← rn !! reachable_dtg_node;
        let merged :=
          merge_reachable reachable_nodes reachable_from_reachable_nodes in
        propagate_node dtg_node reachable_nodes todo'
          (<[reachable_dtg_node := merged]> rn)
          (if bool_decide (length reachable_from_reachable_nodes ≠ length merged)
           then set_insert reachable_dtg_node open_list
           else open_list)
  end.

(** The [while (!open_list.empty ())] of [propagateReachableNodes]; the
    node taken from the set is its least one. *)
Fixpoint propagate_open_list (fuel : nat) (rn : list (list nat))
    (open_list : list nat) : outcome (list (list nat)) :=
  match open_list with
  | [] => Returns rn
  | dtg_node :: open_list' =>
      match fuel with
      | 0 => OutOfFuel
      | S fuel' =>
          reachable_nodes ← deref (rn !! dtg_node);
          '(rn', open_list'') ←
            deref (propagate_node dtg_node reachable_nodes reachable_nodes rn
                     open_list');
          propagate_open_list fuel' rn' open_list''
      end
  end.

(** [DTGReachability::propagateReachableNodes]. *)
Definition propagateReachableNodes (fuel : nat)
    (graph : list DomainTransitionGraphNode) (rn : list (list nat))
    : outcome (list (list nat)) :=
  propagate_open_list fuel rn (seq 0 (length graph)).

Section Engine.

Variable canUnify : BoundedAtom → BoundedAtom → bool.
Variable createBoundedAtom : BoundedAtom → BoundedAtom.
(** [Bindings::areEquivalent] and [Bindings::canUnifyBoundedAtoms]. *)
Variable areEquivalent : BoundedAtom → BoundedAtom → bool.
Variable canUnifyBoundedAtoms : BoundedAtom → BoundedAtom → bool.
(** [Term::isEquivalentTo (id, other, other_id, bindings)]. *)
Variable isEquivalentTo : nat → Term → nat → Term → bool.
(** [DomainTransitionGraphNode::getExternalDependendTransitions], in the
    order of the map it fills: each transition with the addresses of its
    externally dependent term domains. *)
Variable getExternalDependendTransitions : nat → list (Transition * list nat).
(** [DomainTransitionGraph::getNodes (matching, atoms)]. *)
Variable getNodes : list BoundedAtom → list nat.
(** The manager of equivalent object groups of this file is the earlier
    class declared in dtg_reachability.h.  The analysis hands it the
    reachable nodes and never reads it back, so its state is kept opaque;
    its constructor and its update are loops over vectors, which end or
    abort ([None]). *)
Variable EquivalentObjectGroupManager : Type.
Variable EquivalentObjectGroupManager_new :
  list DomainTransitionGraphNode → list BoundedAtom →
  option EquivalentObjectGroupManager.
Variable updateEquivalences :
  list (list nat) → EquivalentObjectGroupManager →
  option EquivalentObjectGroupManager.

Variable graph : list DomainTransitionGraphNode.

(** [DTGReachability::makeReachable]: the new tuple is added to the
    supported facts of the node unless an equivalent tuple is there. *)
Fixpoint all_facts_are_equal (reachable_facts new_reachable_facts : list BoundedAtom)
    (i : nat) : option bool :=
  match reachable_facts with
  | [] => Some true
  | fact :: reachable_facts' =>
      new_fact ← new_reachable_facts !! i;
      if areEquivalent fact new_fact
      then all_facts_are_equal reachable_facts' new_reachable_facts (S i)
      else Some false
  end.

Fixpoint already_reachable (already_reachable_facts : list (list BoundedAtom))
    (new_reachable_facts : list BoundedAtom) : option bool :=
  match already_reachable_facts with
  | [] => Some false
  | reachable_facts :: rest =>
      if bool_decide (length reachable_facts ≠ length new_reachable_facts)
      then already_reachable rest new_reachable_facts
      else
        equal ← all_facts_are_equal reachable_facts new_reachable_facts 0;
        if equal : bool then Some true
        else already_reachable rest new_reachable_facts
  end.

Definition makeReachable (dtg_node : nat) (new_reachable_facts : list BoundedAtom)
    (st : Reachability) : option (Reachability * bool) :=
  already_reachable_facts ← supported_facts_ st !! dtg_node;
  present ← already_reachable already_reachable_facts new_reachable_facts;
  if present : bool then Some (st, false)
  else Some (with_supported_facts
                  (<[dtg_node := already_reachable_facts ++ [new_reachable_facts]]>
                     (supported_facts_ st)) st,
                true).

(** The first loop of [iterateThroughFixedPoint]: one supporting tuple for
    every node that has one, and the transitions of all nodes. *)
Fixpoint seed_nodes (nodes : list DomainTransitionGraphNode) (index : nat)
    (st : Reachability) (open_list : list Transition)
    : option (Reachability * list Transition) :=
  match nodes with
  | [] => Some (st, open_list)
  | node :: nodes' =>
      supporting_tupples ←
        getSupportingFacts canUnify createBoundedAtom [] ∅ (getAtoms node) []
          (established_facts st);
      st' ← match supporting_tupples with
            | [] => Some st
            | first :: _ =>
                supported_facts ← supported_facts_ st !! index;
                Some (with_supported_facts
                           (<[index := supported_facts ++ [first]]>
                              (supported_facts_ st)) st)
            end;
      seed_nodes nodes' (S index) st' (open_list ++ getTransitions node)
  end.

(** "Assign the predetermined assignments": the domains of the terms of
    the from node are mapped to those of the supporting tuple. *)
Fixpoint assign_terms (dtg_node_atom_terms : list Term)
    (possible_atom_assignment_terms : list Term) (index : nat)
    (term_assignments : assignments) : option assignments :=
  match dtg_node_atom_terms with
  | [] => Some term_assignments
  | dtg_node_atom_term :: terms' =>
      possible_atom_assignment_term ←
        possible_atom_assignment_terms !! index;
      assign_terms terms' possible_atom_assignment_terms (S index)
        (<[domain_ref dtg_node_atom_term :=
             getDomain possible_atom_assignment_term]> term_assignments)
  end.

Fixpoint assign_atoms (from_atoms : list BoundedAtom)
    (possible_assignment : list BoundedAtom) (index : nat)
    (term_assignments : assignments) : option assignments :=
  match possible_assignment with
  | [] => Some term_assignments
  | possible_atom_assignment :: rest =>
      dtg_node_atom ← from_atoms !! index;
      term_assignments' ←
        assign_terms (getTerms dtg_node_atom) (getTerms possible_atom_assignment)
          0 term_assignments;
      assign_atoms from_atoms rest (S index) term_assignments'
  end.

(** "Bind each term of the action to the supporting atom's term domains":
    [action_parameter_domains], one entry per action variable, null at
    first.  A second binding of a variable must agree with the first. *)
Fixpoint bind_variable_to_terms (action_variable_domain : nat)
    (action_variable_index : nat) (precondition_terms : list Term)
    (term_index : nat) (supporting_terms : list Term)
    (action_parameter_domains : list (option (list nat)))
    : option (list (option (list nat))) :=
  match precondition_terms with
  | [] => Some action_parameter_domains
  | precondition_term :: terms' =>
      if bool_decide (action_variable_domain = domain_ref precondition_term) then
        supporting_term ← supporting_terms !! term_index;
        bound ← action_parameter_domains !! action_variable_index;
        match bound with
        | Some domain =>
            if bool_decide (domain = getDomain supporting_term)
            then bind_variable_to_terms action_variable_domain
                   action_variable_index terms' (S term_index) supporting_terms
                   action_parameter_domains
            else None
        | None =>
            bind_variable_to_terms action_variable_domain
              action_variable_index terms' (S term_index) supporting_terms
              (<[action_variable_index := Some (getDomain supporting_term)]>
                 action_parameter_domains)
        end
      else
        bind_variable_to_terms action_variable_domain action_variable_index
          terms' (S term_index) supporting_terms action_parameter_domains
  end.

Fixpoint bind_variables (variables : list nat) (action_variable_index : nat)
    (precondition_terms supporting_terms : list Term)
    (action_parameter_domains : list (option (list nat)))
    : option (list (option (list nat))) :=
  match variables with
  | [] => Some action_parameter_domains
  | action_variable_domain :: variables' =>
      action_parameter_domains' ←
        bind_variable_to_terms action_variable_domain action_variable_index
          precondition_terms 0 supporting_terms action_parameter_domains;
      bind_variables variables' (S action_variable_index) precondition_terms
        supporting_terms action_parameter_domains'
  end.

Fixpoint bind_action_parameters (transition : Transition)
    (supporting_atoms : list BoundedAtom) (precondition_index : nat)
    (action_parameter_domains : list (option (list nat)))
    : option (list (option (list nat))) :=
  match supporting_atoms with
  | [] => Some action_parameter_domains
  | supporting_bounded_atom :: rest =>
      matching_precondition ←
        getAllPreconditions transition !! precondition_index;
      action_parameter_domains' ←
        bind_variables (getVariables transition) 0
          (getTerms matching_precondition) (getTerms supporting_bounded_atom)
          action_parameter_domains;
      bind_action_parameters transition rest (S precondition_index)
        action_parameter_domains'
  end.

(** The domain of one term of a to-node atom: that of the first action
    variable with the same variable domain ([None]: the term is not
    bounded). *)
Fixpoint matching_variable_domain (to_node_term : Term) (variables : list nat)
    (i : nat) (action_parameter_domains : list (option (list nat)))
    : option (option (list nat)) :=
  match variables with
  | [] => Some None
  | action_variable_domain :: variables' =>
      if bool_decide (domain_ref to_node_term = action_variable_domain) then
        bound ← action_parameter_domains !! i;
        let domain := default (getDomain to_node_term) bound in
        if bool_decide (0 < length domain) then Some (Some domain)
        else None
      else matching_variable_domain to_node_term variables' (S i)
             action_parameter_domains
  end.

Fixpoint new_atom_domains (to_node_terms : list Term) (variables : list nat)
    (action_parameter_domains : list (option (list nat)))
    : option (option (list (list nat))) :=
  match to_node_terms with
  | [] => Some (Some [])
  | to_node_term :: terms' =>
      domain ← matching_variable_domain to_node_term variables 0
                  action_parameter_domains;
      match domain with
      | None => Some None
      | Some domain =>
          rest ← new_atom_domains terms' variables action_parameter_domains;
          match rest with
          | None => Some None
          | Some domains => Some (Some (domain :: domains))
          end
      end
  end.

(** "Bound the achieved fact to the supporting domains." *)
Fixpoint bound_achieved_fact (domains : list (list nat)) (i : nat)
    (terms : list Term) : option (list Term) :=
  match domains with
  | [] => Some terms
  | domain :: domains' =>
      term ← terms !! i;
      if bool_decide (0 < length domain)
      then bound_achieved_fact domains' (S i)
             (<[i := makeDomainEqualTo domain term]> terms)
      else None
  end.

(** The test that guards the growth of the established facts: is there an
    established fact that unifies with the achieved one and whose terms
    are all equivalent to the terms of the achieved fact? *)
Fixpoint terms_match (bounded_atom achieved_bounded_atom : BoundedAtom)
    (established_terms : list Term) (index : nat) : option bool :=
  match established_terms with
  | [] => Some true
  | established_fact_term :: terms' =>
      newly_achieved_fact_term ← getTerms achieved_bounded_atom !! index;
      if isEquivalentTo (getId bounded_atom) established_fact_term
           (getId achieved_bounded_atom) newly_achieved_fact_term
      then terms_match bounded_atom achieved_bounded_atom terms' (S index)
      else Some false
  end.

Fixpoint present (established : list BoundedAtom)
    (achieved_bounded_atom : BoundedAtom) : option bool :=
  match established with
  | [] => Some false
  | bounded_atom :: established' =>
      if canUnify bounded_atom achieved_bounded_atom then
        matched ← terms_match bounded_atom achieved_bounded_atom
                     (getTerms bounded_atom) 0;
        if matched : bool then Some true
        else present established' achieved_bounded_atom
      else present established' achieved_bounded_atom
  end.

Definition establish (established : list BoundedAtom)
    (achieved_bounded_atom : BoundedAtom) : option (list BoundedAtom) :=
  is_present ← present established achieved_bounded_atom;
  Some (if is_present : bool then established
           else established ++ [achieved_bounded_atom]).

(** "Add the achieved nodes to the established facts": the loop over the
    atoms of the to node, left at the first atom with a term that no
    action variable bounds. *)
Fixpoint achieve_atoms (transition : Transition)
    (to_node_atoms : list BoundedAtom)
    (action_parameter_domains : list (option (list nat)))
    (established : list BoundedAtom) (to_node_achievers : list BoundedAtom)
    : option (list BoundedAtom * list BoundedAtom) :=
  match to_node_atoms with
  | [] => Some (established, to_node_achievers)
  | to_node_bounded_atom :: atoms' =>
      domains ← new_atom_domains (getTerms to_node_bounded_atom)
                   (getVariables transition) action_parameter_domains;
      match domains with
      | None => Some (established, to_node_achievers)
      | Some domains =>
          let fresh := createBoundedAtom to_node_bounded_atom in
          terms ← bound_achieved_fact domains 0 (getTerms fresh);
          let achieved_bounded_atom := set_terms terms fresh in
          established' ← establish established achieved_bounded_atom;
          achieve_atoms transition atoms' action_parameter_domains established'
            (to_node_achievers ++ [achieved_bounded_atom])
      end
  end.

(** The loop over the supporting tuples of the from node of a transition
    that is not yet achieved.  The loop runs over the vector of supporting
    tuples of the from node; a tuple pushed on that very vector by
    [makeReachable] (the to node is the from node) invalidates the
    iterator, after which the loop has no defined result. *)
Fixpoint try_assignments (transition : Transition)
    (from_atoms : list BoundedAtom)
    (assignable_atoms : list (list BoundedAtom)) (st : Reachability)
    (new_transition_achieved : bool) : option (Reachability * bool) :=
  match assignable_atoms with
  | [] => Some (st, new_transition_achieved)
  | possible_assignment :: rest =>
      term_assignments ← assign_atoms from_atoms possible_assignment 0 ∅;
      supporting_tupples ←
        getSupportingFacts canUnify createBoundedAtom [] term_assignments
          (getAllPreconditions transition) [] (established_facts st);
      match supporting_tupples with
      | [] => try_assignments transition from_atoms rest st
                new_transition_achieved
      | supporting_atoms :: _ =>
          let st1 := with_achieved_transitions
                       ({[transition_ref transition]} ∪ achieved_transitions st)
                       st in
          reachable_nodes ← reachable_nodes_ st1 !! getFromNode transition;
          let st2 :=
            if bool_decide (getToNode transition ∈ reachable_nodes) then st1
            else with_reachable_nodes
                   (<[getFromNode transition :=
                        reachable_nodes ++ [getToNode transition]]>
                      (reachable_nodes_ st1)) st1 in
          to_node ← graph !! getToNode transition;
          action_parameter_domains ←
            bind_action_parameters transition supporting_atoms 0
              (replicate (length (getVariables transition)) None);
          '(established, to_node_achievers) ←
            achieve_atoms transition (getAtoms to_node) action_parameter_domains
              (established_facts st2) [];
          let st3 := with_established_facts established st2 in
          if bool_decide (length (getAtoms to_node) ≠ length to_node_achievers)
          then try_assignments transition from_atoms rest st3 true
          else
            '(st4, pushed) ← makeReachable (getToNode transition)
                                to_node_achievers st3;
            if pushed && bool_decide (getToNode transition = getFromNode transition)
            then None
            else try_assignments transition from_atoms rest st4 true
      end
  end.

(** "For each transition of a marked node". *)
Fixpoint try_transitions (transitions : list Transition) (st : Reachability)
    (new_transition_achieved : bool) : option (Reachability * bool) :=
  match transitions with
  | [] => Some (st, new_transition_achieved)
  | transition :: transitions' =>
      if bool_decide (transition_ref transition ∈ achieved_transitions st)
      then try_transitions transitions' st new_transition_achieved
      else
        assignable_atoms ← supported_facts_ st !! getFromNode transition;
        from_dtg_node ← graph !! getFromNode transition;
        '(st', achieved) ←
          try_assignments transition (getAtoms from_dtg_node)
            assignable_atoms st new_transition_achieved;
        try_transitions transitions' st' achieved
  end.

(** "While there are transitions achieved"; [rounds] bounds the number of
    rounds, [fuel] the loop of [propagateReachableNodes] in each. *)
Fixpoint achieve_transitions (fuel : nat) (rounds : nat)
    (open_list : list Transition) (st : Reachability) : outcome Reachability :=
  match rounds with
  | 0 => OutOfFuel
  | S rounds' =>
      rn ← propagateReachableNodes fuel graph (reachable_nodes_ st);
      '(st', new_transition_achieved) ←
        deref (try_transitions (reverse open_list) (with_reachable_nodes rn st)
                 false);
      if new_transition_achieved : bool
      then achieve_transitions fuel rounds' open_list st'
      else Returns st'
  end.

(** [DTGReachability::iterateThroughFixedPoint]. *)
Definition iterateThroughFixedPoint (fuel : nat) (st : Reachability)
    : outcome Reachability :=
  '(st', open_list) ← deref (seed_nodes graph 0 st []);
  achieve_transitions fuel fuel open_list st'.

(** ** External dependencies *)

Definition largest_arity (atoms : list BoundedAtom) : nat :=
  foldl (λ largest atom,
           if decide (largest < length (getTerms atom))
           then length (getTerms atom) else largest)
        0 atoms.

(** The atoms searched for in the graph: a copy of each atom of the from
    node whose terms have the domain of the original, except for the terms
    with an external dependency, which are left as created.  The loop runs
    over the terms of the copy and reads the term of the original at the
    same index. *)
Fixpoint equivalent_terms_to_find (dependend_term_domains : list nat)
    (org_terms : list Term) (i : nat) (arity : nat) (new_terms : list Term)
    : option (list Term) :=
  match arity with
  | 0 => Some new_terms
  | S arity' =>
      org_term ← org_terms !! i;
      new_term ← new_terms !! i;
      equivalent_terms_to_find dependend_term_domains org_terms (S i) arity'
        (if bool_decide (domain_ref org_term ∈ dependend_term_domains)
         then new_terms
         else <[i := makeDomainEqualTo (getDomain org_term) new_term]> new_terms)
  end.

Fixpoint equivalent_nodes_to_find (dependend_term_domains : list nat)
    (from_atoms : list BoundedAtom) : option (list BoundedAtom) :=
  match from_atoms with
  | [] => Some []
  | from_node_bounded_atom :: from_atoms' =>
      let new_bounded_atom := createBoundedAtom from_node_bounded_atom in
      new_terms ← equivalent_terms_to_find dependend_term_domains
                     (getTerms from_node_bounded_atom) 0
                     (length (getTerms new_bounded_atom))
                     (getTerms new_bounded_atom);
      rest ← equivalent_nodes_to_find dependend_term_domains from_atoms';
      Some (set_terms new_terms new_bounded_atom :: rest)
  end.

(** The terms of an atom of the from node that the loop above has read:
    as many as its copy has. *)
Definition terms_read (atom : BoundedAtom) : list Term :=
  take (length (getTerms (createBoundedAtom atom))) (getTerms atom).

(** [dependend_term_mapping], an array of [largest_arity] flags per atom
    of the from node.  The flags of the terms read are assigned in the
    loop above; of the others, those of the first
    [dependend_term_domains->size ()] rows are cleared by the [memset],
    the rest is never written ([None]). *)
Definition dependend_term_mapping_row (dependend_term_domains : list nat)
    (width row : nat) (atom : BoundedAtom) : list (option bool) :=
  take width
    (((λ t, Some (bool_decide (domain_ref t ∈ dependend_term_domains)))
        <$> terms_read atom)
     ++ replicate (width - length (terms_read atom))
          (if decide (row < length dependend_term_domains)
           then Some false else None)).

Definition dependend_term_mapping (dependend_term_domains : list nat)
    (from_atoms : list BoundedAtom) : list (list (option bool)) :=
  imap (dependend_term_mapping_row dependend_term_domains
          (largest_arity from_atoms)) from_atoms.

Definition facts_with_external_dependencies (dependend_term_domains : list nat)
    (from_atoms : list BoundedAtom) : list bool :=
  (λ atom, bool_decide
             (Exists (λ t, domain_ref t ∈ dependend_term_domains)
                     (terms_read atom)))
    <$> from_atoms.

(** The terms of the atom to reach: those with an external dependency take
    the domain of the equivalent node, the others that of the supporting
    fact of the from node. *)
Fixpoint atom_to_reach_terms (mapping_row : list (option bool))
    (to_node_terms from_node_terms : list Term) (arity : nat) (j : nat)
    (terms : list Term) : option (list Term) :=
  match arity with
  | 0 => Some terms
  | S arity' =>
      atom_to_reach_term ← terms !! j;
      to_node_term ← to_node_terms !! j;
      from_node_term ← from_node_terms !! j;
      flag ← mapping_row !! j;
      dependend ← flag;
      atom_to_reach_terms mapping_row to_node_terms from_node_terms arity' (S j)
        (<[j := makeDomainEqualTo
                  (getDomain (if dependend : bool then to_node_term
                              else from_node_term))
                  atom_to_reach_term]> terms)
  end.

(** The loop over the atoms of the from node for one supporting tuple:
    the facts to add to the equivalent node, or [None] when an externally
    dependent fact has not been established. *)
Fixpoint externally_reachable_facts (from_supported : list (list BoundedAtom))
    (number_of_atoms : nat)
    (with_dependencies : list bool) (mapping : list (list (option bool)))
    (equivalent_atoms supporting_facts : list BoundedAtom)
    (established : list BoundedAtom) (i : nat) (todo : nat)
    (reachable_facts : list BoundedAtom) : option (option (list BoundedAtom)) :=
  match todo with
  | 0 => Some (Some reachable_facts)
  | S todo' =>
      has_dependency ← with_dependencies !! i;
      from_supporting_fact ← supporting_facts !! i;
      if negb has_dependency then
        externally_reachable_facts from_supported number_of_atoms
          with_dependencies mapping equivalent_atoms supporting_facts
          established (S i) todo' (reachable_facts ++ [from_supporting_fact])
      else
        equivalent_fact_to_reach ← equivalent_atoms !! i;
        if bool_decide (Forall (λ tupple, length tupple = number_of_atoms)
                               from_supported)
        then
          let atom_to_reach := createBoundedAtom equivalent_fact_to_reach in
          mapping_row ← mapping !! i;
          terms ← atom_to_reach_terms mapping_row
                     (getTerms equivalent_fact_to_reach)
                     (getTerms from_supporting_fact)
                     (length (getTerms atom_to_reach)) 0 (getTerms atom_to_reach);
          let atom_to_reach := set_terms terms atom_to_reach in
          if existsb (λ reached_atom,
                        canUnifyBoundedAtoms reached_atom atom_to_reach)
                     established
          then externally_reachable_facts from_supported number_of_atoms
                 with_dependencies mapping equivalent_atoms supporting_facts
                 established (S i) todo' (reachable_facts ++ [atom_to_reach])
          else Some None
        else None
  end.

Fixpoint reach_with_each_tupple (from_supported : list (list BoundedAtom))
    (number_of_atoms : nat)
    (with_dependencies : list bool) (mapping : list (list (option bool)))
    (equivalent_dtg_node : nat) (equivalent_atoms : list BoundedAtom)
    (todo : list (list BoundedAtom)) (st : Reachability) : option Reachability :=
  match todo with
  | [] => Some st
  | supporting_facts :: todo' =>
      reachable_facts ←
        externally_reachable_facts from_supported number_of_atoms
          with_dependencies mapping equivalent_atoms supporting_facts
          (established_facts st) 0 number_of_atoms [];
      st' ← match reachable_facts with
            | None => Some st
            | Some reachable_facts =>
                '(st', _) ← makeReachable equivalent_dtg_node reachable_facts st;
                Some st'
            end;
      reach_with_each_tupple from_supported number_of_atoms with_dependencies
        mapping equivalent_dtg_node equivalent_atoms todo' st'
  end.

(** The body of the loop over the matching nodes: one node that matches
    the from node up to the externally dependent terms. *)
Definition reach_equivalent_node (from_node : nat) (from_atoms : list BoundedAtom)
    (with_dependencies : list bool) (mapping : list (list (option bool)))
    (equivalent_dtg_node : nat) (st : Reachability) : option Reachability :=
  if bool_decide (equivalent_dtg_node = from_node) then Some st
  else
    equivalent_node ← graph !! equivalent_dtg_node;
    if bool_decide (length (getAtoms equivalent_node) = length from_atoms) then
      from_supported ← supported_facts_ st !! from_node;
      reach_with_each_tupple from_supported (length from_atoms) with_dependencies
        mapping equivalent_dtg_node (getAtoms equivalent_node) from_supported st
    else None.

(** [for (ci = matching_dtgs.begin (); ci != matching_dtgs.end () - 1; ci++)].
    The iterator is the range from [ci] to the end: it equals
    [end () - 1] when one node is left.  On an empty vector the test does
    not hold at [begin ()] and the body reads past the end. *)
Fixpoint for_each_matching_dtg (from_ci : list nat)
    (body : nat → Reachability → option Reachability) (st : Reachability)
    : option Reachability :=
  match from_ci with
  | [] => None
  | [_] => Some st
  | equivalent_dtg_node :: rest =>
      st' ← body equivalent_dtg_node st;
      for_each_matching_dtg rest body st'
  end.

(** One transition with externally dependent terms, given the nodes the
    graph has returned for the atoms to find. *)
Definition reach_matching_dtgs (transition : Transition)
    (dependend_term_domains : list nat) (matching_dtgs : list nat)
    (st : Reachability) : option Reachability :=
  from_node ← graph !! getFromNode transition;
  for_each_matching_dtg matching_dtgs
    (reach_equivalent_node (getFromNode transition) (getAtoms from_node)
       (facts_with_external_dependencies dependend_term_domains (getAtoms from_node))
       (dependend_term_mapping dependend_term_domains (getAtoms from_node)))
    st.

Definition external_transition (transition : Transition)
    (dependend_term_domains : list nat) (st : Reachability)
    : option Reachability :=
  from_node ← graph !! getFromNode transition;
  if bool_decide (0 < largest_arity (getAtoms from_node) ∧
                  length (getAtoms from_node) < length dependend_term_domains)
  then None
  else
    to_find ← equivalent_nodes_to_find dependend_term_domains (getAtoms from_node);
    reach_matching_dtgs transition dependend_term_domains (getNodes to_find) st.

Fixpoint external_transitions (transitions : list (Transition * list nat))
    (st : Reachability) : option Reachability :=
  match transitions with
  | [] => Some st
  | (transition, dependend_term_domains) :: transitions' =>
      st' ← external_transition transition dependend_term_domains st;
      external_transitions transitions' st'
  end.

Fixpoint external_dependencies (nodes : list nat) (st : Reachability)
    : option Reachability :=
  match nodes with
  | [] => Some st
  | dtg_node :: nodes' =>
      st' ← external_transitions (getExternalDependendTransitions dtg_node) st;
      external_dependencies nodes' st'
  end.

(** ** The analysis *)

(** The body of the [do ... while] of [performReachabilityAnalsysis]. *)
Definition analysis_iteration (fuel : nat) (st : Reachability)
    (manager : EquivalentObjectGroupManager)
    : outcome (Reachability * EquivalentObjectGroupManager) :=
  st1 ← iterateThroughFixedPoint fuel st;
  manager' ← deref (updateEquivalences (reachable_nodes_ st1) manager);
  st2 ← deref (external_dependencies (seq 0 (length graph)) st1);
  Returns (st2, manager').

(** [do { pre_size = ...; ... } while (pre_size != established_facts.size ())]. *)
Fixpoint analysis_loop (fuel : nat) (iterations : nat) (st : Reachability)
    (manager : EquivalentObjectGroupManager)
    : outcome (Reachability * EquivalentObjectGroupManager) :=
  match iterations with
  | 0 => OutOfFuel
  | S iterations' =>
      let pre_size := length (established_facts st) in
      '(st', manager') ← analysis_iteration fuel st manager;
      if bool_decide (pre_size ≠ length (established_facts st'))
      then analysis_loop fuel iterations' st' manager'
      else Returns (st', manager')
  end.

(** The engine as its constructor leaves it: no supporting tuple and no
    reachable node for any node of the graph. *)
Definition DTGReachability_new : Reachability :=
  mkReachability [] ∅ (replicate (length graph) []) (replicate (length graph) []).

(** [DTGReachability::performReachabilityAnalsysis], on an engine [st]
    whose two maps are those of the object. *)
Definition performReachabilityAnalsysis (fuel : nat) (st : Reachability)
    (initial_facts : list BoundedAtom)
    : outcome (Reachability * EquivalentObjectGroupManager) :=
  manager ← deref (EquivalentObjectGroupManager_new graph initial_facts);
  analysis_loop fuel fuel
    (with_established_facts initial_facts (with_achieved_transitions ∅ st))
    manager.

End Engine.

(** * The queries of the store (equivalent_object_group.cpp)

    The functions of the store that answer a question about it and leave
    it as it is. *)

Section EquivalentObjectQueries.

Variable isEquivalentTo : Heap → fact_ref → fact_ref → bool.

(** [EquivalentObject::areEquivalent]. *)
Definition EquivalentObject_areEquivalent (h : Heap) (eo other : EquivalentObject)
    : bool :=
  if bool_decide (initial_facts_ eo = [])
     || bool_decide (initial_facts_ other = [])
  then false
  else
    forallb (λ this_reachable_fact,
               existsb (λ other_reachable_fact,
                          isEquivalentTo h this_reachable_fact other_reachable_fact)
                       (initial_facts_ other))
            (initial_facts_ eo).

End EquivalentObjectQueries.

(** [EquivalentObjectGroup::contains (object)]: the scan of [contains]
    over the whole vector of equivalent objects. *)
Definition EquivalentObjectGroup_contains_object (h : Heap) (e : eog_ref)
    (object : Object) : option bool :=
  g ← groups h !! e;
  contains_scan h (equivalent_objects_ g) object 0
    (length (equivalent_objects_ g)).

(** [EquivalentObjectGroup::operator==]: the two [while] loops follow the
    links as [getRootNode] does. *)
Definition EquivalentObjectGroup_eq (h : Heap) (e other : eog_ref) : option bool :=
  other_root ← EquivalentObjectGroup_getRootNode h other;
  this_root ← EquivalentObjectGroup_getRootNode h e;
  Some (bool_decide (this_root = other_root)).

(** [EquivalentObjectGroup::isIdenticalTo]: the two roots are references
    to groups, which [==] compares with the operator above. *)
Definition EquivalentObjectGroup_isIdenticalTo (h : Heap) (e other : eog_ref)
    : option bool :=
  this_root ← EquivalentObjectGroup_getRootNode h e;
  other_root ← EquivalentObjectGroup_getRootNode h other;
  EquivalentObjectGroup_eq h this_root other_root.

(** [EquivalentObjectGroupManager::getNumberOfEquivalentGroups]. *)
Fixpoint count_root_nodes (eogs : list EquivalentObjectGroup) (index : N) : N :=
  match eogs with
  | [] => index
  | g :: eogs' =>
      count_root_nodes eogs'
        (if isRootNode g then ((index + 1) mod (UINT_MAX + 1))%N else index)
  end.

Definition EquivalentObjectGroupManager_getNumberOfEquivalentGroups (h : Heap) : N :=
  count_root_nodes (groups h) 0.

(** [EquivalentObjectGroupManager::getAllReachableFacts]: the loop over
    the reachable facts of one root group.  A fact is passed over when the
    group of one of its terms is on the closed list. *)
Fixpoint collect_reachable_facts (h : Heap) (closed_list : gset eog_ref)
    (reachable_fact : list fact_ref) (result : list fact_ref)
    : option (list fact_ref) :=
  match reachable_fact with
  | [] => Some result
  | r :: rest =>
      f ← facts h !! r;
      let has_been_processed :=
        existsb (λ eog, bool_decide (eog ∈ closed_list)) (term_domain_mapping_ f) in
      collect_reachable_facts h closed_list rest
        (if has_been_processed then result else result ++ [r])
  end.

Fixpoint getAllReachableFacts_from (h : Heap) (eogs : list eog_ref)
    (closed_list : gset eog_ref) (result : list fact_ref)
    : option (list fact_ref) :=
  match eogs with
  | [] => Some result
  | eog :: eogs' =>
      g ← groups h !! eog;
      if negb (isRootNode g)
      then getAllReachableFacts_from h eogs' closed_list result
      else
        result' ← collect_reachable_facts h closed_list (reachable_facts_ g) result;
        getAllReachableFacts_from h eogs' ({[eog]} ∪ closed_list) result'
  end.

Definition EquivalentObjectGroupManager_getAllReachableFacts (h : Heap)
    (result : list fact_ref) : option (list fact_ref) :=
  getAllReachableFacts_from h (equivalent_groups_ h) ∅ result.

(** The manager's [object_to_equivalent_object_mapping_] as the
    constructor fills it: [mapping[object] = equivalent_object] for every
    object in turn, the equivalent object of the [i]-th object being the
    [i]-th one made. *)
Fixpoint map_objects (objects : list (Object * bool * list bool)) (i : eo_ref)
    (mapping : gmap Object eo_ref) : gmap Object eo_ref :=
  match objects with
  | [] => mapping
  | (object, _, _) :: objects' =>
      map_objects objects' (S i) (<[object := i]> mapping)
  end.

Definition object_to_equivalent_object_mapping_
    (objects : list (Object * bool * list bool)) : gmap Object eo_ref :=
  map_objects objects 0 ∅.

(** [EquivalentObjectGroupManager::getEquivalentObject]: an object that is
    not in the map fails the assertion. *)
Definition EquivalentObjectGroupManager_getEquivalentObject
    (mapping : gmap Object eo_ref) (object : Object) : option eo_ref :=
  mapping !! object.

(** [EquivalentObjectGroup::initialiseFingerPrint].  The types of the
    objects and of the terms, and the two comparisons of types, belong to
    classes outside the sources. *)
Section FingerPrint.

Context {type : Type}.
Variable object_type : Object → type.
Variable term_type : Term → type.
Variable isSubtypeOf isEqual : type → type → bool.

(** Addition on [unsigned int]. *)
Definition uint_add (a b : N) : N := ((a + b) mod (UINT_MAX + 1))%N.

(** The first pair of loops, [number_of_facts += getArity ()]: the number
    of terms of the graph, counted in an [unsigned int].  The arity of an
    atom is the number of its terms. *)
Fixpoint count_atoms (atoms : list BoundedAtom) (number_of_facts : N) : N :=
  match atoms with
  | [] => number_of_facts
  | atom :: atoms' =>
      count_atoms atoms'
        (uint_add number_of_facts (uint_of_size (length (getTerms atom))))
  end.

Fixpoint count_nodes (nodes : list DomainTransitionGraphNode)
    (number_of_facts : N) : N :=
  match nodes with
  | [] => number_of_facts
  | dtg_node :: nodes' =>
      count_nodes nodes' (count_atoms (getAtoms dtg_node) number_of_facts)
  end.

(** The second group of loops: the flag of every term the object fits.
    A write behind the end of the array has no defined result. *)
Fixpoint mark_terms (object : Object) (terms : list Term)
    (number_of_facts : N) (finger_print : list bool)
    : option (N * list bool) :=
  match terms with
  | [] => Some (number_of_facts, finger_print)
  | term :: terms' =>
      finger_print' ←
        (if isSubtypeOf (object_type object) (term_type term)
            || isEqual (object_type object) (term_type term)
         then
           if decide (N.to_nat number_of_facts < length finger_print)
           then Some (<[N.to_nat number_of_facts := true]> finger_print)
           else None
         else Some finger_print);
      mark_terms object terms' (uint_add number_of_facts 1) finger_print'
  end.

Fixpoint mark_atoms (object : Object) (atoms : list BoundedAtom)
    (number_of_facts : N) (finger_print : list bool)
    : option (N * list bool) :=
  match atoms with
  | [] => Some (number_of_facts, finger_print)
  | bounded_atom :: atoms' =>
      '(number_of_facts', finger_print') ←
        mark_terms object (getTerms bounded_atom) number_of_facts finger_print;
      mark_atoms object atoms' number_of_facts' finger_print'
  end.

Fixpoint mark_nodes (object : Object) (nodes : list DomainTransitionGraphNode)
    (number_of_facts : N) (finger_print : list bool)
    : option (N * list bool) :=
  match nodes with
  | [] => Some (number_of_facts, finger_print)
  | dtg_node :: nodes' =>
      '(number_of_facts', finger_print') ←
        mark_atoms object (getAtoms dtg_node) number_of_facts finger_print;
      mark_nodes object nodes' number_of_facts' finger_print'
  end.

(** The array [finger_print_] the function leaves; its length is
    [finger_print_size_]. *)
Definition initialiseFingerPrint (dtg_graph : list DomainTransitionGraphNode)
    (object : Object) : option (list bool) :=
  let number_of_facts := count_nodes dtg_graph 0 in
  snd <$> mark_nodes object dtg_graph 0
            (replicate (N.to_nat number_of_facts) false).

End FingerPrint.

(** * The earlier equivalent object groups (SAS/dtg_reachability.cpp)

    The file of the engine opens with an earlier version of the classes
    [EquivalentObjectGroup] and [EquivalentObjectGroupManager], in the
    namespace [SAS_Plus].  A group is its [initial_mapping_], a map from
    the objects of the group to vectors of graph nodes; the map holds
    pointers to the vectors, so a vector is an index into an arena and two
    entries may share one.  [std::map] iterates in the order of the keys. *)
Module SAS_Plus.

Abbreviation vector_ref := nat (only parsing).

Definition EquivalentObjectGroup := gmap Object vector_ref.

(** [for (...) { ...; if (...) return true; } return false;] with a body
    that may have no defined result. *)
Fixpoint first_hit {A} (body : A → option bool) (l : list A) : option bool :=
  match l with
  | [] => Some false
  | x :: l' =>
      hit ← body x;
      if hit : bool then Some true else first_hit body l'
  end.

Definition key_le (a b : Object * vector_ref) : Prop := a.1 ≤ b.1.

Global Instance key_le_dec : RelDecision key_le.
Proof. intros a b. unfold key_le. apply _. Defined.

(** The entries of a map from [begin ()] to [end ()]. *)
Definition entries (m : EquivalentObjectGroup) : list (Object * vector_ref) :=
  merge_sort key_le (map_to_list m).

(** [EquivalentObjectGroup::EquivalentObjectGroup (object)]. *)
Definition EquivalentObjectGroup_new (vectors : list (list nat)) (object : Object)
    : list (list nat) * EquivalentObjectGroup :=
  (vectors ++ [[]], {[object := length vectors]}).

(** [EquivalentObjectGroup::addInitialDTGNodeMapping].  For an object that
    has no entry the node is pushed on a new vector that the map never
    gets. *)
Definition addInitialDTGNodeMapping (vectors : list (list nat))
    (initial_mapping_ : EquivalentObjectGroup) (object : Object) (dtg_node : nat)
    : option (list (list nat) * bool) :=
  match initial_mapping_ !! object with
  | None => Some (vectors, true)
  | Some mapping_ref =>
      mapping ← vectors !! mapping_ref;
      if bool_decide (dtg_node ∈ mapping) then Some (vectors, false)
      else Some (<[mapping_ref := mapping ++ [dtg_node]]> vectors, true)
  end.

Section TryToMergeWith.

Context {type : Type}.
(** [Object::getType] and [Type::isEqual]. *)
Variable getType : Object → type.
Variable isEqual : type → type → bool.

(** [EquivalentObjectGroup::tryToMergeWith (other_group, reachable_nodes)],
    from the innermost loop outwards; [reachable_nodes] is the map of the
    engine, a list indexed by node.  The result of [find] is read without
    a test. *)
Definition reach_each_other (reachable_nodes : list (list nat))
    (this_initial_dtg : nat) (reachable_nodes_from_this : list nat)
    (other_initial_dtg : nat) : option bool :=
  reachable_nodes_from_other ← reachable_nodes !! other_initial_dtg;
  Some (bool_decide
          (other_initial_dtg ∈ reachable_nodes_from_this ∧
           this_initial_dtg ∈ (reachable_nodes_from_other : list nat))).

Definition any_nodes_reach_each_other (reachable_nodes : list (list nat))
    (this_initial_dtgs other_initial_dtgs : list nat) : option bool :=
  first_hit (λ this_initial_dtg,
               reachable_nodes_from_this ← reachable_nodes !! this_initial_dtg;
               first_hit (reach_each_other reachable_nodes this_initial_dtg
                            reachable_nodes_from_this)
                         other_initial_dtgs)
            this_initial_dtgs.

Definition any_object_of_other (vectors : list (list nat))
    (reachable_nodes : list (list nat)) (this_object : Object)
    (this_initial_dtgs : list nat) (other_group : EquivalentObjectGroup)
    : option bool :=
  first_hit (λ '(other_object, other_ref),
               if negb (isEqual (getType this_object) (getType other_object))
               then Some false
               else
                 other_initial_dtgs ← vectors !! other_ref;
                 if bool_decide (length other_initial_dtgs = 0) then Some false
                 else any_nodes_reach_each_other reachable_nodes
                        this_initial_dtgs other_initial_dtgs)
            (entries other_group).

Definition tryToMergeWith (vectors : list (list nat))
    (initial_mapping_ other_group : EquivalentObjectGroup)
    (reachable_nodes : list (list nat)) : option (EquivalentObjectGroup * bool) :=
  merged ←
    first_hit (λ '(this_object, this_ref),
                 this_initial_dtgs ← vectors !! this_ref;
                 if bool_decide (length this_initial_dtgs = 0) then Some false
                 else any_object_of_other vectors reachable_nodes this_object
                        this_initial_dtgs other_group)
              (entries initial_mapping_);
  Some (if merged : bool then initial_mapping_ ∪ other_group else initial_mapping_,
        merged).

(** The manager: the vectors, the groups that were made, and the vector
    [equivalent_groups_] of pointers to groups. *)
Record Manager := mkManager {
  vectors : list (list nat);
  groups : list EquivalentObjectGroup;
  equivalent_groups_ : list nat
}.

(** The inner loop of [updateEquivalences], over [ci2]. *)
Fixpoint merge_with_later (reachable_nodes : list (list nat))
    (equivalent_group1 : nat) (later : list nat) (m : Manager)
    (to_remove : list bool) : option (Manager * list bool) :=
  match later with
  | [] => Some (m, to_remove)
  | ci2 :: later' =>
      equivalent_group2 ← equivalent_groups_ m !! ci2;
      flag ← to_remove !! ci2;
      if flag : bool
      then merge_with_later reachable_nodes equivalent_group1 later' m to_remove
      else
        this ← groups m !! equivalent_group1;
        other ← groups m !! equivalent_group2;
        '(this', merged) ← tryToMergeWith (vectors m) this other reachable_nodes;
        merge_with_later reachable_nodes equivalent_group1 later'
          (mkManager (vectors m) (<[equivalent_group1 := this']> (groups m))
             (equivalent_groups_ m))
          (if merged : bool then <[ci2 := true]> to_remove else to_remove)
  end.

(** The outer loop, over [ci]. *)
Fixpoint merge_each (reachable_nodes : list (list nat)) (todo : list nat)
    (m : Manager) (to_remove : list bool) : option (Manager * list bool) :=
  match todo with
  | [] => Some (m, to_remove)
  | ci :: todo' =>
      equivalent_group1 ← equivalent_groups_ m !! ci;
      flag ← to_remove !! ci;
      if flag : bool then merge_each reachable_nodes todo' m to_remove
      else
        '(m', to_remove') ←
          merge_with_later reachable_nodes equivalent_group1
            (seq (S ci) (length (equivalent_groups_ m) - S ci)) m to_remove;
        merge_each reachable_nodes todo' m' to_remove'
  end.

End TryToMergeWith.

(** "Remove the nodes which have been merged":
    [for (i = 0; i < equivalent_groups_.size (); i++)
       if (to_remove[i]) equivalent_groups_.erase (begin () + i);].
    The counter moves on after an erasure as well, and the bound is the
    size at the time of the test; [steps] is the size at the start, which
    the counter reaches at the latest. *)
Fixpoint erase_merged {A} (steps : nat) (to_remove : list bool) (i : nat)
    (equivalent_groups : list A) : option (list A) :=
  match steps with
  | 0 => Some equivalent_groups
  | S steps' =>
      if decide (i < length equivalent_groups) then
        flag ← to_remove !! i;
        erase_merged steps' to_remove (S i)
          (if flag : bool then delete i equivalent_groups else equivalent_groups)
      else Some equivalent_groups
  end.

Section UpdateEquivalences.

Context {type : Type}.
Variable getType : Object → type.
Variable isEqual : type → type → bool.

(** [EquivalentObjectGroupManager::updateEquivalences].  On an empty
    vector of groups [end () - 1] lies before [begin ()]. *)
Definition updateEquivalences (reachable_nodes : list (list nat)) (m : Manager)
    : option Manager :=
  let size := length (equivalent_groups_ m) in
  if bool_decide (size = 0) then None
  else
    '(m', to_remove) ←
      merge_each getType isEqual reachable_nodes (seq 0 (size - 1)) m
        (replicate size false);
    kept ← erase_merged size to_remove 0 (equivalent_groups_ m');
    Some (mkManager (vectors m') (groups m') kept).

End UpdateEquivalences.

End SAS_Plus.

(** * Properties *)

(** ** Walks along links

    [contains] and [getRootNode] both follow links from group to group
    until a group answers.  [walk] is that recursion with the answer of a
    single group left open; it serves to bound the depth such a recursion
    can use. *)

Inductive step_result (R : Type) :=
| Halt (r : option R)
| Goto (l : nat).
Arguments Halt {R} r.
Arguments Goto {R} l.

Section Walk.

Context {R : Type}.
Variable step : nat → step_result R.

Fixpoint walk (depth : nat) (e : nat) : option R :=
  match step e with
  | Halt r => r
  | Goto l =>
      match depth with
      | 0 => None
      | S depth' => walk depth' l
      end
  end.

(** [steps_to e k r]: from [e], exactly [k] links lead to the answer [r]. *)
Inductive steps_to : nat → nat → R → Prop :=
| steps_halt e r : step e = Halt (Some r) → steps_to e 0 r
| steps_goto e l k r : step e = Goto l → steps_to l k r → steps_to e (S k) r.

Lemma steps_to_fun e k r : steps_to e k r → ∀ k' r', steps_to e k' r' → k = k' ∧ r = r'.
Proof.
  induction 1 as [e r He|e l k r He _ IH]; intros k' r' H'; inversion H'; subst;
    try congruence.
  - split; congruence.
  - rewrite He in *. simplify_eq. destruct (IH _ _ ltac:(eassumption)). by subst.
Qed.

Lemma walk_steps depth e r :
  walk depth e = Some r ↔ ∃ k, k ≤ depth ∧ steps_to e k r.
Proof.
  revert e. induction depth as [|depth IH]; intros e; simpl.
  - destruct (step e) as [[r0|]|l] eqn:He.
    + split.
      * intros [= ->]. exists 0. split; [lia|by constructor].
      * intros (k & _ & H). inversion H; subst; congruence.
    + split; [done|]. intros (k & _ & H). inversion H; congruence.
    + split; [done|]. intros (k & Hk & H). inversion H; subst; [congruence|lia].
  - destruct (step e) as [[r0|]|l] eqn:He.
    + split.
      * intros [= ->]. exists 0. split; [lia|by constructor].
      * intros (k & _ & H). inversion H; subst; congruence.
    + split; [done|]. intros (k & _ & H). inversion H; congruence.
    + rewrite IH. split.
      * intros (k & Hk & H). exists (S k). split; [lia|]. by econstructor.
      * intros (k & Hk & H). inversion H; subst; [congruence|].
        rewrite He in *. simplify_eq. eexists. split; [|eassumption]. lia.
Qed.

Lemma walk_mono depth depth' e r :
  walk depth e = Some r → depth ≤ depth' → walk depth' e = Some r.
Proof.
  rewrite !walk_steps. intros (k & Hk & H) Hle. exists k. split; [lia|done].
Qed.

(** The groups passed on a walk are pairwise distinct. *)
Lemma steps_to_path e k r :
  steps_to e k r →
  ∃ path : list nat, length path = k ∧ NoDup path ∧
    ∀ x, x ∈ path → (∃ l, step x = Goto l) ∧ ∃ j, j ≤ k ∧ steps_to x j r.
Proof.
  induction 1 as [e r He|e l k r He Hl (path & Hlen & Hnd & Hp)].
  - exists []. split; [done|]. split; [constructor|].
    intros x Hx. by apply elem_of_nil in Hx.
  - exists (e :: path). split; [simpl; by rewrite Hlen|]. split.
    + constructor; [|done]. intros Hin.
      destruct (Hp _ Hin) as (_ & j & Hj & Hs).
      assert (steps_to e (S k) r) as He' by (by econstructor).
      destruct (steps_to_fun _ _ _ Hs _ _ He'). lia.
    + intros x Hx. apply elem_of_cons in Hx as [->|Hx].
      * split; [eauto|]. exists (S k). split; [lia|]. by econstructor.
      * destruct (Hp _ Hx) as (Hg & j & Hj & Hs). split; [done|].
        exists j. split; [lia|done].
Qed.

(** With [n] groups in all, an answer is reached within [n] links. *)
Lemma steps_to_bound n e k r :
  (∀ x l, step x = Goto l → x < n) → steps_to e k r → k ≤ n.
Proof.
  intros Hn Hs. destruct (steps_to_path _ _ _ Hs) as (path & <- & Hnd & Hp).
  rewrite <- (length_seq n 0). apply submseteq_length, NoDup_submseteq; [done|].
  intros x Hx. destruct (Hp _ Hx) as ((l & Hl) & _).
  apply elem_of_seq. specialize (Hn _ _ Hl). lia.
Qed.

Lemma walk_enough n depth e r :
  (∀ x l, step x = Goto l → x < n) → walk depth e = Some r → walk n e = Some r.
Proof.
  intros Hn. rewrite !walk_steps. intros (k & _ & H).
  exists k. split; [|done]. by eapply steps_to_bound.
Qed.

(** A link that is taken does not change the answer of the bounded walk. *)
Lemma walk_goto n e l :
  (∀ x l, step x = Goto l → x < n) → step e = Goto l → walk n e = walk n l.
Proof.
  intros Hn He. destruct (walk n l) as [r|] eqn:Hl.
  - apply walk_steps in Hl as (k & _ & Hk).
    apply walk_steps. exists (S k). split; [|by econstructor].
    eapply steps_to_bound; [done|]. by econstructor.
  - destruct (walk n e) as [r|] eqn:Hw; [|done].
    apply walk_steps in Hw as (k & _ & Hk).
    inversion Hk as [? ? He'|? l' k' ? He' Hk']; subst; [congruence|].
    rewrite He in He'. simplify_eq.
    assert (walk n l' = Some r); [|congruence].
    apply walk_steps. exists k'. split; [|done]. by eapply steps_to_bound.
Qed.

End Walk.

(** ** Properties of the equivalent-object-group store *)

Section EquivalentObjectGroupsFacts.

Variable isEquivalentTo : Heap → fact_ref → fact_ref → bool.
Variable isIdenticalTo : Heap → fact_ref → fact_ref → bool.

Lemma groups_set_fact h r f : groups (set_fact h r f) = groups h.
Proof. reflexivity. Qed.

Lemma facts_set_group h e g : facts (set_group h e g) = facts h.
Proof. reflexivity. Qed.

Lemma lookup_set_group_ne h e e' g :
  e ≠ e' → groups (set_group h e g) !! e' = groups h !! e'.
Proof. intros. by apply list_lookup_insert_ne. Qed.

Lemma lookup_set_group_eq h e g :
  is_Some (groups h !! e) → groups (set_group h e g) !! e = Some g.
Proof.
  intros Hs. apply list_lookup_insert_eq. by apply lookup_lt_is_Some.
Qed.

Lemma length_groups_set_group h e g :
  length (groups (set_group h e g)) = length (groups h).
Proof. apply length_insert. Qed.

Lemma equivalent_objects_set_group h e g :
  equivalent_objects (set_group h e g) = equivalent_objects h.
Proof. reflexivity. Qed.

Lemma equivalent_objects_set_fact h r f :
  equivalent_objects (set_fact h r f) = equivalent_objects h.
Proof. reflexivity. Qed.

Lemma lookup_set_fact_ne h r r' f :
  r ≠ r' → facts (set_fact h r f) !! r' = facts h !! r'.
Proof. intros. by apply list_lookup_insert_ne. Qed.

Lemma lookup_set_fact_eq h r f :
  is_Some (facts h !! r) → facts (set_fact h r f) !! r = Some f.
Proof.
  intros Hs. apply list_lookup_insert_eq. by apply lookup_lt_is_Some.
Qed.

Lemma length_facts_set_fact h r f :
  length (facts (set_fact h r f)) = length (facts h).
Proof. apply length_insert. Qed.

Local Opaque set_group set_fact.

Lemma getRootNode_at_root depth h e g :
  groups h !! e = Some g → link_ g = None → getRootNode_at depth h e = Some e.
Proof. intros Hg Hl. destruct depth; simpl; rewrite Hg; simpl; by rewrite Hl. Qed.

Lemma isRootNode_true g : isRootNode g = true ↔ link_ g = None.
Proof. unfold isRootNode. by rewrite bool_decide_eq_true. Qed.

Lemma updateTermsToRoot_groups h r h' b :
  ReachableFact_updateTermsToRoot h r = Some (h', b) → groups h' = groups h.
Proof.
  unfold ReachableFact_updateTermsToRoot. intros H.
  destruct (facts h !! r); simplify_eq/=.
  destruct (mapM _ _); by simplify_eq/=.
Qed.

Lemma replaceBy_groups h r u h' :
  ReachableFact_replaceBy h r u = Some h' → groups h' = groups h.
Proof.
  unfold ReachableFact_replaceBy. intros H.
  destruct (facts h !! r); by simplify_eq/=.
Qed.

Lemma addReachableFact_groups_ne h this r h' e :
  EquivalentObjectGroup_addReachableFact h this r = Some h' →
  e ≠ this → groups h' !! e = groups h !! e.
Proof.
  unfold EquivalentObjectGroup_addReachableFact. intros H Hne.
  destruct (groups h !! this); simplify_eq/=.
  by apply list_lookup_insert_ne.
Qed.

(** The second pass of [merge] writes to the facts and to the list of
    reachable facts of [this]; every other group is left as it was. *)
Lemma merge_update_groups_ne this e todo :
  e ≠ this →
  ∀ h updated affected h' affected',
    merge_update isIdenticalTo h this todo updated affected = Some (h', affected') →
    groups h' !! e = groups h !! e.
Proof.
  intros Hne. induction todo as [|r todo IH]; intros h updated affected h' affected' H.
  - by simplify_eq/=.
  - simpl in H.
    destruct (facts h !! r) as [f|]; simplify_eq/=.
    destruct (isMarkedForRemoval f); [by eapply IH|].
    destruct (ReachableFact_updateTermsToRoot h r) as [[h1 changed]|] eqn:Hu;
      simplify_eq/=.
    apply updateTermsToRoot_groups in Hu.
    destruct changed.
    + destruct (find _ updated) as [u|].
      * case_bool_decide; [done|].
        destruct (ReachableFact_replaceBy h1 r u) as [h2|] eqn:Hr; simplify_eq/=.
        apply replaceBy_groups in Hr.
        destruct (facts h2 !! r); simplify_eq/=.
        erewrite IH by eassumption. by rewrite Hr, Hu.
      * destruct (EquivalentObjectGroup_addReachableFact h1 this r) as [h2|] eqn:Ha;
          simplify_eq/=.
        erewrite IH by eassumption.
        erewrite addReachableFact_groups_ne by eassumption. by rewrite Hu.
    + destruct (EquivalentObjectGroup_addReachableFact h1 this r) as [h2|] eqn:Ha;
        simplify_eq/=.
      erewrite IH by eassumption.
      erewrite addReachableFact_groups_ne by eassumption. by rewrite Hu.
Qed.

(** After [merge] the other group is forwarded to [this]; nothing else of
    it has changed. *)
Lemma merge_forwards h this other affected h' affected' o :
  groups h !! other = Some o →
  EquivalentObjectGroup_merge isIdenticalTo h this other affected = Some (h', affected') →
  groups h' !! other = Some (with_link (Some this) o).
Proof.
  unfold EquivalentObjectGroup_merge. intros Ho H. rewrite Ho in H. simpl in H.
  destruct (groups h !! this) as [g|] eqn:Hg; simplify_eq/=.
  destruct (isRootNode o); simplify_eq/=.
  case_bool_decide as Hne; simplify_eq/=.
  destruct (merge_erase _ _ _ _ _) as [[kept affected1]|]; simplify_eq/=.
  destruct (_ !! this) as [g2|] eqn:Hg2 in H; simplify_eq/=.
  eapply merge_update_groups_ne in H; [|by apply not_eq_sym].
  rewrite H. rewrite lookup_set_group_ne by done.
  apply lookup_set_group_eq.
  rewrite lookup_set_group_ne by done. eauto.
Qed.

Lemma merge_and_stamp_result h this other affected iteration h' affected' b o :
  groups h !! other = Some o →
  merge_and_stamp isIdenticalTo h this other affected iteration = Some (h', affected', b) →
  b = true ∧
  groups h' !! other =
    Some (with_merged_at_iteration iteration (with_link (Some this) o)).
Proof.
  unfold merge_and_stamp. intros Ho H.
  destruct (EquivalentObjectGroup_merge _ _ _ _ _) as [[h1 affected1]|] eqn:Hm;
    simplify_eq/=.
  erewrite merge_forwards in H by eassumption. simplify_eq/=.
  split; [done|].
  apply lookup_set_group_eq. erewrite merge_forwards by eassumption. eauto.
Qed.

(** Some equivalent object among [eos] has every one of its initial facts
    matched by an equivalent fact among [reachable_facts]. *)
Definition initial_state_matched (h : Heap) (eos : list eo_ref)
    (reachable_facts : list fact_ref) : Prop :=
  ∃ r eo, r ∈ eos ∧ equivalent_objects h !! r = Some eo ∧
    ∀ initial_fact, initial_fact ∈ initial_facts_ eo →
      ∃ reachable_fact, reachable_fact ∈ reachable_facts ∧
        isEquivalentTo h initial_fact reachable_fact = true.

(** What the specification asks of two root groups before they merge. *)
Definition may_merge (h : Heap) (g o : EquivalentObjectGroup) : Prop :=
  is_grounded_ g = false ∧ is_grounded_ o = false ∧
  finger_print_ g = finger_print_ o ∧
  initial_state_matched h (equivalent_objects_ o) (reachable_facts_ g) ∧
  initial_state_matched h (equivalent_objects_ g) (reachable_facts_ o).

(** The group [other] has been merged into [this] at [iteration]. *)
Definition merged_into (h : Heap) (other this : eog_ref) (iteration : N) : Prop :=
  ∃ o, groups h !! other = Some o ∧ link_ o = Some this ∧
       merged_at_iteration_ o = iteration.

Lemma isInitialStateReachable_spec h eo reachable_facts :
  EquivalentObject_isInitialStateReachable isEquivalentTo h eo reachable_facts = true ↔
  ∀ initial_fact, initial_fact ∈ initial_facts_ eo →
    ∃ reachable_fact, reachable_fact ∈ reachable_facts ∧
      isEquivalentTo h initial_fact reachable_fact = true.
Proof.
  unfold EquivalentObject_isInitialStateReachable. rewrite forallb_forall.
  split.
  - intros H i Hi. apply list_elem_of_In, H, existsb_exists in Hi.
    destruct Hi as (f & Hf & Heq). exists f. by rewrite list_elem_of_In.
  - intros H i Hi. apply existsb_exists.
    destruct (H i) as (f & Hf & Heq); [by apply list_elem_of_In|].
    exists f. by rewrite <- list_elem_of_In.
Qed.

Lemma any_initial_state_reachable_spec h eos reachable_facts :
  Forall (λ r, is_Some (equivalent_objects h !! r)) eos →
  ∃ b, any_initial_state_reachable isEquivalentTo h eos reachable_facts = Some b ∧
       (b = true ↔ initial_state_matched h eos reachable_facts).
Proof.
  induction 1 as [|r eos [eo Heo] _ (b & IH & Hb)]; simpl.
  - exists false. split; [done|]. split; [done|].
    intros (r & eo & Hr & _). by apply elem_of_nil in Hr.
  - rewrite Heo. simpl.
    destruct (EquivalentObject_isInitialStateReachable _ h eo reachable_facts) eqn:He.
    + exists true. split; [done|]. split; [|done]. intros _.
      exists r, eo. split; [by left|]. split; [done|].
      by apply isInitialStateReachable_spec.
    + exists b. split; [done|]. rewrite Hb. split.
      * intros (r' & eo' & Hr' & Heo' & Hall).
        exists r', eo'. split; [by right|]. done.
      * intros (r' & eo' & Hr' & Heo' & Hall).
        apply elem_of_cons in Hr' as [->|Hr'].
        -- rewrite Heo in Heo'. simplify_eq.
           apply isInitialStateReachable_spec in Hall. congruence.
        -- exists r', eo'. done.
Qed.

Lemma memcmp_eq_same_size (a b : list bool) :
  length a = length b → memcmp_eq a b (length a) = true ↔ a = b.
Proof.
  intros Hl. unfold memcmp_eq. rewrite bool_decide_eq_true.
  rewrite firstn_all. rewrite Hl, firstn_all. done.
Qed.

(** The run of [tryToMergeWith] on two distinct root groups, up to the
    decision. *)
Lemma tryToMergeWith_roots h this other g o affected iteration :
  this ≠ other →
  groups h !! this = Some g → groups h !! other = Some o →
  link_ g = None → link_ o = None →
  finger_print_size_ g = finger_print_size_ o →
  Forall (λ r, is_Some (equivalent_objects h !! r))
         (equivalent_objects_ g ++ equivalent_objects_ o) →
  (may_merge h g o ∧
   EquivalentObjectGroup_tryToMergeWith isEquivalentTo isIdenticalTo
     h this other affected iteration
   = merge_and_stamp isIdenticalTo h this other affected iteration) ∨
  (¬ may_merge h g o ∧
   EquivalentObjectGroup_tryToMergeWith isEquivalentTo isIdenticalTo
     h this other affected iteration
   = Some (h, affected, false)).
Proof.
  intros Hne Hg Ho Hlg Hlo Hfp Hvalid.
  apply Forall_app in Hvalid as [Hvg Hvo].
  unfold EquivalentObjectGroup_tryToMergeWith, may_merge. simpl.
  rewrite Hg, Ho. simpl.
  destruct (is_grounded_ g) eqn:Hgg; simpl;
    [right; split; [by intros (? & _)|done]|].
  destruct (is_grounded_ o) eqn:Hgo; simpl;
    [right; split; [by intros (_ & ? & _)|done]|].
  unfold EquivalentObjectGroup_getRootNode.
  rewrite (getRootNode_at_root _ h this g), (getRootNode_at_root _ h other o) by done.
  simpl. rewrite bool_decide_eq_false_2 by done.
  rewrite (proj2 (isRootNode_true g)), (proj2 (isRootNode_true o)) by done. simpl.
  rewrite bool_decide_eq_true_2 by done. simpl.
  destruct (memcmp_eq _ _ _) eqn:Hcmp; simpl.
  2:{ right. split; [|done]. intros (_ & _ & Heq & _).
      apply (memcmp_eq_same_size _ _ Hfp) in Heq.
      unfold finger_print_size_ in Hcmp. congruence. }
  apply (memcmp_eq_same_size _ _ Hfp) in Hcmp.
  destruct (any_initial_state_reachable_spec h (equivalent_objects_ o)
              (reachable_facts_ g) Hvo) as (b1 & -> & Hb1). simpl.
  destruct b1; simpl.
  2:{ right. split; [|done]. intros (_ & _ & _ & Hm & _).
      apply Hb1 in Hm. done. }
  destruct (any_initial_state_reachable_spec h (equivalent_objects_ g)
              (reachable_facts_ o) Hvg) as (b2 & -> & Hb2). simpl.
  destruct b2; simpl.
  2:{ right. split; [|done]. intros (_ & _ & _ & _ & Hm).
      apply Hb2 in Hm. done. }
  left. split; [|done]. repeat split; try done; [by apply Hb1|by apply Hb2].
Qed.

(** C3.  For two distinct root groups, [tryToMergeWith (this, other)] merges
    -- it runs [merge] and stamps the other group with the iteration, so
    that on return the other group links to [this] and carries
    [merged_at_iteration_ = iteration] -- if and only if neither group is
    grounded, the fingerprints are equal byte for byte, some equivalent
    object of the other group has all its initial facts matched by
    reachable facts of [this], and some equivalent object of [this] has all
    its initial facts matched by reachable facts of the other group.  When
    the condition fails the call returns false and changes nothing. *)
Theorem tryToMergeWith_merges_iff h this other g o affected iteration :
  this ≠ other →
  groups h !! this = Some g → groups h !! other = Some o →
  link_ g = None → link_ o = None →
  finger_print_size_ g = finger_print_size_ o →
  Forall (λ r, is_Some (equivalent_objects h !! r))
         (equivalent_objects_ g ++ equivalent_objects_ o) →
  (may_merge h g o →
   EquivalentObjectGroup_tryToMergeWith isEquivalentTo isIdenticalTo
     h this other affected iteration
   = merge_and_stamp isIdenticalTo h this other affected iteration) ∧
  (¬ may_merge h g o →
   EquivalentObjectGroup_tryToMergeWith isEquivalentTo isIdenticalTo
     h this other affected iteration
   = Some (h, affected, false)) ∧
  (∀ h' affected' b,
     EquivalentObjectGroup_tryToMergeWith isEquivalentTo isIdenticalTo
       h this other affected iteration = Some (h', affected', b) →
     (merged_into h' other this iteration ↔ may_merge h g o) ∧
     (b = true ↔ may_merge h g o)).
Proof.
  intros Hne Hg Ho Hlg Hlo Hfp Hvalid.
  destruct (tryToMergeWith_roots h this other g o affected iteration)
    as [[Hm Heq]|[Hm Heq]]; try done.
  - split; [done|]. split; [done|].
    intros h' affected' b Hr. rewrite Heq in Hr.
    destruct (merge_and_stamp_result _ _ _ _ _ _ _ _ _ Ho Hr) as [-> Ho'].
    split; [|done]. split; [done|]. intros _.
    eexists. split; [exact Ho'|]. done.
  - split; [done|]. split; [done|].
    intros h' affected' b Hr. rewrite Heq in Hr. simplify_eq.
    split; [|done]. split; [|done].
    intros (o' & Ho' & Hl & _). rewrite Ho in Ho'. simplify_eq.
Qed.

(** C9.  An equivalent object with no initial fact passes
    [isInitialStateReachable] whatever the reachable facts are.  So in
    [tryToMergeWith] on two distinct root groups that are not grounded and
    have the same fingerprint, both reachability loops succeed as soon as
    each group holds such an object, and the merge is made. *)
Theorem no_initial_facts_never_blocks h eo :
  initial_facts_ eo = [] →
  (∀ reachable_facts,
     EquivalentObject_isInitialStateReachable isEquivalentTo h eo reachable_facts
     = true) ∧
  (∀ eos r reachable_facts,
     r ∈ eos → equivalent_objects h !! r = Some eo →
     initial_state_matched h eos reachable_facts) ∧
  (∀ this other g o r r' eo' affected iteration,
     this ≠ other →
     groups h !! this = Some g → groups h !! other = Some o →
     link_ g = None → link_ o = None →
     is_grounded_ g = false → is_grounded_ o = false →
     finger_print_ g = finger_print_ o →
     Forall (λ r, is_Some (equivalent_objects h !! r))
            (equivalent_objects_ g ++ equivalent_objects_ o) →
     r ∈ equivalent_objects_ o → equivalent_objects h !! r = Some eo →
     r' ∈ equivalent_objects_ g → equivalent_objects h !! r' = Some eo' →
     initial_facts_ eo' = [] →
     EquivalentObjectGroup_tryToMergeWith isEquivalentTo isIdenticalTo
       h this other affected iteration
     = merge_and_stamp isIdenticalTo h this other affected iteration).
Proof.
  intros Hnil.
  assert (Hvac : ∀ (eo0 : EquivalentObject) eos r0 reachable_facts,
            initial_facts_ eo0 = [] → r0 ∈ eos →
            equivalent_objects h !! r0 = Some eo0 →
            initial_state_matched h eos reachable_facts).
  { intros eo0 eos r0 rf Hn Hr Heo. exists r0, eo0. split; [done|]. split; [done|].
    rewrite Hn. intros i Hi. by apply elem_of_nil in Hi. }
  split; [|split].
  - intros rf. unfold EquivalentObject_isInitialStateReachable. by rewrite Hnil.
  - intros eos r rf. by apply Hvac.
  - intros this other g o r r' eo' affected iteration
      Hne Hg Ho Hlg Hlo Hgg Hgo Hfp Hvalid Hr Heo Hr' Heo' Hnil'.
    destruct (tryToMergeWith_roots h this other g o affected iteration)
      as [[_ Heq]|[Hm _]]; try done.
    + unfold finger_print_size_. by rewrite Hfp.
    + destruct Hm. repeat split; try done.
      * exact (Hvac eo _ r _ Hnil Hr Heo).
      * exact (Hvac eo' _ r' _ Hnil' Hr' Heo').
Qed.

(** What one group does in [contains]: answer from its own list, or pass
    the question on to its link. *)
Definition contains_step (h : Heap) (object : Object) (iteration : N)
    (e : eog_ref) : step_result bool :=
  match groups h !! e with
  | None => Halt None
  | Some g =>
      if (merged_at_iteration_ g <=? iteration)%N then
        match link_ g with
        | None => Halt None
        | Some l => Goto l
        end
      else
        Halt (bound ← size_per_iteration_ g !! N.to_nat iteration;
              contains_scan h (equivalent_objects_ g) object 0 (N.to_nat bound))
  end.

Lemma contains_at_walk h object iteration depth e :
  contains_at depth h e object iteration
  = walk (contains_step h object iteration) depth e.
Proof.
  revert e. induction depth as [|depth IH]; intros e; simpl; unfold contains_step;
    destruct (groups h !! e) as [g|]; simpl; try done;
    destruct (_ <=? _)%N; try done; destruct (link_ g); simpl; try done.
Qed.

Lemma contains_step_goto h object iteration x l :
  contains_step h object iteration x = Goto l → x < length (groups h).
Proof.
  unfold contains_step. destruct (groups h !! x) eqn:Hx; [|done].
  intros _. by eapply lookup_lt_Some.
Qed.

(** The object is that of one of the first [bound] entries of [eos]. *)
Definition occurs_among_first (h : Heap) (eos : list eo_ref) (object : Object)
    (bound : nat) : Prop :=
  ∃ j r eo, j < bound ∧ eos !! j = Some r ∧
            equivalent_objects h !! r = Some eo ∧ object_ eo = object.

Lemma contains_scan_spec h eos object steps : ∀ i b,
  contains_scan h eos object i steps = Some b →
  (b = true ↔ ∃ j r eo, i ≤ j < i + steps ∧ eos !! j = Some r ∧
                        equivalent_objects h !! r = Some eo ∧ object_ eo = object).
Proof.
  induction steps as [|steps IH]; intros i b H; simpl in H.
  - simplify_eq. split; [done|]. intros (j & _ & _ & ? & _). lia.
  - destruct (eos !! i) as [r|] eqn:Hr; simplify_eq/=.
    destruct (equivalent_objects h !! r) as [eo|] eqn:Heo; simplify_eq/=.
    case_bool_decide as Hobj.
    + simplify_eq. split; [|done]. intros _. exists i, r, eo.
      repeat split; try done; lia.
    + rewrite (IH _ _ H). split.
      * intros (j & r' & eo' & Hj & ?). exists j, r', eo'. split; [lia|done].
      * intros (j & r' & eo' & Hj & Hr' & Heo' & Hobj').
        destruct (decide (j = i)) as [->|].
        { by simplify_eq. }
        exists j, r', eo'. split; [lia|done].
Qed.

Lemma contains_scan_total h eos object steps : ∀ i,
  (∀ j, i ≤ j < i + steps → ∃ r, eos !! j = Some r ∧
                                 is_Some (equivalent_objects h !! r)) →
  is_Some (contains_scan h eos object i steps).
Proof.
  induction steps as [|steps IH]; intros i Hv; simpl; [eauto|].
  destruct (Hv i) as (r & -> & [eo Heo]); [lia|]. simpl. rewrite Heo. simpl.
  case_bool_decide; [eauto|]. apply IH. intros j Hj. apply Hv. lia.
Qed.

(** C6.  The historical query [contains (object, iteration)] on a group:
    when [merged_at_iteration_ <= iteration] it returns what the same query
    returns on the link target (and fails the assertion when there is no
    link); otherwise it returns true exactly when the object is that of
    one of the first [size_per_iteration_[iteration]] entries of
    [equivalent_objects_], and it does return when these entries exist. *)
Theorem contains_historical h e g object iteration :
  groups h !! e = Some g →
  ((merged_at_iteration_ g ≤ iteration)%N →
     (∀ l, link_ g = Some l →
        EquivalentObjectGroup_contains h e object iteration
        = EquivalentObjectGroup_contains h l object iteration) ∧
     (link_ g = None → EquivalentObjectGroup_contains h e object iteration = None)) ∧
  ((iteration < merged_at_iteration_ g)%N →
     (size_per_iteration_ g !! N.to_nat iteration = None →
        EquivalentObjectGroup_contains h e object iteration = None) ∧
     ∀ bound, size_per_iteration_ g !! N.to_nat iteration = Some bound →
       (∀ b, EquivalentObjectGroup_contains h e object iteration = Some b →
             (b = true ↔
              occurs_among_first h (equivalent_objects_ g) object (N.to_nat bound))) ∧
       ((∀ j, j < N.to_nat bound →
              ∃ r, equivalent_objects_ g !! j = Some r ∧
                   is_Some (equivalent_objects h !! r)) →
        is_Some (EquivalentObjectGroup_contains h e object iteration))).
Proof.
  intros Hg. unfold EquivalentObjectGroup_contains. rewrite !contains_at_walk.
  split.
  - intros Hle. apply N.leb_le in Hle. split.
    + intros l Hl. rewrite contains_at_walk.
      apply walk_goto; [apply contains_step_goto|].
      unfold contains_step. by rewrite Hg, Hle, Hl.
    + intros Hl. destruct (length (groups h)); simpl; unfold contains_step;
        by rewrite Hg, Hle, Hl.
  - intros Hlt. apply N.leb_gt in Hlt.
    assert (Hw : walk (contains_step h object iteration) (length (groups h)) e
                 = bound ← size_per_iteration_ g !! N.to_nat iteration;
                   contains_scan h (equivalent_objects_ g) object 0 (N.to_nat bound)).
    { destruct (length (groups h)); simpl; unfold contains_step;
        by rewrite Hg, Hlt. }
    rewrite Hw. split.
    + by intros ->.
    + intros bound ->. simpl. split.
      * intros b Hb. rewrite (contains_scan_spec _ _ _ _ _ _ Hb).
        unfold occurs_among_first. split.
        -- intros (j & r & eo & Hj & ?). exists j, r, eo. split; [lia|done].
        -- intros (j & r & eo & Hj & ?). exists j, r, eo. split; [lia|done].
      * intros Hv. apply contains_scan_total. intros j Hj. apply Hv. lia.
Qed.

(** *** What a pass leaves alone

    [evolves h h']: the groups are the same in number, no group has lost an
    equivalent object (new ones are appended), and no history has been
    written. *)
Definition evolves (h h' : Heap) : Prop :=
  length (groups h') = length (groups h) ∧
  ∀ e g, groups h !! e = Some g →
    ∃ g', groups h' !! e = Some g' ∧
          size_per_iteration_ g' = size_per_iteration_ g ∧
          equivalent_objects_ g `prefix_of` equivalent_objects_ g'.

Lemma evolves_refl h : evolves h h.
Proof. split; [done|]. intros e g Hg. exists g. done. Qed.

Lemma evolves_trans h1 h2 h3 : evolves h1 h2 → evolves h2 h3 → evolves h1 h3.
Proof.
  intros [Hl1 H1] [Hl2 H2]. split; [congruence|].
  intros e g Hg. destruct (H1 _ _ Hg) as (g' & Hg' & Hs' & Hp').
  destruct (H2 _ _ Hg') as (g'' & Hg'' & Hs'' & Hp'').
  exists g''. split; [done|]. split; [congruence|]. by etrans.
Qed.

Lemma evolves_groups_eq h h' : groups h' = groups h → evolves h h'.
Proof.
  intros Heq. split; [by rewrite Heq|]. intros e g Hg. exists g.
  by rewrite Heq.
Qed.

Lemma evolves_set_group h e g g' :
  groups h !! e = Some g →
  size_per_iteration_ g' = size_per_iteration_ g →
  equivalent_objects_ g `prefix_of` equivalent_objects_ g' →
  evolves h (set_group h e g').
Proof.
  intros Hg Hs Hp. split; [apply length_groups_set_group|].
  intros e0 g0 Hg0. destruct (decide (e = e0)) as [->|Hne].
  - exists g'. rewrite lookup_set_group_eq by eauto.
    rewrite Hg in Hg0. by simplify_eq.
  - exists g0. by rewrite lookup_set_group_ne.
Qed.

Lemma updateTermsToRoot_evolves h r h' b :
  ReachableFact_updateTermsToRoot h r = Some (h', b) → evolves h h'.
Proof. intros H. by apply updateTermsToRoot_groups, evolves_groups_eq in H. Qed.

Lemma replaceBy_evolves h r u h' :
  ReachableFact_replaceBy h r u = Some h' → evolves h h'.
Proof. intros H. by apply replaceBy_groups, evolves_groups_eq in H. Qed.

Lemma addReachableFact_evolves h this r h' :
  EquivalentObjectGroup_addReachableFact h this r = Some h' → evolves h h'.
Proof.
  unfold EquivalentObjectGroup_addReachableFact. intros H.
  destruct (groups h !! this) as [g|] eqn:Hg; simplify_eq/=.
  by eapply evolves_set_group.
Qed.

Lemma merge_update_evolves this todo :
  ∀ h updated affected h' affected',
    merge_update isIdenticalTo h this todo updated affected = Some (h', affected') →
    evolves h h'.
Proof.
  induction todo as [|r todo IH]; intros h updated affected h' affected' H.
  - simplify_eq/=. apply evolves_refl.
  - simpl in H.
    destruct (facts h !! r) as [f|]; simplify_eq/=.
    destruct (isMarkedForRemoval f); [by eapply IH|].
    destruct (ReachableFact_updateTermsToRoot h r) as [[h1 changed]|] eqn:Hu;
      simplify_eq/=.
    apply updateTermsToRoot_evolves in Hu.
    destruct changed.
    + destruct (find _ updated) as [u|].
      * case_bool_decide; [done|].
        destruct (ReachableFact_replaceBy h1 r u) as [h2|] eqn:Hr; simplify_eq/=.
        apply replaceBy_evolves in Hr.
        destruct (facts h2 !! r); simplify_eq/=.
        eapply evolves_trans; [|eapply IH; eassumption].
        by eapply evolves_trans.
      * destruct (EquivalentObjectGroup_addReachableFact h1 this r) as [h2|] eqn:Ha;
          simplify_eq/=.
        apply addReachableFact_evolves in Ha.
        eapply evolves_trans; [|eapply IH; eassumption].
        by eapply evolves_trans.
    + destruct (EquivalentObjectGroup_addReachableFact h1 this r) as [h2|] eqn:Ha;
        simplify_eq/=.
      apply addReachableFact_evolves in Ha.
      eapply evolves_trans; [|eapply IH; eassumption].
      by eapply evolves_trans.
Qed.

Lemma merge_evolves h this other affected h' affected' :
  EquivalentObjectGroup_merge isIdenticalTo h this other affected = Some (h', affected') →
  evolves h h'.
Proof.
  unfold EquivalentObjectGroup_merge. intros H.
  destruct (groups h !! other) as [o|] eqn:Ho; simplify_eq/=.
  destruct (groups h !! this) as [g|] eqn:Hg; simplify_eq/=.
  destruct (isRootNode o); simplify_eq/=.
  case_bool_decide as Hne; simplify_eq/=.
  destruct (merge_erase _ _ _ _ _) as [[kept affected1]|]; simplify_eq/=.
  destruct (_ !! this) as [g2|] eqn:Hg2 in H; simplify_eq/=.
  apply merge_update_evolves in H.
  eapply evolves_trans; [|exact H].
  eapply evolves_trans;
    [|apply evolves_set_group with (g := g2); [exact Hg2|done|done]].
  eapply evolves_trans;
    [|apply evolves_set_group with (g := o);
       [by rewrite lookup_set_group_ne|done|done]].
  apply evolves_set_group with (g := g); [done|done|].
  simpl. by apply prefix_app_r.
Qed.

Lemma merge_and_stamp_evolves h this other affected iteration h' affected' b :
  merge_and_stamp isIdenticalTo h this other affected iteration = Some (h', affected', b) →
  evolves h h'.
Proof.
  unfold merge_and_stamp. intros H.
  destruct (EquivalentObjectGroup_merge _ _ _ _ _) as [[h1 affected1]|] eqn:Hm;
    simplify_eq/=.
  destruct (groups h1 !! other) as [o|] eqn:Ho; simplify_eq/=.
  eapply evolves_trans; [by eapply merge_evolves|].
  by eapply evolves_set_group.
Qed.

Lemma tryToMergeWith_at_evolves depth : ∀ h this other affected iteration h' affected' b,
  tryToMergeWith_at isEquivalentTo isIdenticalTo depth h this other affected iteration
  = Some (h', affected', b) →
  evolves h h'.
Proof.
  induction depth as [|depth IH]; intros h this other affected iteration h' affected' b H;
    simpl in H;
    destruct (groups h !! this) as [g|]; simplify_eq/=;
    destruct (groups h !! other) as [o|]; simplify_eq/=;
    (destruct (is_grounded_ g || is_grounded_ o);
       [simplify_eq; apply evolves_refl|]);
    destruct (EquivalentObjectGroup_getRootNode h this); simplify_eq/=;
    destruct (EquivalentObjectGroup_getRootNode h other); simplify_eq/=;
    (case_bool_decide; [simplify_eq; apply evolves_refl|]);
    (destruct (isRootNode g); simpl in H; [|by eauto]);
    (destruct (isRootNode o); simpl in H; [|by eauto]);
    (case_bool_decide; simpl in H; [|done]);
    (destruct (memcmp_eq _ _ _); simpl in H; [|simplify_eq; apply evolves_refl]);
    (destruct (any_initial_state_reachable _ h (equivalent_objects_ o) _) as [[]|];
       simplify_eq/=; try apply evolves_refl);
    (destruct (any_initial_state_reachable _ h (equivalent_objects_ g) _) as [[]|];
       simplify_eq/=; try apply evolves_refl);
    by eapply merge_and_stamp_evolves.
Qed.

Lemma try_all_evolves this iteration all_eogs : ∀ h affected h' affected',
  try_all isEquivalentTo isIdenticalTo h this all_eogs affected iteration
  = Some (h', affected') →
  evolves h h'.
Proof.
  induction all_eogs as [|eog all_eogs IH]; intros h affected h' affected' H; simpl in H.
  - simplify_eq. apply evolves_refl.
  - destruct (groups h !! eog) as [o|]; simplify_eq/=.
    destruct (isRootNode o); simpl in H; [|by eauto].
    destruct (EquivalentObjectGroup_tryToMergeWith _ _ _ _ _ _ _)
      as [[[h1 affected1] b]|] eqn:Ht; simplify_eq/=.
    eapply evolves_trans; [|by eapply IH].
    by eapply tryToMergeWith_at_evolves.
Qed.

Lemma deleteRemovedFacts_evolves h this h' :
  EquivalentObjectGroup_deleteRemovedFacts h this = Some h' → evolves h h'.
Proof.
  unfold EquivalentObjectGroup_deleteRemovedFacts. intros H.
  destruct (groups h !! this) as [g|] eqn:Hg; simplify_eq/=.
  destruct (deleteRemovedFacts_erase _ _ _); simplify_eq/=.
  by eapply evolves_set_group.
Qed.

Lemma purge_each_evolves affected : ∀ h h',
  purge_each h affected = Some h' → evolves h h'.
Proof.
  induction affected as [|eog affected IH]; intros h h' H; simpl in H.
  - simplify_eq. apply evolves_refl.
  - destruct (groups h !! eog) as [g|]; simplify_eq/=.
    destruct (isRootNode g); [|by eauto].
    destruct (EquivalentObjectGroup_deleteRemovedFacts h eog) as [h1|] eqn:Hd;
      simplify_eq/=.
    eapply evolves_trans; [by eapply deleteRemovedFacts_evolves|by eauto].
Qed.

(** One turn of a group in the pass: it writes one entry of history, its
    count of equivalent objects at that moment; the other groups write
    none. *)
Lemma updateEquivalences_turn h this all_eogs affected iteration h' affected' :
  EquivalentObjectGroup_updateEquivalences isEquivalentTo isIdenticalTo
    h this all_eogs affected iteration = Some (h', affected') →
  length (groups h') = length (groups h) ∧
  ∀ e g, groups h !! e = Some g →
    ∃ g', groups h' !! e = Some g' ∧
      equivalent_objects_ g `prefix_of` equivalent_objects_ g' ∧
      size_per_iteration_ g' =
        if decide (e = this)
        then size_per_iteration_ g ++ [uint_of_size (length (equivalent_objects_ g'))]
        else size_per_iteration_ g.
Proof.
  unfold EquivalentObjectGroup_updateEquivalences. intros H.
  destruct (groups h !! this) as [g|] eqn:Hg; simplify_eq/=.
  assert (∃ h1 affected1,
            evolves h h1 ∧
            (g1 ← groups h1 !! this;
             Some (set_group h1 this
                     (with_size_per_iteration
                        (size_per_iteration_ g1
                           ++ [uint_of_size (length (equivalent_objects_ g1))]) g1),
                   affected1)) = Some (h', affected')) as (h1 & affected1 & Hev & H1).
  { destruct (isRootNode g).
    - destruct (try_all _ _ _ _ _ _ _) as [[h1 affected1]|] eqn:Ht; simplify_eq/=.
      exists h1, affected1. split; [by eapply try_all_evolves|done].
    - exists h, affected. split; [apply evolves_refl|done]. }
  clear H. destruct (groups h1 !! this) as [g1|] eqn:Hg1; simplify_eq/=.
  destruct Hev as [Hlen Hev]. split.
  { by rewrite length_groups_set_group. }
  intros e g0 Hg0. destruct (Hev _ _ Hg0) as (g' & Hg' & Hs' & Hp').
  destruct (decide (e = this)) as [->|Hne].
  - rewrite Hg1 in Hg'. simplify_eq. eexists.
    rewrite lookup_set_group_eq by eauto. split; [done|]. simpl.
    split; [done|]. by rewrite Hs'.
  - exists g'. by rewrite lookup_set_group_ne.
Qed.

(** The turns of the groups of [todo], one after the other. *)
Lemma update_each_history iteration all_eogs todo :
  NoDup todo →
  ∀ h affected h' affected',
    update_each isEquivalentTo isIdenticalTo h todo all_eogs affected iteration
    = Some (h', affected') →
    length (groups h') = length (groups h) ∧
    ∀ e g, groups h !! e = Some g →
      ∃ g', groups h' !! e = Some g' ∧
        equivalent_objects_ g `prefix_of` equivalent_objects_ g' ∧
        if decide (e ∈ todo)
        then ∃ n, length (equivalent_objects_ g) ≤ n ≤ length (equivalent_objects_ g') ∧
                  size_per_iteration_ g' = size_per_iteration_ g ++ [uint_of_size n]
        else size_per_iteration_ g' = size_per_iteration_ g.
Proof.
  induction 1 as [|this todo Hnotin Hnd IH]; intros h affected h' affected' H;
    simpl in H.
  - simplify_eq. split; [done|]. intros e g Hg. exists g. split; [done|].
    split; [done|]. rewrite decide_False; [done|]. apply not_elem_of_nil.
  - destruct (EquivalentObjectGroup_updateEquivalences _ _ _ _ _ _ _)
      as [[h1 affected1]|] eqn:Ht; simplify_eq/=.
    apply updateEquivalences_turn in Ht as [Hlen1 Ht].
    apply IH in H as [Hlen2 H].
    split; [congruence|].
    intros e g Hg. destruct (Ht _ _ Hg) as (g1 & Hg1 & Hp1 & Hs1).
    destruct (H _ _ Hg1) as (g' & Hg' & Hp' & Hs').
    exists g'. split; [done|]. split; [by etrans|].
    destruct (decide (e = this)) as [->|Hne].
    + rewrite decide_True by (by left).
      rewrite decide_False in Hs' by done.
      exists (length (equivalent_objects_ g1)). split.
      * split; by apply prefix_length.
      * by rewrite Hs', Hs1.
    + destruct (decide (e ∈ todo)) as [Hin|Hnin].
      * rewrite decide_True by (by right).
        destruct Hs' as (n & Hn & Hs'). exists n. split.
        -- apply prefix_length in Hp1. lia.
        -- by rewrite Hs', Hs1.
      * rewrite decide_False by (by intros [->|?]%elem_of_cons).
        by rewrite Hs', Hs1.
Qed.

(** A history is in order when its entries do not decrease and none
    exceeds the present number of equivalent objects. *)
Definition history_in_order (g : EquivalentObjectGroup) : Prop :=
  (∀ i j a b, i ≤ j → size_per_iteration_ g !! i = Some a →
              size_per_iteration_ g !! j = Some b → (a ≤ b)%N) ∧
  (∀ i a, size_per_iteration_ g !! i = Some a →
          (a ≤ N.of_nat (length (equivalent_objects_ g)))%N).

Lemma uint_of_size_small n : (N.of_nat n ≤ UINT_MAX)%N → uint_of_size n = N.of_nat n.
Proof. intros H. unfold uint_of_size. apply N.mod_small. lia. Qed.

Lemma history_in_order_push g g' n :
  history_in_order g →
  length (equivalent_objects_ g) ≤ n ≤ length (equivalent_objects_ g') →
  (N.of_nat (length (equivalent_objects_ g')) ≤ UINT_MAX)%N →
  size_per_iteration_ g' = size_per_iteration_ g ++ [uint_of_size n] →
  history_in_order g'.
Proof.
  intros [Hord Hbound] Hn Hmax Hs.
  rewrite uint_of_size_small in Hs by lia.
  assert (Hnew : ∀ i a, size_per_iteration_ g' !! i = Some a →
                        (a ≤ N.of_nat n)%N ∧
                        (i < length (size_per_iteration_ g) →
                         size_per_iteration_ g !! i = Some a) ∧
                        (length (size_per_iteration_ g) ≤ i → a = N.of_nat n)).
  { intros i a Ha. rewrite Hs in Ha.
    apply lookup_app_Some in Ha as [Ha|[Hi Ha]].
    - split; [|split; [done|]].
      + specialize (Hbound _ _ Ha). lia.
      + apply lookup_lt_Some in Ha. lia.
    - apply list_lookup_singleton_Some in Ha as [_ <-].
      split; [lia|]. split; [lia|done]. }
  split.
  - intros i j a b Hij Ha Hb.
    destruct (Hnew _ _ Ha) as (Han & Ha1 & Ha2).
    destruct (Hnew _ _ Hb) as (Hbn & Hb1 & Hb2).
    destruct (decide (j < length (size_per_iteration_ g))).
    + eapply Hord; [exact Hij|apply Ha1; lia|by apply Hb1].
    + rewrite Hb2 by lia. done.
  - intros i a Ha. destruct (Hnew _ _ Ha) as (Han & _). lia.
Qed.

Lemma equivalent_groups_spec h e : e ∈ equivalent_groups_ h ↔ is_Some (groups h !! e).
Proof.
  unfold equivalent_groups_. rewrite elem_of_seq, lookup_lt_is_Some. lia.
Qed.

(** C7, as the code has it.  In its turn of [updateEquivalences] a group
    appends its present count of equivalent objects to
    [size_per_iteration_] whether it is a root or not, and writes to no
    other history.  So a call of the manager's [updateEquivalences] adds
    exactly one entry to the history of every group; the entry lies between
    the counts before and after the pass, and a history that was in order
    stays in order (as long as the count fits an [unsigned int]). *)
Theorem every_group_appends_its_count h iteration :
  (∀ this all_eogs affected h' affected',
     EquivalentObjectGroup_updateEquivalences isEquivalentTo isIdenticalTo
       h this all_eogs affected iteration = Some (h', affected') →
     ∀ e g, groups h !! e = Some g →
       ∃ g', groups h' !! e = Some g' ∧
         size_per_iteration_ g' =
           if decide (e = this)
           then size_per_iteration_ g
                  ++ [uint_of_size (length (equivalent_objects_ g'))]
           else size_per_iteration_ g) ∧
  (∀ h',
     EquivalentObjectGroupManager_updateEquivalences isEquivalentTo isIdenticalTo
       h iteration = Some h' →
     ∀ e g, groups h !! e = Some g →
       ∃ g' n, groups h' !! e = Some g' ∧
         length (equivalent_objects_ g) ≤ n ≤ length (equivalent_objects_ g') ∧
         size_per_iteration_ g' = size_per_iteration_ g ++ [uint_of_size n] ∧
         (history_in_order g →
          (N.of_nat (length (equivalent_objects_ g')) ≤ UINT_MAX)%N →
          history_in_order g')).
Proof.
  split.
  - intros this all_eogs affected h' affected' H e g Hg.
    apply updateEquivalences_turn in H as [_ H].
    destruct (H _ _ Hg) as (g' & Hg' & _ & Hs). by exists g'.
  - unfold EquivalentObjectGroupManager_updateEquivalences. intros h' H e g Hg.
    destruct (update_each _ _ _ _ _ _ _) as [[h1 affected]|] eqn:Hu; simplify_eq/=.
    apply update_each_history in Hu as [_ Hu]; [|apply NoDup_seq].
    apply purge_each_evolves in H as [_ H].
    destruct (Hu _ _ Hg) as (g1 & Hg1 & Hp1 & Hs1).
    rewrite decide_True in Hs1 by (apply equivalent_groups_spec; eauto).
    destruct Hs1 as (n & Hn & Hs1).
    destruct (H _ _ Hg1) as (g' & Hg' & Hs' & Hp').
    exists g', n. split; [done|].
    assert (length (equivalent_objects_ g) ≤ n ≤ length (equivalent_objects_ g')).
    { apply prefix_length in Hp'. lia. }
    split; [done|]. split; [congruence|].
    intros Hord Hmax. eapply history_in_order_push; try done. congruence.
Qed.

(** *** Root closure *)

(** The test of the first loop of [merge]: no term of the fact is
    forwarded. *)
Definition fresh (h : Heap) (r : fact_ref) : bool :=
  match facts h !! r with
  | Some f =>
      match has_non_root_term h (term_domain_mapping_ f) with
      | Some false => true
      | _ => false
      end
  | None => false
  end.

(** The test of [deleteRemovedFacts]: the fact is not marked for removal. *)
Definition unmarked (h : Heap) (r : fact_ref) : bool :=
  match facts h !! r with
  | Some f => negb (isMarkedForRemoval f)
  | None => false
  end.

Lemma add_affected_grows skip terms : ∀ affected,
  affected ⊆ add_affected skip terms affected.
Proof.
  induction terms as [|eog terms IH]; intros affected; simpl; [done|].
  case_bool_decide; [|done].
  etrans; [|apply IH]. set_solver.
Qed.

Lemma add_affected_all terms : ∀ affected eog,
  eog ∈ terms → eog ∈ add_affected None terms affected.
Proof.
  induction terms as [|e terms IH]; intros affected eog Hin; simpl.
  - by apply elem_of_nil in Hin.
  - apply elem_of_cons in Hin as [->|Hin].
    + case_bool_decide as Hc.
      * apply (add_affected_grows None terms). set_solver.
      * apply (add_affected_grows None terms).
        destruct (decide (e ∈ affected)); [done|]. exfalso. by apply Hc.
    + case_bool_decide; by apply IH.
Qed.

Lemma delete_last_taken {A} (l : list A) k x :
  l !! k = Some x →
  take k (delete k l) = take k l ∧ drop k (delete k l) = drop (S k) l ∧
  take (S k) l = take k l ++ [x] ∧ drop k l = x :: drop (S k) l.
Proof.
  intros Hk. pose proof (lookup_lt_Some _ _ _ Hk) as Hlt.
  rewrite delete_take_drop.
  assert (length (take k l) = k) as Hlen by (rewrite length_take; lia).
  split; [|split; [|split]].
  - rewrite take_app_le by lia. rewrite take_take. f_equal. lia.
  - rewrite drop_app_ge by lia. rewrite Hlen, Nat.sub_diag. done.
  - by apply take_S_r.
  - by apply drop_S.
Qed.

(** The reverse iteration with [erase] keeps the facts that pass the test,
    in their order. *)
Lemma merge_erase_filter h this : ∀ k l affected kept affected',
  merge_erase h this k l affected = Some (kept, affected') →
  kept = filter (λ r, Is_true (fresh h r)) (take k l) ++ drop k l ∧
  affected ⊆ affected'.
Proof.
  induction k as [|k IH]; intros l affected kept affected' H; simpl in H.
  - simplify_eq. by rewrite take_0, drop_0.
  - apply bind_Some in H as (r & Hr & H).
    apply bind_Some in H as (f & Hf & H).
    apply bind_Some in H as (stale & Hstale & H).
    destruct (delete_last_taken l k r Hr) as (Ht & Hd & Hts & Hds).
    rewrite Hts, filter_app.
    assert (fresh h r = negb stale) as Hfresh.
    { unfold fresh. rewrite Hf, Hstale. by destruct stale. }
    destruct stale.
    + apply IH in H as [-> Hsub]. rewrite Ht, Hd.
      rewrite filter_cons_False by (rewrite Hfresh; simpl; tauto).
      rewrite filter_nil, app_nil_r. split; [done|].
      etrans; [|exact Hsub]. apply add_affected_grows.
    + apply IH in H as [-> Hsub]. rewrite Hds.
      rewrite filter_cons_True by (rewrite Hfresh; simpl; tauto).
      rewrite filter_nil, <- app_assoc. done.
Qed.

Lemma deleteRemovedFacts_erase_filter h : ∀ k l kept,
  deleteRemovedFacts_erase h k l = Some kept →
  kept = filter (λ r, Is_true (unmarked h r)) (take k l) ++ drop k l.
Proof.
  induction k as [|k IH]; intros l kept H; simpl in H.
  - simplify_eq. by rewrite take_0, drop_0.
  - apply bind_Some in H as (r & Hr & H).
    apply bind_Some in H as (f & Hf & H).
    destruct (delete_last_taken l k r Hr) as (Ht & Hd & Hts & Hds).
    rewrite Hts, filter_app.
    assert (unmarked h r = negb (isMarkedForRemoval f)) as Hun
      by (unfold unmarked; by rewrite Hf).
    destruct (isMarkedForRemoval f).
    + apply IH in H as ->. rewrite Ht, Hd.
      rewrite filter_cons_False by (rewrite Hun; simpl; tauto).
      by rewrite filter_nil, app_nil_r.
    + apply IH in H as ->. rewrite Hds.
      rewrite filter_cons_True by (rewrite Hun; simpl; tauto).
      by rewrite filter_nil, <- app_assoc.
Qed.


(** [e] is a root group. *)
Definition is_root (h : Heap) (e : eog_ref) : Prop :=
  ∃ g, groups h !! e = Some g ∧ link_ g = None.

(** The root group [e] has the fact [r] in its list of reachable facts. *)
Definition listed (h : Heap) (e : eog_ref) (r : fact_ref) : Prop :=
  ∃ g, groups h !! e = Some g ∧ link_ g = None ∧ r ∈ reachable_facts_ g.

(** [r] is a fact that is not marked for removal, with term slots [slots]. *)
Definition live (h : Heap) (r : fact_ref) (slots : list eog_ref) : Prop :=
  ∃ f, facts h !! r = Some f ∧ replaced_by_ f = None ∧
       term_domain_mapping_ f = slots.

(** [r] is a fact that is marked for removal. *)
Definition marked (h : Heap) (r : fact_ref) : Prop :=
  ∃ f, facts h !! r = Some f ∧ replaced_by_ f ≠ None.

(** How the facts are shared between the lists of the root groups: a fact
    that is not marked is listed by the groups of its terms, which are
    roots, and by no other root (the group of the facts without terms
    apart). *)
Definition store_consistent (h : Heap) : Prop :=
  ∀ e r slots, listed h e r → live h r slots →
    (slots = [] ∨ e ∈ slots) ∧ ∀ e', e' ∈ slots → listed h e' r.

(** The roots that list a marked fact are among the affected groups. *)
Definition marked_are_affected (h : Heap) (affected_groups : list eog_ref)
    : Prop :=
  ∀ e r, listed h e r → marked h r → e ∈ affected_groups.

(** No fact in the list of a root group has a term slot that points to a
    forwarded group. *)
Definition root_closed (h : Heap) : Prop :=
  ∀ e r f e', listed h e r → facts h !! r = Some f →
              e' ∈ term_domain_mapping_ f → is_root h e'.

Lemma listed_is_root h e r : listed h e r → is_root h e.
Proof. intros (g & ? & ? & _). by exists g. Qed.

Lemma live_not_marked h r slots : live h r slots → marked h r → False.
Proof. intros (f & Hf & Hn & _) (f' & Hf' & Hm). by simplify_eq. Qed.

Lemma live_slots h r slots slots' : live h r slots → live h r slots' → slots = slots'.
Proof. intros (f & Hf & _ & <-) (f' & Hf' & _ & <-). by simplify_eq. Qed.

(** During the second loop of [merge], with the facts [todo] of the other
    group still to be read: a term slot of a fact that is not marked is a
    root that lists the fact, or it is the other group and the fact is
    still to be read; [this] lists such a fact only once it has been
    read. *)
Definition tidy (h : Heap) (this other : eog_ref) (todo : list fact_ref)
    (r : fact_ref) (slots : list eog_ref) : Prop :=
  ∀ e, e ∈ slots →
    (e = other ∧ r ∈ todo) ∨
    (is_root h e ∧ (listed h e r ∨ (e = this ∧ other ∈ slots))).

Definition merging (h : Heap) (this other : eog_ref) (todo : list fact_ref)
    (affected_groups : list eog_ref) : Prop :=
  is_root h this ∧
  (∃ o, groups h !! other = Some o ∧ link_ o = Some this) ∧
  (∀ e r slots, listed h e r → live h r slots →
     (slots = [] ∨ e ∈ slots) ∧ tidy h this other todo r slots) ∧
  (∀ r slots, r ∈ todo → live h r slots →
     (slots = [] ∨ other ∈ slots ∨ this ∈ slots) ∧
     tidy h this other todo r slots) ∧
  marked_are_affected h affected_groups.

Lemma merging_other_no_root h this other todo affected :
  merging h this other todo affected → ¬ is_root h other.
Proof.
  intros (_ & (o & Ho & Hl) & _) (g & Hg & Hn). congruence.
Qed.

Lemma tidy_skip h this other r todo r' slots :
  r' ≠ r → tidy h this other (r :: todo) r' slots → tidy h this other todo r' slots.
Proof.
  intros Hne Ht e He. destruct (Ht e He) as [[-> Hin]|?]; [|by right].
  left. split; [done|]. apply elem_of_cons in Hin as [?|?]; done.
Qed.

(** A fact of the other group that is marked for removal is passed over. *)
Lemma merging_skip h this other r todo affected :
  marked h r → merging h this other (r :: todo) affected →
  merging h this other todo affected.
Proof.
  intros Hm (Hthis & Hother & HJ & HK & Haff).
  split; [done|]. split; [done|]. split; [|split; [|done]].
  - intros e r' slots Hl Hv. destruct (HJ e r' slots Hl Hv) as [H1 Ht].
    split; [done|]. apply (tidy_skip h this other r); [|done].
    intros ->. by eapply live_not_marked.
  - intros r' slots Hin Hv.
    destruct (HK r' slots) as [H1 Ht]; [by right|done|].
    split; [done|]. apply (tidy_skip h this other r); [|done].
    intros ->. by eapply live_not_marked.
Qed.

(** When the loop is over, the sharing of the facts is as it was before
    the merge. *)
Lemma merging_done h this other affected :
  merging h this other [] affected →
  store_consistent h ∧ marked_are_affected h affected.
Proof.
  intros Hmerging. pose proof (merging_other_no_root _ _ _ _ _ Hmerging) as Hno.
  destruct Hmerging as (Hthis & Hother & HJ & HK & Haff).
  split; [|done]. intros e r slots Hl Hv.
  destruct (HJ e r slots Hl Hv) as [H1 Ht]. split; [done|].
  assert (other ∉ slots) as Hnot.
  { intros Hin. destruct (Ht other Hin) as [[_ Hnil]|[Hr _]]; [|done].
    by apply elem_of_nil in Hnil. }
  intros e' He'. destruct (Ht e' He') as [[_ Hnil]|[_ [?|[_ ?]]]]; try done.
  by apply elem_of_nil in Hnil.
Qed.


Lemma getRootNode_root h e :
  is_root h e → EquivalentObjectGroup_getRootNode h e = Some e.
Proof. intros (g & Hg & Hn). by eapply getRootNode_at_root. Qed.

Lemma getRootNode_forwarded h this other o :
  is_root h this → groups h !! other = Some o → link_ o = Some this →
  EquivalentObjectGroup_getRootNode h other = Some this.
Proof.
  intros (g & Hg & Hn) Ho Hl. unfold EquivalentObjectGroup_getRootNode.
  destruct (length (groups h)) as [|d] eqn:Hlen.
  - apply lookup_lt_Some in Ho. lia.
  - simpl. rewrite Ho. simpl. rewrite Hl. by eapply getRootNode_at_root.
Qed.

(** What [updateTermsToRoot] writes in a slot while [other] is the only
    forwarded group among the slots. *)
Definition forward (this other : eog_ref) (e : eog_ref) : eog_ref :=
  if decide (e = other) then this else e.

Lemma roots_of_slots h this other o slots :
  is_root h this → groups h !! other = Some o → link_ o = Some this →
  (∀ e, e ∈ slots → e = other ∨ is_root h e) →
  ∀ roots, mapM (EquivalentObjectGroup_getRootNode h) slots = Some roots →
           roots = forward this other <$> slots.
Proof.
  intros Hthis Ho Hl Hslots roots Hroots. apply mapM_Some in Hroots.
  induction Hroots as [|e e' slots roots He _ IH]; [done|].
  rewrite fmap_cons. f_equal.
  - unfold forward. case_decide as Heq.
    + subst e. erewrite getRootNode_forwarded in He by done. by simplify_eq.
    + destruct (Hslots e) as [?|Hr]; [by left|done|].
      rewrite getRootNode_root in He by done. by simplify_eq.
  - apply IH. intros e0 He0. apply Hslots. by right.
Qed.

Lemma elem_of_forward this other (slots : list eog_ref) e :
  e ∈ forward this other <$> slots ↔
  (e = this ∧ other ∈ slots) ∨ (e ∈ slots ∧ e ≠ other).
Proof.
  rewrite list_elem_of_fmap. unfold forward. split.
  - intros (e0 & -> & He0). case_decide; [subst; by left|by right].
  - intros [[-> Hin]|[Hin Hne]].
    + exists other. by rewrite decide_True.
    + exists e. by rewrite decide_False.
Qed.

Section MergeStep.

Variables (h h2 : Heap) (this other : eog_ref) (r : fact_ref).
Variables (todo : list fact_ref) (affected : list eog_ref) (f : ReachableFact).

Hypothesis Hmerging : merging h this other (r :: todo) affected.
Hypothesis Hf : facts h !! r = Some f.
Hypothesis Hlive : replaced_by_ f = None.
Hypothesis Hothers : ∀ r', r' ≠ r → facts h2 !! r' = facts h !! r'.

Local Abbreviation slots := (term_domain_mapping_ f).
Local Abbreviation roots := (forward this other <$> term_domain_mapping_ f).

Lemma step_this_other : this ≠ other.
Proof.
  intros ->. eapply merging_other_no_root; [done|]. by destruct Hmerging.
Qed.

Lemma step_live_r : live h r slots.
Proof. by exists f. Qed.

Lemma step_roots_nil : slots = [] ∨ other ∈ slots ∨ this ∈ slots →
  roots = [] ∨ this ∈ roots.
Proof.
  intros [->|[Hin|Hin]]; [by left|right..]; apply elem_of_forward.
  - by left.
  - right. split; [done|]. apply step_this_other.
Qed.

Lemma step_live_others r' slots' :
  r' ≠ r → live h2 r' slots' → live h r' slots'.
Proof. intros Hne (f' & Hf' & ?). exists f'. by rewrite <- Hothers. Qed.

Lemma step_marked_others r' : r' ≠ r → marked h2 r' → marked h r'.
Proof. intros Hne (f' & Hf' & ?). exists f'. by rewrite <- Hothers. Qed.

Lemma step_slots_roots e : e ∈ slots → e = other ∨ is_root h e.
Proof.
  destruct Hmerging as (_ & _ & _ & HK & _). intros He.
  destruct (HK r slots) as [_ Ht]; [by left|exact step_live_r|].
  destruct (Ht e He) as [[-> _]|[? _]]; [by left|by right].
Qed.

(** The fact read is identical to one of [this]: it is marked, and the
    groups of its terms are affected. *)
Lemma merging_tombstone u :
  roots ≠ slots →
  groups h2 = groups h →
  facts h2 !! r
  = Some (with_replaced_by (Some u) (with_term_domain_mapping roots f)) →
  merging h2 this other todo (add_affected None roots affected).
Proof.
  intros Hchanged Hgroups Hr.
  pose proof step_this_other as Hne.
  destruct Hmerging as (Hthis & Hother & HJ & HK & Haff).
  assert (∀ e, is_root h2 e ↔ is_root h e) as Hroot
    by (intros e; unfold is_root; by rewrite Hgroups).
  assert (∀ e r', listed h2 e r' ↔ listed h e r') as Hlisted
    by (intros e r'; unfold listed; by rewrite Hgroups).
  assert (∀ r' slots', live h2 r' slots' → r' ≠ r) as Hnot.
  { intros r' slots' (f' & Hf' & Hn & _) ->. by simplify_eq. }
  assert (∀ r' slots', r' ≠ r → tidy h this other (r :: todo) r' slots' →
                       tidy h2 this other todo r' slots') as Htidy.
  { intros r' slots' Hr' Ht e He.
    destruct (tidy_skip _ _ _ _ _ _ _ Hr' Ht e He) as [?|[? ?]]; [by left|].
    right. by rewrite Hroot, Hlisted. }
  split; [by apply Hroot|]. split; [by rewrite Hgroups|].
  split; [|split].
  - intros e r' slots' Hl Hv. pose proof (Hnot _ _ Hv) as Hr'.
    destruct (HJ e r' slots') as [H1 Ht];
      [by apply Hlisted|by apply step_live_others|].
    split; [done|]. by apply Htidy.
  - intros r' slots' Hin Hv. pose proof (Hnot _ _ Hv) as Hr'.
    destruct (HK r' slots') as [H1 Ht]; [by right|by apply step_live_others|].
    split; [done|]. by apply Htidy.
  - intros e r' Hl Hm. apply Hlisted in Hl.
    destruct (decide (r' = r)) as [->|Hr'].
    + apply add_affected_all.
      destruct (HJ e r slots Hl step_live_r) as [[Hnil|He] _].
      { exfalso. apply Hchanged. by rewrite Hnil. }
      apply elem_of_forward. right. split; [done|].
      intros ->. apply listed_is_root in Hl.
      eapply merging_other_no_root; [exact Hmerging|done].
    + apply (add_affected_grows None roots). apply (Haff e r'); [done|].
      by apply step_marked_others.
Qed.

(** The fact read is new to [this]: it is added to its list. *)
Lemma merging_append g :
  groups h !! this = Some g →
  groups h2 !! this = Some (with_reachable_facts (reachable_facts_ g ++ [r]) g) →
  (∀ e, e ≠ this → groups h2 !! e = groups h !! e) →
  facts h2 !! r = Some (with_term_domain_mapping roots f) →
  merging h2 this other todo affected.
Proof.
  intros Hg Hg2 Hgroups Hr.
  pose proof step_this_other as Hne.
  pose proof (merging_other_no_root _ _ _ _ _ Hmerging) as Hno.
  destruct Hmerging as (Hthis & Hother & HJ & HK & Haff).
  assert (link_ g = None) as Hlink
    by (destruct Hthis as (g' & ? & ?); by simplify_eq).
  assert (∀ e, is_root h2 e ↔ is_root h e) as Hroot.
  { intros e. unfold is_root. destruct (decide (e = this)) as [->|He].
    - rewrite Hg, Hg2. split; intros (? & ? & ?); simplify_eq; eauto.
    - by rewrite Hgroups. }
  assert (∀ e r', listed h e r' → listed h2 e r') as Hkeeps.
  { intros e r' (g' & Hg' & Hl' & Hin). destruct (decide (e = this)) as [->|He].
    - simplify_eq. eexists. split; [done|]. split; [done|]. simpl.
      apply elem_of_app. by left.
    - exists g'. by rewrite Hgroups. }
  assert (∀ e r', listed h2 e r' → listed h e r' ∨ (e = this ∧ r' = r)) as Hnew.
  { intros e r' (g' & Hg' & Hl' & Hin). destruct (decide (e = this)) as [->|He].
    - simplify_eq. simpl in Hin. apply elem_of_app in Hin as [Hin|Hin].
      + left. by exists g.
      + right. apply list_elem_of_singleton in Hin. done.
    - left. exists g'. by rewrite <- Hgroups. }
  assert (listed h2 this r) as Hthis_r.
  { eexists. split; [done|]. split; [done|]. simpl.
    apply elem_of_app. right. by apply list_elem_of_singleton. }
  assert (∀ slots', live h2 r slots' → slots' = roots) as Hslots.
  { intros slots' (f' & Hf' & _ & <-). by simplify_eq. }
  assert (∀ r' slots', r' ≠ r → tidy h this other (r :: todo) r' slots' →
                       tidy h2 this other todo r' slots') as Htidy.
  { intros r' slots' Hr' Ht e He.
    destruct (tidy_skip _ _ _ _ _ _ _ Hr' Ht e He) as [?|[? [?|?]]]; [by left|..];
      right; (split; [by apply Hroot|]); [left; by apply Hkeeps|by right]. }
  assert (tidy h2 this other todo r roots) as Htidy_r.
  { intros e He. right. apply elem_of_forward in He as [[-> Hin]|[Hin Hneo]].
    - split; [by apply Hroot|]. by left.
    - destruct (HK r slots) as [_ Ht]; [by left|exact step_live_r|].
      destruct (Ht e Hin) as [[? _]|[Hre [?|[-> _]]]]; [done|..];
        (split; [by apply Hroot|]); left; [by apply Hkeeps|done]. }
  split; [by apply Hroot|]. split.
  { destruct Hother as (o & Ho & Hl). exists o. by rewrite Hgroups. }
  split; [|split].
  - intros e r' slots' Hl Hv. destruct (decide (r' = r)) as [->|Hr'].
    + rewrite (Hslots _ Hv). split; [|done].
      destruct (Hnew _ _ Hl) as [Hl'|[-> _]].
      * destruct (HJ e r slots Hl' step_live_r) as [[Hnil|He] _].
        { left. by rewrite Hnil. }
        right. apply elem_of_forward. right. split; [done|].
        intros ->. by apply Hno, (listed_is_root h _ r).
      * apply step_roots_nil.
        destruct (HK r slots) as [? _]; [by left|exact step_live_r|done].
    + destruct (Hnew _ _ Hl) as [Hl'|[_ ?]]; [|done].
      destruct (HJ e r' slots') as [H1 Ht]; [done|by apply step_live_others|].
      split; [done|]. by apply Htidy.
  - intros r' slots' Hin Hv. destruct (decide (r' = r)) as [->|Hr'].
    + rewrite (Hslots _ Hv). split; [|done].
      destruct (HK r slots) as [H1 _]; [by left|exact step_live_r|].
      destruct (step_roots_nil H1) as [?|?]; [by left|right; by right].
    + destruct (HK r' slots') as [H1 Ht]; [by right|by apply step_live_others|].
      split; [done|]. by apply Htidy.
  - intros e r' Hl Hm.
    assert (r' ≠ r) as Hr'.
    { intros ->. destruct Hm as (f' & Hf' & Hmk). by simplify_eq. }
    destruct (Hnew _ _ Hl) as [Hl'|[_ ?]]; [|done].
    apply (Haff e r'); [done|]. by apply step_marked_others.
Qed.


End MergeStep.


(** The second loop of [merge] keeps the sharing of the facts as [merging]
    describes it, down to the last fact of the other group. *)
Lemma merge_update_merging this other todo : ∀ h updated affected h' affected',
  merging h this other todo affected →
  merge_update isIdenticalTo h this todo updated affected = Some (h', affected') →
  merging h' this other [] affected'.
Proof.
  induction todo as [|r todo IH]; intros h updated affected h' affected' Hm H;
    simpl in H.
  - by simplify_eq.
  - apply bind_Some in H as (f & Hf & H).
    destruct (isMarkedForRemoval f) eqn:Hmarked.
    { eapply IH; [|done]. apply (merging_skip h this other r); [|done].
      exists f. split; [done|]. unfold isMarkedForRemoval in Hmarked.
      by apply bool_decide_eq_true in Hmarked. }
    assert (replaced_by_ f = None) as Hlive.
    { unfold isMarkedForRemoval in Hmarked.
      apply bool_decide_eq_false in Hmarked.
      by destruct (replaced_by_ f); [exfalso; apply Hmarked|]. }
    apply bind_Some in H as ([h1 changed] & Hupdate & H).
    unfold ReachableFact_updateTermsToRoot in Hupdate.
    rewrite Hf in Hupdate. simpl in Hupdate.
    apply bind_Some in Hupdate as (roots & Hroots & Hupdate).
    injection Hupdate as <- <-.
    pose proof Hm as (Hthis & (o & Ho & Hl) & _).
    apply (roots_of_slots h this other o) in Hroots; [|done..|];
      [|by apply (step_slots_roots h this other r todo affected f)].
    subst roots.
    assert (is_Some (facts h !! r)) as Hsome by eauto.
    set (f1 := with_term_domain_mapping
                 (forward this other <$> term_domain_mapping_ f) f) in *.
    assert (∀ h2, EquivalentObjectGroup_addReachableFact (set_fact h r f1) this r
                  = Some h2 →
                  merging h2 this other todo affected) as Happend.
    { intros h2 Hadd. unfold EquivalentObjectGroup_addReachableFact in Hadd.
      apply bind_Some in Hadd as (g & Hg & Hadd). injection Hadd as <-.
      rewrite groups_set_fact in Hg.
      eapply (merging_append h _ this other r todo affected f); try done.
      - intros r' Hr'. rewrite facts_set_group.
        by rewrite lookup_set_fact_ne.
      - apply lookup_set_group_eq. rewrite groups_set_fact. eauto.
      - intros e He. rewrite lookup_set_group_ne by done.
        by rewrite groups_set_fact.
      - rewrite facts_set_group. by apply lookup_set_fact_eq. }
    destruct (bool_decide _) eqn:Hchanged in H.
    + destruct (find _ updated) as [u|].
      * case_bool_decide; [done|].
        apply bind_Some in H as (h2 & Hreplace & H).
        unfold ReachableFact_replaceBy in Hreplace.
        rewrite lookup_set_fact_eq in Hreplace by done. simpl in Hreplace.
        injection Hreplace as <-.
        apply bind_Some in H as (f2 & Hf2 & H).
        rewrite lookup_set_fact_eq in Hf2
          by (rewrite lookup_set_fact_eq by done; eauto).
        injection Hf2 as <-. simpl in H.
        eapply IH; [|exact H].
        eapply (merging_tombstone h _ this other r todo affected f); try done.
        -- intros r' Hr'. by rewrite !lookup_set_fact_ne.
        -- by apply bool_decide_eq_true in Hchanged.
        -- apply lookup_set_fact_eq. rewrite lookup_set_fact_eq by done. eauto.
      * apply bind_Some in H as (h2 & Hadd & H).
        eapply IH; [|exact H]. by apply Happend.
    + apply bind_Some in H as (h2 & Hadd & H).
      eapply IH; [|exact H]. by apply Happend.
Qed.


Lemma has_non_root_term_false h slots :
  has_non_root_term h slots = Some false ↔ ∀ e, e ∈ slots → is_root h e.
Proof.
  induction slots as [|e slots IH]; simpl.
  - split; [|done]. intros _ e He. by apply elem_of_nil in He.
  - split.
    + intros H e' He'. apply bind_Some in H as (g & Hg & H).
      destruct (isRootNode g) eqn:Hroot; [|done].
      apply isRootNode_true in Hroot.
      apply elem_of_cons in He' as [->|He']; [by exists g|by apply IH].
    + intros H. destruct (H e) as (g & Hg & Hl); [by left|].
      rewrite Hg. simpl. apply isRootNode_true in Hl. rewrite Hl.
      apply IH. intros e' He'. apply H. by right.
Qed.

Lemma fresh_true h r :
  fresh h r = true ↔
  ∃ f, facts h !! r = Some f ∧ ∀ e, e ∈ term_domain_mapping_ f → is_root h e.
Proof.
  unfold fresh. split.
  - destruct (facts h !! r) as [f|]; [|done].
    destruct (has_non_root_term _ _) as [[]|] eqn:Hs; try done.
    intros _. exists f. split; [done|]. by apply has_non_root_term_false.
  - intros (f & -> & Hroots). apply has_non_root_term_false in Hroots.
    by rewrite Hroots.
Qed.

(** [merge] keeps the sharing of the facts. *)
Lemma merge_consistent h this other affected h' affected' g :
  groups h !! this = Some g → link_ g = None →
  store_consistent h → marked_are_affected h affected →
  EquivalentObjectGroup_merge isIdenticalTo h this other affected
  = Some (h', affected') →
  store_consistent h' ∧ marked_are_affected h' affected'.
Proof.
  intros Hg Hlink Hstore Haff H. unfold EquivalentObjectGroup_merge in H.
  apply bind_Some in H as (o & Ho & H). rewrite Hg in H. simpl in H.
  destruct (isRootNode o) eqn:Hroot; [|done]. apply isRootNode_true in Hroot.
  simpl in H. case_bool_decide as Hne; [done|].
  set (g1 := with_equivalent_objects _ g) in H.
  set (h2 := set_group (set_group h this g1) other (with_link (Some this) o)) in H.
  apply bind_Some in H as ([kept affected1] & Herase & H).
  apply merge_erase_filter in Herase as [Hkept Hsub].
  rewrite firstn_all, drop_all, app_nil_r in Hkept.
  assert (groups h2 !! this = Some g1) as Hg2.
  { unfold h2. rewrite lookup_set_group_ne by done.
    apply lookup_set_group_eq. eauto. }
  assert (groups h2 !! other = Some (with_link (Some this) o)) as Ho2.
  { apply lookup_set_group_eq. rewrite lookup_set_group_ne by done. eauto. }
  assert (∀ e, e ≠ this → e ≠ other → groups h2 !! e = groups h !! e) as Hrest2.
  { intros e ? ?. unfold h2. by rewrite !lookup_set_group_ne. }
  rewrite Hg2 in H. simpl in H.
  set (h3 := set_group h2 this (with_reachable_facts kept g1)) in H.
  assert (groups h3 !! this = Some (with_reachable_facts kept g1)) as Hg3
    by (apply lookup_set_group_eq; eauto).
  assert (∀ e, e ≠ this → groups h3 !! e = groups h2 !! e) as Hrest3
    by (intros e ?; unfold h3; by rewrite lookup_set_group_ne).
  assert (∀ e, is_root h e → e ≠ other → is_root h2 e) as Hroot2.
  { intros e (ge & Hge & Hle) Heo. destruct (decide (e = this)) as [->|He].
    - simplify_eq. by exists g1.
    - exists ge. by rewrite Hrest2. }
  assert (∀ e, is_root h e → e ≠ other → is_root h3 e) as Hroot3.
  { intros e (ge & Hge & Hle) Heo. destruct (decide (e = this)) as [->|He].
    - simplify_eq. by eexists.
    - exists ge. by rewrite Hrest3, Hrest2. }
  assert (∀ e r, listed h3 e r → listed h e r) as Hwas.
  { intros e r (ge & Hge & Hle & Hin). destruct (decide (e = this)) as [->|He].
    - simplify_eq. simpl in Hin. apply list_elem_of_filter in Hin as [_ Hin].
      by exists g.
    - rewrite Hrest3 in Hge by done.
      destruct (decide (e = other)) as [->|Heo]; [by simplify_eq|].
      rewrite Hrest2 in Hge by done. by exists ge. }
  assert (∀ e r slots, listed h e r → live h r slots →
                       tidy h3 this other (reachable_facts_ o) r slots) as Htidy.
  { intros e r slots Hl Hv e' He'.
    destruct (Hstore e r slots Hl Hv) as [_ Hall].
    destruct (Hall e' He') as (ge & Hge & Hle & Hin).
    destruct (decide (e' = other)) as [->|Heo]; [left; by simplify_eq|].
    right. split; [apply Hroot3; [by exists ge|done]|].
    destruct (decide (e' = this)) as [->|He].
    - destruct (decide (other ∈ slots)) as [?|Hnot]; [by right|]. left.
      simplify_eq. eexists. split; [done|]. split; [done|]. simpl.
      apply list_elem_of_filter. split; [|done].
      apply Is_true_true, fresh_true.
      destruct Hv as (f & Hf & _ & <-). exists f. split; [done|].
      intros e0 He0. apply Hroot2; [|by intros ->].
      eapply listed_is_root, Hall, He0.
    - left. exists ge. by rewrite Hrest3, Hrest2. }
  assert (merging h3 this other (reachable_facts_ o) affected1) as Hmerging.
  { split; [by eexists|]. split; [|split; [|split]].
    - eexists. split; [by rewrite Hrest3 by (by apply not_eq_sym)|done].
    - intros e r slots Hl Hv. apply Hwas in Hl.
      destruct (Hstore e r slots Hl Hv) as [H1 _]. split; [done|].
      by eapply Htidy.
    - intros r slots Hin Hv.
      assert (listed h other r) as Hl by (by exists o).
      destruct (Hstore other r slots Hl Hv) as [[?|?] _];
        (split; [by auto|by eapply Htidy]).
    - intros e r Hl Hm. apply Hsub. apply (Haff e r); [by apply Hwas|done]. }
  eapply merging_done, merge_update_merging; [exact Hmerging|exact H].
Qed.


(** A write to a group that leaves its link and its list of facts alone
    changes nothing in the sharing of the facts. *)
Lemma set_group_consistent h e g g' affected :
  groups h !! e = Some g → link_ g' = link_ g →
  reachable_facts_ g' = reachable_facts_ g →
  store_consistent h ∧ marked_are_affected h affected →
  store_consistent (set_group h e g') ∧
  marked_are_affected (set_group h e g') affected.
Proof.
  intros Hg Hlink Hfacts [Hstore Haff].
  assert (∀ e0 r, listed (set_group h e g') e0 r ↔ listed h e0 r) as Hlisted.
  { intros e0 r. unfold listed. destruct (decide (e0 = e)) as [->|Hne].
    - rewrite lookup_set_group_eq by eauto. rewrite Hg.
      split; intros (g0 & ? & ? & ?); simplify_eq; eexists;
        (split; [done|]); split; congruence.
    - by rewrite lookup_set_group_ne. }
  split.
  - intros e0 r slots Hl Hv. apply Hlisted in Hl.
    destruct (Hstore e0 r slots Hl Hv) as [H1 H2]. split; [done|].
    intros e' He'. by apply Hlisted, H2.
  - intros e0 r Hl Hm. apply Hlisted in Hl. by apply (Haff e0 r).
Qed.

Lemma merge_and_stamp_consistent h this other affected iteration h' affected' b g :
  groups h !! this = Some g → link_ g = None →
  store_consistent h ∧ marked_are_affected h affected →
  merge_and_stamp isIdenticalTo h this other affected iteration
  = Some (h', affected', b) →
  store_consistent h' ∧ marked_are_affected h' affected'.
Proof.
  unfold merge_and_stamp. intros Hg Hlink [Hstore Haff] H.
  apply bind_Some in H as ([h1 affected1] & Hmerge & H).
  apply bind_Some in H as (o & Ho & H). simplify_eq.
  eapply set_group_consistent; [done|done|done|].
  exact (merge_consistent _ _ _ _ _ _ _ Hg Hlink Hstore Haff Hmerge).
Qed.

Lemma tryToMergeWith_at_consistent depth :
  ∀ h this other affected iteration h' affected' b,
  store_consistent h ∧ marked_are_affected h affected →
  tryToMergeWith_at isEquivalentTo isIdenticalTo depth h this other affected
    iteration = Some (h', affected', b) →
  store_consistent h' ∧ marked_are_affected h' affected'.
Proof.
  induction depth as [|depth IH];
    intros h this other affected iteration h' affected' b Hsound H;
    simpl in H;
    destruct (groups h !! this) as [g|] eqn:Hg; simplify_eq/=;
    destruct (groups h !! other) as [o|]; simplify_eq/=;
    (destruct (is_grounded_ g || is_grounded_ o); [by simplify_eq|]);
    destruct (EquivalentObjectGroup_getRootNode h this); simplify_eq/=;
    destruct (EquivalentObjectGroup_getRootNode h other); simplify_eq/=;
    (case_bool_decide; [by simplify_eq|]);
    (destruct (isRootNode g) eqn:Hroot; simpl in H; [|by eauto]);
    (destruct (isRootNode o); simpl in H; [|by eauto]);
    (case_bool_decide; simpl in H; [|done]);
    (destruct (memcmp_eq _ _ _); simpl in H; [|by simplify_eq]);
    (destruct (any_initial_state_reachable _ h (equivalent_objects_ o) _) as [[]|];
       simplify_eq/=; try done);
    (destruct (any_initial_state_reachable _ h (equivalent_objects_ g) _) as [[]|];
       simplify_eq/=; try done);
    apply isRootNode_true in Hroot;
    by eapply merge_and_stamp_consistent.
Qed.

Lemma try_all_consistent this iteration all_eogs : ∀ h affected h' affected',
  store_consistent h ∧ marked_are_affected h affected →
  try_all isEquivalentTo isIdenticalTo h this all_eogs affected iteration
  = Some (h', affected') →
  store_consistent h' ∧ marked_are_affected h' affected'.
Proof.
  induction all_eogs as [|eog all_eogs IH]; intros h affected h' affected' Hsound H;
    simpl in H.
  - by simplify_eq.
  - destruct (groups h !! eog) as [o|]; simplify_eq/=.
    destruct (isRootNode o); simpl in H; [|by eauto].
    destruct (EquivalentObjectGroup_tryToMergeWith _ _ _ _ _ _ _)
      as [[[h1 affected1] b]|] eqn:Ht; simplify_eq/=.
    eapply IH; [|done]. by eapply tryToMergeWith_at_consistent.
Qed.

Lemma updateEquivalences_consistent h this all_eogs affected iteration h' affected' :
  store_consistent h ∧ marked_are_affected h affected →
  EquivalentObjectGroup_updateEquivalences isEquivalentTo isIdenticalTo
    h this all_eogs affected iteration = Some (h', affected') →
  store_consistent h' ∧ marked_are_affected h' affected'.
Proof.
  unfold EquivalentObjectGroup_updateEquivalences. intros Hsound H.
  apply bind_Some in H as (g & Hg & H).
  apply bind_Some in H as ([h1 affected1] & Hall & H).
  apply bind_Some in H as (g1 & Hg1 & H). simplify_eq.
  eapply set_group_consistent; [done|done|done|].
  destruct (isRootNode g); [by eapply try_all_consistent|by simplify_eq].
Qed.

Lemma update_each_consistent iteration all_eogs todo : ∀ h affected h' affected',
  store_consistent h ∧ marked_are_affected h affected →
  update_each isEquivalentTo isIdenticalTo h todo all_eogs affected iteration
  = Some (h', affected') →
  store_consistent h' ∧ marked_are_affected h' affected'.
Proof.
  induction todo as [|eog todo IH]; intros h affected h' affected' Hsound H;
    simpl in H.
  - by simplify_eq.
  - apply bind_Some in H as ([h1 affected1] & Hturn & H).
    eapply IH; [|done]. by eapply updateEquivalences_consistent.
Qed.


Lemma deleteRemovedFacts_consistent h this h' affected :
  store_consistent h ∧ marked_are_affected h (this :: affected) →
  EquivalentObjectGroup_deleteRemovedFacts h this = Some h' →
  store_consistent h' ∧ marked_are_affected h' affected.
Proof.
  unfold EquivalentObjectGroup_deleteRemovedFacts. intros [Hstore Haff] H.
  apply bind_Some in H as (g & Hg & H).
  apply bind_Some in H as (kept & Hkept & H). simplify_eq.
  apply deleteRemovedFacts_erase_filter in Hkept.
  rewrite firstn_all, drop_all, app_nil_r in Hkept. subst kept.
  set (h' := set_group h this _).
  assert (∀ e r, listed h' e r →
                 listed h e r ∧ (e = this → Is_true (unmarked h r))) as Hwas.
  { intros e r (g' & Hg' & Hl' & Hin). destruct (decide (e = this)) as [->|Hne].
    - unfold h' in Hg'. rewrite lookup_set_group_eq in Hg' by eauto.
      simplify_eq. simpl in Hin. apply list_elem_of_filter in Hin as [? ?].
      split; [by exists g|done].
    - unfold h' in Hg'. rewrite lookup_set_group_ne in Hg' by done.
      split; [by exists g'|done]. }
  assert (∀ e r slots, listed h e r → live h r slots → listed h' e r) as Hstays.
  { intros e r slots (g' & Hg' & Hl' & Hin) (f & Hf & Hn & _).
    destruct (decide (e = this)) as [->|Hne].
    - simplify_eq. eexists. unfold h'.
      rewrite lookup_set_group_eq by eauto. split; [done|]. split; [done|].
      simpl. apply list_elem_of_filter. split; [|done].
      unfold unmarked, isMarkedForRemoval. rewrite Hf, Hn. done.
    - exists g'. unfold h'. by rewrite lookup_set_group_ne. }
  split.
  - intros e r slots Hl Hv. apply Hwas in Hl as [Hl _].
    destruct (Hstore e r slots Hl Hv) as [H1 H2]. split; [done|].
    intros e' He'. eapply Hstays; [by apply H2|done].
  - intros e r Hl Hm. apply Hwas in Hl as [Hl Hun].
    destruct (decide (e = this)) as [->|Hne].
    + exfalso. specialize (Hun eq_refl). destruct Hm as (f & Hf & Hm).
      unfold unmarked, isMarkedForRemoval in Hun.
      change (facts h' !! r) with (facts h !! r) in Hf. rewrite Hf in Hun.
      by rewrite bool_decide_true in Hun.
    + specialize (Haff e r Hl Hm). by apply elem_of_cons in Haff as [?|?].
Qed.

Lemma purge_each_consistent affected : ∀ h h',
  store_consistent h ∧ marked_are_affected h affected →
  purge_each h affected = Some h' →
  store_consistent h' ∧ marked_are_affected h' [].
Proof.
  induction affected as [|eog affected IH]; intros h h' Hsound H; simpl in H.
  - by simplify_eq.
  - apply bind_Some in H as (g & Hg & H).
    destruct (isRootNode g) eqn:Hroot.
    + apply bind_Some in H as (h1 & Hdelete & H).
      eapply IH; [|done]. by eapply deleteRemovedFacts_consistent.
    + eapply IH; [|done]. destruct Hsound as [Hstore Haff]. split; [done|].
      intros e r Hl Hm. specialize (Haff e r Hl Hm).
      apply elem_of_cons in Haff as [->|?]; [|done].
      destruct Hl as (g' & Hg' & Hl' & _). simplify_eq.
      apply isRootNode_true in Hl'. congruence.
Qed.

(** C5.  When [EquivalentObjectGroupManager::updateEquivalences] returns,
    no fact in the list of reachable facts of a root group has a term slot
    that points to a forwarded group.  This holds of a store in which the
    facts are shared between the groups as the manager shares them (a fact
    that is not marked for removal is listed by the groups of its terms,
    which are roots, and by no other root but the group of the facts
    without terms) and no root lists a fact that is marked for removal.
    The constructor and [initialise] make such a store
    ([initialise_consistent] below), and the pass leaves the store in that
    state again. *)
Theorem updateEquivalences_closes_roots h iteration h' :
  store_consistent h → marked_are_affected h [] →
  EquivalentObjectGroupManager_updateEquivalences isEquivalentTo isIdenticalTo
    h iteration = Some h' →
  root_closed h' ∧ store_consistent h' ∧ marked_are_affected h' [].
Proof.
  unfold EquivalentObjectGroupManager_updateEquivalences. intros Hstore Haff H.
  apply bind_Some in H as ([h1 affected] & Heach & H).
  apply update_each_consistent in Heach; [|done].
  apply purge_each_consistent in H as [Hstore' Haff']; [|done].
  split; [|done]. intros e r f e' Hl Hf He'.
  destruct (replaced_by_ f) as [u|] eqn:Hu.
  - specialize (Haff' e r Hl). exfalso.
    assert (marked h' r) as Hm by (exists f; split; [done|congruence]).
    specialize (Haff' Hm). by apply elem_of_nil in Haff'.
  - assert (live h' r (term_domain_mapping_ f)) as Hv by (by exists f).
    destruct (Hstore' e r _ Hl Hv) as [_ Hall].
    eapply listed_is_root, Hall, He'.
Qed.


End EquivalentObjectGroupsFacts.

(** ** The store at the start is consistent *)

Section Start.

Variable pool : list ReachableFact.
Variable n : nat.

(** What [initialise] keeps of the store the constructor has made. *)
Definition constructed (h : Heap) : Prop :=
  facts h = pool ∧
  (∀ e g, groups h !! e = Some g → link_ g = None) ∧
  (∀ e, e < n →
     ∃ g eo, groups h !! e = Some g ∧ equivalent_objects_ g = [e] ∧
             equivalent_objects h !! e = Some eo ∧ equivalent_group_ eo = e ∧
             ∀ r, r ∈ initial_facts_ eo → r ∈ reachable_facts_ g).

(** [h'] is [h] with the fact [r] added to the lists of the groups of
    [es]. *)
Definition adds (r : fact_ref) (es : list eog_ref) (h h' : Heap) : Prop :=
  constructed h' ∧
  ∀ e, ∃ rf rf',
    (reachable_facts_ <$> groups h !! e) = rf ∧
    (reachable_facts_ <$> groups h' !! e) = rf' ∧
    match rf, rf' with
    | Some l, Some l' => ∀ x, x ∈ l' ↔ x ∈ l ∨ (x = r ∧ e ∈ es)
    | None, None => True
    | _, _ => False
    end.

Lemma adds_nil r h : constructed h → adds r [] h h.
Proof.
  intros Hc. split; [done|]. intros e. eexists _, _. split; [done|]. split; [done|].
  destruct (groups h !! e); simpl; [|done]. intros x. set_solver.
Qed.

Lemma adds_trans r es1 es2 h1 h2 h3 :
  adds r es1 h1 h2 → adds r es2 h2 h3 → adds r (es1 ++ es2) h1 h3.
Proof.
  intros [_ H12] [Hc H23]. split; [done|]. intros e.
  destruct (H12 e) as (a & b & <- & <- & Hab).
  destruct (H23 e) as (b' & c & <- & <- & Hbc).
  eexists _, _. split; [done|]. split; [done|].
  destruct (groups h1 !! e), (groups h2 !! e), (groups h3 !! e); simpl in *;
    try done.
  intros x. rewrite Hbc, Hab. set_solver.
Qed.

Lemma addInitialFact_adds h e r h' :
  constructed h → e < n →
  EquivalentObject_addInitialFact h e r = Some h' → adds r [e] h h'.
Proof.
  intros (Hfacts & Hroots & Hmembers) He H.
  destruct (Hmembers e He) as (g & eo & Hg & Heos & Heo & Hback & Hinit).
  unfold EquivalentObject_addInitialFact in H. rewrite Heo in H. simpl in H.
  case_bool_decide as Hin.
  - injection H as <-. split; [done|]. intros e'. eexists _, _.
    split; [done|]. split; [done|].
    destruct (groups h !! e') as [g'|] eqn:Hg'; simpl; [|done].
    intros x. split; [by left|]. intros [?|[-> Hx]]; [done|].
    apply list_elem_of_singleton in Hx. subst e'.
    rewrite Hg in Hg'. injection Hg' as <-. by apply Hinit.
  - unfold EquivalentObjectGroup_addReachableFact in H. rewrite Hback in H.
    change (groups (set_equivalent_object h e ?x)) with (groups h) in H.
    rewrite Hg in H. simpl in H. injection H as <-.
    split.
    + split; [done|]. split.
      * intros e' g' Hg'. destruct (decide (e' = e)) as [->|Hne].
        -- rewrite lookup_set_group_eq in Hg' by (simpl; eauto).
           injection Hg' as <-. simpl. by eapply Hroots.
        -- rewrite lookup_set_group_ne in Hg' by done. by eapply Hroots.
      * intros e' He'. destruct (decide (e' = e)) as [->|Hne].
        -- eexists _, _. rewrite lookup_set_group_eq by (simpl; eauto).
           split; [done|]. simpl. split; [done|].
           rewrite list_lookup_insert_eq by (by eapply lookup_lt_Some).
           split; [done|]. simpl. split; [done|].
           intros x Hx. apply elem_of_app in Hx as [Hx|Hx].
           ++ apply elem_of_app. left. by apply Hinit.
           ++ apply elem_of_app. by right.
        -- destruct (Hmembers e' He') as (g' & eo' & ? & ? & ? & ? & ?).
           exists g', eo'. rewrite lookup_set_group_ne by done.
           split; [done|]. split; [done|]. simpl.
           rewrite list_lookup_insert_ne by done. done.
    + intros e'. eexists _, _. split; [done|]. split; [done|].
      destruct (decide (e' = e)) as [->|Hne].
      * rewrite lookup_set_group_eq by (simpl; eauto).
        change (groups (set_equivalent_object h e ?x)) with (groups h).
        rewrite Hg. simpl. intros x. rewrite elem_of_app, list_elem_of_singleton.
        set_solver.
      * rewrite lookup_set_group_ne by done.
        change (groups (set_equivalent_object h e ?x)) with (groups h).
        destruct (groups h !! e'); simpl; [|done]. intros x. set_solver.
Qed.


Hypothesis pool_unmarked : ∀ r f, pool !! r = Some f → replaced_by_ f = None.
Hypothesis pool_terms :
  ∀ r f e, pool !! r = Some f → e ∈ term_domain_mapping_ f → e < n.

Lemma initialise_terms_adds r : ∀ terms h h',
  constructed h → (∀ e, e ∈ terms → e < n) →
  initialise_terms h terms r = Some h' → adds r terms h h'.
Proof.
  induction terms as [|eog terms IH]; intros h h' Hc Hterms H; simpl in H.
  - injection H as <-. by apply adds_nil.
  - destruct (Hc) as (_ & _ & Hmembers).
    destruct (Hmembers eog) as (g & eo & Hg & Heos & _); [apply Hterms; by left|].
    rewrite Hg in H. simpl in H. rewrite Heos in H. simpl in H.
    apply bind_Some in H as (h1 & Hadd & H).
    apply bind_Some in Hadd as (h1' & Hadd & Heq). injection Heq as <-.
    apply addInitialFact_adds in Hadd; [|done|apply Hterms; by left].
    apply (adds_trans r [eog] terms h h1' h'); [done|].
    apply IH; [by destruct Hadd|intros e He; apply Hterms; by right|done].
Qed.

(** The facts of [processed] have been shared between the groups of their
    terms, and no other fact is in a list. *)
Definition listing (h : Heap) (processed : list fact_ref) : Prop :=
  constructed h ∧
  (∀ e g r, groups h !! e = Some g → r ∈ reachable_facts_ g →
     r ∈ processed ∧
     ∃ f, pool !! r = Some f ∧
          (term_domain_mapping_ f = [] ∨ e ∈ term_domain_mapping_ f)) ∧
  (∀ r f e, r ∈ processed → pool !! r = Some f → e ∈ term_domain_mapping_ f →
     ∃ g, groups h !! e = Some g ∧ r ∈ reachable_facts_ g).

Lemma initialise_listing zero : n ≤ zero →
  ∀ initial_facts h processed h',
  listing h processed →
  EquivalentObjectGroupManager_initialise h zero initial_facts = Some h' →
  listing h' (processed ++ initial_facts).
Proof.
  intros Hzero.
  induction initial_facts as [|r initial_facts IH]; intros h processed h' Hl H;
    simpl in H.
  - injection H as <-. by rewrite app_nil_r.
  - apply bind_Some in H as (f & Hf & H).
    apply bind_Some in H as (h1 & Hstep & H).
    replace (processed ++ r :: initial_facts)
      with ((processed ++ [r]) ++ initial_facts) by (by rewrite <- app_assoc).
    apply (IH h1); [|done]. clear IH H.
    destruct Hl as (Hc & Hlisted & Hshared).
    pose proof Hc as (Hfacts & Hroots & Hmembers). rewrite Hfacts in Hf.
    case_bool_decide as Harity.
    + apply initialise_terms_adds in Hstep;
        [|done|intros e He; by eapply pool_terms].
      destruct Hstep as [Hc1 Hadds]. split; [done|]. split.
      * intros e g1 x Hg1 Hx. destruct (Hadds e) as (a & b & <- & <- & Hab).
        rewrite Hg1 in Hab. destruct (groups h !! e) as [g|] eqn:Hg; [|done].
        simpl in Hab. destruct (proj1 (Hab x) Hx) as [Hx'|[-> He]].
        -- destruct (Hlisted e g x Hg Hx') as [? ?]. split; [|done].
           apply elem_of_app. by left.
        -- split; [apply elem_of_app; right; by apply list_elem_of_singleton|].
           exists f. split; [done|by right].
      * intros x fx e Hx Hfx He.
        assert (∃ g, groups h !! e = Some g ∧
                     (x ∈ reachable_facts_ g ∨
                      (x = r ∧ e ∈ term_domain_mapping_ f))) as (g & Hg & Hin).
        { apply elem_of_app in Hx as [Hx|Hx].
          - destruct (Hshared x fx e Hx Hfx He) as (g & ? & ?). exists g. auto.
          - apply list_elem_of_singleton in Hx. subst x.
            rewrite Hf in Hfx. injection Hfx as <-.
            destruct (Hmembers e) as (g & _ & Hg & _); [by eapply pool_terms|].
            exists g. auto. }
        destruct (Hadds e) as (a & b & <- & <- & Hab). rewrite Hg in Hab.
        destruct (groups h1 !! e) as [g1|]; [|done]. simpl in Hab.
        exists g1. split; [done|]. apply Hab. done.
    + assert (term_domain_mapping_ f = []) as Hnil
        by (destruct (term_domain_mapping_ f); [done|simpl in Harity; lia]).
      unfold EquivalentObjectGroup_addReachableFact in Hstep.
      apply bind_Some in Hstep as (g & Hg & Hstep). injection Hstep as <-.
      split; [|split].
      * split; [done|]. split.
        -- intros e g' Hg'. destruct (decide (e = zero)) as [->|Hne].
           ++ rewrite lookup_set_group_eq in Hg' by eauto.
              injection Hg' as Hg'. subst g'. simpl. by eapply Hroots.
           ++ rewrite lookup_set_group_ne in Hg' by done. by eapply Hroots.
        -- intros e He. destruct (Hmembers e He) as (g' & eo & ? & ? & ? & ? & ?).
           exists g', eo. rewrite lookup_set_group_ne by lia. done.
      * intros e g' x Hg' Hx. destruct (decide (e = zero)) as [->|Hne].
        -- rewrite lookup_set_group_eq in Hg' by eauto.
           injection Hg' as Hg'. subst g'. simpl in Hx.
           apply elem_of_app in Hx as [Hx|Hx].
           ++ destruct (Hlisted zero g x Hg Hx) as [? ?]. split; [|done].
              apply elem_of_app. by left.
           ++ apply list_elem_of_singleton in Hx. subst x.
              split; [apply elem_of_app; right; by apply list_elem_of_singleton|].
              exists f. split; [done|by left].
        -- rewrite lookup_set_group_ne in Hg' by done.
           destruct (Hlisted e g' x Hg' Hx) as [? ?]. split; [|done].
           apply elem_of_app. by left.
      * intros x fx e Hx Hfx He. apply elem_of_app in Hx as [Hx|Hx].
        -- destruct (Hshared x fx e Hx Hfx He) as (g' & Hg' & Hin).
           destruct (decide (e = zero)) as [->|Hne].
           ++ eexists. rewrite lookup_set_group_eq by eauto. split; [done|].
              simpl. rewrite Hg in Hg'. injection Hg' as Hg'. subst g'.
              apply elem_of_app. by left.
           ++ exists g'. by rewrite lookup_set_group_ne.
        -- apply list_elem_of_singleton in Hx. subst x.
           rewrite Hf in Hfx. injection Hfx as <-. rewrite Hnil in He.
           by apply elem_of_nil in He.
Qed.

Lemma listing_consistent h processed :
  listing h processed → store_consistent h ∧ marked_are_affected h [].
Proof.
  intros ((Hfacts & Hroots & _) & Hlisted & Hshared). split.
  - intros e r slots (g & Hg & _ & Hin) (f & Hf & _ & <-).
    rewrite Hfacts in Hf.
    destruct (Hlisted e g r Hg Hin) as (Hp & f' & Hf' & Hslots).
    rewrite Hf in Hf'. injection Hf' as <-. split; [done|].
    intros e' He'. destruct (Hshared r f e' Hp Hf He') as (g' & Hg' & Hin').
    exists g'. split; [done|]. split; [by eapply Hroots|done].
  - intros e r _ (f & Hf & Hm). rewrite Hfacts in Hf. exfalso. apply Hm.
    by eapply pool_unmarked.
Qed.

End Start.

(** The store that the constructor and [initialise] make shares the facts
    as [store_consistent] asks, provided the facts of the pool are not
    marked for removal and their terms are groups of objects. *)
Lemma initialise_consistent objects pool initial_facts h :
  (∀ r f, pool !! r = Some f → replaced_by_ f = None) →
  (∀ r f e, pool !! r = Some f → e ∈ term_domain_mapping_ f →
            e < length objects) →
  EquivalentObjectGroupManager_initialise
    (EquivalentObjectGroupManager_constructor objects pool)
    (zero_arity_equivalent_object_group_ objects) initial_facts = Some h →
  store_consistent h ∧ marked_are_affected h [].
Proof.
  intros Hunmarked Hterms H.
  apply (listing_consistent pool (length objects) Hunmarked h ([] ++ initial_facts)).
  eapply (initialise_listing pool (length objects) Hterms); [|..|exact H].
  { done. }
  split; [|split].
  - split; [done|]. split.
    + intros e g Hg. simpl in Hg.
      apply lookup_app_Some in Hg as [Hg|[_ Hg]].
      * apply list_lookup_imap_Some in Hg as ([[object grounded] fp] & _ & ->).
        done.
      * apply list_lookup_singleton_Some in Hg as [_ <-]. done.
    + intros e He.
      destruct (lookup_lt_is_Some_2 objects e He) as [[[object grounded] fp] Ho].
      eexists _, _. simpl. rewrite lookup_app_l by (by rewrite length_imap).
      rewrite !list_lookup_imap, Ho. simpl. done.
  - intros e g r Hg Hin. exfalso. simpl in Hg.
    apply lookup_app_Some in Hg as [Hg|[_ Hg]].
    + apply list_lookup_imap_Some in Hg as ([[object grounded] fp] & _ & ->).
      by apply elem_of_nil in Hin.
    + apply list_lookup_singleton_Some in Hg as [_ <-]. by apply elem_of_nil in Hin.
  - intros r f e Hr. by apply elem_of_nil in Hr.
Qed.

(** ** Properties of the support finder *)









Section SupportFinderFacts.

Variable canUnify : BoundedAtom → BoundedAtom → bool.
Variable createBoundedAtom : BoundedAtom → BoundedAtom.

Local Abbreviation candidates_loop := (try_candidates canUnify createBoundedAtom).
Local Abbreviation support := (getSupportingFacts canUnify createBoundedAtom).




Lemma getSupportingFacts_assert supporting_tupples variable_assignments
    atoms_to_achieve initial_supporting_facts initial_facts :
  length atoms_to_achieve ≤ length initial_supporting_facts →
  support supporting_tupples variable_assignments atoms_to_achieve
    initial_supporting_facts initial_facts = None.
Proof.
  intros Hle. unfold getSupportingFacts. by rewrite drop_ge.
Qed.

(** Every term of the atom has an assignment. *)
Definition assigned (variable_assignments : assignments) (a : BoundedAtom) : Prop :=
  ∀ t, t ∈ getTerms a → is_Some (variable_assignments !! domain_ref t).

Lemma bind_term_keys variable_assignments atom_term fact_term clone :
  bind_term variable_assignments atom_term fact_term = Some clone →
  is_Some (clone !! domain_ref atom_term) ∧
  ∀ k, is_Some (variable_assignments !! k) → is_Some (clone !! k).
Proof.
  unfold bind_term. intros H.
  assert (∃ d, clone = <[domain_ref atom_term := d]> variable_assignments)
    as [d ->].
  { destruct (variable_assignments !! domain_ref atom_term);
      [case_bool_decide|]; simplify_eq; eauto. }
  split; [rewrite lookup_insert_eq; eauto|].
  intros k Hk. destruct (decide (domain_ref atom_term = k)) as [->|].
  - rewrite lookup_insert_eq; eauto.
  - by rewrite lookup_insert_ne.
Qed.

Lemma bind_terms_returns atom_terms fact_terms : ∀ variable_assignments term_index,
  term_index + length atom_terms ≤ length fact_terms →
  ∃ r, bind_terms variable_assignments atom_terms fact_terms term_index = Some r ∧
       ∀ clone, r = Some clone →
         (∀ t, t ∈ atom_terms → is_Some (clone !! domain_ref t)) ∧
         (∀ k, is_Some (variable_assignments !! k) → is_Some (clone !! k)).
Proof.
  induction atom_terms as [|atom_term atom_terms IH]; intros va i Hlen; simpl.
  - exists (Some va). split; [done|]. intros clone [= <-]. split; [|done].
    intros t Ht. by apply elem_of_nil in Ht.
  - simpl in Hlen.
    destruct (lookup_lt_is_Some_2 fact_terms i) as [fact_term Hf]; [lia|].
    rewrite Hf. simpl.
    destruct (bind_term va atom_term fact_term) as [va'|] eqn:Hb.
    + destruct (IH va' (S i)) as (r & Hr & Hkeys); [lia|].
      exists r. split; [done|]. intros clone ->.
      destruct (Hkeys _ eq_refl) as [Hk1 Hk2].
      destruct (bind_term_keys _ _ _ _ Hb) as [Hb1 Hb2].
      split.
      * intros t [->|Ht]%elem_of_cons; [by apply Hk2|by apply Hk1].
      * intros k Hk. by apply Hk2, Hb2.
    + exists None. split; [done|]. done.
Qed.

Lemma finalize_terms_returns variable_assignments terms : ∀ term_index new_terms,
  (∀ t, t ∈ terms → is_Some (variable_assignments !! domain_ref t)) →
  term_index + length terms ≤ length new_terms →
  ∃ r, finalize_terms variable_assignments terms term_index new_terms = Some r.
Proof.
  induction terms as [|t terms IH]; intros i new_terms Hkeys Hlen; simpl; [eauto|].
  simpl in Hlen.
  destruct (lookup_lt_is_Some_2 new_terms i) as [nt ->]; [lia|]. simpl.
  destruct (Hkeys t) as [d ->]; [by left|]. simpl.
  apply IH.
  - intros t' Ht'. apply Hkeys. by right.
  - rewrite length_insert. lia.
Qed.

Lemma finalize_returns variable_assignments atoms :
  (∀ a, length (getTerms a) ≤ length (getTerms (createBoundedAtom a))) →
  (∀ a, a ∈ atoms → assigned variable_assignments a) →
  ∃ r, finalize createBoundedAtom variable_assignments atoms = Some r.
Proof.
  intros Harity. induction atoms as [|a atoms IH]; intros Hkeys; simpl; [eauto|].
  unfold finalize_atom.
  destruct (finalize_terms_returns variable_assignments (getTerms a) 0
              (getTerms (createBoundedAtom a))) as [r ->].
  { apply Hkeys. by left. }
  { simpl. apply Harity. }
  simpl. destruct IH as [r' ->]; [|simpl; eauto].
  intros a' Ha'. apply Hkeys. by right.
Qed.

(** Once the assertion at its head holds, [getSupportingFacts] returns:
    the assertion holds again at every recursive call, and an empty
    intersection is no failure. *)
Lemma getSupportingFacts_from_returns atoms_to_achieve initial_facts remaining :
  (∀ f a, canUnify f a = true → length (getTerms a) ≤ length (getTerms f)) →
  (∀ a, length (getTerms a) ≤ length (getTerms (createBoundedAtom a))) →
  ∀ processed supporting_tupples variable_assignments initial_supporting_facts,
    atoms_to_achieve = processed ++ remaining →
    remaining ≠ [] →
    length initial_supporting_facts = length processed →
    (∀ a, a ∈ processed → assigned variable_assignments a) →
    ∃ r, getSupportingFacts_from canUnify createBoundedAtom remaining
           supporting_tupples variable_assignments atoms_to_achieve
           initial_supporting_facts initial_facts = Some r.
Proof.
  intros Hunify Harity.
  induction remaining as [|atom remaining IH];
    intros processed tupples va supp Hatoms Hne Hlen Hkeys; [done|].
  simpl. clear Hne.
  cut (∀ candidates tupples, ∃ r,
         try_candidates canUnify createBoundedAtom
           (λ tupples assigned supporting,
              getSupportingFacts_from canUnify createBoundedAtom remaining
                tupples assigned atoms_to_achieve supporting initial_facts)
           tupples va atoms_to_achieve atom supp candidates = Some r);
    [by intros Hcut|].
  clear tupples. intros candidates.
  induction candidates as [|f candidates IHc]; intros tupples; simpl; [eauto|].
  destruct (canUnify f atom) eqn:Hu; [|apply IHc].
  destruct (bind_terms_returns (getTerms atom) (getTerms f) va 0)
    as (r & -> & Hclone).
  { simpl. by apply Hunify. }
  simpl. destruct r as [clone|]; [|apply IHc].
  destruct (Hclone _ eq_refl) as [Hk1 Hk2].
  assert (Hkeys' : ∀ a, a ∈ processed ++ [atom] → assigned clone a).
  { intros a [Ha|Ha%list_elem_of_singleton]%elem_of_app.
    - intros t Ht. apply Hk2. by apply (Hkeys a).
    - subst a. intros t Ht. by apply Hk1. }
  case_bool_decide as Hlast.
  - destruct (finalize_returns clone atoms_to_achieve Harity) as [r ->].
    { rewrite length_app, Hatoms, length_app in Hlast. simpl in Hlast.
      destruct remaining; [|simpl in Hlast; lia].
      rewrite Hatoms. done. }
    simpl. apply IHc.
  - destruct (IH (processed ++ [atom]) tupples clone (supp ++ [f])) as [r ->].
    + by rewrite <- app_assoc.
    + intros ->. apply Hlast. rewrite Hatoms, !length_app. simpl. lia.
    + rewrite !length_app. simpl. lia.
    + done.
    + simpl. apply IHc.
Qed.

(** C10.  [getSupportingFacts] asserts on entry that there are more atoms
    to achieve than supporting facts found so far: when that fails the call
    aborts.  With no atom to achieve at all it aborts, whatever the other
    arguments are, and so never hands the empty tuple to its caller.  When
    the assertion holds on entry it holds at every recursive call, and the
    call returns (as long as a fact that unifies with an atom has at least
    its arity, and the atoms processed before have their assignments). *)
Theorem getSupportingFacts_asserts_an_atom_is_left
    supporting_tupples variable_assignments atoms_to_achieve
    initial_supporting_facts initial_facts :
  (length atoms_to_achieve ≤ length initial_supporting_facts →
   getSupportingFacts canUnify createBoundedAtom supporting_tupples
     variable_assignments atoms_to_achieve initial_supporting_facts initial_facts
   = None) ∧
  (getSupportingFacts canUnify createBoundedAtom supporting_tupples
     variable_assignments [] initial_supporting_facts initial_facts
   = None) ∧
  (length initial_supporting_facts < length atoms_to_achieve →
   (∀ f a, canUnify f a = true → length (getTerms a) ≤ length (getTerms f)) →
   (∀ a, length (getTerms a) ≤ length (getTerms (createBoundedAtom a))) →
   (∀ a, a ∈ take (length initial_supporting_facts) atoms_to_achieve →
         assigned variable_assignments a) →
   ∃ tupples,
     getSupportingFacts canUnify createBoundedAtom supporting_tupples
       variable_assignments atoms_to_achieve initial_supporting_facts
       initial_facts
     = Some tupples).
Proof.
  split; [apply getSupportingFacts_assert|].
  split; [apply getSupportingFacts_assert; simpl; lia|].
  intros Hlt Hunify Harity Hkeys. unfold getSupportingFacts.
  eapply getSupportingFacts_from_returns
    with (processed := take (length initial_supporting_facts) atoms_to_achieve);
    try done.
  - by rewrite take_drop.
  - intros Hnil. apply (f_equal length) in Hnil.
    rewrite length_drop in Hnil. simpl in Hnil. lia.
  - rewrite length_take. lia.
Qed.


(** *** The assignments a candidate fact leaves *)



(** *** The tuples a call finds *)





End SupportFinderFacts.

(** ** The propagation of the reachable nodes ends *)

(** The nodes of the list, as a set. *)
Definition node_set (l : list nat) : gset nat := list_to_set l.

(** All the reachable nodes recorded are among [universe]. *)
Definition within (universe : gset nat) (rn : list (list nat)) : Prop :=
  Forall (λ l, node_set l ⊆ universe) rn.

(** How many nodes the lists of [rn] can still take in. *)
Definition deficit (universe : gset nat) (rn : list (list nat)) : nat :=
  sum_list_with (λ l, size universe - size (node_set l)) rn.

Lemma merge_reachable_spec to_add : ∀ target,
  node_set (merge_reachable to_add target) = node_set target ∪ node_set to_add ∧
  length (merge_reachable to_add target) + size (node_set target)
  = length target + size (node_set (merge_reachable to_add target)).
Proof.
  unfold node_set.
  induction to_add as [|n to_add IH]; intros target; simpl.
  - split; [set_solver|done].
  - case_bool_decide as Hin.
    + destruct (IH target) as [Hset Hlen]. split; [|done].
      rewrite Hset. set_solver.
    + destruct (IH (target ++ [n])) as [Hset Hlen]. split.
      * rewrite Hset, list_to_set_app_L. set_solver.
      * rewrite length_app in Hlen. simpl in Hlen.
        rewrite list_to_set_app_L in Hlen. simpl in Hlen.
        rewrite size_union in Hlen.
        2:{ apply disjoint_union_r. split; [|set_solver].
            apply disjoint_singleton_r. by rewrite elem_of_list_to_set. }
        rewrite size_union, size_singleton, size_empty in Hlen by set_solver.
        lia.
Qed.

Lemma set_insert_length x l : length (set_insert x l) ≤ S (length l).
Proof.
  induction l as [|y l IH]; simpl; [done|].
  repeat case_decide; simpl; lia.
Qed.

Lemma deficit_insert universe rn r l l' :
  rn !! r = Some l →
  deficit universe (<[r := l']> rn) + (size universe - size (node_set l))
  = deficit universe rn + (size universe - size (node_set l')).
Proof.
  intros Hr. unfold deficit.
  rewrite <- (take_drop_middle _ _ _ Hr) at 2.
  rewrite insert_take_drop by (by eapply lookup_lt_Some).
  rewrite !sum_list_with_app. simpl. lia.
Qed.

Lemma deficit_bound universe rn : deficit universe rn ≤ length rn * size universe.
Proof.
  unfold deficit. induction rn as [|l rn IH]; simpl; lia.
Qed.

Lemma within_insert universe rn r l :
  within universe rn → node_set l ⊆ universe → within universe (<[r := l]> rn).
Proof.
  intros Hw Hl. unfold within. apply Forall_insert; done.
Qed.

Lemma within_lookup universe rn r l :
  within universe rn → rn !! r = Some l → node_set l ⊆ universe.
Proof. intros Hw Hr. by eapply (Forall_lookup_1 _ _ _ _ Hw). Qed.

(** The loop over the nodes reachable from one node: a node is put on
    the open list only when its own list has taken a node in. *)
Lemma propagate_node_measure universe dtg_node reachable_nodes todo :
  node_set reachable_nodes ⊆ universe →
  ∀ rn open_list rn' open_list',
    propagate_node dtg_node reachable_nodes todo rn open_list
    = Some (rn', open_list') →
    within universe rn →
    within universe rn' ∧ length rn' = length rn ∧
    length open_list' + deficit universe rn'
    ≤ length open_list + deficit universe rn.
Proof.
  intros Hreach. induction todo as [|r todo IH];
    intros rn open_list rn' open_list' H Hw; simpl in H.
  - by simplify_eq.
  - case_bool_decide; [by apply IH|].
    destruct (rn !! r) as [l|] eqn:Hr; simplify_eq/=.
    destruct (merge_reachable_spec reachable_nodes l) as [Hset Hlen].
    pose proof (within_lookup _ _ _ _ Hw Hr) as Hl.
    assert (node_set (merge_reachable reachable_nodes l) ⊆ universe) as Hl'
      by (rewrite Hset; set_solver).
    apply IH in H as (Hw' & Hlen' & Hm); [|by apply within_insert].
    split; [done|]. split; [by rewrite Hlen', length_insert|].
    pose proof (deficit_insert universe rn r l
                  (merge_reachable reachable_nodes l) Hr) as Hd.
    pose proof (subseteq_size _ _ Hl) as Hs1.
    pose proof (subseteq_size _ _ Hl') as Hs2.
    assert (size (node_set l) ≤ size (node_set (merge_reachable reachable_nodes l)))
      as Hs3 by (apply subseteq_size; rewrite Hset; set_solver).
    case_bool_decide as Hgrew.
    + pose proof (set_insert_length r open_list). lia.
    + lia.
Qed.

Lemma propagate_open_list_ends universe : ∀ fuel rn open_list,
  within universe rn →
  length open_list + deficit universe rn ≤ fuel →
  propagate_open_list fuel rn open_list ≠ OutOfFuel ∧
  ∀ rn', propagate_open_list fuel rn open_list = Returns rn' →
         within universe rn' ∧ length rn' = length rn.
Proof.
  induction fuel as [|fuel IH]; intros rn open_list Hw Hfuel.
  - destruct open_list; [|simpl in Hfuel; lia]. simpl.
    split; [done|]. by intros rn' [= <-].
  - destruct open_list as [|dtg_node open_list]; simpl.
    { split; [done|]. by intros rn' [= <-]. }
    destruct (rn !! dtg_node) as [reachable_nodes|] eqn:Hnode; simpl; [|done].
    destruct (propagate_node _ _ _ _ _) as [[rn1 open1]|] eqn:Hp; simpl; [|done].
    apply (propagate_node_measure universe) in Hp as (Hw1 & Hlen1 & Hm);
      [|by eapply within_lookup|done].
    simpl in Hfuel. destruct (IH rn1 open1) as [Hne Hret]; [done|lia|].
    split; [done|]. intros rn' Hr. apply Hret in Hr as [? ?].
    split; [done|congruence].
Qed.

Lemma propagateReachableNodes_ends universe fuel nodes rn :
  within universe rn →
  length nodes + length rn * size universe ≤ fuel →
  propagateReachableNodes fuel nodes rn ≠ OutOfFuel ∧
  ∀ rn', propagateReachableNodes fuel nodes rn = Returns rn' →
         within universe rn' ∧ length rn' = length rn.
Proof.
  intros Hw Hfuel. apply propagate_open_list_ends; [done|].
  rewrite length_seq. pose proof (deficit_bound universe rn). lia.
Qed.

(** ** Properties of the fixed point *)

Lemma bind_Returns {A B} (m : outcome A) (f : A → outcome B) (b : B) :
  m ≫= f = Returns b ↔ ∃ a, m = Returns a ∧ f a = Returns b.
Proof.
  destruct m as [a| |]; simpl; split; try done.
  - eauto.
  - by intros (a' & [= <-] & H).
  - by intros (? & ? & _).
  - by intros (? & ? & _).
Qed.

Lemma deref_Returns {A} (o : option A) (a : A) : deref o = Returns a ↔ o = Some a.
Proof. destruct o; simpl; split; congruence. Qed.

Section EngineFacts.

Variable canUnify : BoundedAtom → BoundedAtom → bool.
Variable createBoundedAtom : BoundedAtom → BoundedAtom.
Variable areEquivalent : BoundedAtom → BoundedAtom → bool.
Variable canUnifyBoundedAtoms : BoundedAtom → BoundedAtom → bool.
Variable isEquivalentTo : nat → Term → nat → Term → bool.
Variable getExternalDependendTransitions : nat → list (Transition * list nat).
Variable getNodes : list BoundedAtom → list nat.
Variable EquivalentObjectGroupManager : Type.
Variable EquivalentObjectGroupManager_new :
  list DomainTransitionGraphNode → list BoundedAtom →
  option EquivalentObjectGroupManager.
Variable updateEquivalences :
  list (list nat) → EquivalentObjectGroupManager →
  option EquivalentObjectGroupManager.
Variable graph : list DomainTransitionGraphNode.

(** An established fact stands for the achieved one: the oracle unifies
    the two, and every term of the established fact is equivalent to the
    term of the achieved fact at the same position. *)
Definition stands_for (bounded_atom achieved_bounded_atom : BoundedAtom) : Prop :=
  canUnify bounded_atom achieved_bounded_atom = true ∧
  ∀ i t, getTerms bounded_atom !! i = Some t →
    ∃ t', getTerms achieved_bounded_atom !! i = Some t' ∧
          isEquivalentTo (getId bounded_atom) t (getId achieved_bounded_atom) t'
          = true.

Lemma terms_match_spec bounded_atom achieved terms : ∀ index b,
  terms_match isEquivalentTo bounded_atom achieved terms index = Some b →
  (b = true ↔
   ∀ i t, terms !! i = Some t →
     ∃ t', getTerms achieved !! (index + i) = Some t' ∧
           isEquivalentTo (getId bounded_atom) t (getId achieved) t' = true).
Proof.
  induction terms as [|t terms IH]; intros index b H; simpl in H.
  - simplify_eq. split; [|done]. intros _ i t Hi. by rewrite lookup_nil in Hi.
  - apply bind_Some in H as (t' & Ht' & H).
    destruct (isEquivalentTo _ t _ t') eqn:Heq.
    + rewrite (IH _ _ H). split.
      * intros Hall [|i] t0 Hi; simpl in Hi.
        -- simplify_eq. exists t'. by rewrite Nat.add_0_r.
        -- replace (index + S i) with (S index + i) by lia. by apply Hall.
      * intros Hall i t0 Hi.
        replace (S index + i) with (index + S i) by lia. by apply Hall.
    + simplify_eq. split; [done|]. intros Hall.
      destruct (Hall 0 t eq_refl) as (t'' & Ht'' & Heq'').
      rewrite Nat.add_0_r in Ht''. congruence.
Qed.

Lemma present_spec established achieved : ∀ b,
  present canUnify isEquivalentTo established achieved = Some b →
  (b = true ↔ ∃ bounded_atom, bounded_atom ∈ established ∧
                              stands_for bounded_atom achieved).
Proof.
  induction established as [|ba established IH]; intros b H; simpl in H.
  - simplify_eq. split; [done|]. intros (? & Hin & _). by apply elem_of_nil in Hin.
  - assert (Hrest : present canUnify isEquivalentTo established achieved = Some b →
                    ¬ stands_for ba achieved →
                    b = true ↔ ∃ bounded_atom, bounded_atom ∈ ba :: established ∧
                                               stands_for bounded_atom achieved).
    { intros Hp Hno. rewrite (IH _ Hp). split.
      - intros (x & Hx & Hs). exists x. split; [by right|done].
      - intros (x & [->|Hx]%elem_of_cons & Hs); [done|]. by exists x. }
    destruct (canUnify ba achieved) eqn:Hu.
    + apply bind_Some in H as (m & Hm & H).
      pose proof (terms_match_spec _ _ _ _ _ Hm) as Hspec. simpl in Hspec.
      destruct m.
      * simplify_eq. split; [|done]. intros _. exists ba. split; [by left|].
        split; [done|]. by apply Hspec.
      * apply Hrest; [done|]. intros [_ Hs]. by apply Hspec in Hs.
    + apply Hrest; [done|]. intros [Hs _]. congruence.
Qed.

(** *** The loop over the matching nodes *)

(** A loop over all the nodes of a list, for comparison. *)
Fixpoint for_each (nodes : list nat)
    (body : nat → Reachability → option Reachability) (st : Reachability)
    : option Reachability :=
  match nodes with
  | [] => Some st
  | node :: nodes' => st' ← body node st; for_each nodes' body st'
  end.

Lemma for_each_matching_dtg_skips_last body last : ∀ nodes st,
  for_each_matching_dtg (nodes ++ [last]) body st = for_each nodes body st.
Proof.
  induction nodes as [|node nodes IH]; intros st; [done|].
  change ((node :: nodes) ++ [last]) with (node :: (nodes ++ [last])).
  destruct (nodes ++ [last]) as [|x l] eqn:Hl.
  { by destruct nodes. }
  simpl. destruct (body node st) as [st'|]; simpl; try done.
  rewrite <- IH. done.
Qed.

Lemma makeReachable_frame dtg_node new_reachable_facts st st' pushed :
  makeReachable areEquivalent dtg_node new_reachable_facts st = Some (st', pushed) →
  established_facts st' = established_facts st ∧
  achieved_transitions st' = achieved_transitions st ∧
  reachable_nodes_ st' = reachable_nodes_ st ∧
  length (supported_facts_ st') = length (supported_facts_ st) ∧
  ∀ node, node ≠ dtg_node → supported_facts_ st' !! node = supported_facts_ st !! node.
Proof.
  unfold makeReachable. intros H.
  apply bind_Some in H as (already & Halready & H).
  apply bind_Some in H as (b & Hb & H).
  destruct b; simplify_eq; [done|]. simpl.
  repeat split; try done.
  - apply length_insert.
  - intros node Hne. by apply list_lookup_insert_ne.
Qed.

Lemma reach_with_each_tupple_frame from_supported number_of_atoms with_dependencies
    mapping equivalent_dtg_node equivalent_atoms todo : ∀ st st',
  reach_with_each_tupple createBoundedAtom areEquivalent canUnifyBoundedAtoms
    from_supported number_of_atoms with_dependencies mapping equivalent_dtg_node
    equivalent_atoms todo st = Some st' →
  established_facts st' = established_facts st ∧
  achieved_transitions st' = achieved_transitions st ∧
  reachable_nodes_ st' = reachable_nodes_ st ∧
  length (supported_facts_ st') = length (supported_facts_ st) ∧
  ∀ node, node ≠ equivalent_dtg_node →
          supported_facts_ st' !! node = supported_facts_ st !! node.
Proof.
  induction todo as [|supporting_facts todo IH]; intros st st' H; simpl in H.
  - by simplify_eq.
  - apply bind_Some in H as (r & Hr & H).
    apply bind_Some in H as (st1 & Hst1 & H).
    apply IH in H as (He & Ha & Hrn & Hlen & Hs).
    assert (established_facts st1 = established_facts st ∧
            achieved_transitions st1 = achieved_transitions st ∧
            reachable_nodes_ st1 = reachable_nodes_ st ∧
            length (supported_facts_ st1) = length (supported_facts_ st) ∧
            ∀ node, node ≠ equivalent_dtg_node →
                    supported_facts_ st1 !! node = supported_facts_ st !! node)
      as (He1 & Ha1 & Hrn1 & Hlen1 & Hs1).
    { destruct r as [reachable_facts|]; [|by simplify_eq].
      apply bind_Some in Hst1 as ([st2 pushed] & Hm & Hst1). simplify_eq.
      by apply makeReachable_frame in Hm. }
    repeat split; try congruence.
    intros node Hne. rewrite Hs by done. by apply Hs1.
Qed.

Lemma reach_equivalent_node_frame from_node from_atoms with_dependencies mapping
    equivalent_dtg_node st st' :
  reach_equivalent_node createBoundedAtom areEquivalent canUnifyBoundedAtoms graph
    from_node from_atoms with_dependencies mapping equivalent_dtg_node st
  = Some st' →
  established_facts st' = established_facts st ∧
  achieved_transitions st' = achieved_transitions st ∧
  reachable_nodes_ st' = reachable_nodes_ st ∧
  length (supported_facts_ st') = length (supported_facts_ st) ∧
  ∀ node, node ≠ equivalent_dtg_node →
          supported_facts_ st' !! node = supported_facts_ st !! node.
Proof.
  unfold reach_equivalent_node. intros H.
  case_bool_decide; [by simplify_eq|].
  apply bind_Some in H as (equivalent_node & _ & H).
  case_bool_decide; [|done].
  apply bind_Some in H as (from_supported & _ & H).
  by apply reach_with_each_tupple_frame in H.
Qed.

Lemma for_each_reach_frame from_node from_atoms with_dependencies mapping nodes :
  ∀ st st',
  for_each nodes
    (reach_equivalent_node createBoundedAtom areEquivalent canUnifyBoundedAtoms
       graph from_node from_atoms with_dependencies mapping) st = Some st' →
  established_facts st' = established_facts st ∧
  achieved_transitions st' = achieved_transitions st ∧
  reachable_nodes_ st' = reachable_nodes_ st ∧
  length (supported_facts_ st') = length (supported_facts_ st) ∧
  ∀ node, node ∉ nodes → supported_facts_ st' !! node = supported_facts_ st !! node.
Proof.
  induction nodes as [|n nodes IH]; intros st st' H; simpl in H.
  - by simplify_eq.
  - apply bind_Some in H as (st1 & H1 & H).
    apply reach_equivalent_node_frame in H1 as (He1 & Ha1 & Hrn1 & Hlen1 & Hs1).
    apply IH in H as (He & Ha & Hrn & Hlen & Hs).
    repeat split; try congruence.
    intros node Hnotin. apply not_elem_of_cons in Hnotin as [Hne Hnotin].
    rewrite Hs by done. by apply Hs1.
Qed.

(** C8.  In the handling of a transition with external dependencies, the
    loop over the matching nodes ends one node before the end of the
    vector: it runs the body on every node but the last, in order.  The
    last node returned by the graph is never read -- any other node in its
    place gives the same result -- and, unless it also occurs earlier in
    the vector, it gets no new supporting tuple.  (An empty vector is read
    past its end.) *)
Theorem last_matching_dtg_is_skipped transition dependend_term_domains nodes last st :
  reach_matching_dtgs createBoundedAtom areEquivalent canUnifyBoundedAtoms graph
    transition dependend_term_domains (nodes ++ [last]) st
  = (from_node ← graph !! getFromNode transition;
     for_each nodes
       (reach_equivalent_node createBoundedAtom areEquivalent
          canUnifyBoundedAtoms graph (getFromNode transition) (getAtoms from_node)
          (facts_with_external_dependencies createBoundedAtom
             dependend_term_domains
             (getAtoms from_node))
          (dependend_term_mapping createBoundedAtom dependend_term_domains
             (getAtoms from_node)))
       st) ∧
  (∀ other,
     reach_matching_dtgs createBoundedAtom areEquivalent canUnifyBoundedAtoms graph
       transition dependend_term_domains (nodes ++ [last]) st
     = reach_matching_dtgs createBoundedAtom areEquivalent canUnifyBoundedAtoms
         graph transition dependend_term_domains (nodes ++ [other]) st) ∧
  (∀ st', last ∉ nodes →
     reach_matching_dtgs createBoundedAtom areEquivalent canUnifyBoundedAtoms graph
       transition dependend_term_domains (nodes ++ [last]) st = Some st' →
     supported_facts_ st' !! last = supported_facts_ st !! last) ∧
  reach_matching_dtgs createBoundedAtom areEquivalent canUnifyBoundedAtoms graph
    transition dependend_term_domains [] st = None.
Proof.
  unfold reach_matching_dtgs.
  split; [|split; [|split]].
  - destruct (graph !! _) as [from_node|]; simpl; try done.
    apply for_each_matching_dtg_skips_last.
  - intros other. destruct (graph !! _) as [from_node|]; simpl; try done.
    by rewrite !for_each_matching_dtg_skips_last.
  - intros st' Hnotin H.
    apply bind_Some in H as (from_node & _ & H).
    rewrite for_each_matching_dtg_skips_last in H.
    apply for_each_reach_frame in H as (_ & _ & _ & _ & Hs). by apply Hs.
  - by destruct (graph !! getFromNode transition).
Qed.

(** *** Growth of the established facts *)

(** What a step of the fixed point does to the established facts and to
    the achieved transitions: facts are appended, transitions among [refs]
    are added, and no fact is appended unless a transition is added. *)
Definition advances (refs : gset nat) (st st' : Reachability) : Prop :=
  established_facts st `prefix_of` established_facts st' ∧
  achieved_transitions st ⊆ achieved_transitions st' ∧
  achieved_transitions st' ⊆ achieved_transitions st ∪ refs ∧
  (length (established_facts st') ≠ length (established_facts st) →
   achieved_transitions st' ≠ achieved_transitions st).

Lemma advances_refl refs st : advances refs st st.
Proof. split; [done|]. split; [done|]. split; [set_solver|done]. Qed.

Lemma advances_trans refs st1 st2 st3 :
  advances refs st1 st2 → advances refs st2 st3 → advances refs st1 st3.
Proof.
  intros (Hp1 & Hs1 & Hu1 & Hn1) (Hp2 & Hs2 & Hu2 & Hn2).
  split; [by etrans|]. split; [set_solver|]. split; [set_solver|].
  intros Hne Heq.
  assert (achieved_transitions st2 = achieved_transitions st1) as Heq1
    by set_solver.
  assert (achieved_transitions st3 = achieved_transitions st2) as Heq2
    by set_solver.
  destruct (decide (length (established_facts st2)
                    = length (established_facts st1))) as [He1|He1];
    [|by apply Hn1].
  destruct (decide (length (established_facts st3)
                    = length (established_facts st2))) as [He2|He2];
    [|by apply Hn2].
  congruence.
Qed.

Lemma advances_mono refs refs' st st' :
  refs ⊆ refs' → advances refs st st' → advances refs' st st'.
Proof. intros Hsub (Hp & Hs & Hu & Hn). repeat split; try done. set_solver. Qed.

Lemma advances_same refs st st' :
  established_facts st' = established_facts st →
  achieved_transitions st' = achieved_transitions st →
  advances refs st st'.
Proof.
  intros He Ha. split; [by rewrite He|]. split; [by rewrite Ha|].
  split; [rewrite Ha; set_solver|]. by rewrite He.
Qed.

Lemma establish_prefix established achieved established' :
  establish canUnify isEquivalentTo established achieved = Some established' →
  established `prefix_of` established'.
Proof.
  unfold establish. intros H. apply bind_Some in H as (b & _ & H).
  destruct b; simplify_eq; [done|]. by apply prefix_app_r.
Qed.

Lemma achieve_atoms_prefix transition to_node_atoms action_parameter_domains :
  ∀ established to_node_achievers established' to_node_achievers',
  achieve_atoms canUnify createBoundedAtom isEquivalentTo transition to_node_atoms
    action_parameter_domains established to_node_achievers
  = Some (established', to_node_achievers') →
  established `prefix_of` established'.
Proof.
  induction to_node_atoms as [|a atoms IH];
    intros established achievers established' achievers' H; simpl in H.
  - by simplify_eq.
  - apply bind_Some in H as (domains & _ & H).
    destruct domains as [domains|]; [|by simplify_eq].
    apply bind_Some in H as (terms & _ & H).
    apply bind_Some in H as (established1 & He & H).
    apply establish_prefix in He. apply IH in H. by etrans.
Qed.

Lemma try_assignments_advances transition from_atoms assignable_atoms :
  ∀ st new_transition_achieved st' new_transition_achieved',
  try_assignments canUnify createBoundedAtom areEquivalent isEquivalentTo graph
    transition from_atoms assignable_atoms st new_transition_achieved
  = Some (st', new_transition_achieved') →
  established_facts st `prefix_of` established_facts st' ∧
  achieved_transitions st ⊆ achieved_transitions st' ∧
  achieved_transitions st'
    ⊆ achieved_transitions st ∪ {[transition_ref transition]} ∧
  (new_transition_achieved' = true →
   new_transition_achieved = true ∨
   transition_ref transition ∈ achieved_transitions st') ∧
  (length (established_facts st') ≠ length (established_facts st) →
   transition_ref transition ∈ achieved_transitions st').
Proof.
  induction assignable_atoms as [|possible_assignment rest IH];
    intros st flag st' flag' H; simpl in H.
  - simplify_eq. split; [done|]. split; [done|]. split; [set_solver|].
    split; [by left|done].
  - apply bind_Some in H as (term_assignments & _ & H).
    apply bind_Some in H as (supporting_tupples & _ & H).
    destruct supporting_tupples as [|supporting_atoms ?]; [by apply IH|].
    apply bind_Some in H as (reachable_nodes & _ & H).
    apply bind_Some in H as (to_node & _ & H).
    apply bind_Some in H as (action_parameter_domains & _ & H).
    apply bind_Some in H as ([established to_node_achievers] & Hach & H).
    apply achieve_atoms_prefix in Hach.
    match type of Hach with
    | established_facts ?s `prefix_of` _ => set (st2 := s) in *
    end.
    assert (Hst2 : established_facts st2 = established_facts st ∧
                   achieved_transitions st2
                   = {[transition_ref transition]} ∪ achieved_transitions st).
    { subst st2. by destruct (bool_decide (getToNode transition ∈ reachable_nodes)). }
    destruct Hst2 as [He2 Ha2]. rewrite He2 in Hach. clearbody st2.
    set (st3 := with_established_facts established st2) in *.
    assert (∃ st4, established_facts st4 = established ∧
                   achieved_transitions st4
                   = {[transition_ref transition]} ∪ achieved_transitions st ∧
                   try_assignments canUnify createBoundedAtom areEquivalent
                     isEquivalentTo graph transition from_atoms rest st4 true
                   = Some (st', flag')) as (st4 & He4 & Ha4 & Hrest).
    { case_bool_decide.
      - exists st3. by rewrite <- Ha2.
      - apply bind_Some in H as ([st4 pushed] & Hm & H).
        apply makeReachable_frame in Hm as (He & Ha & _).
        destruct (pushed && _); [done|].
        exists st4. split; [by rewrite He|]. split; [by rewrite Ha, <- Ha2|done]. }
    apply IH in Hrest as (Hp & Hs & Hu & Hflag & Hgrew).
    rewrite He4 in Hp. rewrite Ha4 in Hs, Hu.
    assert (transition_ref transition ∈ achieved_transitions st') as Hin
      by set_solver.
    split; [by etrans|]. split; [set_solver|]. split; [set_solver|]. by auto.
Qed.

Lemma try_transitions_advances transitions :
  ∀ st new_transition_achieved st' new_transition_achieved',
  try_transitions canUnify createBoundedAtom areEquivalent isEquivalentTo graph
    transitions st new_transition_achieved
  = Some (st', new_transition_achieved') →
  advances (list_to_set (transition_ref <$> transitions)) st st' ∧
  (new_transition_achieved' = true →
   new_transition_achieved = true ∨
   achieved_transitions st' ≠ achieved_transitions st).
Proof.
  induction transitions as [|transition transitions IH];
    intros st flag st' flag' H; simpl in H.
  - simplify_eq. split; [apply advances_refl|by left].
  - case_bool_decide as Hin.
    + apply IH in H as [Hadv Hflag]. split; [|done].
      eapply advances_mono; [|done]. set_solver.
    + apply bind_Some in H as (assignable_atoms & _ & H).
      apply bind_Some in H as (from_dtg_node & _ & H).
      apply bind_Some in H as ([st1 flag1] & Ht & H).
      apply try_assignments_advances in Ht as (Hp1 & Hs1 & Hu1 & Hflag1 & Hgrew1).
      apply IH in H as [Hadv Hflag].
      assert (advances (list_to_set (transition_ref <$> transition :: transitions))
                st st1) as Hadv1.
      { split; [done|]. split; [done|]. split; [set_solver|].
        intros Hlen Heq. apply Hgrew1 in Hlen. rewrite Heq in Hlen. done. }
      split.
      * eapply advances_trans; [exact Hadv1|].
        eapply advances_mono; [|done]. set_solver.
      * intros Hf. destruct (Hflag Hf) as [Hf1|Hne].
        -- destruct (Hflag1 Hf1) as [?|Hin1]; [by left|].
           right. intros Heq. destruct Hadv as (_ & Hs & _).
           apply Hin. rewrite <- Heq. set_solver.
        -- right. intros Heq. apply Hne.
           destruct Hadv as (_ & Hs & _). set_solver.
Qed.

Lemma seed_nodes_spec nodes : ∀ index st open_list st' open_list',
  seed_nodes canUnify createBoundedAtom nodes index st open_list
  = Some (st', open_list') →
  established_facts st' = established_facts st ∧
  achieved_transitions st' = achieved_transitions st ∧
  reachable_nodes_ st' = reachable_nodes_ st ∧
  open_list' = open_list ++ mjoin (getTransitions <$> nodes).
Proof.
  induction nodes as [|node nodes IH]; intros index st open_list st' open_list' H;
    simpl in H.
  - simplify_eq. by rewrite app_nil_r.
  - apply bind_Some in H as (supporting_tupples & _ & H).
    apply bind_Some in H as (st1 & Hst1 & H).
    apply IH in H as (He & Ha & Hrn & Hopen).
    assert (established_facts st1 = established_facts st ∧
            achieved_transitions st1 = achieved_transitions st ∧
            reachable_nodes_ st1 = reachable_nodes_ st) as (He1 & Ha1 & Hrn1).
    { destruct supporting_tupples; simplify_eq/=; [done|].
      apply bind_Some in Hst1 as (? & _ & ?). by simplify_eq/=. }
    rewrite He, Ha, Hrn, Hopen. simpl. by rewrite <- app_assoc.
Qed.

(** The transitions of all the nodes of the graph: the open list of
    [iterateThroughFixedPoint]. *)
Definition graph_transitions : list Transition :=
  mjoin (getTransitions <$> graph).

(** The references of the transitions of a list. *)
Definition transition_refs (transitions : list Transition) : gset nat :=
  list_to_set (transition_ref <$> transitions).

Lemma transition_refs_reverse transitions :
  transition_refs (reverse transitions) = transition_refs transitions.
Proof.
  unfold transition_refs. apply set_eq. intros x.
  rewrite !elem_of_list_to_set, !list_elem_of_fmap.
  split; intros (t & -> & Ht); exists t; split; try done;
    by apply elem_of_reverse.
Qed.

Lemma achieve_transitions_advances fuel open_list : ∀ rounds st st',
  achieve_transitions canUnify createBoundedAtom areEquivalent isEquivalentTo
    graph fuel rounds open_list st = Returns st' →
  advances (transition_refs open_list) st st'.
Proof.
  induction rounds as [|rounds IH]; intros st st' H; simpl in H; [done|].
  apply bind_Returns in H as (rn & _ & H).
  apply bind_Returns in H as ([st1 flag] & Ht & H).
  apply deref_Returns, try_transitions_advances in Ht as [Hadv _].
  fold (transition_refs (reverse open_list)) in Hadv.
  rewrite transition_refs_reverse in Hadv.
  assert (advances (transition_refs open_list) st st1) as Hadv1.
  { destruct Hadv as (Hp & Hs & Hu & Hn). by repeat split. }
  destruct flag.
  - eapply advances_trans; [exact Hadv1|]. by apply IH.
  - by simplify_eq.
Qed.

Lemma iterateThroughFixedPoint_advances fuel st st' :
  iterateThroughFixedPoint canUnify createBoundedAtom areEquivalent isEquivalentTo
    graph fuel st = Returns st' →
  advances (transition_refs graph_transitions) st st'.
Proof.
  unfold iterateThroughFixedPoint. intros H.
  apply bind_Returns in H as ([st1 open_list] & Hseed & H).
  apply deref_Returns, seed_nodes_spec in Hseed as (He & Ha & _ & ->).
  apply achieve_transitions_advances in H.
  eapply advances_trans; [by apply advances_same|done].
Qed.

Lemma for_each_matching_dtg_frame from_node from_atoms with_dependencies mapping
    nodes st st' :
  for_each_matching_dtg nodes
    (reach_equivalent_node createBoundedAtom areEquivalent canUnifyBoundedAtoms
       graph from_node from_atoms with_dependencies mapping) st = Some st' →
  established_facts st' = established_facts st ∧
  achieved_transitions st' = achieved_transitions st ∧
  reachable_nodes_ st' = reachable_nodes_ st.
Proof.
  destruct (decide (nodes = [])) as [->|Hne]; [done|].
  destruct (exists_last Hne) as (nodes' & last & ->).
  rewrite for_each_matching_dtg_skips_last. intros H.
  apply for_each_reach_frame in H as (? & ? & ? & _). done.
Qed.

Lemma external_transitions_frame transitions : ∀ st st',
  external_transitions createBoundedAtom areEquivalent canUnifyBoundedAtoms
    getNodes graph transitions st = Some st' →
  established_facts st' = established_facts st ∧
  achieved_transitions st' = achieved_transitions st ∧
  reachable_nodes_ st' = reachable_nodes_ st.
Proof.
  induction transitions as [|[transition dependend_term_domains] transitions IH];
    intros st st' H; simpl in H.
  - by simplify_eq.
  - apply bind_Some in H as (st1 & H1 & H).
    apply IH in H as (He & Ha & Hrn).
    unfold external_transition in H1.
    apply bind_Some in H1 as (from_node & _ & H1).
    case_bool_decide; [done|].
    apply bind_Some in H1 as (to_find & _ & H1).
    unfold reach_matching_dtgs in H1.
    apply bind_Some in H1 as (from_node' & _ & H1).
    apply for_each_matching_dtg_frame in H1 as (He1 & Ha1 & Hrn1).
    split; [congruence|]. split; congruence.
Qed.

Lemma external_dependencies_frame nodes : ∀ st st',
  external_dependencies createBoundedAtom areEquivalent canUnifyBoundedAtoms
    getExternalDependendTransitions getNodes graph nodes st = Some st' →
  established_facts st' = established_facts st ∧
  achieved_transitions st' = achieved_transitions st ∧
  reachable_nodes_ st' = reachable_nodes_ st.
Proof.
  induction nodes as [|dtg_node nodes IH]; intros st st' H; simpl in H.
  - by simplify_eq.
  - apply bind_Some in H as (st1 & H1 & H).
    apply IH in H as (He & Ha & Hrn).
    apply external_transitions_frame in H1 as (He1 & Ha1 & Hrn1).
    split; [congruence|]. split; congruence.
Qed.

Lemma analysis_iteration_advances fuel st manager st' manager' :
  analysis_iteration canUnify createBoundedAtom areEquivalent canUnifyBoundedAtoms
    isEquivalentTo getExternalDependendTransitions getNodes
    EquivalentObjectGroupManager updateEquivalences graph fuel st manager
  = Returns (st', manager') →
  advances (transition_refs graph_transitions) st st'.
Proof.
  unfold analysis_iteration. intros H.
  apply bind_Returns in H as (st1 & Hit & H).
  apply bind_Returns in H as (manager1 & _ & H).
  apply bind_Returns in H as (st2 & Hext & H).
  injection H as <- <-.
  apply iterateThroughFixedPoint_advances in Hit.
  apply deref_Returns, external_dependencies_frame in Hext as (He & Ha & _).
  eapply advances_trans; [exact Hit|]. by apply advances_same.
Qed.


(** *** The analysis ends *)

Lemma remaining_shrinks (refs achieved achieved' : gset nat) :
  achieved ⊆ achieved' → achieved' ⊆ achieved ∪ refs → achieved' ≠ achieved →
  size (refs ∖ achieved') < size (refs ∖ achieved).
Proof.
  intros Hs Hu Hne. apply subset_size. split; [set_solver|].
  intros Hsub. apply Hne. apply set_eq. intros x. split; [|set_solver].
  intros Hx. destruct (decide (x ∈ achieved)) as [|Hnx]; [done|].
  assert (x ∈ refs ∖ achieved') as Hx' by set_solver. set_solver.
Qed.

Lemma size_transition_refs transitions :
  size (transition_refs transitions) ≤ length transitions.
Proof.
  induction transitions as [|t transitions IH]; [done|].
  change (transition_refs (t :: transitions))
    with ({[transition_ref t]} ∪ transition_refs transitions).
  rewrite size_union_alt, size_singleton.
  assert (size (transition_refs transitions ∖ {[transition_ref t]})
          ≤ size (transition_refs transitions)) as Hle
    by (apply subseteq_size; set_solver).
  simpl. lia.
Qed.

(** The only node pushed on a list of reachable nodes by the loop over the
    assignments of a transition is the node the transition leads to. *)
Lemma try_assignments_within universe transition from_atoms assignable_atoms :
  getToNode transition ∈ universe →
  ∀ st new_transition_achieved st' new_transition_achieved',
  try_assignments canUnify createBoundedAtom areEquivalent isEquivalentTo graph
    transition from_atoms assignable_atoms st new_transition_achieved
  = Some (st', new_transition_achieved') →
  within universe (reachable_nodes_ st) →
  within universe (reachable_nodes_ st') ∧
  length (reachable_nodes_ st') = length (reachable_nodes_ st).
Proof.
  intros Hto.
  induction assignable_atoms as [|possible_assignment rest IH];
    intros st flag st' flag' H Hw; simpl in H.
  - by simplify_eq.
  - apply bind_Some in H as (term_assignments & _ & H).
    apply bind_Some in H as (supporting_tupples & _ & H).
    destruct supporting_tupples as [|supporting_atoms ?]; [by eapply IH|].
    apply bind_Some in H as (reachable_nodes & Hrn & H).
    simpl in Hrn.
    apply bind_Some in H as (to_node & _ & H).
    apply bind_Some in H as (action_parameter_domains & _ & H).
    apply bind_Some in H as ([established to_node_achievers] & _ & H).
    set (st2 := if bool_decide (getToNode transition ∈ reachable_nodes) then _
                else _) in H.
    assert (within universe (reachable_nodes_ st2) ∧
            length (reachable_nodes_ st2) = length (reachable_nodes_ st))
      as [Hw2 Hlen2].
    { subst st2. clear H.
      destruct (bool_decide (getToNode transition ∈ reachable_nodes)); simpl;
        [done|].
      split; [|by rewrite length_insert].
      apply within_insert; [done|].
      pose proof (within_lookup _ _ _ _ Hw Hrn) as Hl.
      unfold node_set in *. rewrite list_to_set_app_L. set_solver. }
    clearbody st2.
    case_bool_decide.
    + apply IH in H as [? ?]; [|done]. split; [done|]. simpl in *. congruence.
    + apply bind_Some in H as ([st4 pushed] & Hm & H).
      apply makeReachable_frame in Hm as (_ & _ & Hrn4 & _). simpl in Hrn4.
      destruct (pushed && _); [done|].
      apply IH in H as [? ?]; [|by rewrite Hrn4].
      split; [done|]. congruence.
Qed.

Lemma try_transitions_within universe transitions :
  (∀ transition, transition ∈ transitions → getToNode transition ∈ universe) →
  ∀ st new_transition_achieved st' new_transition_achieved',
  try_transitions canUnify createBoundedAtom areEquivalent isEquivalentTo graph
    transitions st new_transition_achieved
  = Some (st', new_transition_achieved') →
  within universe (reachable_nodes_ st) →
  within universe (reachable_nodes_ st') ∧
  length (reachable_nodes_ st') = length (reachable_nodes_ st).
Proof.
  induction transitions as [|transition transitions IH];
    intros Hto st flag st' flag' H Hw; simpl in H.
  - by simplify_eq.
  - assert (∀ t, t ∈ transitions → getToNode t ∈ universe) as Hto'
      by (intros t Ht; apply Hto; by right).
    case_bool_decide; [by eapply IH|].
    apply bind_Some in H as (assignable_atoms & _ & H).
    apply bind_Some in H as (from_dtg_node & _ & H).
    apply bind_Some in H as ([st1 flag1] & Ht & H).
    apply (try_assignments_within universe) in Ht as [Hw1 Hlen1];
      [|apply Hto; by left|done].
    eapply IH in H as [? ?]; [|done|done]. split; [done|congruence].
Qed.

Lemma achieve_transitions_ends universe fuel open_list :
  (∀ transition, transition ∈ open_list → getToNode transition ∈ universe) →
  ∀ rounds st,
  within universe (reachable_nodes_ st) →
  length graph + length (reachable_nodes_ st) * size universe ≤ fuel →
  size (transition_refs open_list ∖ achieved_transitions st) < rounds →
  achieve_transitions canUnify createBoundedAtom areEquivalent isEquivalentTo
    graph fuel rounds open_list st ≠ OutOfFuel ∧
  ∀ st',
    achieve_transitions canUnify createBoundedAtom areEquivalent isEquivalentTo
      graph fuel rounds open_list st = Returns st' →
    within universe (reachable_nodes_ st') ∧
    length (reachable_nodes_ st') = length (reachable_nodes_ st).
Proof.
  intros Hto.
  induction rounds as [|rounds IH]; intros st Hw Hfuel Hrounds; [lia|].
  simpl.
  destruct (propagateReachableNodes_ends universe fuel graph (reachable_nodes_ st))
    as [Hne Hret]; [done|done|].
  destruct (propagateReachableNodes fuel graph (reachable_nodes_ st))
    as [rn| |] eqn:Hp; simpl; [|done|done].
  destruct (Hret rn eq_refl) as [Hwrn Hlenrn].
  destruct (try_transitions _ _ _ _ _ _ _ _) as [[st1 flag]|] eqn:Ht; simpl;
    [|done].
  pose proof Ht as Hadv.
  apply try_transitions_advances in Hadv as [(_ & Hs & Hu & _) Hflag].
  fold (transition_refs (reverse open_list)) in Hu.
  rewrite transition_refs_reverse in Hu. simpl in Hs, Hu, Hflag.
  apply (try_transitions_within universe) in Ht as [Hw1 Hlen1]; [|..|done].
  2:{ intros t Htin. apply Hto. by apply elem_of_reverse. }
  simpl in Hlen1.
  destruct flag.
  - destruct (Hflag eq_refl) as [|Hgrew]; [done|].
    pose proof (remaining_shrinks _ _ _ Hs Hu Hgrew) as Hless.
    destruct (IH st1) as [Hne1 Hret1]; [done|rewrite Hlen1; lia|lia|].
    split; [done|]. intros st' Hst'. apply Hret1 in Hst' as [? ?].
    split; [done|congruence].
  - split; [done|]. intros st' [= <-]. split; [done|congruence].
Qed.


Lemma iterateThroughFixedPoint_ends universe fuel st :
  (∀ transition, transition ∈ graph_transitions →
                 getToNode transition ∈ universe) →
  within universe (reachable_nodes_ st) →
  length graph + length (reachable_nodes_ st) * size universe ≤ fuel →
  length graph_transitions < fuel →
  iterateThroughFixedPoint canUnify createBoundedAtom areEquivalent isEquivalentTo
    graph fuel st ≠ OutOfFuel ∧
  ∀ st',
    iterateThroughFixedPoint canUnify createBoundedAtom areEquivalent
      isEquivalentTo graph fuel st = Returns st' →
    within universe (reachable_nodes_ st') ∧
    length (reachable_nodes_ st') = length (reachable_nodes_ st).
Proof.
  intros Hto Hw Hfuel Hrounds. unfold iterateThroughFixedPoint.
  destruct (seed_nodes _ _ _ _ _ _) as [[st1 open_list]|] eqn:Hseed; simpl;
    [|done].
  apply seed_nodes_spec in Hseed as (_ & _ & Hrn & ->). simpl.
  fold graph_transitions.
  destruct (achieve_transitions_ends universe fuel graph_transitions Hto fuel st1)
    as [Hne Hret].
  - by rewrite Hrn.
  - by rewrite Hrn.
  - pose proof (size_transition_refs graph_transitions) as Hsize.
    assert (size (transition_refs graph_transitions ∖ achieved_transitions st1)
            ≤ size (transition_refs graph_transitions)) as Hle
      by (apply subseteq_size; set_solver).
    lia.
  - split; [done|]. intros st' Hst'. apply Hret in Hst' as [? ?].
    split; [done|congruence].
Qed.

Lemma analysis_iteration_ends universe fuel st manager :
  (∀ transition, transition ∈ graph_transitions →
                 getToNode transition ∈ universe) →
  within universe (reachable_nodes_ st) →
  length graph + length (reachable_nodes_ st) * size universe ≤ fuel →
  length graph_transitions < fuel →
  analysis_iteration canUnify createBoundedAtom areEquivalent canUnifyBoundedAtoms
    isEquivalentTo getExternalDependendTransitions getNodes
    EquivalentObjectGroupManager updateEquivalences graph fuel st manager
  ≠ OutOfFuel ∧
  ∀ st' manager',
    analysis_iteration canUnify createBoundedAtom areEquivalent
      canUnifyBoundedAtoms isEquivalentTo getExternalDependendTransitions getNodes
      EquivalentObjectGroupManager updateEquivalences graph fuel st manager
    = Returns (st', manager') →
    within universe (reachable_nodes_ st') ∧
    length (reachable_nodes_ st') = length (reachable_nodes_ st).
Proof.
  intros Hto Hw Hfuel Hrounds. unfold analysis_iteration.
  destruct (iterateThroughFixedPoint_ends universe fuel st) as [Hne Hret];
    try done.
  destruct (iterateThroughFixedPoint _ _ _ _ _ _ _) as [st1| |]; simpl;
    [|done|done].
  destruct (Hret st1 eq_refl) as [Hw1 Hlen1].
  destruct (updateEquivalences _ _) as [manager1|]; simpl; [|done].
  destruct (external_dependencies _ _ _ _ _ _ _ _) as [st2|] eqn:Hext; simpl;
    [|done].
  apply external_dependencies_frame in Hext as (_ & _ & Hrn).
  split; [done|]. intros st' manager' [= <- <-]. rewrite Hrn. done.
Qed.

Lemma analysis_loop_ends universe fuel :
  (∀ transition, transition ∈ graph_transitions →
                 getToNode transition ∈ universe) →
  length graph_transitions < fuel →
  ∀ iterations st manager,
  within universe (reachable_nodes_ st) →
  length graph + length (reachable_nodes_ st) * size universe ≤ fuel →
  size (transition_refs graph_transitions ∖ achieved_transitions st) < iterations →
  analysis_loop canUnify createBoundedAtom areEquivalent canUnifyBoundedAtoms
    isEquivalentTo getExternalDependendTransitions getNodes
    EquivalentObjectGroupManager updateEquivalences graph fuel iterations st manager
  ≠ OutOfFuel.
Proof.
  intros Hto Hrounds.
  induction iterations as [|iterations IH]; intros st manager Hw Hfuel Hit; [lia|].
  simpl.
  destruct (analysis_iteration_ends universe fuel st manager) as [Hne Hret];
    try done.
  destruct (analysis_iteration _ _ _ _ _ _ _ _ _ _ _ _ _) as [[st1 manager1]| |]
    eqn:Hiter; simpl; [|done|done].
  destruct (Hret st1 manager1 eq_refl) as [Hw1 Hlen1].
  apply analysis_iteration_advances in Hiter as (_ & Hs & Hu & Hgrew).
  case_bool_decide as Hlen; [|done].
  apply IH; [done|by rewrite Hlen1|].
  assert (achieved_transitions st1 ≠ achieved_transitions st) as Hne1
    by (apply Hgrew; congruence).
  pose proof (remaining_shrinks _ _ _ Hs Hu Hne1). lia.
Qed.

(** The runs of the [do ... while] of the analysis, from the loop alone:
    [trace] lists the engine and the manager after each iteration. *)
Lemma analysis_loop_trace fuel : ∀ iterations st manager r,
  analysis_loop canUnify createBoundedAtom areEquivalent canUnifyBoundedAtoms
    isEquivalentTo getExternalDependendTransitions getNodes
    EquivalentObjectGroupManager updateEquivalences graph fuel iterations st manager
  = Returns r →
  ∃ trace, last trace = Some r ∧
    ∀ i p q, ((st, manager) :: trace) !! i = Some p → trace !! i = Some q →
      analysis_iteration canUnify createBoundedAtom areEquivalent
        canUnifyBoundedAtoms isEquivalentTo getExternalDependendTransitions
        getNodes EquivalentObjectGroupManager updateEquivalences graph fuel
        p.1 p.2 = Returns q ∧
      (length (established_facts q.1) = length (established_facts p.1)
       ↔ S i = length trace).
Proof.
  induction iterations as [|iterations IH]; intros st manager r H; simpl in H;
    [done|].
  apply bind_Returns in H as ([st1 manager1] & Hiter & H).
  case_bool_decide as Hlen.
  - apply IH in H as (trace & Hlast & Htrace).
    exists ((st1, manager1) :: trace). split.
    { destruct trace; [done|]. done. }
    intros [|i] p q Hp Hq; simpl in Hp, Hq.
    + simplify_eq/=. split; [done|].
      destruct trace; [done|]. simpl. split; [congruence|lia].
    + destruct (Htrace i p q Hp Hq) as [? Hiff]. split; [done|].
      simpl. rewrite Hiff. lia.
  - simplify_eq. exists [(st1, manager1)]. split; [done|].
    intros [|i] p q Hp Hq; simpl in Hp, Hq; [|done].
    simplify_eq/=. split; [done|]. split; [done|]. by intros _.
Qed.

(** The nodes that can ever be recorded as reachable: those recorded in
    [st], and the nodes the transitions of the graph lead to. *)
Definition node_universe (st : Reachability) : gset nat :=
  list_to_set (mjoin (reachable_nodes_ st))
  ∪ list_to_set (getToNode <$> graph_transitions).

(** A number of loop iterations that is enough for the analysis from [st]. *)
Definition enough_fuel (st : Reachability) : nat :=
  length graph
  + length (reachable_nodes_ st) * size (node_universe st)
  + length graph_transitions + 1.

Lemma within_node_universe st :
  within (node_universe st) (reachable_nodes_ st).
Proof.
  unfold within, node_universe, node_set. apply Forall_forall. intros l Hl x Hx.
  apply elem_of_union_l, elem_of_list_to_set, list_elem_of_join.
  exists l. split; [|done]. by apply elem_of_list_to_set in Hx.
Qed.


Lemma chain_prefix {A B} (f : A → list B) (l : list A) :
  (∀ i p q, l !! i = Some p → l !! S i = Some q → f p `prefix_of` f q) →
  ∀ j i p q, i ≤ j → l !! i = Some p → l !! j = Some q → f p `prefix_of` f q.
Proof.
  intros Hstep. induction j as [|j IH]; intros i p q Hij Hp Hq.
  - assert (i = 0) as -> by lia. by simplify_eq.
  - destruct (decide (i = S j)) as [->|Hne]; [by simplify_eq|].
    destruct (lookup_lt_is_Some_2 l j) as [m Hm].
    { apply lookup_lt_Some in Hq. lia. }
    etrans; [apply (IH i p m); [lia|done|done]|]. by eapply Hstep.
Qed.

(** C1.  [performReachabilityAnalsysis] only appends to the established
    facts and repeats its loop exactly until an iteration appends nothing.
    With the engines and managers after each iteration listed in [trace]
    (the engine at the start is [st] with the initial facts as established
    facts and no achieved transition): the facts established at any point
    are a prefix of those established at any later point, so no fact is
    removed or replaced; the iteration that leaves the number of
    established facts as it found it is the last one, and the last one is
    such an iteration.  The analysis does halt: given [enough_fuel]
    iterations for its loops, it does not run out of them.  The one place
    that writes to the list, the test on an achieved fact, leaves it as it
    is or appends that fact. *)
Theorem established_facts_only_grow st initial_facts :
  (∀ fuel, enough_fuel st ≤ fuel →
     performReachabilityAnalsysis canUnify createBoundedAtom areEquivalent
       canUnifyBoundedAtoms isEquivalentTo getExternalDependendTransitions
       getNodes EquivalentObjectGroupManager EquivalentObjectGroupManager_new
       updateEquivalences graph fuel st initial_facts ≠ OutOfFuel) ∧
  (∀ fuel r,
     performReachabilityAnalsysis canUnify createBoundedAtom areEquivalent
       canUnifyBoundedAtoms isEquivalentTo getExternalDependendTransitions
       getNodes EquivalentObjectGroupManager EquivalentObjectGroupManager_new
       updateEquivalences graph fuel st initial_facts = Returns r →
     ∃ manager trace,
       EquivalentObjectGroupManager_new graph initial_facts = Some manager ∧
       last trace = Some r ∧
       (∀ i p q,
          ((with_established_facts initial_facts
              (with_achieved_transitions ∅ st), manager) :: trace) !! i = Some p →
          trace !! i = Some q →
          analysis_iteration canUnify createBoundedAtom areEquivalent
            canUnifyBoundedAtoms isEquivalentTo getExternalDependendTransitions
            getNodes EquivalentObjectGroupManager updateEquivalences graph fuel
            p.1 p.2 = Returns q ∧
          (length (established_facts q.1) = length (established_facts p.1)
           ↔ S i = length trace)) ∧
       (∀ i j p q, i ≤ j →
          ((with_established_facts initial_facts
              (with_achieved_transitions ∅ st), manager) :: trace) !! i = Some p →
          ((with_established_facts initial_facts
              (with_achieved_transitions ∅ st), manager) :: trace) !! j = Some q →
          established_facts p.1 `prefix_of` established_facts q.1)) ∧
  (∀ established achieved established',
     establish canUnify isEquivalentTo established achieved = Some established' →
     established' = established ∨ established' = established ++ [achieved]).
Proof.
  unfold performReachabilityAnalsysis. split; [|split].
  3:{ unfold establish. intros established achieved established' H.
      apply bind_Some in H as (b & _ & H). destruct b; simplify_eq; auto. }
  - intros fuel Hfuel. unfold enough_fuel in Hfuel.
    destruct (EquivalentObjectGroupManager_new graph initial_facts)
      as [manager|]; simpl; [|done].
    apply (analysis_loop_ends (node_universe st)).
    + intros t Ht. unfold node_universe.
      apply elem_of_union_r, elem_of_list_to_set, list_elem_of_fmap. eauto.
    + lia.
    + exact (within_node_universe st).
    + simpl. lia.
    + pose proof (size_transition_refs graph_transitions) as Hsize.
      assert (size (transition_refs graph_transitions
                    ∖ achieved_transitions
                        (with_established_facts initial_facts
                           (with_achieved_transitions ∅ st)))
              ≤ size (transition_refs graph_transitions)) as Hle
        by (apply subseteq_size; set_solver).
      lia.
  - intros fuel r H.
    apply bind_Returns in H as (manager & Hmanager & H).
    apply deref_Returns in Hmanager.
    apply analysis_loop_trace in H as (trace & Hlast & Htrace).
    exists manager, trace. split; [done|]. split; [done|]. split; [done|].
    intros i j p q Hij Hp Hq.
    revert j i p q Hij Hp Hq.
    apply (chain_prefix
             (λ p : Reachability * EquivalentObjectGroupManager,
                established_facts p.1)).
    intros i p q Hp Hq. simpl in Hq.
    destruct (Htrace i p q Hp Hq) as [Hiter _].
    destruct p as [st1 manager1], q as [st2 manager2]. simpl in *.
    by apply analysis_iteration_advances in Hiter as (Hprefix & _).
Qed.

End EngineFacts.

(** * Further properties of the store *)

Section StoreFrame.

Variable isEquivalentTo : Heap → fact_ref → fact_ref → bool.
Variable isIdenticalTo : Heap → fact_ref → fact_ref → bool.

Local Opaque set_group set_fact.

(** What the second loop of [merge] and the calls it makes do to the
    groups: the list of reachable facts of [this] is rewritten, nothing
    else is. *)
Definition refiled (this : eog_ref) (h h' : Heap) : Prop :=
  equivalent_objects h' = equivalent_objects h ∧
  length (groups h') = length (groups h) ∧
  ∀ e g, groups h !! e = Some g →
    ∃ l, groups h' !! e = Some (with_reachable_facts l g) ∧
         (e ≠ this → l = reachable_facts_ g).

Lemma with_reachable_facts_same g : with_reachable_facts (reachable_facts_ g) g = g.
Proof. by destruct g. Qed.

Lemma refiled_refl this h : refiled this h h.
Proof.
  split; [done|]. split; [done|]. intros e g Hg. exists (reachable_facts_ g).
  by rewrite with_reachable_facts_same.
Qed.

Lemma refiled_trans this h1 h2 h3 :
  refiled this h1 h2 → refiled this h2 h3 → refiled this h1 h3.
Proof.
  intros (Ho1 & Hl1 & H1) (Ho2 & Hl2 & H2).
  split; [congruence|]. split; [congruence|].
  intros e g Hg. destruct (H1 _ _ Hg) as (l1 & Hg1 & Hne1).
  destruct (H2 _ _ Hg1) as (l2 & Hg2 & Hne2).
  exists l2. split; [done|]. intros Hne. rewrite (Hne2 Hne). simpl. auto.
Qed.

Lemma refiled_groups_eq this h h' :
  groups h' = groups h → equivalent_objects h' = equivalent_objects h →
  refiled this h h'.
Proof.
  intros Hg Ho. split; [done|]. split; [by rewrite Hg|].
  intros e g He. exists (reachable_facts_ g).
  by rewrite with_reachable_facts_same, Hg.
Qed.

Lemma updateTermsToRoot_refiled this h r h' b :
  ReachableFact_updateTermsToRoot h r = Some (h', b) → refiled this h h'.
Proof.
  intros H. apply refiled_groups_eq; [by eapply updateTermsToRoot_groups|].
  unfold ReachableFact_updateTermsToRoot in H.
  destruct (facts h !! r); simplify_eq/=.
  destruct (mapM _ _); by simplify_eq/=.
Qed.

Lemma replaceBy_refiled this h r u h' :
  ReachableFact_replaceBy h r u = Some h' → refiled this h h'.
Proof.
  intros H. apply refiled_groups_eq; [by eapply replaceBy_groups|].
  unfold ReachableFact_replaceBy in H.
  destruct (facts h !! r); by simplify_eq/=.
Qed.

Lemma addReachableFact_refiled this h r h' :
  EquivalentObjectGroup_addReachableFact h this r = Some h' → refiled this h h'.
Proof.
  unfold EquivalentObjectGroup_addReachableFact. intros H.
  destruct (groups h !! this) as [g|] eqn:Hg; simplify_eq/=.
  split; [apply equivalent_objects_set_group|].
  split; [apply length_groups_set_group|].
  intros e g0 Hg0. destruct (decide (e = this)) as [->|Hne].
  - simplify_eq. eexists. split.
    { apply lookup_set_group_eq; eauto. }
    done.
  - exists (reachable_facts_ g0). rewrite with_reachable_facts_same.
    by rewrite lookup_set_group_ne.
Qed.

Lemma merge_update_refiled this todo : ∀ h updated affected h' affected',
  merge_update isIdenticalTo h this todo updated affected = Some (h', affected') →
  refiled this h h'.
Proof.
  induction todo as [|r todo IH]; intros h updated affected h' affected' H.
  - simplify_eq/=. apply refiled_refl.
  - simpl in H.
    destruct (facts h !! r) as [f|]; simplify_eq/=.
    destruct (isMarkedForRemoval f); [by eapply IH|].
    destruct (ReachableFact_updateTermsToRoot h r) as [[h1 changed]|] eqn:Hu;
      simplify_eq/=.
    apply (updateTermsToRoot_refiled this) in Hu.
    destruct changed.
    + destruct (find _ updated) as [u|].
      * case_bool_decide; [done|].
        destruct (ReachableFact_replaceBy h1 r u) as [h2|] eqn:Hr; simplify_eq/=.
        apply (replaceBy_refiled this) in Hr.
        destruct (facts h2 !! r); simplify_eq/=.
        eapply refiled_trans; [|by eapply IH]. by eapply refiled_trans.
      * destruct (EquivalentObjectGroup_addReachableFact h1 this r) as [h2|] eqn:Ha;
          simplify_eq/=.
        apply addReachableFact_refiled in Ha.
        eapply refiled_trans; [|by eapply IH]. by eapply refiled_trans.
    + destruct (EquivalentObjectGroup_addReachableFact h1 this r) as [h2|] eqn:Ha;
        simplify_eq/=.
      apply addReachableFact_refiled in Ha.
      eapply refiled_trans; [|by eapply IH]. by eapply refiled_trans.
Qed.

(** What a merge that is carried out does: [this] takes the equivalent
    objects of [other] behind its own and has its list of reachable facts
    rewritten, [other] is forwarded to [this] and stamped, and no other
    group is touched. *)
Definition absorbs (iteration : N) (this other : eog_ref) (h h' : Heap) : Prop :=
  ∃ g o l,
    this ≠ other ∧ groups h !! this = Some g ∧ groups h !! other = Some o ∧
    link_ o = None ∧
    equivalent_objects h' = equivalent_objects h ∧
    length (groups h') = length (groups h) ∧
    groups h' !! this =
      Some (with_reachable_facts l
              (with_equivalent_objects
                 (equivalent_objects_ g ++ equivalent_objects_ o) g)) ∧
    groups h' !! other =
      Some (with_merged_at_iteration iteration (with_link (Some this) o)) ∧
    ∀ e, e ≠ this → e ≠ other → groups h' !! e = groups h !! e.

Lemma merge_and_stamp_absorbs h this other affected iteration h' affected' b :
  merge_and_stamp isIdenticalTo h this other affected iteration
  = Some (h', affected', b) →
  b = true ∧ absorbs iteration this other h h'.
Proof.
  unfold merge_and_stamp, EquivalentObjectGroup_merge. intros H.
  destruct (groups h !! other) as [o|] eqn:Ho; simplify_eq/=.
  destruct (groups h !! this) as [g|] eqn:Hg; simplify_eq/=.
  destruct (isRootNode o) eqn:Hroot; simplify_eq/=.
  apply isRootNode_true in Hroot.
  case_bool_decide as Hne; simplify_eq/=.
  destruct (merge_erase _ _ _ _ _) as [[kept affected1]|]; simplify_eq/=.
  rewrite lookup_set_group_ne in H by done.
  rewrite lookup_set_group_eq in H by eauto. simpl in H.
  destruct (merge_update _ _ _ _ _ _) as [[h1 affected2]|] eqn:Hm; simplify_eq/=.
  apply merge_update_refiled in Hm as (Hobjs & Hlen & Hm).
  rewrite !equivalent_objects_set_group in Hobjs.
  rewrite !length_groups_set_group in Hlen.
  assert (∀ e g0, e ≠ this → e ≠ other → groups h !! e = Some g0 →
                  groups h1 !! e = Some g0) as Hothers.
  { intros e g0 Hn1 Hn2 Hg0.
    destruct (Hm e g0) as (l & -> & Hl).
    { by rewrite !lookup_set_group_ne. }
    by rewrite (Hl Hn1), with_reachable_facts_same. }
  destruct (Hm other (with_link (Some this) o)) as (lo & Ho1 & Hlo).
  { rewrite lookup_set_group_ne by done.
    apply lookup_set_group_eq. rewrite lookup_set_group_ne by done. eauto. }
  rewrite (Hlo (not_eq_sym Hne)), with_reachable_facts_same in Ho1.
  destruct (Hm this (with_reachable_facts kept
                       (with_equivalent_objects
                          (equivalent_objects_ g ++ equivalent_objects_ o) g)))
    as (l & Hg1 & _).
  { apply lookup_set_group_eq. rewrite lookup_set_group_ne by done.
    rewrite lookup_set_group_eq by eauto. eauto. }
  rewrite Ho1 in H. simplify_eq/=. split; [done|].
  exists g, o, l. split; [done|]. split; [done|]. split; [done|].
  split; [done|]. split; [by rewrite equivalent_objects_set_group|].
  split; [by rewrite length_groups_set_group|].
  split; [by rewrite lookup_set_group_ne|].
  split; [apply lookup_set_group_eq; eauto|].
  intros e Hn1 Hn2. rewrite lookup_set_group_ne by done.
  destruct (groups h !! e) as [g0|] eqn:Hg0.
  - by apply Hothers.
  - apply lookup_ge_None. apply lookup_ge_None in Hg0. lia.
Qed.

(** An attempt to merge two roots leaves the store as it is, or is a
    merge that is carried out. *)
Lemma tryToMergeWith_roots_effect depth h this other g o affected iteration
    h' affected' b :
  groups h !! this = Some g → groups h !! other = Some o →
  link_ g = None → link_ o = None →
  tryToMergeWith_at isEquivalentTo isIdenticalTo depth h this other affected
    iteration = Some (h', affected', b) →
  h' = h ∧ affected' = affected ∧ (b = true → this = other)
  ∨ b = true ∧ absorbs iteration this other h h'.
Proof.
  intros Hg Ho Hlg Hlo H.
  destruct depth; simpl in H; rewrite Hg, Ho in H; simpl in H.
  all: destruct (is_grounded_ g || is_grounded_ o); [simplify_eq; (left; split; [done|]; split; [done|]; by intros ?)|].
  all: rewrite (getRootNode_root h this), (getRootNode_root h other) in H
         by (by eexists); simpl in H.
  all: case_bool_decide as Hsame; [simplify_eq; (left; split; [done|]; split; [done|]; by intros ?)|].
  all: rewrite (proj2 (isRootNode_true g) Hlg), (proj2 (isRootNode_true o) Hlo)
         in H; simpl in H.
  all: destruct (negb (bool_decide _)); [done|].
  all: destruct (negb (memcmp_eq _ _ _)); [simplify_eq; (left; split; [done|]; split; [done|]; by intros ?)|].
  all: apply bind_Some in H as ([] & _ & H); simpl in H;
         [|simplify_eq; left; split; [done|]; split; [done|]; by intros ?].
  all: apply bind_Some in H as ([] & _ & H); simpl in H;
         [|simplify_eq; left; split; [done|]; split; [done|]; by intros ?].
  all: right; by eapply merge_and_stamp_absorbs.
Qed.


(** What the turn of the root [this] in a pass does to a group: a root
    other than [this] may be forwarded to [this] and stamped; [this] may
    take equivalent objects; the histories stay. *)
Definition turn (iteration : N) (this : eog_ref) (h h' : Heap) : Prop :=
  equivalent_objects h' = equivalent_objects h ∧
  length (groups h') = length (groups h) ∧
  ∀ e g, groups h !! e = Some g →
    ∃ g', groups h' !! e = Some g' ∧
      is_grounded_ g' = is_grounded_ g ∧ finger_print_ g' = finger_print_ g ∧
      size_per_iteration_ g' = size_per_iteration_ g ∧
      (e ≠ this → equivalent_objects_ g' = equivalent_objects_ g) ∧
      (link_ g' = link_ g ∧ merged_at_iteration_ g' = merged_at_iteration_ g
       ∨ e ≠ this ∧ link_ g = None ∧ link_ g' = Some this ∧
         merged_at_iteration_ g' = iteration).

Lemma turn_refl iteration this h : turn iteration this h h.
Proof.
  split; [done|]. split; [done|]. intros e g Hg. exists g.
  repeat (split; [done|]). by left.
Qed.

Lemma turn_trans iteration this h1 h2 h3 :
  turn iteration this h1 h2 → turn iteration this h2 h3 →
  turn iteration this h1 h3.
Proof.
  intros (Ho1 & Hl1 & H1) (Ho2 & Hl2 & H2).
  split; [congruence|]. split; [congruence|].
  intros e g Hg.
  destruct (H1 _ _ Hg) as (g1 & Hg1 & Hgr1 & Hfp1 & Hs1 & He1 & Hk1).
  destruct (H2 _ _ Hg1) as (g2 & Hg2 & Hgr2 & Hfp2 & Hs2 & He2 & Hk2).
  exists g2. split; [done|]. split; [congruence|]. split; [congruence|].
  split; [congruence|]. split.
  { intros Hne. rewrite He2, He1; done. }
  destruct Hk1 as [[Hk1 Hm1]|(Hne & Hk1 & Hk1' & Hm1)],
           Hk2 as [[Hk2 Hm2]|(Hne2 & Hk2 & Hk2' & Hm2)].
  - left. split; congruence.
  - right. repeat split; try done; congruence.
  - right. repeat split; try done; congruence.
  - congruence.
Qed.

Lemma absorbs_turn iteration this other h h' :
  absorbs iteration this other h h' → turn iteration this h h'.
Proof.
  intros (g & o & l & Hne & Hg & Ho & Hlo & Hobjs & Hlen & Hg' & Ho' & Hothers).
  split; [done|]. split; [done|]. intros e g0 Hg0.
  destruct (decide (e = this)) as [->|Hn1]; [|destruct (decide (e = other)) as [->|Hn2]].
  - simplify_eq. eexists. split; [done|]. repeat (split; [done|]). by left.
  - simplify_eq. eexists. split; [done|]. repeat (split; [done|]).
    right. by repeat split.
  - exists g0. rewrite Hothers by done. repeat (split; [done|]). by left.
Qed.

Lemma try_all_turn this iteration all_eogs : ∀ h g affected h' affected',
  groups h !! this = Some g → link_ g = None →
  try_all isEquivalentTo isIdenticalTo h this all_eogs affected iteration
  = Some (h', affected') →
  turn iteration this h h'.
Proof.
  induction all_eogs as [|eog all_eogs IH]; intros h g affected h' affected' Hg Hl H;
    simpl in H.
  - simplify_eq. apply turn_refl.
  - destruct (groups h !! eog) as [o|] eqn:Ho; simplify_eq/=.
    destruct (isRootNode o) eqn:Hroot; simpl in H; [|by eapply IH].
    apply isRootNode_true in Hroot.
    destruct (EquivalentObjectGroup_tryToMergeWith _ _ _ _ _ _ _)
      as [[[h1 affected1] b]|] eqn:Ht; simplify_eq/=.
    unfold EquivalentObjectGroup_tryToMergeWith in Ht.
    assert (turn iteration this h h1) as Hturn.
    { eapply tryToMergeWith_roots_effect in Ht as [(-> & _)|[_ Ha]]; try done.
      - apply turn_refl.
      - by eapply absorbs_turn. }
    eapply turn_trans; [done|].
    destruct Hturn as (_ & _ & Hturn).
    destruct (Hturn _ _ Hg) as (g1 & Hg1 & _ & _ & _ & _ & [[Hk _]|(? & _)]);
      [|done].
    eapply IH; [done| |done]. congruence.
Qed.

(** One group's [updateEquivalences]: its turn if it is a root, and then
    the count of its equivalent objects is put at the end of its history. *)
Lemma updateEquivalences_effect h this all_eogs affected iteration h' affected' :
  EquivalentObjectGroup_updateEquivalences isEquivalentTo isIdenticalTo
    h this all_eogs affected iteration = Some (h', affected') →
  ∃ h1 g1,
    turn iteration this h h1 ∧ groups h1 !! this = Some g1 ∧
    h' = set_group h1 this
           (with_size_per_iteration
              (size_per_iteration_ g1
                 ++ [uint_of_size (length (equivalent_objects_ g1))]) g1).
Proof.
  unfold EquivalentObjectGroup_updateEquivalences. intros H.
  destruct (groups h !! this) as [g|] eqn:Hg; simplify_eq/=.
  destruct (isRootNode g) eqn:Hroot.
  - apply isRootNode_true in Hroot.
    destruct (try_all _ _ _ _ _ _ _) as [[h1 affected1]|] eqn:Ht; simplify_eq/=.
    destruct (groups h1 !! this) as [g1|] eqn:Hg1; simplify_eq/=.
    exists h1, g1. split; [by eapply try_all_turn|done].
  - simpl in H. rewrite Hg in H. simplify_eq/=.
    exists h, g. split; [apply turn_refl|done].
Qed.

(** The whole of a pass, seen from one group: its link is left alone, or
    the group was a root and is now forwarded and stamped. *)
Definition passed (iteration : N) (h h' : Heap) : Prop :=
  equivalent_objects h' = equivalent_objects h ∧
  length (groups h') = length (groups h) ∧
  ∀ e g, groups h !! e = Some g →
    ∃ g', groups h' !! e = Some g' ∧
      is_grounded_ g' = is_grounded_ g ∧ finger_print_ g' = finger_print_ g ∧
      (link_ g' = link_ g ∧ merged_at_iteration_ g' = merged_at_iteration_ g
       ∨ link_ g = None ∧ (∃ t, link_ g' = Some t ∧ t ≠ e) ∧
         merged_at_iteration_ g' = iteration).

Lemma passed_refl iteration h : passed iteration h h.
Proof.
  split; [done|]. split; [done|]. intros e g Hg. exists g.
  repeat (split; [done|]). by left.
Qed.

Lemma passed_trans iteration h1 h2 h3 :
  passed iteration h1 h2 → passed iteration h2 h3 → passed iteration h1 h3.
Proof.
  intros (Ho1 & Hl1 & H1) (Ho2 & Hl2 & H2).
  split; [congruence|]. split; [congruence|].
  intros e g Hg.
  destruct (H1 _ _ Hg) as (g1 & Hg1 & Hgr1 & Hfp1 & Hk1).
  destruct (H2 _ _ Hg1) as (g2 & Hg2 & Hgr2 & Hfp2 & Hk2).
  exists g2. split; [done|]. split; [congruence|]. split; [congruence|].
  destruct Hk1 as [[Hk1 Hm1]|(Hk1 & (t & Hk1' & Ht) & Hm1)],
           Hk2 as [[Hk2 Hm2]|(Hk2 & Hk2' & Hm2)].
  - left. split; congruence.
  - right. repeat split; try done; congruence.
  - right. split; [done|]. split; [|congruence]. exists t. split; [congruence|done].
  - congruence.
Qed.

Lemma turn_passed iteration this h h' :
  turn iteration this h h' → passed iteration h h'.
Proof.
  intros (Ho & Hl & H). split; [done|]. split; [done|]. intros e g Hg.
  destruct (H _ _ Hg) as (g' & Hg' & Hgr & Hfp & _ & _ & Hk).
  exists g'. repeat (split; [done|]).
  destruct Hk as [?|(Hne & Hk & Hk' & Hm)]; [by left|].
  right. split; [done|]. split; [|done]. exists this. split; [done|].
  by apply not_eq_sym.
Qed.

(** A write to a group that leaves its flag, fingerprint, link and stamp. *)
Lemma set_group_passed iteration h e g g' :
  groups h !! e = Some g →
  is_grounded_ g' = is_grounded_ g → finger_print_ g' = finger_print_ g →
  link_ g' = link_ g → merged_at_iteration_ g' = merged_at_iteration_ g →
  passed iteration h (set_group h e g').
Proof.
  intros Hg Hgr Hfp Hk Hm.
  split; [apply equivalent_objects_set_group|].
  split; [apply length_groups_set_group|].
  intros e0 g0 Hg0. destruct (decide (e0 = e)) as [->|Hne].
  - simplify_eq. exists g'. rewrite lookup_set_group_eq by eauto.
    repeat (split; [done|]). by left.
  - exists g0. rewrite lookup_set_group_ne by done.
    repeat (split; [done|]). by left.
Qed.

Lemma update_each_passed iteration all_eogs todo : ∀ h affected h' affected',
  update_each isEquivalentTo isIdenticalTo h todo all_eogs affected iteration
  = Some (h', affected') →
  passed iteration h h'.
Proof.
  induction todo as [|this todo IH]; intros h affected h' affected' H; simpl in H.
  - simplify_eq. apply passed_refl.
  - destruct (EquivalentObjectGroup_updateEquivalences _ _ _ _ _ _ _)
      as [[h1 affected1]|] eqn:Ht; simplify_eq/=.
    apply updateEquivalences_effect in Ht as (h0 & g0 & Hturn & Hg0 & ->).
    eapply passed_trans; [by eapply turn_passed|].
    eapply passed_trans; [|by eapply IH].
    by eapply set_group_passed.
Qed.

Lemma purge_each_passed iteration affected : ∀ h h',
  purge_each h affected = Some h' → passed iteration h h'.
Proof.
  induction affected as [|eog affected IH]; intros h h' H; simpl in H.
  - simplify_eq. apply passed_refl.
  - destruct (groups h !! eog) as [g|] eqn:Hg; simplify_eq/=.
    destruct (isRootNode g); [|by eapply IH].
    destruct (EquivalentObjectGroup_deleteRemovedFacts h eog) as [h1|] eqn:Hd;
      simplify_eq/=.
    eapply passed_trans; [|by eapply IH].
    unfold EquivalentObjectGroup_deleteRemovedFacts in Hd. rewrite Hg in Hd.
    simpl in Hd. destruct (deleteRemovedFacts_erase _ _ _); simplify_eq/=.
    by eapply set_group_passed.
Qed.

Lemma updateEquivalences_passed h iteration h' :
  EquivalentObjectGroupManager_updateEquivalences isEquivalentTo isIdenticalTo
    h iteration = Some h' →
  passed iteration h h'.
Proof.
  unfold EquivalentObjectGroupManager_updateEquivalences. intros H.
  destruct (update_each _ _ _ _ _ _ _) as [[h1 affected]|] eqn:Hu; simplify_eq/=.
  eapply passed_trans; [by eapply update_each_passed|by eapply purge_each_passed].
Qed.


(** *** The history a pass writes *)

Lemma purge_each_refiles affected : ∀ h h',
  purge_each h affected = Some h' →
  ∀ e g, groups h !! e = Some g →
    ∃ l, groups h' !! e = Some (with_reachable_facts l g).
Proof.
  induction affected as [|eog affected IH]; intros h h' H e g Hg; simpl in H.
  - simplify_eq. exists (reachable_facts_ g). by rewrite with_reachable_facts_same.
  - destruct (groups h !! eog) as [g0|] eqn:Hg0; simplify_eq/=.
    destruct (isRootNode g0); [|by eapply IH].
    destruct (EquivalentObjectGroup_deleteRemovedFacts h eog) as [h1|] eqn:Hd;
      simplify_eq/=.
    unfold EquivalentObjectGroup_deleteRemovedFacts in Hd. rewrite Hg0 in Hd.
    simpl in Hd. destruct (deleteRemovedFacts_erase _ _ _) as [kept|];
      simplify_eq/=.
    destruct (decide (e = eog)) as [->|Hne].
    + assert (g0 = g) as -> by congruence.
      destruct (IH _ _ H eog (with_reachable_facts kept g)) as (l & Hl).
      { apply lookup_set_group_eq; eauto. }
      by exists l.
    + eapply IH; [done|]. by rewrite lookup_set_group_ne.
Qed.

(** The turns of the groups of [todo]: a group of [todo] gets the count of
    the equivalent objects it ends up with; the other groups keep their
    history and their equivalent objects. *)
Lemma update_each_records iteration all_eogs todo :
  NoDup todo →
  ∀ h affected h' affected',
    update_each isEquivalentTo isIdenticalTo h todo all_eogs affected iteration
    = Some (h', affected') →
    ∀ e g, groups h !! e = Some g →
      ∃ g', groups h' !! e = Some g' ∧
        (e ∈ todo →
         size_per_iteration_ g' =
           size_per_iteration_ g
             ++ [uint_of_size (length (equivalent_objects_ g'))]) ∧
        (e ∉ todo →
         size_per_iteration_ g' = size_per_iteration_ g ∧
         equivalent_objects_ g' = equivalent_objects_ g).
Proof.
  induction 1 as [|this todo Hnotin Hnd IH]; intros h affected h' affected' H e g Hg;
    simpl in H.
  - simplify_eq. exists g. split; [done|]. split; [by intros ?%elem_of_nil|done].
  - destruct (EquivalentObjectGroup_updateEquivalences _ _ _ _ _ _ _)
      as [[h1 affected1]|] eqn:Ht; simplify_eq/=.
    apply updateEquivalences_effect in Ht as (h0 & g0 & Hturn & Hg0 & ->).
    destruct Hturn as (_ & _ & Hturn).
    destruct (Hturn _ _ Hg) as (g1 & Hg1 & _ & _ & Hs1 & He1 & _).
    destruct (decide (e = this)) as [->|Hne].
    + assert (g1 = g0) as -> by congruence.
      edestruct (IH _ _ _ _ H this) as (g' & Hg' & _ & Hkeep).
      { apply lookup_set_group_eq; eauto. }
      destruct (Hkeep Hnotin) as [Hs' He']. simpl in Hs', He'.
      exists g'. split; [done|]. split.
      * intros _. by rewrite Hs', He', Hs1.
      * intros []. by left.
    + edestruct (IH _ _ _ _ H e) as (g' & Hg' & Hin & Hout).
      { by rewrite lookup_set_group_ne. }
      exists g'. split; [done|]. split.
      * intros [?|Hin']%elem_of_cons; [done|]. by rewrite Hin, Hs1.
      * intros Hnin. destruct Hout as [Hs' He'].
        { intros ?. apply Hnin. by right. }
        by rewrite Hs', He', Hs1, He1.
Qed.

Lemma updateEquivalences_records h iteration h' e g :
  EquivalentObjectGroupManager_updateEquivalences isEquivalentTo isIdenticalTo
    h iteration = Some h' →
  groups h !! e = Some g →
  ∃ g', groups h' !! e = Some g' ∧
    size_per_iteration_ g' =
      size_per_iteration_ g ++ [uint_of_size (length (equivalent_objects_ g'))].
Proof.
  unfold EquivalentObjectGroupManager_updateEquivalences. intros H Hg.
  destruct (update_each _ _ _ _ _ _ _) as [[h1 affected]|] eqn:Hu; simplify_eq/=.
  eapply update_each_records in Hu as (g1 & Hg1 & Hin & _);
    [|apply NoDup_seq|done].
  destruct (purge_each_refiles _ _ _ H _ _ Hg1) as (l & Hl).
  eexists. split; [done|]. simpl. apply Hin.
  apply equivalent_groups_spec. eauto.
Qed.


(** *** A store in step with the passes

    The state of the groups after the passes [0], ..., [iteration - 1]:
    every history has one entry per pass, the last of which is the present
    count of equivalent objects; a root carries no stamp, and a forwarded
    group carries the stamp of one of these passes. *)
Definition in_step (iteration : N) (h : Heap) : Prop :=
  ∀ e g, groups h !! e = Some g →
    length (size_per_iteration_ g) = N.to_nat iteration ∧
    (∀ n, last (size_per_iteration_ g) = Some n →
          n = uint_of_size (length (equivalent_objects_ g))) ∧
    (link_ g = None → merged_at_iteration_ g = UINT_MAX) ∧
    (link_ g ≠ None → (merged_at_iteration_ g < iteration)%N).

Lemma getRootNode_at_is_root depth : ∀ h e r,
  getRootNode_at depth h e = Some r → is_root h r.
Proof.
  induction depth as [|depth IH]; intros h e r H; simpl in H.
  - destruct (groups h !! e) as [g|] eqn:Hg; simplify_eq/=.
    destruct (link_ g) eqn:Hl; simplify_eq. by exists g.
  - destruct (groups h !! e) as [g|] eqn:Hg; simplify_eq/=.
    destruct (link_ g) eqn:Hl; simplify_eq; [by eapply IH|]. by exists g.
Qed.

(** In a store in step, the query about the last pass made and the walk
    to the root follow the same links. *)
Lemma contains_at_root_walk h object iteration :
  in_step (iteration + 1) h → (iteration < UINT_MAX)%N →
  ∀ depth e,
    contains_at depth h e object iteration =
    r ← getRootNode_at depth h e;
    g ← groups h !! r;
    bound ← size_per_iteration_ g !! N.to_nat iteration;
    contains_scan h (equivalent_objects_ g) object 0 (N.to_nat bound).
Proof.
  intros Hstep Hit. induction depth as [|depth IH]; intros e.
  - simpl. destruct (groups h !! e) as [g|] eqn:Hg; [|done]. simpl.
    destruct (Hstep _ _ Hg) as (_ & _ & Hroot & Hfw).
    destruct (link_ g) as [l|] eqn:Hl.
    + rewrite (proj2 (N.leb_le _ _)); [done|].
      specialize (Hfw ltac:(done)). lia.
    + rewrite (proj2 (N.leb_gt _ _)); [|rewrite Hroot; done].
      simpl. by rewrite Hg.
  - simpl. destruct (groups h !! e) as [g|] eqn:Hg; [|done]. simpl.
    destruct (Hstep _ _ Hg) as (_ & _ & Hroot & Hfw).
    destruct (link_ g) as [l|] eqn:Hl.
    + rewrite (proj2 (N.leb_le _ _)); [|specialize (Hfw ltac:(done)); lia].
      simpl. apply IH.
    + rewrite (proj2 (N.leb_gt _ _)); [|rewrite Hroot; done].
      simpl. by rewrite Hg.
Qed.


(** X5.  A pass of the manager's [updateEquivalences] never
    changes the grounded flag or the fingerprint of a group, and it
    changes a link only by forwarding a root to another group, which it
    stamps with the iteration: a group that was forwarded before keeps its
    link and its stamp. *)
Theorem pass_forwards_roots_only h iteration h' e g :
  EquivalentObjectGroupManager_updateEquivalences isEquivalentTo isIdenticalTo
    h iteration = Some h' →
  groups h !! e = Some g →
  ∃ g', groups h' !! e = Some g' ∧
    is_grounded_ g' = is_grounded_ g ∧ finger_print_ g' = finger_print_ g ∧
    (link_ g' = link_ g ∧ merged_at_iteration_ g' = merged_at_iteration_ g
     ∨ link_ g = None ∧ (∃ t, link_ g' = Some t ∧ t ≠ e) ∧
       merged_at_iteration_ g' = iteration).
Proof.
  intros H Hg. apply updateEquivalences_passed in H as (_ & _ & H). by apply H.
Qed.

(** X6.  A pass puts at the end of the history of every group the
    number of equivalent objects the group has when the pass is over:
    nothing that happens after the turn of a group changes its objects. *)
Theorem pass_records_present_count h iteration h' e g :
  EquivalentObjectGroupManager_updateEquivalences isEquivalentTo isIdenticalTo
    h iteration = Some h' →
  groups h !! e = Some g →
  ∃ g', groups h' !! e = Some g' ∧
    size_per_iteration_ g' =
      size_per_iteration_ g ++ [uint_of_size (length (equivalent_objects_ g'))].
Proof. apply updateEquivalences_records. Qed.

(** X7.  A store that is in step with the passes before [iteration]
    is, after the pass at [iteration], in step with the passes before
    [iteration + 1]: every history has one entry per pass and ends with
    the present count, roots carry no stamp, and forwarded groups carry
    the stamp of a pass that was made. *)
Theorem pass_keeps_step h iteration h' :
  in_step iteration h →
  EquivalentObjectGroupManager_updateEquivalences isEquivalentTo isIdenticalTo
    h iteration = Some h' →
  in_step (iteration + 1) h'.
Proof.
  intros Hstep H e g' Hg'.
  pose proof (updateEquivalences_passed _ _ _ H) as (_ & Hlen & Hpassed).
  assert (is_Some (groups h !! e)) as [g Hg].
  { apply lookup_lt_is_Some. rewrite <-Hlen. by eapply lookup_lt_Some. }
  destruct (Hstep _ _ Hg) as (Hsize & _ & Hroot & Hfw).
  destruct (Hpassed _ _ Hg) as (g1 & Hg1 & _ & _ & Hlink).
  destruct (updateEquivalences_records _ _ _ _ _ H Hg) as (g2 & Hg2 & Hrec).
  assert (g1 = g') as -> by congruence. assert (g2 = g') as -> by congruence.
  split; [rewrite Hrec, length_app; simpl; lia|].
  split.
  { intros n Hn. rewrite Hrec, last_snoc in Hn. congruence. }
  destruct Hlink as [[Hl Hm]|(Hl & (t & Hl' & _) & Hm)].
  - split.
    + intros Hnone. rewrite Hm. apply Hroot. congruence.
    + intros Hsome. rewrite Hm. rewrite Hl in Hsome. specialize (Hfw Hsome). lia.
  - split; [congruence|]. intros _. lia.
Qed.

(** X8.  In a store in step with the passes up to [iteration], asking
    any group whether it contained an object at [iteration] is asking the
    root of the group whether it contains the object now. *)
Theorem contains_at_latest_iteration h iteration e object :
  in_step (iteration + 1) h → (iteration < UINT_MAX)%N →
  (∀ e g, groups h !! e = Some g →
          (N.of_nat (length (equivalent_objects_ g)) ≤ UINT_MAX)%N) →
  EquivalentObjectGroup_contains h e object iteration =
  r ← EquivalentObjectGroup_getRootNode h e;
  EquivalentObjectGroup_contains_object h r object.
Proof.
  intros Hstep Hit Hsmall.
  unfold EquivalentObjectGroup_contains, EquivalentObjectGroup_getRootNode.
  rewrite (contains_at_root_walk _ _ _ Hstep Hit).
  destruct (getRootNode_at _ h e) as [r|] eqn:Hr; [|done]. simpl.
  unfold EquivalentObjectGroup_contains_object.
  destruct (groups h !! r) as [g|] eqn:Hg; [|done]. simpl.
  destruct (Hstep _ _ Hg) as (Hsize & Hlast & _).
  rewrite last_lookup, Hsize in Hlast.
  replace (N.to_nat (iteration + 1)) with (S (N.to_nat iteration)) in Hlast by lia.
  simpl in Hlast.
  destruct (size_per_iteration_ g !! N.to_nat iteration) as [bound|] eqn:Hb.
  - simpl. rewrite (Hlast _ eq_refl), uint_of_size_small by eauto.
    by rewrite Nat2N.id.
  - apply lookup_ge_None in Hb. replace (N.to_nat (iteration + 1)) with (S (N.to_nat iteration)) in Hsize by lia. lia.
Qed.


(** *** The number of groups *)

Definition number_of_roots (eogs : list EquivalentObjectGroup) : nat :=
  length (filter (λ g, link_ g = None) eogs).

Lemma number_of_roots_cons g eogs :
  number_of_roots (g :: eogs) =
  (if decide (link_ g = None) then 1 else 0) + number_of_roots eogs.
Proof.
  unfold number_of_roots. destruct (decide (link_ g = None)).
  - by rewrite filter_cons_True.
  - by rewrite filter_cons_False.
Qed.

Lemma number_of_roots_length eogs : number_of_roots eogs ≤ length eogs.
Proof. apply length_filter. Qed.

Lemma count_root_nodes_spec eogs : ∀ index,
  (index + N.of_nat (length eogs) ≤ UINT_MAX)%N →
  count_root_nodes eogs index = (index + N.of_nat (number_of_roots eogs))%N.
Proof.
  induction eogs as [|g eogs IH]; intros index Hsmall; simpl.
  - unfold number_of_roots. simpl. lia.
  - simpl in Hsmall. rewrite number_of_roots_cons.
    unfold isRootNode. destruct (decide (link_ g = None)) as [Hl|Hl].
    + rewrite bool_decide_eq_true_2 by done.
      rewrite N.mod_small by lia. rewrite IH by lia. lia.
    + rewrite bool_decide_eq_false_2 by done. rewrite IH by lia. lia.
Qed.

Lemma getNumberOfEquivalentGroups_spec h :
  (N.of_nat (length (groups h)) ≤ UINT_MAX)%N →
  EquivalentObjectGroupManager_getNumberOfEquivalentGroups h
  = N.of_nat (number_of_roots (groups h)).
Proof.
  intros Hsmall. unfold EquivalentObjectGroupManager_getNumberOfEquivalentGroups.
  rewrite count_root_nodes_spec by lia. lia.
Qed.

Lemma number_of_roots_le : ∀ l l' : list EquivalentObjectGroup,
  length l = length l' →
  (∀ e g g', l !! e = Some g → l' !! e = Some g' →
             link_ g' = None → link_ g = None) →
  number_of_roots l' ≤ number_of_roots l.
Proof.
  induction l as [|g l IH]; intros [|g' l'] Hlen H; simplify_eq/=; [done|].
  rewrite !number_of_roots_cons.
  specialize (IH l' Hlen (λ e, H (S e))).
  pose proof (H 0 g g' eq_refl eq_refl).
  destruct (decide (link_ g' = None)), (decide (link_ g = None)); try lia.
  tauto.
Qed.

Lemma number_of_roots_same (l l' : list EquivalentObjectGroup) :
  length l = length l' →
  (∀ e g g', l !! e = Some g → l' !! e = Some g' → link_ g' = link_ g) →
  number_of_roots l' = number_of_roots l.
Proof.
  intros Hlen H. apply Nat.le_antisymm; apply number_of_roots_le; try done.
  - intros e g g' Hg Hg' Hn. rewrite <-Hn. symmetry. by eapply H.
  - intros e g g' Hg Hg' Hn. rewrite <-Hn. by eapply H.
Qed.

Lemma number_of_roots_forwarded : ∀ (l l' : list EquivalentObjectGroup) o g g',
  length l = length l' →
  l !! o = Some g → link_ g = None →
  l' !! o = Some g' → link_ g' ≠ None →
  (∀ e x x', e ≠ o → l !! e = Some x → l' !! e = Some x' → link_ x' = link_ x) →
  number_of_roots l' + 1 = number_of_roots l.
Proof.
  induction l as [|x l IH]; intros [|x' l'] o g g' Hlen Hg Hl Hg' Hl' H;
    simplify_eq/=.
  rewrite !number_of_roots_cons. destruct o as [|o]; simplify_eq/=.
  - destruct (decide (link_ g' = None)), (decide (link_ g = None)); try done.
    rewrite (number_of_roots_same l l'); [lia|done|].
    intros k y y' Hy Hy'. by apply (H (S k)).
  - rewrite <-(IH l' o g g' Hlen Hg Hl Hg' Hl').
    + rewrite (H 0 x x'); [lia|done..].
    + intros k y y' Hne Hy Hy'. apply (H (S k)); [lia|done..].
Qed.

(** X3.  An attempt to merge two different roots leaves the number of
    groups the manager reports as it is when it answers false, and lowers
    it by one when it answers true. *)
Theorem merge_removes_one_group h this other g o affected iteration
    h' affected' b :
  (N.of_nat (length (groups h)) ≤ UINT_MAX)%N →
  this ≠ other →
  groups h !! this = Some g → groups h !! other = Some o →
  link_ g = None → link_ o = None →
  EquivalentObjectGroup_tryToMergeWith isEquivalentTo isIdenticalTo
    h this other affected iteration = Some (h', affected', b) →
  EquivalentObjectGroupManager_getNumberOfEquivalentGroups h =
  (EquivalentObjectGroupManager_getNumberOfEquivalentGroups h'
   + if b then 1 else 0)%N.
Proof.
  intros Hsmall Hne Hg Ho Hlg Hlo H.
  eapply tryToMergeWith_roots_effect in H as [(-> & _ & Hb)|[-> Ha]]; try done.
  - destruct b; [by specialize (Hb eq_refl)|]. lia.
  - destruct Ha as (g0 & o0 & l & _ & Hg0 & Ho0 & _ & _ & Hlen & Hg' & Ho' & Hothers).
    assert (g0 = g) as -> by congruence. assert (o0 = o) as -> by congruence.
    rewrite !getNumberOfEquivalentGroups_spec by lia.
    rewrite <-(number_of_roots_forwarded (groups h) (groups h') other o _
                 (eq_sym Hlen) Ho0 Hlo Ho'); [lia|done|].
    intros e x x' Hn Hx Hx'. destruct (decide (e = this)) as [->|Hn'].
    + by simplify_eq.
    + rewrite Hothers in Hx' by done. congruence.
Qed.

(** X4.  A pass never raises the number of groups the manager
    reports. *)
Theorem pass_never_adds_groups h iteration h' :
  (N.of_nat (length (groups h)) ≤ UINT_MAX)%N →
  EquivalentObjectGroupManager_updateEquivalences isEquivalentTo isIdenticalTo
    h iteration = Some h' →
  (EquivalentObjectGroupManager_getNumberOfEquivalentGroups h'
   ≤ EquivalentObjectGroupManager_getNumberOfEquivalentGroups h)%N.
Proof.
  intros Hsmall H. apply updateEquivalences_passed in H as (_ & Hlen & H).
  rewrite !getNumberOfEquivalentGroups_spec by lia.
  enough (number_of_roots (groups h') ≤ number_of_roots (groups h)) by lia.
  apply number_of_roots_le; [done|].
  intros e g g' Hg Hg' Hn.
  destruct (H _ _ Hg) as (g1 & Hg1 & _ & _ & [[Hl _]|(_ & (t & Hl & _) & _)]);
    congruence.
Qed.


(** *** The objects of a merged group *)

Lemma contains_scan_shift h x eos object steps : ∀ i,
  contains_scan h (x :: eos) object (S i) steps = contains_scan h eos object i steps.
Proof.
  induction steps as [|steps IH]; intros i; simpl; [done|].
  destruct (eos !! i) as [r|]; [|done]. simpl.
  destruct (equivalent_objects h !! r) as [eo|]; [|done]. simpl.
  by rewrite IH.
Qed.

Lemma contains_scan_app h object l1 l2 :
  contains_scan h (l1 ++ l2) object 0 (length (l1 ++ l2)) =
  b ← contains_scan h l1 object 0 (length l1);
  if b : bool then Some true else contains_scan h l2 object 0 (length l2).
Proof.
  induction l1 as [|r l1 IH]; simpl; [done|].
  destruct (equivalent_objects h !! r) as [eo|]; [|done]. simpl.
  case_bool_decide; [done|]. by rewrite !contains_scan_shift.
Qed.

Lemma contains_scan_heap h h' eos object steps : ∀ i,
  equivalent_objects h' = equivalent_objects h →
  contains_scan h' eos object i steps = contains_scan h eos object i steps.
Proof.
  intros i Heq. revert i. induction steps as [|steps IH]; intros i; simpl; [done|].
  rewrite Heq. destruct (eos !! i) as [r|]; [|done]. simpl.
  destruct (equivalent_objects h !! r) as [eo|]; [|done]. simpl.
  by rewrite IH.
Qed.

(** X2.  When an attempt to merge two different roots answers true,
    [this] contains an object iff [this] or the other group contained it
    (the objects of [this] are asked first), every third group contains
    what it contained, and the two groups have become identical. *)
Theorem tryToMergeWith_joins h this other g o affected iteration h' affected' :
  this ≠ other →
  groups h !! this = Some g → groups h !! other = Some o →
  link_ g = None → link_ o = None →
  EquivalentObjectGroup_tryToMergeWith isEquivalentTo isIdenticalTo
    h this other affected iteration = Some (h', affected', true) →
  (∀ object,
     EquivalentObjectGroup_contains_object h' this object =
     b ← EquivalentObjectGroup_contains_object h this object;
     if b : bool then Some true
     else EquivalentObjectGroup_contains_object h other object) ∧
  (∀ e object, e ≠ this → e ≠ other →
     EquivalentObjectGroup_contains_object h' e object =
     EquivalentObjectGroup_contains_object h e object) ∧
  EquivalentObjectGroup_isIdenticalTo h' this other = Some true ∧
  EquivalentObjectGroup_eq h' this other = Some true.
Proof.
  intros Hne Hg Ho Hlg Hlo H.
  eapply tryToMergeWith_roots_effect in H as [(_ & _ & Hb)|[_ Ha]]; try done.
  { by specialize (Hb eq_refl). }
  destruct Ha as (g0 & o0 & l & _ & Hg0 & Ho0 & _ & Hobjs & Hlen & Hg' & Ho' & Hothers).
  assert (g0 = g) as -> by congruence. assert (o0 = o) as -> by congruence.
  assert (EquivalentObjectGroup_getRootNode h' this = Some this) as Hroot.
  { apply getRootNode_root. eexists. split; [done|]. done. }
  assert (EquivalentObjectGroup_getRootNode h' other = Some this) as Hfw.
  { eapply getRootNode_forwarded; [|done|done].
    eexists. split; [done|]. done. }
  split; [|split; [|split]].
  - intros object. unfold EquivalentObjectGroup_contains_object.
    rewrite Hg', Hg, Ho. simpl.
    rewrite contains_scan_app. by rewrite !(contains_scan_heap h h').
  - intros e object Hn1 Hn2. unfold EquivalentObjectGroup_contains_object.
    rewrite Hothers by done. destruct (groups h !! e); [|done]. simpl.
    by rewrite (contains_scan_heap h h').
  - unfold EquivalentObjectGroup_isIdenticalTo, EquivalentObjectGroup_eq.
    rewrite Hroot, Hfw. simpl. rewrite Hroot. simpl.
    by rewrite bool_decide_eq_true_2.
  - unfold EquivalentObjectGroup_eq. rewrite Hroot, Hfw. simpl.
    by rewrite bool_decide_eq_true_2.
Qed.


End StoreFrame.

(** *** The facts a group keeps *)

Lemma deleteRemovedFacts_erase_spec h : ∀ k l,
  k ≤ length l →
  (∀ r, r ∈ take k l → is_Some (facts h !! r)) →
  deleteRemovedFacts_erase h k l =
  Some (filter (λ r, Is_true (unmarked h r)) (take k l) ++ drop k l).
Proof.
  induction k as [|k IH]; intros l Hk Hvalid; simpl.
  { done. }
  destruct (lookup_lt_is_Some_2 l k) as [r Hr]; [lia|].
  rewrite Hr. simpl.
  destruct (delete_last_taken l k r Hr) as (Ht & Hd & Hts & Hds).
  destruct (Hvalid r) as [f Hf].
  { rewrite Hts. apply elem_of_app. right. by apply list_elem_of_singleton. }
  rewrite Hf. simpl.
  assert (∀ r', r' ∈ take k l → is_Some (facts h !! r')) as Hvalid'.
  { intros r' Hin. apply Hvalid. rewrite Hts. apply elem_of_app. by left. }
  assert (unmarked h r = negb (isMarkedForRemoval f)) as Hun
    by (unfold unmarked; by rewrite Hf).
  rewrite Hts, filter_app.
  destruct (isMarkedForRemoval f).
  - rewrite IH.
    + rewrite Ht, Hd.
      rewrite filter_cons_False by (rewrite Hun; simpl; tauto).
      by rewrite filter_nil, app_nil_r.
    + rewrite length_delete by eauto. lia.
    + by rewrite Ht.
  - rewrite IH by (done || lia). rewrite Hds.
    rewrite filter_cons_True by (rewrite Hun; simpl; tauto).
    by rewrite filter_nil, <- app_assoc.
Qed.

(** X1.  [deleteRemovedFacts] on a group whose reachable facts all
    exist returns, and leaves in the list of the group exactly the facts
    that are not marked for removal, in the order they had; nothing else
    of the store changes. *)
Theorem deleteRemovedFacts_keeps_unmarked h this g :
  groups h !! this = Some g →
  (∀ r, r ∈ reachable_facts_ g → is_Some (facts h !! r)) →
  EquivalentObjectGroup_deleteRemovedFacts h this =
  Some (set_group h this
          (with_reachable_facts
             (filter (λ r, Is_true (unmarked h r)) (reachable_facts_ g)) g)).
Proof.
  intros Hg Hvalid. unfold EquivalentObjectGroup_deleteRemovedFacts.
  rewrite Hg. simpl.
  rewrite deleteRemovedFacts_erase_spec; [|done|].
  - simpl. by rewrite firstn_all, drop_all, app_nil_r.
  - intros r. rewrite firstn_all. apply Hvalid.
Qed.

(** *** The store at the start *)

Section StartFacts.

Local Opaque set_group set_fact.

(** What [initialise] does to the groups: lists of reachable facts are
    rewritten, nothing else is. *)
Definition relisted (h h' : Heap) : Prop :=
  length (groups h') = length (groups h) ∧
  ∀ e g, groups h !! e = Some g →
    ∃ l, groups h' !! e = Some (with_reachable_facts l g).

Lemma relisted_refl h : relisted h h.
Proof.
  split; [done|]. intros e g Hg. exists (reachable_facts_ g).
  by rewrite with_reachable_facts_same.
Qed.

Lemma relisted_trans h1 h2 h3 : relisted h1 h2 → relisted h2 h3 → relisted h1 h3.
Proof.
  intros [Hl1 H1] [Hl2 H2]. split; [congruence|]. intros e g Hg.
  destruct (H1 _ _ Hg) as (l1 & Hg1). destruct (H2 _ _ Hg1) as (l2 & Hg2).
  by exists l2.
Qed.

Lemma addReachableFact_relisted h this r h' :
  EquivalentObjectGroup_addReachableFact h this r = Some h' → relisted h h'.
Proof.
  intros H. apply (addReachableFact_refiled this) in H as (_ & Hlen & H).
  split; [done|]. intros e g Hg. destruct (H _ _ Hg) as (l & Hl & _). by exists l.
Qed.

Lemma addInitialFact_relisted h this r h' :
  EquivalentObject_addInitialFact h this r = Some h' → relisted h h'.
Proof.
  unfold EquivalentObject_addInitialFact. intros H.
  destruct (equivalent_objects h !! this) as [eo|]; simplify_eq/=.
  case_bool_decide; simplify_eq; [apply relisted_refl|].
  by apply addReachableFact_relisted in H.
Qed.

Lemma initialise_objects_relisted r : ∀ eos h h',
  initialise_objects h eos r = Some h' → relisted h h'.
Proof.
  induction eos as [|eo eos IH]; intros h h' H; simpl in H.
  - simplify_eq. apply relisted_refl.
  - destruct (EquivalentObject_addInitialFact h eo r) as [h1|] eqn:Ha;
      simplify_eq/=.
    eapply relisted_trans; [by eapply addInitialFact_relisted|by eapply IH].
Qed.

Lemma initialise_terms_relisted r : ∀ terms h h',
  initialise_terms h terms r = Some h' → relisted h h'.
Proof.
  induction terms as [|eog terms IH]; intros h h' H; simpl in H.
  - simplify_eq. apply relisted_refl.
  - destruct (groups h !! eog) as [g|]; simplify_eq/=.
    destruct (initialise_objects h _ r) as [h1|] eqn:Ho; simplify_eq/=.
    eapply relisted_trans; [by eapply initialise_objects_relisted|by eapply IH].
Qed.

Lemma initialise_relisted zero : ∀ initial_facts h h',
  EquivalentObjectGroupManager_initialise h zero initial_facts = Some h' →
  relisted h h'.
Proof.
  induction initial_facts as [|r initial_facts IH]; intros h h' H; simpl in H.
  - simplify_eq. apply relisted_refl.
  - destruct (facts h !! r) as [f|]; simplify_eq/=.
    case_bool_decide.
    + destruct (initialise_terms h _ r) as [h1|] eqn:Ht; simplify_eq/=.
      eapply relisted_trans; [by eapply initialise_terms_relisted|by eapply IH].
    + destruct (EquivalentObjectGroup_addReachableFact h zero r) as [h1|] eqn:Ha;
        simplify_eq/=.
      eapply relisted_trans; [by eapply addReachableFact_relisted|by eapply IH].
Qed.

Lemma constructor_group objects pool e g :
  groups (EquivalentObjectGroupManager_constructor objects pool) !! e = Some g →
  link_ g = None ∧ merged_at_iteration_ g = UINT_MAX ∧
  size_per_iteration_ g = [] ∧ reachable_facts_ g = [] ∧
  (e < length objects ∧ equivalent_objects_ g = [e]
   ∨ e = length objects ∧ equivalent_objects_ g = [] ∧ is_grounded_ g = true).
Proof.
  simpl. intros Hg. apply lookup_app_Some in Hg as [Hg|[Hlen Hg]].
  - apply list_lookup_imap_Some in Hg as ([[object grounded] fp] & Ho & ->).
    simpl. repeat (split; [done|]). left. split; [|done].
    by eapply lookup_lt_Some.
  - rewrite length_imap in Hlen, Hg.
    apply list_lookup_singleton_Some in Hg as [Hz <-]. simpl.
    repeat (split; [done|]). right. split; [lia|done].
Qed.

Lemma number_of_roots_all eogs :
  Forall (λ g, link_ g = None) eogs → number_of_roots eogs = length eogs.
Proof.
  induction 1 as [|g eogs Hg _ IH]; [done|].
  rewrite number_of_roots_cons, decide_True by done. simpl. by rewrite IH.
Qed.

(** X9.  The store the constructor makes and [initialise] fills is in
    step with no pass: every group is a root without a stamp and with an
    empty history, every object has a group of its own that contains it
    alone, and the manager reports one group per object and one for the
    facts without terms. *)
Theorem initial_store_in_step objects pool initial_facts h :
  EquivalentObjectGroupManager_initialise
    (EquivalentObjectGroupManager_constructor objects pool)
    (zero_arity_equivalent_object_group_ objects) initial_facts = Some h →
  in_step 0 h ∧
  (∀ e g, groups h !! e = Some g → link_ g = None) ∧
  (∀ e, e < length objects →
        ∃ g, groups h !! e = Some g ∧ equivalent_objects_ g = [e]) ∧
  ((N.of_nat (length objects) < UINT_MAX)%N →
   EquivalentObjectGroupManager_getNumberOfEquivalentGroups h
   = (N.of_nat (length objects) + 1)%N).
Proof.
  intros H. apply initialise_relisted in H as [Hlen H].
  assert (∀ e g, groups h !! e = Some g →
            ∃ g0 l, groups (EquivalentObjectGroupManager_constructor objects pool)
                      !! e = Some g0 ∧ g = with_reachable_facts l g0) as Hback.
  { intros e g Hg.
    destruct (lookup_lt_is_Some_2
                (groups (EquivalentObjectGroupManager_constructor objects pool)) e)
      as [g0 Hg0].
    { rewrite <-Hlen. by eapply lookup_lt_Some. }
    destruct (H _ _ Hg0) as (l & Hl). exists g0, l. split; [done|]. congruence. }
  assert (length (groups h) = S (length objects)) as Hsize.
  { rewrite Hlen. simpl. rewrite length_app, length_imap. simpl. lia. }
  split; [|split; [|split]].
  - intros e g Hg. destruct (Hback _ _ Hg) as (g0 & l & Hg0 & ->).
    apply constructor_group in Hg0 as (Hl & Hm & Hs & _). simpl.
    rewrite Hl, Hm, Hs. done.
  - intros e g Hg. destruct (Hback _ _ Hg) as (g0 & l & Hg0 & ->).
    by apply constructor_group in Hg0 as (Hl & _).
  - intros e He.
    destruct (lookup_lt_is_Some_2 (groups h) e) as [g Hg]; [lia|].
    exists g. split; [done|].
    destruct (Hback _ _ Hg) as (g0 & l & Hg0 & ->).
    apply constructor_group in Hg0 as (_ & _ & _ & _ & [[_ He']|[? _]]); [done|lia].
  - intros Hsmall. rewrite getNumberOfEquivalentGroups_spec by lia.
    rewrite number_of_roots_all.
    + rewrite Hsize. lia.
    + apply Forall_lookup. intros e g Hg.
      destruct (Hback _ _ Hg) as (g0 & l & Hg0 & ->).
      by apply constructor_group in Hg0 as (Hl & _).
Qed.

(** X10.  After [initialise], a group lists none but initial facts,
    each of them a fact without terms or a fact that has the group among
    its terms; and every initial fact is listed by the group of each of
    its terms. *)
Theorem initialise_lists_facts_by_term objects pool initial_facts h :
  (∀ r f e, pool !! r = Some f → e ∈ term_domain_mapping_ f →
            e < length objects) →
  EquivalentObjectGroupManager_initialise
    (EquivalentObjectGroupManager_constructor objects pool)
    (zero_arity_equivalent_object_group_ objects) initial_facts = Some h →
  (∀ e g r, groups h !! e = Some g → r ∈ reachable_facts_ g →
     r ∈ initial_facts ∧
     ∃ f, pool !! r = Some f ∧
          (term_domain_mapping_ f = [] ∨ e ∈ term_domain_mapping_ f)) ∧
  (∀ r f e, r ∈ initial_facts → pool !! r = Some f →
            e ∈ term_domain_mapping_ f →
     ∃ g, groups h !! e = Some g ∧ r ∈ reachable_facts_ g).
Proof.
  intros Hterms H.
  eapply (initialise_listing pool (length objects) Hterms _ (Nat.le_refl _)
            initial_facts _ []) in H as (_ & H1 & H2); [done|].
  split; [|split].
  - split; [done|]. split.
    + intros e g Hg. by apply constructor_group in Hg as (Hl & _).
    + intros e He.
      destruct (lookup_lt_is_Some_2 objects e He) as [[[object grounded] fp] Ho].
      eexists _, _. simpl. rewrite lookup_app_l by (by rewrite length_imap).
      rewrite !list_lookup_imap, Ho. simpl. done.
  - intros e g r Hg Hin. exfalso.
    apply constructor_group in Hg as (_ & _ & _ & Hrf & _).
    rewrite Hrf in Hin. by apply elem_of_nil in Hin.
  - intros r f e Hr. by apply elem_of_nil in Hr.
Qed.

End StartFacts.

(** *** All reachable facts *)

(** The test of [getAllReachableFacts]: the fact exists and none of its
    terms is the group of a closed group. *)
Definition unprocessed (h : Heap) (closed : eog_ref → Prop) (r : fact_ref)
    : Prop :=
  ∃ f, facts h !! r = Some f ∧
       ∀ e, e ∈ term_domain_mapping_ f → ¬ closed e.

Lemma existsb_closed (closed_list : gset eog_ref) (slots : list eog_ref) :
  existsb (λ eog, bool_decide (eog ∈ closed_list)) slots = false ↔
  ∀ e, e ∈ slots → e ∉ closed_list.
Proof.
  induction slots as [|e slots IH]; simpl.
  - split; [|done]. intros _ e He. by apply elem_of_nil in He.
  - rewrite orb_false_iff, IH, bool_decide_eq_false. split.
    + intros [He H] e' [->|Hin]%elem_of_cons; auto.
    + intros H. split; [apply H; by left|]. intros e' Hin. apply H. by right.
Qed.

Lemma collect_reachable_facts_spec h (closed_list : gset eog_ref) : ∀ l result,
  (∀ r, r ∈ l → is_Some (facts h !! r)) →
  ∃ added,
    collect_reachable_facts h closed_list l result = Some (result ++ added) ∧
    ∀ r, r ∈ added ↔ r ∈ l ∧ unprocessed h (λ e, e ∈ closed_list) r.
Proof.
  induction l as [|r l IH]; intros result Hvalid; simpl.
  - exists []. rewrite app_nil_r. split; [done|]. intros r.
    split; [by intros ?%elem_of_nil|by intros [?%elem_of_nil _]].
  - destruct (Hvalid r) as [f Hf]; [by left|]. rewrite Hf. simpl.
    destruct (existsb _ _) eqn:Hex.
    + destruct (IH result) as (added & -> & Hadded).
      { intros r' Hin. apply Hvalid. by right. }
      exists added. split; [done|]. intros r'. rewrite Hadded. split.
      * intros [Hin Hun]. split; [by right|done].
      * intros [[->|Hin]%elem_of_cons Hun]; [|done].
        destruct Hun as (f' & Hf' & Hun). simplify_eq.
        apply existsb_closed in Hun. congruence.
    + destruct (IH (result ++ [r])) as (added & -> & Hadded).
      { intros r' Hin. apply Hvalid. by right. }
      exists (r :: added). split; [by rewrite <-app_assoc|].
      intros r'. rewrite elem_of_cons, Hadded, elem_of_cons. split.
      * intros [->|[Hin Hun]]; [|by auto].
        split; [by left|]. exists f. split; [done|]. by apply existsb_closed.
      * intros [[->|Hin] Hun]; [by left|by right].
Qed.

Lemma unprocessed_iff h (P Q : eog_ref → Prop) r :
  (∀ e, P e ↔ Q e) → unprocessed h P r ↔ unprocessed h Q r.
Proof.
  intros HPQ. unfold unprocessed. split; intros (f & Hf & H); exists f;
    (split; [done|]); intros e He; [rewrite <-HPQ|rewrite HPQ]; by apply H.
Qed.

Lemma getAllReachableFacts_from_spec h :
  (∀ e g r, groups h !! e = Some g → link_ g = None →
            r ∈ reachable_facts_ g → is_Some (facts h !! r)) →
  ∀ eogs (closed_list : gset eog_ref) result,
    (∀ e, e ∈ eogs → is_Some (groups h !! e)) →
    ∃ added,
      getAllReachableFacts_from h eogs closed_list result
      = Some (result ++ added) ∧
      ∀ r, r ∈ added ↔
        ∃ pre e post g,
          eogs = pre ++ e :: post ∧
          groups h !! e = Some g ∧ link_ g = None ∧ r ∈ reachable_facts_ g ∧
          unprocessed h (λ e', e' ∈ closed_list ∨ e' ∈ pre ∧ is_root h e') r.
Proof.
  intros Hvalid. induction eogs as [|eog eogs IH]; intros closed_list result Hg;
    simpl.
  - exists []. rewrite app_nil_r. split; [done|]. intros r. split.
    + by intros ?%elem_of_nil.
    + intros (pre & e & post & _ & Heq & _). by destruct pre.
  - destruct (Hg eog) as [g Hgeog]; [by left|]. rewrite Hgeog. simpl.
    assert (∀ e, e ∈ eogs → is_Some (groups h !! e)) as Hg'.
    { intros e He. apply Hg. by right. }
    destruct (isRootNode g) eqn:Hroot; simpl.
    + apply isRootNode_true in Hroot.
      assert (is_root h eog) as Hr by (by exists g).
      destruct (collect_reachable_facts_spec h closed_list (reachable_facts_ g)
                  result) as (added1 & -> & Hadded1).
      { intros r Hin. by apply (Hvalid eog g r). }
      simpl.
      destruct (IH ({[eog]} ∪ closed_list) (result ++ added1) Hg')
        as (added2 & -> & Hadded2).
      exists (added1 ++ added2). split; [by rewrite app_assoc|].
      intros r. rewrite elem_of_app, Hadded1, Hadded2. split.
      * intros [[Hin Hun]|(pre & e & post & g' & -> & He & Hl & Hin & Hun)].
        -- exists [], eog, eogs, g. repeat (split; [done|]).
           eapply unprocessed_iff; [|exact Hun]. intros e. cbv beta.
           rewrite elem_of_nil. naive_solver.
        -- exists (eog :: pre), e, post, g'. repeat (split; [done|]).
           eapply unprocessed_iff; [|exact Hun]. intros e'. cbv beta.
           rewrite elem_of_union, elem_of_singleton, elem_of_cons. naive_solver.
      * intros (pre & e & post & g' & Heq & He & Hl & Hin & Hun).
        destruct pre as [|x pre]; simplify_eq/=.
        -- left. split; [done|]. eapply unprocessed_iff; [|exact Hun].
           intros e'. cbv beta. rewrite elem_of_nil. naive_solver.
        -- right. exists pre, e, post, g'. repeat (split; [done|]).
           eapply unprocessed_iff; [|exact Hun]. intros e'. cbv beta.
           rewrite elem_of_union, elem_of_singleton, elem_of_cons. naive_solver.
    + assert (¬ is_root h eog) as Hfw.
      { intros (g0 & Hg0 & Hl%isRootNode_true). congruence. }
      destruct (IH closed_list result Hg') as (added & -> & Hadded).
      exists added. split; [done|]. intros r. rewrite Hadded. split.
      * intros (pre & e & post & g' & -> & He & Hl & Hin & Hun).
        exists (eog :: pre), e, post, g'. repeat (split; [done|]).
        eapply unprocessed_iff; [|exact Hun]. intros e'. cbv beta. rewrite elem_of_cons.
        naive_solver.
      * intros (pre & e & post & g' & Heq & He & Hl & Hin & Hun).
        destruct pre as [|x pre]; simplify_eq/=.
        { exfalso. apply Hfw. by eexists. }
        exists pre, e, post, g'. repeat (split; [done|]).
        eapply unprocessed_iff; [|exact Hun]. intros e'. cbv beta. rewrite elem_of_cons.
        naive_solver.
Qed.

(** X11.  [getAllReachableFacts] on a store in which the facts listed by
    the roots exist returns, with the facts it adds behind those given.
    It adds a fact exactly when a root lists it and no term of the fact is
    a root that comes earlier among the groups; in a consistent store this
    leaves out no fact that a root lists and that is not marked. *)
Theorem getAllReachableFacts_takes_each_fact_at_its_first_group h result :
  (∀ e g r, groups h !! e = Some g → link_ g = None →
            r ∈ reachable_facts_ g → is_Some (facts h !! r)) →
  ∃ added,
    EquivalentObjectGroupManager_getAllReachableFacts h result
    = Some (result ++ added) ∧
    (∀ r, r ∈ added ↔
       ∃ e g f, groups h !! e = Some g ∧ link_ g = None ∧
                r ∈ reachable_facts_ g ∧ facts h !! r = Some f ∧
                ∀ e', e' ∈ term_domain_mapping_ f → e' < e → ¬ is_root h e') ∧
    (store_consistent h →
     ∀ e r slots, listed h e r → live h r slots → r ∈ added).
Proof.
  intros Hvalid.
  destruct (getAllReachableFacts_from_spec h Hvalid (equivalent_groups_ h) ∅ result)
    as (added & Hret & Hadded).
  { intros e. by rewrite equivalent_groups_spec. }
  exists added. split; [done|].
  assert (∀ r, r ∈ added ↔
            ∃ e g f, groups h !! e = Some g ∧ link_ g = None ∧
                     r ∈ reachable_facts_ g ∧ facts h !! r = Some f ∧
                     ∀ e', e' ∈ term_domain_mapping_ f → e' < e → ¬ is_root h e')
    as Hspec.
  { intros r. rewrite Hadded. split.
    - intros (pre & e & post & g & Heq & Hg & Hl & Hin & (f & Hf & Hun)).
      exists e, g, f. repeat (split; [done|]). intros e' He' Hlt Hr.
      apply (Hun e' He'). right. split; [|done].
      unfold equivalent_groups_ in Heq.
      assert (e = length pre) as ->.
      { assert (seq 0 (length (groups h)) !! length pre = Some e) as Hlk
          by (rewrite Heq; by apply list_lookup_middle).
        apply lookup_seq in Hlk. lia. }
      assert (pre = seq 0 (length pre)) as Hpre.
      { apply (f_equal (take (length pre))) in Heq.
        rewrite take_app_length in Heq. rewrite <-Heq at 1.
        rewrite take_seq. apply lookup_lt_Some in Hg. f_equal. lia. }
      rewrite Hpre. apply elem_of_seq. lia.
    - intros (e & g & f & Hg & Hl & Hin & Hf & Hun).
      exists (seq 0 e), e, (seq (S e) (length (groups h) - S e)), g.
      split.
      { unfold equivalent_groups_. apply lookup_lt_Some in Hg.
        replace (length (groups h)) with (e + S (length (groups h) - S e))
          at 1 by lia.
        by rewrite seq_app. }
      repeat (split; [done|]). exists f. split; [done|].
      intros e' He' [?%elem_of_empty|[Hlt%elem_of_seq Hr]]; [done|].
      apply (Hun e' He'); [lia|done]. }
  split; [done|].
  intros Hcons e. induction (lt_wf e) as [e _ IH]. intros r slots Hlisted Hlive.
  destruct (Hcons _ _ _ Hlisted Hlive) as [_ Hall].
  destruct (decide (Exists (λ e', e' < e) slots)) as [Hex|Hnex].
  - apply Exists_exists in Hex as (e' & He' & Hlt).
    eapply (IH e' Hlt); [|done]. by apply Hall.
  - apply Hspec. destruct Hlisted as (g & Hg & Hl & Hin).
    destruct Hlive as (f & Hf & _ & <-).
    exists e, g, f. repeat (split; [done|]). intros e' He' Hlt _.
    apply Hnex. apply Exists_exists. eauto.
Qed.

(** *** Equivalent objects *)

Section EquivalentObjectFacts.

Variable isEquivalentTo : Heap → fact_ref → fact_ref → bool.

Lemma areEquivalent_spec h eo other :
  EquivalentObject_areEquivalent isEquivalentTo h eo other = true ↔
  initial_facts_ eo ≠ [] ∧ initial_facts_ other ≠ [] ∧
  ∀ r, r ∈ initial_facts_ eo →
       ∃ r', r' ∈ initial_facts_ other ∧ isEquivalentTo h r r' = true.
Proof.
  unfold EquivalentObject_areEquivalent.
  destruct (decide (initial_facts_ eo = [])) as [He|He].
  { rewrite bool_decide_eq_true_2 by done. simpl. naive_solver. }
  destruct (decide (initial_facts_ other = [])) as [Ho|Ho].
  { rewrite (bool_decide_eq_true_2 (initial_facts_ other = [])) by done.
    rewrite orb_true_r. naive_solver. }
  rewrite !bool_decide_eq_false_2 by done. simpl.
  rewrite forallb_forall. split.
  - intros H. split; [done|]. split; [done|]. intros r Hr.
    apply list_elem_of_In, H, existsb_exists in Hr as (r' & Hr' & Heq).
    exists r'. by rewrite list_elem_of_In.
  - intros (_ & _ & H) r Hr. apply existsb_exists.
    apply list_elem_of_In, H in Hr as (r' & Hr' & Heq).
    exists r'. by rewrite <-list_elem_of_In.
Qed.

(** X12.  [areEquivalent] answers false as soon as one of the two
    objects has no initial fact -- so it is not even true of such an
    object and itself.  On the objects with initial facts it is reflexive
    and transitive when the equivalence of facts is. *)
Theorem areEquivalent_preorder h :
  (∀ r, isEquivalentTo h r r = true) →
  (∀ a b c, isEquivalentTo h a b = true → isEquivalentTo h b c = true →
            isEquivalentTo h a c = true) →
  (∀ eo other, initial_facts_ eo = [] ∨ initial_facts_ other = [] →
     EquivalentObject_areEquivalent isEquivalentTo h eo other = false) ∧
  (∀ eo, initial_facts_ eo ≠ [] →
     EquivalentObject_areEquivalent isEquivalentTo h eo eo = true) ∧
  (∀ a b c,
     EquivalentObject_areEquivalent isEquivalentTo h a b = true →
     EquivalentObject_areEquivalent isEquivalentTo h b c = true →
     EquivalentObject_areEquivalent isEquivalentTo h a c = true).
Proof.
  intros Hrefl Htrans. split; [|split].
  - intros eo other Hempty. apply not_true_is_false.
    rewrite areEquivalent_spec. naive_solver.
  - intros eo Hne. apply areEquivalent_spec. repeat (split; [done|]).
    intros r Hr. exists r. auto.
  - intros a b c (Ha & Hb & Hab)%areEquivalent_spec (_ & Hc & Hbc)%areEquivalent_spec.
    apply areEquivalent_spec. repeat (split; [done|]).
    intros r Hr. destruct (Hab r Hr) as (r' & Hr' & Heq).
    destruct (Hbc r' Hr') as (r'' & Hr'' & Heq'). exists r''. eauto.
Qed.

End EquivalentObjectFacts.

(** *** The equivalent object of an object *)

Lemma map_objects_missing objects : ∀ i mapping (object : Object),
  object ∉ objects.*1.*1 →
  map_objects objects i mapping !! object = mapping !! object.
Proof.
  induction objects as [|[[o grounded] fp] objects IH]; intros i mapping object Hnot;
    simpl; [done|].
  simpl in Hnot. apply not_elem_of_cons in Hnot as [Hne Hnot].
  rewrite IH by done. by rewrite lookup_insert_ne.
Qed.

Lemma map_objects_last objects : ∀ i mapping j (object : Object) grounded fp,
  objects !! j = Some (object, grounded, fp) →
  (∀ k x, j < k → objects !! k = Some x → x.1.1 ≠ object) →
  map_objects objects i mapping !! object = Some (i + j).
Proof.
  induction objects as [|[[o grounded0] fp0] objects IH];
    intros i mapping j object grounded fp Hj Hlast; [done|].
  simpl. destruct j as [|j]; simplify_eq/=.
  - rewrite map_objects_missing.
    + by rewrite lookup_insert_eq, Nat.add_0_r.
    + intros Hin. apply list_elem_of_fmap in Hin as (x1 & Hx1 & Hin).
      apply list_elem_of_fmap in Hin as (x & -> & Hin).
      apply list_elem_of_lookup in Hin as [k Hk].
      apply (Hlast (S k) x); [lia|done|done].
  - rewrite (IH (S i) _ j object grounded fp Hj).
    + by rewrite Nat.add_succ_r.
    + intros k x Hlt. apply (Hlast (S k)). lia.
Qed.

(** X13.  After the constructor, [getEquivalentObject] on an object of
    the list (the last entry, should the object be there twice) finds the
    equivalent object made for it, which stands for that object and sits
    in the group made with it, and that group contains the object; on an
    object that is not in the list it fails its assertion. *)
Theorem getEquivalentObject_round_trip objects pool :
  (∀ i object grounded fp,
     objects !! i = Some (object, grounded, fp) →
     (∀ k x, i < k → objects !! k = Some x → x.1.1 ≠ object) →
     EquivalentObjectGroupManager_getEquivalentObject
       (object_to_equivalent_object_mapping_ objects) object = Some i ∧
     equivalent_objects (EquivalentObjectGroupManager_constructor objects pool)
       !! i = Some (mkEquivalentObject object i []) ∧
     EquivalentObjectGroup_contains_object
       (EquivalentObjectGroupManager_constructor objects pool) i object
     = Some true) ∧
  (∀ object : Object, object ∉ objects.*1.*1 →
     EquivalentObjectGroupManager_getEquivalentObject
       (object_to_equivalent_object_mapping_ objects) object = None).
Proof.
  split.
  - intros i object grounded fp Hi Hlast.
    assert (equivalent_objects
              (EquivalentObjectGroupManager_constructor objects pool) !! i
            = Some (mkEquivalentObject object i [])) as Heo.
    { simpl. by rewrite list_lookup_imap, Hi. }
    split; [|split; [done|]].
    + unfold EquivalentObjectGroupManager_getEquivalentObject,
        object_to_equivalent_object_mapping_.
      by erewrite map_objects_last.
    + unfold EquivalentObjectGroup_contains_object.
      assert (groups (EquivalentObjectGroupManager_constructor objects pool) !! i
              = Some (mkEquivalentObjectGroup grounded None fp UINT_MAX [i] [] []))
        as ->.
      { simpl. rewrite lookup_app_l
          by (rewrite length_imap; by eapply lookup_lt_Some).
        by rewrite list_lookup_imap, Hi. }
      cbn [mbind option_bind equivalent_objects_ length contains_scan lookup
           list_lookup].
      rewrite Heo. simpl. by rewrite bool_decide_eq_true_2.
  - intros object Hnot.
    unfold EquivalentObjectGroupManager_getEquivalentObject,
      object_to_equivalent_object_mapping_.
    by rewrite map_objects_missing.
Qed.

(** *** Fingerprints *)

Section FingerPrintFacts.

Context {type : Type}.
Variable object_type : Object → type.
Variable term_type : Term → type.
Variable isSubtypeOf isEqual : type → type → bool.

(** The terms of the graph, in the order of the loops. *)
Definition graph_terms (dtg_graph : list DomainTransitionGraphNode) : list Term :=
  dtg_node ← dtg_graph; bounded_atom ← getAtoms dtg_node; getTerms bounded_atom.

(** The test of the innermost loop. *)
Definition fits (object : Object) (term : Term) : bool :=
  isSubtypeOf (object_type object) (term_type term)
  || isEqual (object_type object) (term_type term).

Lemma uint_add_small (a : N) (n : nat) :
  (a + N.of_nat n ≤ UINT_MAX)%N →
  uint_add a (uint_of_size n) = (a + N.of_nat n)%N.
Proof.
  intros H. unfold uint_add, uint_of_size.
  rewrite (N.mod_small (N.of_nat n)) by (unfold UINT_MAX in *; lia).
  apply N.mod_small. unfold UINT_MAX in *. lia.
Qed.

Lemma count_atoms_spec atoms : ∀ n,
  (n + N.of_nat (length (atoms ≫= getTerms)) ≤ UINT_MAX)%N →
  count_atoms atoms n = (n + N.of_nat (length (atoms ≫= getTerms)))%N.
Proof.
  induction atoms as [|atom atoms IH]; intros n; [simpl; lia|].
  rewrite bind_cons, length_app. intros H.
  cbn [count_atoms]. rewrite uint_add_small by lia. rewrite IH; lia.
Qed.

Lemma count_nodes_spec nodes : ∀ n,
  (n + N.of_nat (length (graph_terms nodes)) ≤ UINT_MAX)%N →
  count_nodes nodes n = (n + N.of_nat (length (graph_terms nodes)))%N.
Proof.
  induction nodes as [|node nodes IH]; intros n; [simpl; lia|].
  change (graph_terms (node :: nodes))
    with ((getAtoms node ≫= getTerms) ++ graph_terms nodes).
  rewrite length_app. intros H.
  cbn [count_nodes]. rewrite count_atoms_spec by lia. rewrite IH; lia.
Qed.

Lemma mark_terms_spec object terms : ∀ before rest,
  (N.of_nat (length before + length terms) ≤ UINT_MAX)%N →
  mark_terms object_type term_type isSubtypeOf isEqual object terms
    (N.of_nat (length before))
    (before ++ replicate (length terms) false ++ rest)
  = Some (N.of_nat (length before + length terms),
          before ++ (fits object <$> terms) ++ rest).
Proof.
  induction terms as [|term terms IH]; intros before rest Hle; simpl.
  { by rewrite Nat.add_0_r. }
  simpl in Hle.
  assert ((if isSubtypeOf (object_type object) (term_type term)
              || isEqual (object_type object) (term_type term)
           then
             if decide (N.to_nat (N.of_nat (length before))
                        < length (before ++ false
                                    :: replicate (length terms) false ++ rest))
             then Some (<[N.to_nat (N.of_nat (length before)) := true]>
                          (before ++ false
                             :: replicate (length terms) false ++ rest))
             else None
           else Some (before ++ false :: replicate (length terms) false ++ rest))
          = Some ((before ++ [fits object term])
                    ++ replicate (length terms) false ++ rest)) as ->.
  { unfold fits. rewrite <-app_assoc. simpl.
    destruct (_ || _); [|done].
    rewrite Nat2N.id, decide_True by (rewrite length_app; simpl; lia).
    rewrite insert_app_r_alt by lia. by rewrite Nat.sub_diag. }
  simpl.
  assert (uint_add (N.of_nat (length before)) 1
          = N.of_nat (length (before ++ [fits object term]))) as ->.
  { rewrite length_app. simpl. unfold uint_add.
    rewrite N.mod_small by (unfold UINT_MAX in *; lia). lia. }
  rewrite IH by (rewrite length_app; simpl; lia).
  rewrite length_app, <-app_assoc. simpl. do 3 f_equal. lia.
Qed.

Lemma mark_atoms_spec object atoms : ∀ before rest,
  (N.of_nat (length before + length (atoms ≫= getTerms)) ≤ UINT_MAX)%N →
  mark_atoms object_type term_type isSubtypeOf isEqual object atoms
    (N.of_nat (length before))
    (before ++ replicate (length (atoms ≫= getTerms)) false ++ rest)
  = Some (N.of_nat (length before + length (atoms ≫= getTerms)),
          before ++ (fits object <$> (atoms ≫= getTerms)) ++ rest).
Proof.
  induction atoms as [|atom atoms IH]; intros before rest.
  { simpl. by rewrite Nat.add_0_r. }
  rewrite !bind_cons, length_app. intros Hle. cbn [mark_atoms].
  rewrite replicate_add, <-app_assoc, mark_terms_spec by lia.
  cbn [mbind option_bind].
  replace (length before + length (getTerms atom))
    with (length (before ++ (fits object <$> getTerms atom)))
    by (rewrite length_app, length_fmap; lia).
  rewrite (app_assoc before), IH
    by (rewrite length_app, length_fmap; lia).
  rewrite fmap_app, !length_app, length_fmap, <-!app_assoc.
  do 3 f_equal. lia.
Qed.

Lemma mark_nodes_spec object nodes : ∀ before rest,
  (N.of_nat (length before + length (graph_terms nodes)) ≤ UINT_MAX)%N →
  mark_nodes object_type term_type isSubtypeOf isEqual object nodes
    (N.of_nat (length before))
    (before ++ replicate (length (graph_terms nodes)) false ++ rest)
  = Some (N.of_nat (length before + length (graph_terms nodes)),
          before ++ (fits object <$> graph_terms nodes) ++ rest).
Proof.
  induction nodes as [|node nodes IH]; intros before rest.
  { simpl. by rewrite Nat.add_0_r. }
  change (graph_terms (node :: nodes))
    with ((getAtoms node ≫= getTerms) ++ graph_terms nodes).
  rewrite length_app. intros Hle. cbn [mark_nodes].
  rewrite replicate_add, <-app_assoc, mark_atoms_spec by lia.
  cbn [mbind option_bind].
  replace (length before + length (getAtoms node ≫= getTerms))
    with (length (before ++ (fits object <$> (getAtoms node ≫= getTerms))))
    by (rewrite length_app, length_fmap; lia).
  rewrite (app_assoc before), IH
    by (rewrite length_app, length_fmap; lia).
  rewrite fmap_app, !length_app, length_fmap, <-!app_assoc.
  do 3 f_equal. lia.
Qed.

(** X14.  In a graph with at most [UINT_MAX] terms, [initialiseFingerPrint]
    returns, and the fingerprint has one flag for every term of every atom
    of every node of the graph, in the order of the graph, set iff the type
    of the object is a subtype of or equal to the type of the term.  So
    the fingerprints of two objects of one graph have the same size, and
    [hasSameFingerPrint] holds of them iff the two objects fit the same
    terms. *)
Theorem fingerprint_flags_fitting_terms dtg_graph :
  (N.of_nat (length (graph_terms dtg_graph)) ≤ UINT_MAX)%N →
  (∀ object,
     initialiseFingerPrint object_type term_type isSubtypeOf isEqual
       dtg_graph object
     = Some (fits object <$> graph_terms dtg_graph)) ∧
  (∀ a b finger_print_a finger_print_b,
     initialiseFingerPrint object_type term_type isSubtypeOf isEqual
       dtg_graph a = Some finger_print_a →
     initialiseFingerPrint object_type term_type isSubtypeOf isEqual
       dtg_graph b = Some finger_print_b →
     length finger_print_a = length finger_print_b ∧
     (memcmp_eq finger_print_a finger_print_b (length finger_print_a) = true
      ↔ ∀ term, term ∈ graph_terms dtg_graph → fits a term = fits b term)).
Proof.
  intros Hle.
  assert (∀ object,
            initialiseFingerPrint object_type term_type isSubtypeOf isEqual
              dtg_graph object
            = Some (fits object <$> graph_terms dtg_graph)) as Hfp.
  { intros object. unfold initialiseFingerPrint.
    rewrite count_nodes_spec by lia. rewrite N.add_0_l, Nat2N.id.
    pose proof (mark_nodes_spec object dtg_graph [] []) as H.
    simpl in H. specialize (H Hle). rewrite !app_nil_r in H.
    change (N.of_nat 0) with 0%N in H. by rewrite H. }
  split; [done|]. intros a b fa fb Ha Hb.
  rewrite Hfp in Ha, Hb. simplify_eq. rewrite !length_fmap.
  split; [done|]. unfold memcmp_eq. rewrite bool_decide_eq_true.
  rewrite <-(length_fmap (fits a)) at 1. rewrite firstn_all.
  rewrite <-(length_fmap (fits b)). rewrite firstn_all.
  split.
  - intros Heq term Hin. apply list_elem_of_lookup in Hin as [i Hi].
    assert ((fits a <$> graph_terms dtg_graph) !! i = Some (fits a term)) as Ha
      by (by rewrite list_lookup_fmap, Hi).
    rewrite Heq, list_lookup_fmap, Hi in Ha. simpl in Ha. congruence.
  - intros Heq. apply list_fmap_ext. intros i term Hi. apply Heq.
    by eapply list_elem_of_lookup_2.
Qed.

End FingerPrintFacts.

(** * Further properties of the engine *)

(** ** The reachable nodes after the propagation *)

Lemma elem_of_set_insert x y l : x ∈ set_insert y l ↔ x = y ∨ x ∈ l.
Proof.
  induction l as [|z l IH]; simpl.
  - rewrite list_elem_of_singleton, elem_of_nil. tauto.
  - repeat case_decide; rewrite ?elem_of_cons, ?IH; try tauto.
    subst. tauto.
Qed.

Lemma merge_reachable_prefix to_add : ∀ target,
  target `prefix_of` merge_reachable to_add target.
Proof.
  induction to_add as [|n to_add IH]; intros target; simpl; [done|].
  case_bool_decide; [apply IH|].
  etrans; [|apply IH]. by apply prefix_app_r.
Qed.

Lemma elem_of_merge_reachable to_add : ∀ target x,
  x ∈ merge_reachable to_add target ↔ x ∈ target ∨ x ∈ to_add.
Proof.
  induction to_add as [|n to_add IH]; intros target x; simpl.
  - rewrite elem_of_nil. tauto.
  - rewrite IH, elem_of_cons. case_bool_decide as Hin.
    + split; [tauto|]. intros [?|[->|?]]; auto.
    + rewrite elem_of_app, list_elem_of_singleton. tauto.
Qed.

(** How the lists of reachable nodes change in the loop: each list is
    extended, by nodes that some list held before. *)
Definition extends (rn rn' : list (list nat)) : Prop :=
  length rn' = length rn ∧
  (∀ n l, rn !! n = Some l → ∃ l', rn' !! n = Some l' ∧ l `prefix_of` l') ∧
  (∀ n l' x, rn' !! n = Some l' → x ∈ l' → ∃ k l, rn !! k = Some l ∧ x ∈ l).

Lemma extends_refl rn : extends rn rn.
Proof. split; [done|]. split; [eauto|eauto]. Qed.

Lemma extends_trans rn1 rn2 rn3 : extends rn1 rn2 → extends rn2 rn3 → extends rn1 rn3.
Proof.
  intros (Hl1 & Hg1 & Ho1) (Hl2 & Hg2 & Ho2). split; [congruence|]. split.
  - intros n l Hl. destruct (Hg1 _ _ Hl) as (l1 & Hl1' & Hp1).
    destruct (Hg2 _ _ Hl1') as (l2 & Hl2' & Hp2). exists l2. split; [done|].
    by etrans.
  - intros n l' x Hl' Hx. destruct (Ho2 _ _ _ Hl' Hx) as (k & l & Hk & Hin).
    by eapply Ho1.
Qed.

Lemma extends_merge rn d r reachable_nodes l :
  rn !! d = Some reachable_nodes → rn !! r = Some l →
  extends rn (<[r := merge_reachable reachable_nodes l]> rn).
Proof.
  intros Hd Hr. split; [by rewrite length_insert|]. split.
  - intros n l0 Hn. destruct (decide (n = r)) as [->|Hne].
    + rewrite list_lookup_insert_eq by (by eapply lookup_lt_Some).
      eexists. split; [done|]. simplify_eq. apply merge_reachable_prefix.
    + rewrite list_lookup_insert_ne by done. eauto.
  - intros n l' x Hn Hx. destruct (decide (n = r)) as [->|Hne].
    + rewrite list_lookup_insert_eq in Hn by (by eapply lookup_lt_Some).
      simplify_eq. apply elem_of_merge_reachable in Hx as [?|?]; eauto.
    + rewrite list_lookup_insert_ne in Hn by done. eauto.
Qed.

(** The loop over the nodes reachable from the node [d] taken from the
    open list, whose list is [reachable_nodes]. *)
Lemma propagate_node_closes d reachable_nodes todo :
  ∀ rn open_list rn' open_list',
    rn !! d = Some reachable_nodes →
    propagate_node d reachable_nodes todo rn open_list = Some (rn', open_list') →
    extends rn rn' ∧ rn' !! d = Some reachable_nodes ∧
    (∀ x, x ∈ open_list → x ∈ open_list') ∧
    (∀ x, x ∈ open_list' → x ∈ open_list ∨ x ≠ d) ∧
    (∀ k, rn' !! k ≠ rn !! k → k ∈ open_list') ∧
    (∀ m, m ∈ todo → m ≠ d →
          ∃ lm, rn' !! m = Some lm ∧ ∀ x, x ∈ reachable_nodes → x ∈ lm).
Proof.
  induction todo as [|r todo IH]; intros rn open_list rn' open_list' Hd H;
    simpl in H.
  - simplify_eq. split; [apply extends_refl|]. split; [done|].
    split; [done|]. split; [auto|]. split; [by intros k []|].
    by intros m ?%elem_of_nil.
  - case_bool_decide as Hself.
    + destruct (IH _ _ _ _ Hd H) as (He & Hd' & Ho & Ho' & Hc & Hm).
      repeat (split; [done|]). intros m [->|Hin]%elem_of_cons Hne; [done|].
      by apply Hm.
    + destruct (rn !! r) as [l|] eqn:Hr; simplify_eq/=.
      set (merged := merge_reachable reachable_nodes l) in *.
      set (open1 := if bool_decide (length l ≠ length merged)
                    then set_insert r open_list else open_list) in *.
      assert (<[r := merged]> rn !! d = Some reachable_nodes) as Hd1
        by (by rewrite list_lookup_insert_ne by (by apply not_eq_sym)).
      destruct (IH _ _ _ _ Hd1 H) as (He & Hd' & Ho & Ho' & Hc & Hm).
      assert (∀ x, x ∈ open_list → x ∈ open1) as Hopen.
      { intros x Hx. unfold open1. case_bool_decide; [|done].
        apply elem_of_set_insert. by right. }
      assert (merged ≠ l → r ∈ open1) as Hgrew.
      { intros Hneq. unfold open1. rewrite bool_decide_eq_true_2.
        - apply elem_of_set_insert. by left.
        - intros Hlen. apply Hneq. symmetry.
          apply prefix_length_eq; [apply merge_reachable_prefix|lia]. }
      split.
      { eapply extends_trans; [|exact He].
        exact (extends_merge rn d r reachable_nodes l Hd Hr). }
      split; [done|]. split; [auto|]. split.
      { intros x Hx. apply Ho' in Hx as [Hx|?]; [|by right].
        unfold open1 in Hx. case_bool_decide; [|by left].
        apply elem_of_set_insert in Hx as [->|?]; [by right|by left]. }
      split.
      { intros k Hk. destruct (decide (rn' !! k = <[r := merged]> rn !! k))
          as [Heq|Hneq]; [|by apply Hc].
        apply Ho. rewrite Heq in Hk. destruct (decide (k = r)) as [->|Hkr].
        - apply Hgrew. intros Heq'. apply Hk. rewrite Heq'.
          by rewrite list_insert_id.
        - by rewrite list_lookup_insert_ne in Hk. }
      intros m [->|Hin]%elem_of_cons Hne; [|by apply Hm].
      destruct He as (_ & Hgrow & _).
      destruct (Hgrow r merged) as (lm & Hlm & Hpre).
      { apply list_lookup_insert_eq. by eapply lookup_lt_Some. }
      exists lm. split; [done|]. intros x Hx.
      eapply elem_of_prefix; [|done].
      apply elem_of_merge_reachable. by right.
Qed.

(** The nodes that are not on the open list are closed: each node in
    their list has all of their list in its own. *)
Definition closed_off (bound : nat) (rn : list (list nat)) (open_list : list nat)
    : Prop :=
  ∀ n l m, n < bound → n ∉ open_list → rn !! n = Some l → m ∈ l → m ≠ n →
    ∃ lm, rn !! m = Some lm ∧ ∀ x, x ∈ l → x ∈ lm.

Lemma propagate_open_list_closes bound : ∀ fuel rn open_list rn',
  closed_off bound rn open_list →
  propagate_open_list fuel rn open_list = Returns rn' →
  extends rn rn' ∧ closed_off bound rn' [].
Proof.
  induction fuel as [|fuel IH]; intros rn open_list rn' Hclosed H.
  - destruct open_list; simplify_eq/=. split; [apply extends_refl|done].
  - destruct open_list as [|d open_list]; simplify_eq/=.
    { split; [apply extends_refl|done]. }
    destruct (rn !! d) as [reachable_nodes|] eqn:Hd; simplify_eq/=.
    destruct (propagate_node _ _ _ _ _) as [[rn1 open1]|] eqn:Hp; simplify_eq/=.
    apply propagate_node_closes in Hp as (He & Hd1 & Ho & Ho' & Hc & Hm);
      [|done].
    apply IH in H as [He' Hclosed']; [split; [by eapply extends_trans|done]|].
    intros n l m Hn Hnotin Hl Hin Hne.
    destruct (decide (n = d)) as [->|Hnd].
    + assert (l = reachable_nodes) as -> by congruence. by apply Hm.
    + assert (rn !! n = Some l) as Hl0.
      { destruct (decide (rn1 !! n = rn !! n)) as [<-|Hneq]; [done|].
        by apply Hc in Hneq. }
      destruct (Hclosed n l m Hn) as (lm & Hlm & Hsub); try done.
      { intros [->|Hin']%elem_of_cons; [done|]. apply Hnotin. by apply Ho. }
      destruct He as (_ & Hgrow & _).
      destruct (Hgrow _ _ Hlm) as (lm' & Hlm' & Hpre).
      exists lm'. split; [done|]. intros x Hx.
      eapply elem_of_prefix; [|done]. by apply Hsub.
Qed.

(** X15.  [propagateReachableNodes] does not run forever; when it
    returns, every list of reachable nodes has been extended at its end,
    by nodes that were in some list before, and the lists are closed:
    each node in the list of a node of the graph, other than that node,
    has all of that list in its own. *)
Theorem propagateReachableNodes_closes fuel graph rn :
  (length graph + length rn * size (list_to_set (mjoin rn) : gset nat) ≤ fuel →
   propagateReachableNodes fuel graph rn ≠ OutOfFuel) ∧
  ∀ rn', propagateReachableNodes fuel graph rn = Returns rn' →
    length rn' = length rn ∧
    (∀ n l, rn !! n = Some l → ∃ l', rn' !! n = Some l' ∧ l `prefix_of` l') ∧
    (∀ n l' x, rn' !! n = Some l' → x ∈ l' → ∃ k l, rn !! k = Some l ∧ x ∈ l) ∧
    (∀ n l m, n < length graph → rn' !! n = Some l → m ∈ l → m ≠ n →
       ∃ lm, rn' !! m = Some lm ∧ ∀ x, x ∈ l → x ∈ lm).
Proof.
  split.
  - intros Hfuel.
    apply (propagateReachableNodes_ends (list_to_set (mjoin rn))); [|done].
    apply Forall_forall. intros l Hl x Hx.
    apply elem_of_list_to_set, list_elem_of_join. exists l.
    split; [|done]. by apply elem_of_list_to_set in Hx.
  - intros rn' H. unfold propagateReachableNodes in H.
    apply (propagate_open_list_closes (length graph)) in H
      as [(Hlen & Hgrow & Hold) Hclosed].
    + repeat (split; [done|]). intros n l m Hn. apply Hclosed; [done|].
      apply not_elem_of_nil.
    + intros n l m Hn Hnotin. exfalso. apply Hnotin. apply elem_of_seq. lia.
Qed.

(** ** The tuples of supporting facts *)

Section SupportingTuples.

Variable canUnify : BoundedAtom → BoundedAtom → bool.
Variable createBoundedAtom : BoundedAtom → BoundedAtom.

(** The tuple has one fact for every atom to achieve: a copy of the atom
    with as many terms as the copy was created with. *)
Definition built_for (atoms_to_achieve tuple : list BoundedAtom) : Prop :=
  Forall2 (λ atom fact,
             ∃ terms, fact = set_terms terms (createBoundedAtom atom) ∧
                      length terms = length (getTerms (createBoundedAtom atom)))
          atoms_to_achieve tuple.

Lemma finalize_terms_length variable_assignments terms_to_achieve :
  ∀ term_index new_terms terms,
    finalize_terms variable_assignments terms_to_achieve term_index new_terms
    = Some terms →
    length terms = length new_terms.
Proof.
  induction terms_to_achieve as [|t terms_to_achieve IH];
    intros term_index new_terms terms H; simpl in H.
  - by simplify_eq.
  - destruct (new_terms !! term_index); simplify_eq/=.
    destruct (variable_assignments !! domain_ref t); simplify_eq/=.
    apply IH in H. by rewrite length_insert in H.
Qed.

Lemma finalize_built_for variable_assignments atoms_to_achieve :
  ∀ tuple,
    finalize createBoundedAtom variable_assignments atoms_to_achieve = Some tuple →
    built_for atoms_to_achieve tuple.
Proof.
  induction atoms_to_achieve as [|atom atoms_to_achieve IH]; intros tuple H;
    simpl in H.
  - simplify_eq. constructor.
  - unfold finalize_atom in H.
    destruct (finalize_terms _ _ _ _) as [terms|] eqn:Ht; simplify_eq/=.
    destruct (finalize _ _ atoms_to_achieve) as [rest|] eqn:Hr; simplify_eq/=.
    constructor; [|by apply IH].
    exists terms. split; [done|]. by eapply finalize_terms_length.
Qed.

(** What a call adds to the vector of tuples. *)
Definition adds_tuples (atoms_to_achieve : list BoundedAtom)
    (supporting_tupples supporting_tupples' : list (list BoundedAtom)) : Prop :=
  ∃ added, supporting_tupples' = supporting_tupples ++ added ∧
           Forall (built_for atoms_to_achieve) added.

Lemma adds_tuples_refl atoms_to_achieve tupples :
  adds_tuples atoms_to_achieve tupples tupples.
Proof. exists []. by rewrite app_nil_r. Qed.

Lemma adds_tuples_trans atoms_to_achieve t1 t2 t3 :
  adds_tuples atoms_to_achieve t1 t2 → adds_tuples atoms_to_achieve t2 t3 →
  adds_tuples atoms_to_achieve t1 t3.
Proof.
  intros (a1 & -> & H1) (a2 & -> & H2). exists (a1 ++ a2).
  rewrite app_assoc. split; [done|]. by apply Forall_app.
Qed.

Lemma try_candidates_adds recurse atoms_to_achieve atom_to_process :
  (∀ tupples assigned supporting tupples',
     recurse tupples assigned supporting = Some tupples' →
     adds_tuples atoms_to_achieve tupples tupples') →
  ∀ candidates tupples variable_assignments supporting tupples',
    try_candidates canUnify createBoundedAtom recurse tupples variable_assignments
      atoms_to_achieve atom_to_process supporting candidates = Some tupples' →
    adds_tuples atoms_to_achieve tupples tupples'.
Proof.
  intros Hrec. induction candidates as [|fact candidates IH];
    intros tupples variable_assignments supporting tupples' H; simpl in H.
  - simplify_eq. apply adds_tuples_refl.
  - destruct (canUnify fact atom_to_process); [|by eapply IH].
    destruct (bind_terms _ _ _ _) as [[clone|]|]; simplify_eq/=; [|by eapply IH].
    apply bind_Some in H as (tupples1 & H1 & H).
    eapply adds_tuples_trans; [|by eapply IH].
    case_bool_decide.
    + destruct (finalize _ _ _) as [tuple|] eqn:Hf; simplify_eq/=.
      exists [tuple]. split; [done|].
      apply Forall_singleton. by eapply finalize_built_for.
    + by eapply Hrec.
Qed.

Lemma getSupportingFacts_from_adds atoms_to_achieve initial_facts remaining :
  ∀ tupples variable_assignments supporting tupples',
    getSupportingFacts_from canUnify createBoundedAtom remaining tupples
      variable_assignments atoms_to_achieve supporting initial_facts
    = Some tupples' →
    adds_tuples atoms_to_achieve tupples tupples'.
Proof.
  induction remaining as [|atom remaining IH];
    intros tupples variable_assignments supporting tupples' H; simpl in H; [done|].
  eapply try_candidates_adds; [|done].
  intros t a s t' Hrec. exact (IH _ _ _ _ Hrec).
Qed.

(** X16.  [getSupportingFacts] leaves the tuples it is given where they
    are and adds tuples behind them; each tuple it adds has one fact for
    every atom to achieve, in their order, which is a copy of that atom.
    When no fact is known it adds nothing. *)
Theorem getSupportingFacts_adds_tuples supporting_tupples variable_assignments
    atoms_to_achieve initial_supporting_facts initial_facts :
  (∀ supporting_tupples',
     getSupportingFacts canUnify createBoundedAtom supporting_tupples
       variable_assignments atoms_to_achieve initial_supporting_facts
       initial_facts = Some supporting_tupples' →
     ∃ added, supporting_tupples' = supporting_tupples ++ added ∧
              Forall (built_for atoms_to_achieve) added ∧
              Forall (λ tuple, length tuple = length atoms_to_achieve) added) ∧
  (initial_facts = [] →
   length initial_supporting_facts < length atoms_to_achieve →
   getSupportingFacts canUnify createBoundedAtom supporting_tupples
     variable_assignments atoms_to_achieve initial_supporting_facts
     initial_facts = Some supporting_tupples).
Proof.
  split.
  - intros tupples' H. apply getSupportingFacts_from_adds in H as (added & -> & H).
    exists added. split; [done|]. split; [done|].
    eapply Forall_impl; [done|]. intros tuple Hb. symmetry.
    by eapply Forall2_length.
  - intros -> Hlen. unfold getSupportingFacts.
    destruct (drop _ atoms_to_achieve) as [|atom remaining] eqn:Hd; [|done].
    apply (f_equal length) in Hd. rewrite length_drop in Hd. simpl in Hd. lia.
Qed.

End SupportingTuples.

(** ** Tuples that are already there *)

Section MakeReachable.

Variable areEquivalent : BoundedAtom → BoundedAtom → bool.

(** The two tuples have the same length and their facts are equivalent,
    position by position. *)
Definition equivalent_tuples (reachable_facts new_reachable_facts : list BoundedAtom)
    : Prop :=
  length reachable_facts = length new_reachable_facts ∧
  ∀ i a b, reachable_facts !! i = Some a → new_reachable_facts !! i = Some b →
           areEquivalent a b = true.

Lemma all_facts_are_equal_spec new_reachable_facts : ∀ reachable_facts i,
  i + length reachable_facts ≤ length new_reachable_facts →
  ∃ equal,
    all_facts_are_equal areEquivalent reachable_facts new_reachable_facts i
    = Some equal ∧
    (equal = true ↔
     ∀ j a b, reachable_facts !! j = Some a →
              new_reachable_facts !! (i + j) = Some b →
              areEquivalent a b = true).
Proof.
  induction reachable_facts as [|fact reachable_facts IH]; intros i Hlen; simpl.
  - exists true. split; [done|]. split; [|done]. intros _ j a b Hj.
    by rewrite lookup_nil in Hj.
  - simpl in Hlen.
    destruct (lookup_lt_is_Some_2 new_reachable_facts i) as [new_fact Hnew];
      [lia|].
    rewrite Hnew. simpl. destruct (areEquivalent fact new_fact) eqn:Heq.
    + destruct (IH (S i)) as (equal & -> & Hequal); [lia|].
      exists equal. split; [done|]. rewrite Hequal. split.
      * intros H j a b Hj Hb. destruct j as [|j]; simpl in Hj.
        -- injection Hj as ->. rewrite Nat.add_0_r in Hb. congruence.
        -- apply (H j a b Hj). by replace (S i + j) with (i + S j) by lia.
      * intros H j a b Hj Hb. apply (H (S j) a b Hj).
        by replace (i + S j) with (S i + j) by lia.
    + exists false. split; [done|]. split; [done|]. intros H.
      rewrite (H 0 fact new_fact) in Heq; [done|done|].
      by rewrite Nat.add_0_r.
Qed.

Lemma already_reachable_spec new_reachable_facts : ∀ already_reachable_facts,
  ∃ present,
    already_reachable areEquivalent already_reachable_facts new_reachable_facts
    = Some present ∧
    (present = true ↔
     ∃ reachable_facts, reachable_facts ∈ already_reachable_facts ∧
                        equivalent_tuples reachable_facts new_reachable_facts).
Proof.
  induction already_reachable_facts as [|reachable_facts rest IH]; simpl.
  - exists false. split; [done|]. split; [done|].
    intros (? & ?%elem_of_nil & _). done.
  - destruct IH as (present & Hrest & Hpresent).
    case_bool_decide as Hlen.
    + exists present. split; [done|]. rewrite Hpresent. split.
      * intros (t & Hin & Ht). exists t. split; [by right|done].
      * intros (t & [->|Hin]%elem_of_cons & Ht); [by destruct Ht|]. by exists t.
    + destruct (all_facts_are_equal_spec new_reachable_facts reachable_facts 0)
        as (equal & -> & Hequal); [lia|].
      simpl. destruct equal.
      * exists true. split; [done|]. split; [|done]. intros _.
        exists reachable_facts. split; [by left|]. split; [done|].
        by apply Hequal.
      * exists present. split; [done|]. rewrite Hpresent. split.
        -- intros (t & Hin & Ht). exists t. split; [by right|done].
        -- intros (t & [->|Hin]%elem_of_cons & Ht); [|by exists t].
           destruct Ht as [_ Ht]. by apply Hequal in Ht.
Qed.

(** X17.  [makeReachable] on a node that has a list of tuples returns.
    It pushes the tuple at the end of the list of the node and answers
    true, unless a tuple of the same length with equivalent facts is in
    the list, in which case it changes nothing and answers false.  When
    every fact is equivalent to itself, a second call with the same tuple
    changes nothing and answers false. *)
Theorem makeReachable_adds_once dtg_node new_reachable_facts st tuples :
  supported_facts_ st !! dtg_node = Some tuples →
  ∃ st1 pushed,
    makeReachable areEquivalent dtg_node new_reachable_facts st
    = Some (st1, pushed) ∧
    (pushed = false ↔
     ∃ reachable_facts, reachable_facts ∈ tuples ∧
                        equivalent_tuples reachable_facts new_reachable_facts) ∧
    st1 = (if pushed
           then with_supported_facts
                  (<[dtg_node := tuples ++ [new_reachable_facts]]>
                     (supported_facts_ st)) st
           else st) ∧
    ((∀ a, areEquivalent a a = true) →
     makeReachable areEquivalent dtg_node new_reachable_facts st1
     = Some (st1, false)).
Proof.
  intros Hnode. unfold makeReachable. rewrite Hnode. simpl.
  destruct (already_reachable_spec new_reachable_facts tuples)
    as (present & Hp & Hpresent).
  rewrite Hp. simpl. destruct present.
  - exists st, false. split; [done|]. split.
    { split; [intros _; by apply Hpresent|done]. }
    split; [done|]. intros _. rewrite Hnode. simpl. by rewrite Hp.
  - eexists _, true. split; [done|]. split.
    { split; [done|]. intros Hex. by apply Hpresent in Hex. }
    split; [done|]. intros Hrefl. simpl.
    rewrite list_lookup_insert_eq by (by eapply lookup_lt_Some). simpl.
    destruct (already_reachable_spec new_reachable_facts
                (tuples ++ [new_reachable_facts])) as (present & -> & Hpresent').
    simpl. destruct present; [done|].
    assert (false = true) as Habsurd; [|done].
    apply Hpresent'. exists new_reachable_facts. split.
    + apply elem_of_app. right. by apply list_elem_of_singleton.
    + split; [done|]. intros i a b Ha Hb. simplify_eq. apply Hrefl.
Qed.

End MakeReachable.

(** ** What the analysis keeps *)

Section EngineProgress.

Variable canUnify : BoundedAtom → BoundedAtom → bool.
Variable createBoundedAtom : BoundedAtom → BoundedAtom.
Variable areEquivalent : BoundedAtom → BoundedAtom → bool.
Variable canUnifyBoundedAtoms : BoundedAtom → BoundedAtom → bool.
Variable isEquivalentTo : nat → Term → nat → Term → bool.
Variable getExternalDependendTransitions : nat → list (Transition * list nat).
Variable getNodes : list BoundedAtom → list nat.
Variable EquivalentObjectGroupManager : Type.
Variable EquivalentObjectGroupManager_new :
  list DomainTransitionGraphNode → list BoundedAtom →
  option EquivalentObjectGroupManager.
Variable updateEquivalences :
  list (list nat) → EquivalentObjectGroupManager →
  option EquivalentObjectGroupManager.

Variable graph : list DomainTransitionGraphNode.

(** The facts [added] behind [established], none of them stood for by a
    fact before it. *)
Definition fresh_facts (established added : list BoundedAtom) : Prop :=
  ∀ i b, added !! i = Some b →
    ¬ ∃ a, a ∈ established ++ take i added ∧
           stands_for canUnify isEquivalentTo a b.

Definition facts_grow (st st' : Reachability) : Prop :=
  ∃ added, established_facts st' = established_facts st ++ added ∧
           fresh_facts (established_facts st) added.

(** Every list of supporting tuples is extended by tuples that have a fact
    for each atom of the node. *)
Definition tuples_grow (st st' : Reachability) : Prop :=
  length (supported_facts_ st') = length (supported_facts_ st) ∧
  ∀ n tuples, supported_facts_ st !! n = Some tuples →
    ∃ added, supported_facts_ st' !! n = Some (tuples ++ added) ∧
             ∀ node tuple, graph !! n = Some node → tuple ∈ added →
                           length tuple = length (getAtoms node).

Definition nodes_grow (st st' : Reachability) : Prop :=
  length (reachable_nodes_ st') = length (reachable_nodes_ st) ∧
  ∀ n l, reachable_nodes_ st !! n = Some l →
    ∃ l', reachable_nodes_ st' !! n = Some l' ∧ l `prefix_of` l'.

(** A transition that is newly achieved is one of [transitions], and its
    to node is among the nodes reachable from its from node. *)
Definition transitions_grow (transitions : list Transition)
    (st st' : Reachability) : Prop :=
  achieved_transitions st ⊆ achieved_transitions st' ∧
  ∀ ref, ref ∈ achieved_transitions st' →
    ref ∈ achieved_transitions st ∨
    ∃ t l, t ∈ transitions ∧ transition_ref t = ref ∧
           reachable_nodes_ st' !! getFromNode t = Some l ∧ getToNode t ∈ l.

Definition progresses (transitions : list Transition) (st st' : Reachability)
    : Prop :=
  facts_grow st st' ∧ tuples_grow st st' ∧ nodes_grow st st' ∧
  transitions_grow transitions st st'.

Lemma fresh_facts_nil established : fresh_facts established [].
Proof. intros i b Hi. by rewrite lookup_nil in Hi. Qed.

Lemma fresh_facts_app established added1 added2 :
  fresh_facts established added1 →
  fresh_facts (established ++ added1) added2 →
  fresh_facts established (added1 ++ added2).
Proof.
  intros H1 H2 i b Hi. apply lookup_app_Some in Hi as [Hi|[Hge Hi]].
  - rewrite take_app_le by (apply lookup_lt_Some in Hi; lia). by apply H1.
  - rewrite take_app_ge by done. rewrite app_assoc. by apply H2.
Qed.

Lemma facts_grow_refl st : facts_grow st st.
Proof. exists []. rewrite app_nil_r. split; [done|apply fresh_facts_nil]. Qed.

Lemma facts_grow_trans st1 st2 st3 :
  facts_grow st1 st2 → facts_grow st2 st3 → facts_grow st1 st3.
Proof.
  intros (a1 & He1 & H1) (a2 & He2 & H2). exists (a1 ++ a2).
  split; [by rewrite He2, He1, app_assoc|].
  apply fresh_facts_app; [done|]. by rewrite <-He1.
Qed.

Lemma facts_grow_same st st' :
  established_facts st' = established_facts st → facts_grow st st'.
Proof.
  intros He. exists []. rewrite app_nil_r. split; [done|apply fresh_facts_nil].
Qed.

Lemma tuples_grow_refl st : tuples_grow st st.
Proof.
  split; [done|]. intros n tuples Hn. exists []. rewrite app_nil_r.
  split; [done|]. by intros node tuple _ ?%elem_of_nil.
Qed.

Lemma tuples_grow_trans st1 st2 st3 :
  tuples_grow st1 st2 → tuples_grow st2 st3 → tuples_grow st1 st3.
Proof.
  intros [Hl1 H1] [Hl2 H2]. split; [congruence|]. intros n tuples Hn.
  destruct (H1 _ _ Hn) as (a1 & Hn1 & Ha1).
  destruct (H2 _ _ Hn1) as (a2 & Hn2 & Ha2).
  exists (a1 ++ a2). rewrite app_assoc. split; [done|].
  intros node tuple Hnode [?|?]%elem_of_app; eauto.
Qed.

Lemma tuples_grow_same st st' :
  supported_facts_ st' = supported_facts_ st → tuples_grow st st'.
Proof. intros He. unfold tuples_grow. rewrite He. apply tuples_grow_refl. Qed.

Lemma nodes_grow_refl st : nodes_grow st st.
Proof. split; [done|]. intros n l Hn. by exists l. Qed.

Lemma nodes_grow_trans st1 st2 st3 :
  nodes_grow st1 st2 → nodes_grow st2 st3 → nodes_grow st1 st3.
Proof.
  intros [Hl1 H1] [Hl2 H2]. split; [congruence|]. intros n l Hn.
  destruct (H1 _ _ Hn) as (l1 & Hn1 & Hp1).
  destruct (H2 _ _ Hn1) as (l2 & Hn2 & Hp2).
  exists l2. split; [done|]. by etrans.
Qed.

Lemma nodes_grow_same st st' :
  reachable_nodes_ st' = reachable_nodes_ st → nodes_grow st st'.
Proof. intros He. unfold nodes_grow. rewrite He. apply nodes_grow_refl. Qed.

Lemma transitions_grow_refl transitions st : transitions_grow transitions st st.
Proof. split; [done|]. intros ref Href. by left. Qed.

Lemma transitions_grow_trans transitions st1 st2 st3 :
  nodes_grow st2 st3 →
  transitions_grow transitions st1 st2 → transitions_grow transitions st2 st3 →
  transitions_grow transitions st1 st3.
Proof.
  intros [_ Hn] [Hs1 H1] [Hs2 H2]. split; [set_solver|]. intros ref Href.
  destruct (H2 _ Href) as [Href2|?]; [|by right].
  destruct (H1 _ Href2) as [?|(t & l & Ht & Hr & Hl & Hin)]; [by left|].
  right. destruct (Hn _ _ Hl) as (l' & Hl' & Hp).
  exists t, l'. repeat (split; [done|]). by eapply elem_of_prefix.
Qed.

Lemma transitions_grow_same transitions st st' :
  achieved_transitions st' = achieved_transitions st →
  transitions_grow transitions st st'.
Proof. intros He. split; [by rewrite He|]. intros ref. rewrite He. by left. Qed.

Lemma transitions_grow_mono transitions transitions' st st' :
  (∀ t, t ∈ transitions → t ∈ transitions') →
  transitions_grow transitions st st' → transitions_grow transitions' st st'.
Proof.
  intros Hsub [Hs H]. split; [done|]. intros ref Href.
  destruct (H _ Href) as [?|(t & l & Ht & ?)]; [by left|].
  right. exists t, l. split; [by apply Hsub|done].
Qed.

Lemma progresses_refl transitions st : progresses transitions st st.
Proof.
  split; [apply facts_grow_refl|]. split; [apply tuples_grow_refl|].
  split; [apply nodes_grow_refl|apply transitions_grow_refl].
Qed.

Lemma progresses_trans transitions st1 st2 st3 :
  progresses transitions st1 st2 → progresses transitions st2 st3 →
  progresses transitions st1 st3.
Proof.
  intros (Hf1 & Ht1 & Hn1 & Ha1) (Hf2 & Ht2 & Hn2 & Ha2).
  split; [by eapply facts_grow_trans|]. split; [by eapply tuples_grow_trans|].
  split; [by eapply nodes_grow_trans|by eapply transitions_grow_trans].
Qed.

Lemma progresses_mono transitions transitions' st st' :
  (∀ t, t ∈ transitions → t ∈ transitions') →
  progresses transitions st st' → progresses transitions' st st'.
Proof.
  intros Hsub (Hf & Ht & Hn & Ha). repeat (split; [done|]).
  by eapply transitions_grow_mono.
Qed.

(** *** The established facts *)

Lemma establish_fresh established achieved established' :
  establish canUnify isEquivalentTo established achieved = Some established' →
  ∃ added, established' = established ++ added ∧ fresh_facts established added.
Proof.
  unfold establish. intros H.
  apply bind_Some in H as (b & Hb & H). apply present_spec in Hb.
  destruct b; simplify_eq.
  - exists []. rewrite app_nil_r. split; [done|apply fresh_facts_nil].
  - exists [achieved]. split; [done|]. intros [|i] b Hi; simplify_eq/=.
    rewrite app_nil_r. intros Hex. by apply Hb in Hex.
Qed.

Lemma achieve_atoms_fresh transition to_node_atoms action_parameter_domains :
  ∀ established to_node_achievers established' to_node_achievers',
  achieve_atoms canUnify createBoundedAtom isEquivalentTo transition to_node_atoms
    action_parameter_domains established to_node_achievers
  = Some (established', to_node_achievers') →
  ∃ added, established' = established ++ added ∧ fresh_facts established added.
Proof.
  induction to_node_atoms as [|atom atoms IH];
    intros established achievers established' achievers' H; simpl in H.
  - simplify_eq. exists []. rewrite app_nil_r. split; [done|apply fresh_facts_nil].
  - destruct (new_atom_domains _ _ _) as [[domains|]|]; simplify_eq/=.
    + destruct (bound_achieved_fact _ _ _) as [terms|]; simplify_eq/=.
      destruct (establish _ _ _ _) as [established1|] eqn:He; simplify_eq/=.
      apply establish_fresh in He as (a1 & -> & H1).
      apply IH in H as (a2 & -> & H2).
      exists (a1 ++ a2). rewrite app_assoc. split; [done|].
      by apply fresh_facts_app.
    + exists []. rewrite app_nil_r. split; [done|apply fresh_facts_nil].
Qed.

(** *** The supporting tuples *)

Lemma makeReachable_progresses transitions dtg_node new_reachable_facts st st'
    pushed :
  (∀ node, graph !! dtg_node = Some node →
           length new_reachable_facts = length (getAtoms node)) →
  makeReachable areEquivalent dtg_node new_reachable_facts st = Some (st', pushed) →
  progresses transitions st st'.
Proof.
  intros Hlen H.
  pose proof (makeReachable_frame _ _ _ _ _ _ H) as (He & Ha & Hr & _).
  split; [by apply facts_grow_same|]. split; [|split].
  - unfold makeReachable in H.
    destruct (supported_facts_ st !! dtg_node) as [tuples0|] eqn:Hn; simplify_eq/=.
    destruct (already_reachable _ _ _) as [[]|]; simplify_eq/=.
    { apply tuples_grow_refl. }
    unfold tuples_grow. simpl.
    split; [by rewrite length_insert|]. intros n tuples Hn'.
    destruct (decide (n = dtg_node)) as [->|Hne].
    + simplify_eq. exists [new_reachable_facts].
      rewrite list_lookup_insert_eq by (by eapply lookup_lt_Some).
      split; [done|]. intros node tuple Hnode ->%list_elem_of_singleton. auto.
    + exists []. rewrite app_nil_r, list_lookup_insert_ne by done.
      split; [done|]. by intros node tuple _ ?%elem_of_nil.
  - by apply nodes_grow_same.
  - by apply transitions_grow_same.
Qed.


(** *** A transition that fires *)

Lemma fire_progresses transition st reachable_nodes established :
  reachable_nodes_ st !! getFromNode transition = Some reachable_nodes →
  (∃ added, established = established_facts st ++ added ∧
            fresh_facts (established_facts st) added) →
  progresses [transition] st
    (with_established_facts established
       (let st1 := with_achieved_transitions
                     ({[transition_ref transition]} ∪ achieved_transitions st)
                     st in
        if bool_decide (getToNode transition ∈ reachable_nodes) then st1
        else with_reachable_nodes
               (<[getFromNode transition :=
                    reachable_nodes ++ [getToNode transition]]>
                  (reachable_nodes_ st1)) st1)).
Proof.
  intros Hfrom Hfresh.
  assert (∃ l, reachable_nodes_
                 (with_established_facts established
                    (let st1 := with_achieved_transitions
                                  ({[transition_ref transition]}
                                     ∪ achieved_transitions st) st in
                     if bool_decide (getToNode transition ∈ reachable_nodes)
                     then st1
                     else with_reachable_nodes
                            (<[getFromNode transition :=
                                 reachable_nodes ++ [getToNode transition]]>
                               (reachable_nodes_ st1)) st1))
                 !! getFromNode transition = Some l ∧
               getToNode transition ∈ l ∧ reachable_nodes `prefix_of` l)
    as (l & Hl & Hin & Hpre).
  { simpl. case_bool_decide as Hto; simpl.
    - by exists reachable_nodes.
    - exists (reachable_nodes ++ [getToNode transition]).
      rewrite list_lookup_insert_eq by (by eapply lookup_lt_Some).
      split; [done|]. split; [|by apply prefix_app_r].
      apply elem_of_app. right. by apply list_elem_of_singleton. }
  split; [|split; [|split]].
  - destruct Hfresh as (added & -> & Hfresh). exists added. simpl. done.
  - apply tuples_grow_same. simpl. by case_bool_decide.
  - simpl in *. case_bool_decide as Hto; simpl in *.
    + by apply nodes_grow_same.
    + unfold nodes_grow. simpl.
      split; [by rewrite length_insert|]. intros n l0 Hn.
      destruct (decide (n = getFromNode transition)) as [->|Hne].
      * exists l. split; [done|]. congruence.
      * exists l0. by rewrite list_lookup_insert_ne.
  - split.
    + simpl. case_bool_decide; simpl; set_solver.
    + intros ref Href.
      assert (ref ∈ {[transition_ref transition]} ∪ achieved_transitions st)
        as [->%elem_of_singleton|?]%elem_of_union
        by (simpl in Href; by case_bool_decide); [|by left].
      right. exists transition, l. split; [by apply list_elem_of_singleton|done].
Qed.

Lemma try_assignments_progresses transition from_atoms assignable_atoms :
  ∀ st new_transition_achieved st' new_transition_achieved',
  try_assignments canUnify createBoundedAtom areEquivalent isEquivalentTo graph
    transition from_atoms assignable_atoms st new_transition_achieved
  = Some (st', new_transition_achieved') →
  progresses [transition] st st'.
Proof.
  induction assignable_atoms as [|possible_assignment rest IH];
    intros st nta st' nta' H; simpl in H.
  - simplify_eq. apply progresses_refl.
  - destruct (assign_atoms _ _ _ _) as [term_assignments|]; simplify_eq/=.
    destruct (getSupportingFacts _ _ _ _ _ _ _) as [[|supporting_atoms ?]|];
      simplify_eq/=; [by eapply IH|].
    destruct (reachable_nodes_ st !! getFromNode transition)
      as [reachable_nodes|] eqn:Hfrom; simplify_eq/=.
    destruct (graph !! getToNode transition) as [to_node|] eqn:Hto;
      simplify_eq/=.
    destruct (bind_action_parameters _ _ _ _) as [domains|]; simplify_eq/=.
    destruct (achieve_atoms _ _ _ _ _ _ _ _) as [[established achievers]|] eqn:Ha;
      simplify_eq/=.
    apply achieve_atoms_fresh in Ha.
    assert (established_facts
              (if bool_decide (getToNode transition ∈ reachable_nodes)
               then with_achieved_transitions
                      ({[transition_ref transition]} ∪ achieved_transitions st) st
               else with_reachable_nodes
                      (<[getFromNode transition :=
                           reachable_nodes ++ [getToNode transition]]>
                         (reachable_nodes_ st))
                      (with_achieved_transitions
                         ({[transition_ref transition]}
                            ∪ achieved_transitions st) st))
            = established_facts st) as Hest
      by (by destruct (bool_decide (getToNode transition ∈ reachable_nodes))).
    rewrite Hest in Ha.
    pose proof (fire_progresses transition st reachable_nodes established
                  Hfrom Ha) as Hfire.
    simpl in Hfire.
    destruct (bool_decide (length (getAtoms to_node) ≠ length achievers))
      eqn:Hlen.
    + eapply progresses_trans; [exact Hfire|]. exact (IH _ _ _ _ H).
    + destruct (makeReachable _ _ _ _) as [[st4 pushed]|] eqn:Hm; simplify_eq/=.
      destruct (pushed && _); [done|].
      eapply progresses_trans; [exact Hfire|].
      eapply progresses_trans; [|exact (IH _ _ _ _ H)].
      eapply makeReachable_progresses; [|exact Hm].
      intros node Hnode. apply bool_decide_eq_false, dec_stable in Hlen.
      congruence.
Qed.

Lemma try_transitions_progresses transitions :
  ∀ st new_transition_achieved st' new_transition_achieved',
  try_transitions canUnify createBoundedAtom areEquivalent isEquivalentTo graph
    transitions st new_transition_achieved = Some (st', new_transition_achieved') →
  progresses transitions st st'.
Proof.
  induction transitions as [|transition transitions IH];
    intros st nta st' nta' H; simpl in H.
  - simplify_eq. apply progresses_refl.
  - assert (∀ st1 nta1,
              try_transitions canUnify createBoundedAtom areEquivalent
                isEquivalentTo graph transitions st1 nta1 = Some (st', nta') →
              progresses (transition :: transitions) st1 st') as IH'.
    { intros st1 nta1 H1. eapply progresses_mono; [|by eapply IH].
      intros t Ht. by right. }
    case_bool_decide; [by eapply IH'|].
    destruct (supported_facts_ st !! getFromNode transition); simplify_eq/=.
    destruct (graph !! getFromNode transition); simplify_eq/=.
    destruct (try_assignments _ _ _ _ _ _ _ _ _ _) as [[st1 achieved]|] eqn:Ht;
      simplify_eq/=.
    eapply progresses_trans; [|by eapply IH'].
    eapply progresses_mono; [|by eapply try_assignments_progresses].
    intros t ->%list_elem_of_singleton. by left.
Qed.


(** *** The fixed point *)

Lemma with_reachable_nodes_progresses transitions st rn :
  extends (reachable_nodes_ st) rn →
  progresses transitions st (with_reachable_nodes rn st).
Proof.
  intros (Hlen & Hgrow & _).
  split; [by apply facts_grow_same|]. split; [by apply tuples_grow_same|].
  split; [done|by apply transitions_grow_same].
Qed.

Lemma seed_nodes_progresses transitions nodes :
  ∀ index st open_list st' open_list',
  (∀ i node, nodes !! i = Some node → graph !! (index + i) = Some node) →
  seed_nodes canUnify createBoundedAtom nodes index st open_list
  = Some (st', open_list') →
  progresses transitions st st'.
Proof.
  induction nodes as [|node nodes IH];
    intros index st open_list st' open_list' Hgraph H; simpl in H.
  - simplify_eq. apply progresses_refl.
  - destruct (getSupportingFacts _ _ _ _ _ _ _) as [supporting_tupples|] eqn:Hs;
      simplify_eq/=.
    apply bind_Some in H as (st1 & Hst1 & H).
    eapply progresses_trans; [|eapply IH; [|exact H]].
    2:{ intros i node' Hi. replace (S index + i) with (index + S i) by lia.
        by apply Hgraph. }
    destruct supporting_tupples as [|first others]; simplify_eq/=.
    { apply progresses_refl. }
    destruct (supported_facts_ st !! index) as [supported|] eqn:Hindex;
      simplify_eq/=.
    unfold getSupportingFacts in Hs.
    apply getSupportingFacts_from_adds in Hs as (added & Hadded & Hbuilt).
    simpl in Hadded. subst added.
    apply Forall_cons in Hbuilt as [Hfirst _].
    apply Forall2_length in Hfirst.
    split; [by apply facts_grow_same|]. split; [|split].
    + unfold tuples_grow. simpl. split; [by rewrite length_insert|].
      intros n tuples Hn. destruct (decide (n = index)) as [->|Hne].
      * assert (tuples = supported) as -> by congruence.
        exists [first].
        rewrite list_lookup_insert_eq by (by eapply lookup_lt_Some).
        split; [done|]. intros node' tuple Hnode ->%list_elem_of_singleton.
        specialize (Hgraph 0 node eq_refl). rewrite Nat.add_0_r in Hgraph.
        congruence.
      * exists []. rewrite app_nil_r, list_lookup_insert_ne by done.
        split; [done|]. by intros node' tuple _ ?%elem_of_nil.
    + by apply nodes_grow_same.
    + by apply transitions_grow_same.
Qed.

Lemma achieve_transitions_progresses fuel open_list : ∀ rounds st st',
  achieve_transitions canUnify createBoundedAtom areEquivalent isEquivalentTo
    graph fuel rounds open_list st = Returns st' →
  progresses open_list st st'.
Proof.
  induction rounds as [|rounds IH]; intros st st' H; simpl in H; [done|].
  apply bind_Returns in H as (rn & Hrn & H).
  apply bind_Returns in H as ([st1 achieved] & Ht & H).
  apply deref_Returns in Ht.
  unfold propagateReachableNodes in Hrn.
  apply (propagate_open_list_closes 0) in Hrn as [Hext _].
  2:{ intros n l m Hn. lia. }
  eapply progresses_trans; [by apply with_reachable_nodes_progresses|].
  apply try_transitions_progresses in Ht.
  eapply progresses_trans.
  { eapply progresses_mono; [|exact Ht]. intros t. by rewrite elem_of_reverse. }
  destruct achieved; [by apply IH|]. simplify_eq. apply progresses_refl.
Qed.

Lemma iterateThroughFixedPoint_progresses fuel st st' :
  iterateThroughFixedPoint canUnify createBoundedAtom areEquivalent isEquivalentTo
    graph fuel st = Returns st' →
  progresses (graph_transitions graph) st st'.
Proof.
  unfold iterateThroughFixedPoint. intros H.
  apply bind_Returns in H as ([st1 open_list] & Hs & H).
  apply deref_Returns in Hs.
  pose proof (seed_nodes_spec _ _ _ _ _ _ _ _ Hs) as (_ & _ & _ & Hopen).
  simpl in Hopen. subst open_list.
  eapply progresses_trans.
  - eapply seed_nodes_progresses; [|exact Hs]. by intros i node Hi.
  - by apply achieve_transitions_progresses in H.
Qed.


(** *** The facts a firing achieves *)






(** *** The established facts of a run *)












(** *** External dependencies *)

Lemma externally_reachable_facts_length from_supported number_of_atoms
    with_dependencies mapping equivalent_atoms supporting_facts established :
  ∀ todo i reachable_facts result,
  externally_reachable_facts createBoundedAtom canUnifyBoundedAtoms from_supported
    number_of_atoms with_dependencies mapping equivalent_atoms supporting_facts
    established i todo reachable_facts = Some (Some result) →
  length result = length reachable_facts + todo.
Proof.
  induction todo as [|todo IH]; intros i reachable_facts result H; simpl in H.
  - simplify_eq. lia.
  - destruct (with_dependencies !! i) as [has_dependency|]; simplify_eq/=.
    destruct (supporting_facts !! i) as [fact|]; simplify_eq/=.
    destruct has_dependency; simpl in H.
    + destruct (equivalent_atoms !! i); simplify_eq/=.
      destruct (bool_decide (Forall _ from_supported)); [|done].
      destruct (mapping !! i); simplify_eq/=.
      destruct (atom_to_reach_terms _ _ _ _ _ _); simplify_eq/=.
      destruct (existsb _ established); [|done].
      apply IH in H. rewrite length_app in H. simpl in H. lia.
    + apply IH in H. rewrite length_app in H. simpl in H. lia.
Qed.

Lemma reach_with_each_tupple_progresses transitions from_supported
    number_of_atoms with_dependencies mapping equivalent_dtg_node
    equivalent_atoms todo :
  (∀ node, graph !! equivalent_dtg_node = Some node →
           length (getAtoms node) = number_of_atoms) →
  ∀ st st',
  reach_with_each_tupple createBoundedAtom areEquivalent canUnifyBoundedAtoms
    from_supported number_of_atoms with_dependencies mapping equivalent_dtg_node
    equivalent_atoms todo st = Some st' →
  progresses transitions st st'.
Proof.
  intros Hnode. induction todo as [|supporting_facts todo IH]; intros st st' H;
    simpl in H.
  - simplify_eq. apply progresses_refl.
  - destruct (externally_reachable_facts _ _ _ _ _ _ _ _ _ _ _ _)
      as [reachable_facts|] eqn:He; simplify_eq/=.
    apply bind_Some in H as (st1 & Hst1 & H).
    eapply progresses_trans; [|by eapply IH].
    destruct reachable_facts as [reachable_facts|]; simplify_eq/=;
      [|apply progresses_refl].
    destruct (makeReachable _ _ _ _) as [[st2 pushed]|] eqn:Hm; simplify_eq/=.
    eapply makeReachable_progresses; [|exact Hm].
    intros node Hn. apply externally_reachable_facts_length in He.
    simpl in He. rewrite (Hnode _ Hn). lia.
Qed.

Lemma reach_equivalent_node_progresses transitions from_node from_atoms
    with_dependencies mapping equivalent_dtg_node st st' :
  reach_equivalent_node createBoundedAtom areEquivalent canUnifyBoundedAtoms graph
    from_node from_atoms with_dependencies mapping equivalent_dtg_node st
  = Some st' →
  progresses transitions st st'.
Proof.
  unfold reach_equivalent_node. intros H.
  case_bool_decide; simplify_eq; [apply progresses_refl|].
  destruct (graph !! equivalent_dtg_node) as [equivalent_node|] eqn:Hn;
    simplify_eq/=.
  case_bool_decide as Hlen; [|done].
  destruct (supported_facts_ st !! from_node); simplify_eq/=.
  eapply reach_with_each_tupple_progresses; [|exact H].
  intros node Hnode. congruence.
Qed.

Lemma for_each_matching_dtg_progresses transitions from_node from_atoms
    with_dependencies mapping nodes : ∀ st st',
  for_each_matching_dtg nodes
    (reach_equivalent_node createBoundedAtom areEquivalent canUnifyBoundedAtoms
       graph from_node from_atoms with_dependencies mapping) st = Some st' →
  progresses transitions st st'.
Proof.
  induction nodes as [|node nodes IH]; intros st st' H; [done|].
  destruct nodes as [|node' nodes].
  - simpl in H. simplify_eq. apply progresses_refl.
  - cbn [for_each_matching_dtg] in H.
    apply bind_Some in H as (st1 & H1 & H).
    eapply progresses_trans; [by eapply reach_equivalent_node_progresses|].
    by apply IH.
Qed.

Lemma external_transitions_progresses transitions todo : ∀ st st',
  external_transitions createBoundedAtom areEquivalent canUnifyBoundedAtoms
    getNodes graph todo st = Some st' →
  progresses transitions st st'.
Proof.
  induction todo as [|[transition dependend_term_domains] todo IH];
    intros st st' H; simpl in H.
  - simplify_eq. apply progresses_refl.
  - apply bind_Some in H as (st1 & H1 & H).
    eapply progresses_trans; [|by eapply IH].
    unfold external_transition in H1.
    destruct (graph !! getFromNode transition) as [from_node|] eqn:Hfrom;
      simplify_eq/=.
    case_bool_decide; [done|].
    destruct (equivalent_nodes_to_find _ _ _) as [to_find|]; simplify_eq/=.
    unfold reach_matching_dtgs in H1. rewrite Hfrom in H1. simpl in H1.
    by eapply for_each_matching_dtg_progresses.
Qed.

Lemma external_dependencies_progresses transitions nodes : ∀ st st',
  external_dependencies createBoundedAtom areEquivalent canUnifyBoundedAtoms
    getExternalDependendTransitions getNodes graph nodes st = Some st' →
  progresses transitions st st'.
Proof.
  induction nodes as [|node nodes IH]; intros st st' H; simpl in H.
  - simplify_eq. apply progresses_refl.
  - apply bind_Some in H as (st1 & H1 & H).
    eapply progresses_trans; [by eapply external_transitions_progresses|].
    by eapply IH.
Qed.

(** *** The analysis *)

Lemma analysis_iteration_progresses fuel st manager st' manager' :
  analysis_iteration canUnify createBoundedAtom areEquivalent canUnifyBoundedAtoms
    isEquivalentTo getExternalDependendTransitions getNodes
    EquivalentObjectGroupManager updateEquivalences graph fuel st manager
  = Returns (st', manager') →
  progresses (graph_transitions graph) st st'.
Proof.
  unfold analysis_iteration. intros H.
  apply bind_Returns in H as (st1 & H1 & H).
  apply bind_Returns in H as (manager1 & _ & H).
  apply bind_Returns in H as (st2 & H2 & H). apply deref_Returns in H2.
  simplify_eq/=.
  eapply progresses_trans; [by eapply iterateThroughFixedPoint_progresses|].
  by eapply external_dependencies_progresses.
Qed.

Lemma analysis_loop_progresses fuel : ∀ iterations st manager st' manager',
  analysis_loop canUnify createBoundedAtom areEquivalent canUnifyBoundedAtoms
    isEquivalentTo getExternalDependendTransitions getNodes
    EquivalentObjectGroupManager updateEquivalences graph fuel iterations st manager
  = Returns (st', manager') →
  progresses (graph_transitions graph) st st'.
Proof.
  induction iterations as [|iterations IH]; intros st manager st' manager' H;
    simpl in H; [done|].
  apply bind_Returns in H as ([st1 manager1] & H1 & H).
  apply analysis_iteration_progresses in H1.
  destruct (bool_decide (_ ≠ _)).
  - eapply progresses_trans; [done|]. by eapply IH.
  - by simplify_eq.
Qed.

Lemma performReachabilityAnalsysis_progresses fuel st initial_facts st' manager :
  performReachabilityAnalsysis canUnify createBoundedAtom areEquivalent
    canUnifyBoundedAtoms isEquivalentTo getExternalDependendTransitions getNodes
    EquivalentObjectGroupManager EquivalentObjectGroupManager_new
    updateEquivalences graph fuel st initial_facts = Returns (st', manager) →
  progresses (graph_transitions graph)
    (with_established_facts initial_facts (with_achieved_transitions ∅ st)) st'.
Proof.
  unfold performReachabilityAnalsysis. intros H.
  apply bind_Returns in H as (manager0 & _ & H).
  by eapply analysis_loop_progresses.
Qed.

(** X18.  The analysis leaves the initial facts where they are and
    establishes facts behind them; no fact it establishes is stood for by
    a fact that comes before it, initial or established. *)
Theorem analysis_establishes_no_fact_twice fuel st initial_facts st' manager :
  performReachabilityAnalsysis canUnify createBoundedAtom areEquivalent
    canUnifyBoundedAtoms isEquivalentTo getExternalDependendTransitions getNodes
    EquivalentObjectGroupManager EquivalentObjectGroupManager_new
    updateEquivalences graph fuel st initial_facts = Returns (st', manager) →
  ∃ added,
    established_facts st' = initial_facts ++ added ∧
    ∀ i b, added !! i = Some b →
      ¬ ∃ a, a ∈ initial_facts ++ take i added ∧
             stands_for canUnify isEquivalentTo a b.
Proof.
  intros H. by apply performReachabilityAnalsysis_progresses in H as (Hf & _).
Qed.

(** X19.  Every tuple of supporting facts the analysis records for a
    node of the graph has one fact for each atom of the node; the tuples a
    node had before stay at the head of its list. *)
Theorem supporting_tuples_fit_their_node fuel st initial_facts st' manager :
  performReachabilityAnalsysis canUnify createBoundedAtom areEquivalent
    canUnifyBoundedAtoms isEquivalentTo getExternalDependendTransitions getNodes
    EquivalentObjectGroupManager EquivalentObjectGroupManager_new
    updateEquivalences graph fuel st initial_facts = Returns (st', manager) →
  ∀ n tuples, supported_facts_ st !! n = Some tuples →
    ∃ added, supported_facts_ st' !! n = Some (tuples ++ added) ∧
             ∀ node tuple, graph !! n = Some node → tuple ∈ added →
                           length tuple = length (getAtoms node).
Proof.
  intros H. apply performReachabilityAnalsysis_progresses in H as (_ & Ht & _).
  apply Ht.
Qed.

(** X20.  Every transition the analysis marks as achieved is a
    transition of the graph, and its to node is in the list of the nodes
    reachable from its from node. *)
Theorem achieved_transitions_reach_their_to_node fuel st initial_facts st' manager :
  performReachabilityAnalsysis canUnify createBoundedAtom areEquivalent
    canUnifyBoundedAtoms isEquivalentTo getExternalDependendTransitions getNodes
    EquivalentObjectGroupManager EquivalentObjectGroupManager_new
    updateEquivalences graph fuel st initial_facts = Returns (st', manager) →
  ∀ ref, ref ∈ achieved_transitions st' →
    ∃ t l, t ∈ graph_transitions graph ∧ transition_ref t = ref ∧
           reachable_nodes_ st' !! getFromNode t = Some l ∧ getToNode t ∈ l.
Proof.
  intros H ref Href.
  apply performReachabilityAnalsysis_progresses in H as (_ & _ & _ & [_ Ha]).
  destruct (Ha _ Href) as [Hin|?]; [|done]. simpl in Hin. set_solver.
Qed.

End EngineProgress.

(** ** The earlier equivalent object groups *)

Section EarlierGroups.

Context {type : Type}.
Variable getType : Object → type.
Variable isEqual : type → type → bool.

(** X21.  [addInitialDTGNodeMapping] for an object the group has no entry
    for answers true and records nothing.  For an object with an entry it
    pushes the node on the vector of the object and answers true iff the
    node is not in that vector, it leaves the other vectors alone, and a
    second call with the same node answers false and changes nothing. *)
Theorem addInitialDTGNodeMapping_adds_once vectors
    (initial_mapping_ : SAS_Plus.EquivalentObjectGroup) object dtg_node vectors1 b :
  SAS_Plus.addInitialDTGNodeMapping vectors initial_mapping_ object dtg_node
  = Some (vectors1, b) →
  initial_mapping_ !! object = None ∧ b = true ∧ vectors1 = vectors
  ∨ ∃ mapping_ref mapping,
      initial_mapping_ !! object = Some mapping_ref ∧
      vectors !! mapping_ref = Some mapping ∧
      (b = true ↔ dtg_node ∉ mapping) ∧
      vectors1 !! mapping_ref
      = Some (if b then mapping ++ [dtg_node] else mapping) ∧
      (∀ r, r ≠ mapping_ref → vectors1 !! r = vectors !! r) ∧
      SAS_Plus.addInitialDTGNodeMapping vectors1 initial_mapping_ object dtg_node
      = Some (vectors1, false).
Proof.
  unfold SAS_Plus.addInitialDTGNodeMapping. intros H.
  destruct (initial_mapping_ !! object) as [mapping_ref|] eqn:Hobj.
  - right. destruct (vectors !! mapping_ref) as [mapping|] eqn:Hv; simplify_eq/=.
    exists mapping_ref, mapping. split; [done|]. split; [done|].
    case_bool_decide as Hin; simplify_eq.
    + split; [split; [done|intros ?; done]|]. split; [done|]. split; [done|].
      rewrite Hv. simpl. by rewrite bool_decide_eq_true_2.
    + split; [done|].
      rewrite list_lookup_insert_eq by (by eapply lookup_lt_Some).
      split; [done|]. split.
      { intros r Hr. by rewrite list_lookup_insert_ne. }
      simpl. rewrite bool_decide_eq_true_2; [done|].
      apply elem_of_app. right. by apply list_elem_of_singleton.
  - left. by simplify_eq.
Qed.

Lemma first_hit_spec {A} (body : A → option bool) (l : list A) :
  (∀ x, x ∈ l → is_Some (body x)) →
  ∃ hit, SAS_Plus.first_hit body l = Some hit ∧
         (hit = true ↔ ∃ x, x ∈ l ∧ body x = Some true).
Proof.
  induction l as [|x l IH]; intros Hdef; simpl.
  - exists false. split; [done|]. split; [done|].
    intros (x & ?%elem_of_nil & _). done.
  - destruct (Hdef x) as [hit Hx]; [by left|]. rewrite Hx. simpl.
    destruct hit.
    + exists true. split; [done|]. split; [|done]. intros _. exists x.
      split; [by left|done].
    + destruct IH as (hit & -> & Hhit).
      { intros y Hy. apply Hdef. by right. }
      exists hit. split; [done|]. rewrite Hhit. split.
      * intros (y & Hy & Hb). exists y. split; [by right|done].
      * intros (y & [->|Hy]%elem_of_cons & Hb); [congruence|]. by exists y.
Qed.

Lemma elem_of_entries (m : SAS_Plus.EquivalentObjectGroup) object ref :
  (object, ref) ∈ SAS_Plus.entries m ↔ m !! object = Some ref.
Proof.
  unfold SAS_Plus.entries. rewrite merge_sort_Permutation.
  apply elem_of_map_to_list.
Qed.

(** The node is in the vector the group has for the object. *)
Definition initial_node (vectors : list (list nat))
    (m : SAS_Plus.EquivalentObjectGroup) (object : Object) (dtg_node : nat) : Prop :=
  ∃ ref initial_dtgs,
    m !! object = Some ref ∧ vectors !! ref = Some initial_dtgs ∧
    dtg_node ∈ initial_dtgs.

(** Each of the two nodes is in the list of the nodes reachable from the
    other. *)
Definition mutually_reachable (reachable_nodes : list (list nat)) (a b : nat)
    : Prop :=
  ∃ from_a from_b,
    reachable_nodes !! a = Some from_a ∧ reachable_nodes !! b = Some from_b ∧
    b ∈ from_a ∧ a ∈ from_b.


Lemma any_nodes_reach_each_other_spec reachable_nodes this_dtgs other_dtgs :
  (∀ n, n ∈ this_dtgs ∨ n ∈ other_dtgs → is_Some (reachable_nodes !! n)) →
  ∃ hit,
    SAS_Plus.any_nodes_reach_each_other reachable_nodes this_dtgs other_dtgs
    = Some hit ∧
    (hit = true ↔
     ∃ a b, a ∈ this_dtgs ∧ b ∈ other_dtgs ∧
            mutually_reachable reachable_nodes a b).
Proof.
  intros Hrn.
  assert (∀ a from_a, reachable_nodes !! a = Some from_a →
            ∃ hit,
              SAS_Plus.first_hit
                (SAS_Plus.reach_each_other reachable_nodes a from_a) other_dtgs
              = Some hit ∧
              (hit = true ↔
               ∃ b, b ∈ other_dtgs ∧ mutually_reachable reachable_nodes a b))
    as Hinner.
  { intros a from_a Ha.
    destruct (first_hit_spec
                (SAS_Plus.reach_each_other reachable_nodes a from_a) other_dtgs)
      as (hit & Hhit & Hspec).
    { intros b Hb. unfold SAS_Plus.reach_each_other.
      destruct (Hrn b) as [from_b ->]; [by right|]. by eexists. }
    exists hit. split; [done|]. rewrite Hspec.
    unfold SAS_Plus.reach_each_other. split.
    - intros (b & Hb & Hbody). exists b. split; [done|].
      destruct (reachable_nodes !! b) as [from_b|] eqn:Hfb; [|done].
      simpl in Hbody. injection Hbody as Hbody.
      apply bool_decide_eq_true in Hbody as [? ?].
      by exists from_a, from_b.
    - intros (b & Hb & from_a' & from_b & Ha' & Hfb & ? & ?).
      exists b. split; [done|]. rewrite Hfb. simpl. simplify_eq.
      f_equal. by apply bool_decide_eq_true_2. }
  unfold SAS_Plus.any_nodes_reach_each_other.
  destruct (first_hit_spec
              (λ this_initial_dtg,
                 reachable_nodes_from_this ← reachable_nodes !! this_initial_dtg;
                 SAS_Plus.first_hit
                   (SAS_Plus.reach_each_other reachable_nodes this_initial_dtg
                      reachable_nodes_from_this) other_dtgs) this_dtgs)
    as (hit & Hhit & Hspec).
  { intros a Ha. destruct (Hrn a) as [from_a Hfa]; [by left|].
    rewrite Hfa. simpl. destruct (Hinner a from_a Hfa) as (hit & -> & _).
    by eexists. }
  exists hit. split; [done|]. rewrite Hspec. split.
  - intros (a & Ha & Hbody). exists a.
    destruct (reachable_nodes !! a) as [from_a|] eqn:Hfa; [|done].
    simpl in Hbody.
    destruct (Hinner a from_a Hfa) as (hit' & Hhit' & Hspec').
    rewrite Hhit' in Hbody. injection Hbody as ->.
    destruct (proj1 Hspec' eq_refl) as (b & Hb & Hm). by exists b.
  - intros (a & b & Ha & Hb & Hm). exists a. split; [done|].
    destruct (Hrn a) as [from_a Hfa]; [by left|]. rewrite Hfa. simpl.
    destruct (Hinner a from_a Hfa) as (hit' & -> & Hspec').
    f_equal. apply Hspec'. by exists b.
Qed.

Lemma any_object_of_other_spec vectors reachable_nodes this_object this_dtgs
    (other_group : SAS_Plus.EquivalentObjectGroup) :
  (∀ object ref, other_group !! object = Some ref → is_Some (vectors !! ref)) →
  (∀ n, n ∈ this_dtgs → is_Some (reachable_nodes !! n)) →
  (∀ object n, initial_node vectors other_group object n →
               is_Some (reachable_nodes !! n)) →
  ∃ hit,
    SAS_Plus.any_object_of_other getType isEqual vectors reachable_nodes
      this_object this_dtgs other_group = Some hit ∧
    (hit = true ↔
     ∃ other_object a b,
       a ∈ this_dtgs ∧ initial_node vectors other_group other_object b ∧
       isEqual (getType this_object) (getType other_object) = true ∧
       mutually_reachable reachable_nodes a b).
Proof.
  intros Hvectors Hthis Hother.
  assert (∀ other_object other_ref other_dtgs,
            other_group !! other_object = Some other_ref →
            vectors !! other_ref = Some other_dtgs →
            ∀ n, n ∈ this_dtgs ∨ n ∈ other_dtgs →
                 is_Some (reachable_nodes !! n)) as Hrn.
  { intros other_object other_ref other_dtgs Ho Hv n [?|Hn]; [by apply Hthis|].
    apply (Hother other_object). by exists other_ref, other_dtgs. }
  unfold SAS_Plus.any_object_of_other.
  destruct (first_hit_spec
              (λ '(other_object, other_ref),
                 if negb (isEqual (getType this_object) (getType other_object))
                 then Some false
                 else
                   other_initial_dtgs ← vectors !! other_ref;
                   if bool_decide (length other_initial_dtgs = 0)
                   then Some false
                   else SAS_Plus.any_nodes_reach_each_other reachable_nodes
                          this_dtgs other_initial_dtgs)
              (SAS_Plus.entries other_group)) as (hit & Hhit & Hspec).
  { intros [other_object other_ref] Hin%elem_of_entries.
    destruct (negb _); [by eexists|].
    destruct (Hvectors other_object other_ref) as [other_dtgs Hv]; [done|].
    rewrite Hv. simpl. case_bool_decide; [by eexists|].
    destruct (any_nodes_reach_each_other_spec reachable_nodes this_dtgs other_dtgs)
      as (hit & -> & _); [by eapply Hrn|by eexists]. }
  exists hit. split; [done|]. rewrite Hspec. split.
  - intros ([other_object other_ref] & Hin%elem_of_entries & Hbody).
    destruct (isEqual _ _) eqn:Heq; simpl in Hbody; [|done].
    destruct (vectors !! other_ref) as [other_dtgs|] eqn:Hv; [|done].
    simpl in Hbody.
    destruct (bool_decide (length other_dtgs = 0)); [done|].
    destruct (any_nodes_reach_each_other_spec reachable_nodes this_dtgs other_dtgs)
      as (hit' & Hhit' & Hspec'); [by eapply Hrn|].
    rewrite Hhit' in Hbody. injection Hbody as ->.
    destruct (proj1 Hspec' eq_refl) as (a & b & Ha & Hb & Hm).
    exists other_object, a, b. split; [done|].
    split; [by exists other_ref, other_dtgs|done].
  - intros (other_object & a & b & Ha & (other_ref & other_dtgs & Ho & Hv & Hb)
            & Heq & Hm).
    exists (other_object, other_ref). split; [by apply elem_of_entries|].
    rewrite Heq, Hv. simpl.
    rewrite bool_decide_eq_false_2
      by (by destruct other_dtgs; [apply elem_of_nil in Hb|]).
    destruct (any_nodes_reach_each_other_spec reachable_nodes this_dtgs other_dtgs)
      as (hit' & -> & Hspec'); [by eapply Hrn|].
    f_equal. apply Hspec'. by exists a, b.
Qed.

(** X22.  The earlier [tryToMergeWith], on groups whose vectors exist and
    whose initial nodes all have a list of reachable nodes, returns.  It
    answers true iff an object of this group and an object of the other
    group have the same type and initial nodes that are reachable from
    each other; then this group takes the entries of the other group for
    the objects it has no entry for, and otherwise it stays as it is. *)
Theorem earlier_tryToMergeWith_merges_iff_mutually_reachable vectors
    (initial_mapping_ other_group : SAS_Plus.EquivalentObjectGroup)
    reachable_nodes :
  (∀ object ref, initial_mapping_ !! object = Some ref ∨
                 other_group !! object = Some ref →
                 is_Some (vectors !! ref)) →
  (∀ object dtg_node, initial_node vectors initial_mapping_ object dtg_node ∨
                      initial_node vectors other_group object dtg_node →
                      is_Some (reachable_nodes !! dtg_node)) →
  ∃ merged,
    SAS_Plus.tryToMergeWith getType isEqual vectors initial_mapping_ other_group
      reachable_nodes
    = Some (if merged : bool then initial_mapping_ ∪ other_group
            else initial_mapping_, merged) ∧
    (merged = true ↔
     ∃ this_object other_object this_initial_dtg other_initial_dtg,
       initial_node vectors initial_mapping_ this_object this_initial_dtg ∧
       initial_node vectors other_group other_object other_initial_dtg ∧
       isEqual (getType this_object) (getType other_object) = true ∧
       mutually_reachable reachable_nodes this_initial_dtg other_initial_dtg).
Proof.
  intros Hvectors Hnodes. unfold SAS_Plus.tryToMergeWith.
  assert (∀ this_object this_ref this_dtgs,
            initial_mapping_ !! this_object = Some this_ref →
            vectors !! this_ref = Some this_dtgs →
            ∃ hit,
              SAS_Plus.any_object_of_other getType isEqual vectors reachable_nodes
                this_object this_dtgs other_group = Some hit ∧
              (hit = true ↔
               ∃ other_object a b,
                 a ∈ this_dtgs ∧ initial_node vectors other_group other_object b ∧
                 isEqual (getType this_object) (getType other_object) = true ∧
                 mutually_reachable reachable_nodes a b)) as Hothers.
  { intros this_object this_ref this_dtgs Ho Hv.
    apply any_object_of_other_spec.
    - intros object ref Href. apply (Hvectors object). by right.
    - intros n Hn. apply (Hnodes this_object). left.
      by exists this_ref, this_dtgs.
    - intros object n Hn. apply (Hnodes object). by right. }
  destruct (first_hit_spec
              (λ '(this_object, this_ref),
                 this_initial_dtgs ← vectors !! this_ref;
                 if bool_decide (length this_initial_dtgs = 0) then Some false
                 else SAS_Plus.any_object_of_other getType isEqual vectors
                        reachable_nodes this_object this_initial_dtgs other_group)
              (SAS_Plus.entries initial_mapping_)) as (merged & Hmerged & Hspec).
  { intros [this_object this_ref] Hin%elem_of_entries.
    destruct (Hvectors this_object this_ref) as [this_dtgs Hv]; [by left|].
    rewrite Hv. simpl. case_bool_decide; [by eexists|].
    destruct (Hothers this_object this_ref this_dtgs) as (hit & -> & _);
      [done..|by eexists]. }
  exists merged. rewrite Hmerged. simpl. split; [done|]. rewrite Hspec. split.
  - intros ([this_object this_ref] & Hin%elem_of_entries & Hbody).
    destruct (vectors !! this_ref) as [this_dtgs|] eqn:Hv; [|done].
    simpl in Hbody.
    destruct (bool_decide (length this_dtgs = 0)); [done|].
    destruct (Hothers this_object this_ref this_dtgs) as (hit & Hhit & Hspec');
      [done..|].
    rewrite Hhit in Hbody. injection Hbody as ->.
    destruct (proj1 Hspec' eq_refl) as (other_object & a & b & Ha & Hb & Heq & Hm).
    exists this_object, other_object, a, b.
    split; [by exists this_ref, this_dtgs|done].
  - intros (this_object & other_object & a & b
            & (this_ref & this_dtgs & Ho & Hv & Ha) & Hb & Heq & Hm).
    exists (this_object, this_ref). split; [by apply elem_of_entries|].
    rewrite Hv. simpl.
    rewrite bool_decide_eq_false_2
      by (by destruct this_dtgs; [apply elem_of_nil in Ha|]).
    destruct (Hothers this_object this_ref this_dtgs) as (hit & -> & Hspec');
      [done..|].
    f_equal. apply Hspec'. by exists other_object, a, b.
Qed.

End EarlierGroups.

(** *** The groups that are erased *)

Lemma erase_merged_none {A} (to_remove : list bool) : ∀ steps i (l : list A),
  (∀ k, i ≤ k < length l → to_remove !! k = Some false) →
  SAS_Plus.erase_merged steps to_remove i l = Some l.
Proof.
  induction steps as [|steps IH]; intros i l Hfalse; simpl; [done|].
  case_decide as Hi; [|done].
  rewrite Hfalse by lia. simpl. apply IH. intros k Hk. apply Hfalse. lia.
Qed.

Lemma erase_merged_skip {A} (to_remove : list bool) : ∀ gap steps i (l : list A),
  (∀ k, i ≤ k < i + gap → to_remove !! k = Some false) →
  i + gap ≤ length l →
  SAS_Plus.erase_merged (gap + steps) to_remove i l
  = SAS_Plus.erase_merged steps to_remove (i + gap) l.
Proof.
  induction gap as [|gap IH]; intros steps i l Hfalse Hlen.
  - by rewrite Nat.add_0_r.
  - simpl. rewrite decide_True by lia. rewrite Hfalse by lia. simpl.
    rewrite IH; [f_equal; lia| |lia]. intros k Hk. apply Hfalse. lia.
Qed.

Lemma erase_merged_at {A} (to_remove : list bool) steps i (l : list A) :
  i < length l → to_remove !! i = Some true →
  SAS_Plus.erase_merged (S steps) to_remove i l
  = SAS_Plus.erase_merged steps to_remove (S i) (delete i l).
Proof. intros Hi Hflag. simpl. rewrite decide_True by done. by rewrite Hflag. Qed.

(** X23.  The loop that removes the merged groups erases at the flagged
    positions of the vector as it shrinks.  With no flag it removes
    nothing and with one flag the flagged group; with two flags, at [j]
    and at a later [k], it removes the group at [j] and then the group
    that came after the one at [k], or nothing more when [k] was the last:
    the group flagged at [k] stays in the vector. *)
Theorem erase_merged_skips_the_next_group {A} (equivalent_groups : list A) :
  let size := length equivalent_groups in
  SAS_Plus.erase_merged size (replicate size false) 0 equivalent_groups
  = Some equivalent_groups ∧
  (∀ j, j < size →
     SAS_Plus.erase_merged size (<[j := true]> (replicate size false)) 0
       equivalent_groups
     = Some (delete j equivalent_groups)) ∧
  (∀ j k, j < k < size →
     ∃ kept,
       SAS_Plus.erase_merged size
         (<[k := true]> (<[j := true]> (replicate size false))) 0
         equivalent_groups = Some kept ∧
       kept = (if decide (S k < size)
               then delete k (delete j equivalent_groups)
               else delete j equivalent_groups) ∧
       kept !! (k - 1) = equivalent_groups !! k).
Proof.
  intros size. split; [|split].
  - apply erase_merged_none. intros k Hk. apply lookup_replicate_2. lia.
  - intros j Hj.
    replace size with (j + S (size - S j)) at 1 by lia.
    rewrite erase_merged_skip; [|intros k Hk|simpl; fold size; lia].
    2:{ rewrite list_lookup_insert_ne by lia. apply lookup_replicate_2. lia. }
    rewrite Nat.add_0_l, erase_merged_at.
    + apply erase_merged_none. intros k Hk.
      rewrite list_lookup_insert_ne by lia. apply lookup_replicate_2.
      rewrite length_delete in Hk by (apply lookup_lt_is_Some; fold size; lia).
      fold size in Hk. lia.
    + fold size. lia.
    + apply list_lookup_insert_eq. rewrite length_replicate. lia.
  - intros j k Hjk.
    assert (length (delete j equivalent_groups) = size - 1) as Hlen1.
    { rewrite length_delete by (apply lookup_lt_is_Some; fold size; lia).
      fold size. lia. }
    assert (delete j equivalent_groups !! (k - 1) = equivalent_groups !! k) as Hk.
    { rewrite list_lookup_delete_ge by lia. f_equal. lia. }
    eexists. split; [|split; [done|]].
    + replace size with (j + S (size - S j)) at 1 by lia.
      rewrite erase_merged_skip; [|intros i Hi|simpl; fold size; lia].
      2:{ rewrite !list_lookup_insert_ne by lia. apply lookup_replicate_2. lia. }
      rewrite Nat.add_0_l, erase_merged_at.
      2:{ fold size. lia. }
      2:{ rewrite list_lookup_insert_ne by lia.
          apply list_lookup_insert_eq. rewrite length_replicate. lia. }
      replace (size - S j) with ((k - S j) + (size - k)) by lia.
      replace (S j) with (S j + 0) at 2 by lia.
      rewrite erase_merged_skip; [|intros i Hi|rewrite Hlen1; lia].
      2:{ rewrite !list_lookup_insert_ne by lia. apply lookup_replicate_2. lia. }
      replace (S j + 0 + (k - S j)) with k by lia.
      destruct (size - k) as [|steps] eqn:Hsteps; [lia|].
      case_decide as Hlast.
      * rewrite erase_merged_at.
        -- apply erase_merged_none. intros i Hi.
           rewrite length_delete in Hi
             by (apply lookup_lt_is_Some; rewrite Hlen1; lia).
           rewrite !list_lookup_insert_ne by lia. apply lookup_replicate_2. lia.
        -- rewrite Hlen1. lia.
        -- apply list_lookup_insert_eq. rewrite length_insert, length_replicate.
           lia.
      * simpl. rewrite decide_False by (rewrite Hlen1; lia). done.
    + case_decide as Hlast; [|done].
      rewrite list_lookup_delete_lt by lia. done.
Qed.

Lemma erase_merged_sublist {A} (to_remove : list bool) : ∀ steps i (l kept : list A),
  SAS_Plus.erase_merged steps to_remove i l = Some kept →
  kept `sublist_of` l ∧ (0 < i → kept !! 0 = l !! 0).
Proof.
  induction steps as [|steps IH]; intros i l kept H; simpl in H.
  - by simplify_eq.
  - case_decide as Hi; [|by simplify_eq].
    destruct (to_remove !! i) as [flag|]; simplify_eq/=.
    apply IH in H as [Hsub Hhead]. destruct flag.
    + split.
      * etrans; [done|]. apply sublist_delete.
      * intros Hpos. rewrite Hhead by lia. apply list_lookup_delete_lt. lia.
    + split; [done|]. intros _. apply Hhead. lia.
Qed.

Section EarlierManager.

Context {type : Type}.
Variable getType : Object → type.
Variable isEqual : type → type → bool.

(** What the two loops over the groups keep: the vectors, the vector of
    groups, the number of groups made, and the flags below [first]. *)
Definition merges_later (first : nat) (m m' : SAS_Plus.Manager)
    (to_remove to_remove' : list bool) : Prop :=
  SAS_Plus.vectors m' = SAS_Plus.vectors m ∧
  SAS_Plus.equivalent_groups_ m' = SAS_Plus.equivalent_groups_ m ∧
  length (SAS_Plus.groups m') = length (SAS_Plus.groups m) ∧
  length to_remove' = length to_remove ∧
  ∀ k, k < first → to_remove' !! k = to_remove !! k.

Lemma merge_with_later_keeps reachable_nodes equivalent_group1 first :
  ∀ later m to_remove m' to_remove',
  (∀ ci2, ci2 ∈ later → first ≤ ci2) →
  SAS_Plus.merge_with_later getType isEqual reachable_nodes equivalent_group1
    later m to_remove = Some (m', to_remove') →
  merges_later first m m' to_remove to_remove'.
Proof.
  induction later as [|ci2 later IH]; intros m to_remove m' to_remove' Hlater H;
    simpl in H.
  - by simplify_eq.
  - assert (∀ c, c ∈ later → first ≤ c) as Hlater'
      by (intros c Hc; apply Hlater; by right).
    destruct (SAS_Plus.equivalent_groups_ m !! ci2); simplify_eq/=.
    destruct (to_remove !! ci2) as [[]|] eqn:Hflag; simplify_eq/=;
      [by eapply IH|].
    destruct (SAS_Plus.groups m !! equivalent_group1); simplify_eq/=.
    destruct (SAS_Plus.groups m !! _); simplify_eq/=.
    destruct (SAS_Plus.tryToMergeWith _ _ _ _ _ _) as [[this' merged]|];
      simplify_eq/=.
    apply IH in H as (Hv & He & Hg & Hl & Hflags); [|done]. simpl in *.
    split; [done|]. split; [done|].
    split; [by rewrite Hg, length_insert|].
    assert (first ≤ ci2) as Hci2 by (apply Hlater; by left).
    destruct merged.
    + split; [by rewrite Hl, length_insert|]. intros k Hk.
      rewrite Hflags by done. apply list_lookup_insert_ne. lia.
    + done.
Qed.

Lemma merge_each_keeps reachable_nodes : ∀ todo m to_remove m' to_remove',
  SAS_Plus.merge_each getType isEqual reachable_nodes todo m to_remove
  = Some (m', to_remove') →
  merges_later 1 m m' to_remove to_remove'.
Proof.
  induction todo as [|ci todo IH]; intros m to_remove m' to_remove' H; simpl in H.
  - by simplify_eq.
  - destruct (SAS_Plus.equivalent_groups_ m !! ci) as [group1|]; simplify_eq/=.
    destruct (to_remove !! ci) as [[]|]; simplify_eq/=; [by eapply IH|].
    destruct (SAS_Plus.merge_with_later _ _ _ _ _ _ _) as [[m1 to_remove1]|] eqn:Hm;
      simplify_eq/=.
    apply (merge_with_later_keeps _ _ 1) in Hm as (Hv1 & He1 & Hg1 & Hl1 & Hf1).
    2:{ intros ci2 Hci2%elem_of_seq. lia. }
    apply IH in H as (Hv & He & Hg & Hl & Hf).
    split; [congruence|]. split; [congruence|]. split; [congruence|].
    split; [congruence|]. intros k Hk. rewrite Hf, Hf1; done.
Qed.

(** X24.  The earlier [updateEquivalences] has no defined result on a
    manager without groups.  When it returns it has left the vectors of
    nodes as they were, has made no group, and has only erased entries of
    the vector of groups; the first group is never erased. *)
Theorem earlier_updateEquivalences_only_erases reachable_nodes m :
  (SAS_Plus.equivalent_groups_ m = [] →
   SAS_Plus.updateEquivalences getType isEqual reachable_nodes m = None) ∧
  ∀ m', SAS_Plus.updateEquivalences getType isEqual reachable_nodes m = Some m' →
    SAS_Plus.vectors m' = SAS_Plus.vectors m ∧
    length (SAS_Plus.groups m') = length (SAS_Plus.groups m) ∧
    SAS_Plus.equivalent_groups_ m' `sublist_of` SAS_Plus.equivalent_groups_ m ∧
    SAS_Plus.equivalent_groups_ m' !! 0 = SAS_Plus.equivalent_groups_ m !! 0.
Proof.
  unfold SAS_Plus.updateEquivalences. split.
  { intros ->. done. }
  intros m' H. case_bool_decide as Hsize; [done|].
  destruct (SAS_Plus.merge_each _ _ _ _ _ _) as [[m1 to_remove]|] eqn:Hm;
    simplify_eq/=.
  apply merge_each_keeps in Hm as (Hv & He & Hg & Hl & Hf).
  destruct (SAS_Plus.erase_merged _ _ _ _) as [kept|] eqn:Hk; simplify_eq/=.
  split; [done|]. split; [done|]. rewrite <-He.
  destruct (length (SAS_Plus.equivalent_groups_ m)) as [|size] eqn:Hlen; [done|].
  simpl in Hk. rewrite He, Hlen in Hk. rewrite decide_True in Hk by lia.
  rewrite Hf in Hk by lia. simpl in Hk.
  rewrite <-He in Hk.
  apply erase_merged_sublist in Hk as [Hsub Hhead].
  split; [done|]. apply Hhead. lia.
Qed.

End EarlierManager.

(** * Examples

    ** Two trucks at a depot

    Facts 0 and 1 say of truck 10 and of truck 11 that they are at depot
    12.  Every object starts in a group of its own, group 3 is that of the
    facts without terms; the trucks have the same fingerprint.  Two reachable facts are equivalent when they have
    the same atom, and identical when, besides, their terms have the same
    roots. *)

Definition same_atom (h : Heap) (a b : fact_ref) : bool :=
  match facts h !! a, facts h !! b with
  | Some fa, Some fb => bool_decide (atom_ fa = atom_ fb)
  | _, _ => false
  end.

Definition same_roots (h : Heap) (a b : fact_ref) : bool :=
  match facts h !! a, facts h !! b with
  | Some fa, Some fb =>
      bool_decide
        (atom_ fa = atom_ fb ∧
         mapM (EquivalentObjectGroup_getRootNode h) (term_domain_mapping_ fa)
         = mapM (EquivalentObjectGroup_getRootNode h) (term_domain_mapping_ fb))
  | _, _ => false
  end.

Definition group_of (finger_print : list bool) (eo : eo_ref)
    (reachable_facts : list fact_ref) : EquivalentObjectGroup :=
  mkEquivalentObjectGroup false None finger_print UINT_MAX [eo] reachable_facts [].

Definition trucks_and_depot : list (Object * bool * list bool) :=
  [(10, false, [true; false]); (11, false, [true; false]);
   (12, false, [false; true])].

Definition trucks_at_depot : list ReachableFact :=
  [mkReachableFact 7 [0; 2] None; mkReachableFact 7 [1; 2] None].

Definition two_trucks : Heap :=
  mkHeap
    [group_of [true; false] 0 [0]; group_of [true; false] 1 [1];
     group_of [false; true] 2 [0; 1];
     mkEquivalentObjectGroup true None [] UINT_MAX [] [] []]
    [mkEquivalentObject 10 0 [0]; mkEquivalentObject 11 1 [1];
     mkEquivalentObject 12 2 [0; 1]]
    trucks_at_depot.

(** The store after the pass of iteration 0: the group of truck 11 is
    forwarded to that of truck 10, and fact 1 is replaced by fact 0. *)
Definition merged_trucks : Heap :=
  mkHeap
    [mkEquivalentObjectGroup false None [true; false] UINT_MAX [0; 1] [0] [2%N];
     mkEquivalentObjectGroup false (Some 0) [true; false] 0 [1] [1] [1%N];
     mkEquivalentObjectGroup false None [false; true] UINT_MAX [2] [0] [1%N];
     mkEquivalentObjectGroup true None [] UINT_MAX [] [] [0%N]]
    [mkEquivalentObject 10 0 [0]; mkEquivalentObject 11 1 [1];
     mkEquivalentObject 12 2 [0; 1]]
    [mkReachableFact 7 [0; 2] None; mkReachableFact 7 [0; 2] (Some 0)].

(** The store after one more pass. *)
Definition merged_trucks_later : Heap :=
  mkHeap
    [mkEquivalentObjectGroup false None [true; false] UINT_MAX [0; 1] [0]
       [2%N; 2%N];
     mkEquivalentObjectGroup false (Some 0) [true; false] 0 [1] [1] [1%N; 1%N];
     mkEquivalentObjectGroup false None [false; true] UINT_MAX [2] [0]
       [1%N; 1%N];
     mkEquivalentObjectGroup true None [] UINT_MAX [] [] [0%N; 0%N]]
    (equivalent_objects merged_trucks) (facts merged_trucks).

(** Two objects that occur in no fact. *)
Definition two_strangers : Heap :=
  mkHeap [group_of [true] 0 []; group_of [true] 1 []]
         [mkEquivalentObject 20 0 []; mkEquivalentObject 21 1 []] [].

Lemma first_pass :
  EquivalentObjectGroupManager_updateEquivalences same_atom same_roots two_trucks 0
  = Some merged_trucks.
Proof. vm_compute. reflexivity. Qed.

Lemma second_pass :
  EquivalentObjectGroupManager_updateEquivalences same_atom same_roots
    merged_trucks 1 = Some merged_trucks_later.
Proof. vm_compute. reflexivity. Qed.

Lemma two_trucks_initialised :
  EquivalentObjectGroupManager_initialise
    (EquivalentObjectGroupManager_constructor trucks_and_depot trucks_at_depot)
    (zero_arity_equivalent_object_group_ trucks_and_depot) [0; 1]
  = Some two_trucks.
Proof. vm_compute. reflexivity. Qed.

Lemma two_trucks_consistent :
  store_consistent two_trucks ∧ marked_are_affected two_trucks [].
Proof.
  apply (initialise_consistent trucks_and_depot trucks_at_depot [0; 1]).
  - intros r f Hf. destruct r as [|[|r]]; by simplify_eq/=.
  - intros r f e Hf He.
    destruct r as [|[|r]]; simplify_eq/=; set_unfold in He;
      repeat match goal with H : _ ∨ _ |- _ => destruct H as [->|H] end;
      try done; lia.
  - exact two_trucks_initialised.
Qed.

Lemma tryToMergeWith_merges_iff_witness :
  EquivalentObjectGroup_tryToMergeWith same_atom same_roots two_trucks 0 1 [] 0
  = merge_and_stamp same_roots two_trucks 0 1 [] 0.
Proof.
  refine (proj1 (tryToMergeWith_merges_iff same_atom same_roots two_trucks 0 1
                   (group_of [true; false] 0 [0]) (group_of [true; false] 1 [1])
                   [] 0%N _ _ _ _ _ _ _) _).
  - lia.
  - reflexivity.
  - reflexivity.
  - reflexivity.
  - reflexivity.
  - reflexivity.
  - simpl. repeat constructor; eexists; reflexivity.
  - split; [reflexivity|]. split; [reflexivity|]. split; [reflexivity|].
    split.
    + exists 1, (mkEquivalentObject 11 1 [1]). split; [set_solver|].
      split; [reflexivity|]. intros initial_fact Hin. exists 0.
      split; [set_solver|]. set_unfold in Hin. destruct Hin as [->|[]].
      reflexivity.
    + exists 0, (mkEquivalentObject 10 0 [0]). split; [set_solver|].
      split; [reflexivity|]. intros initial_fact Hin. exists 1.
      split; [set_solver|]. set_unfold in Hin. destruct Hin as [->|[]].
      reflexivity.
Defined.

Lemma no_initial_facts_never_blocks_witness :
  EquivalentObject_isInitialStateReachable same_atom two_strangers
    (mkEquivalentObject 21 1 []) [] = true ∧
  EquivalentObjectGroup_tryToMergeWith same_atom same_roots two_strangers 0 1 [] 0
  = merge_and_stamp same_roots two_strangers 0 1 [] 0.
Proof.
  destruct (no_initial_facts_never_blocks same_atom same_roots two_strangers
              (mkEquivalentObject 21 1 []) eq_refl) as (Hreachable & _ & Hmerge).
  split; [apply Hreachable|].
  apply (Hmerge 0 1 (group_of [true] 0 []) (group_of [true] 1 []) 1 0
           (mkEquivalentObject 20 0 []));
    try reflexivity; try lia; try set_solver.
Defined.

Lemma contains_historical_witness :
  EquivalentObjectGroup_contains merged_trucks 1 11 0
  = EquivalentObjectGroup_contains merged_trucks 0 11 0.
Proof.
  refine (proj1 (proj1 (contains_historical merged_trucks 1
                          (mkEquivalentObjectGroup false (Some 0) [true; false] 0
                             [1] [1] [1%N])
                          11 0%N _) _) 0 _).
  - reflexivity.
  - simpl. lia.
  - reflexivity.
Defined.

(** The group of truck 11 is forwarded when the second pass begins, and
    the pass appends to its history all the same. *)
Lemma forwarded_group_appends :
  ¬ (∀ h iteration h' e g g',
       EquivalentObjectGroupManager_updateEquivalences same_atom same_roots
         h iteration = Some h' →
       groups h !! e = Some g → link_ g ≠ None → groups h' !! e = Some g' →
       size_per_iteration_ g' = size_per_iteration_ g).
Proof.
  intros H.
  pose proof (λ g g', H merged_trucks 1%N merged_trucks_later 1 g g' second_pass)
    as Hsame.
  specialize (Hsame _ _ eq_refl ltac:(done) eq_refl). discriminate Hsame.
Qed.

Lemma every_group_appends_its_count_witness :
  ∃ g' n,
    groups merged_trucks_later !! 1 = Some g' ∧
    1 ≤ n ≤ length (equivalent_objects_ g') ∧
    size_per_iteration_ g' = [1%N] ++ [uint_of_size n].
Proof.
  destruct (proj2 (every_group_appends_its_count same_atom same_roots
                     merged_trucks 1)
              merged_trucks_later second_pass 1
              (mkEquivalentObjectGroup false (Some 0) [true; false] 0 [1] [1]
                 [1%N])
              eq_refl) as (g' & n & Hg' & Hn & Hhistory & _).
  exists g', n. done.
Defined.

Lemma updateEquivalences_closes_roots_witness :
  root_closed merged_trucks ∧ store_consistent merged_trucks ∧
  marked_are_affected merged_trucks [].
Proof.
  apply (updateEquivalences_closes_roots same_atom same_roots two_trucks 0).
  - exact (proj1 two_trucks_consistent).
  - exact (proj2 two_trucks_consistent).
  - vm_compute. reflexivity.
Defined.

(** ** A truck that moves

    A graph of two nodes, [(at ?x)] at the depot and [(at ?x)] at the
    market, with one transition from the first to the second.  Two atoms
    unify when they have the same predicate and as many terms, and two
    terms are equivalent when they have the same domain. *)

Definition same_predicate (fact atom : BoundedAtom) : bool :=
  bool_decide (getPredicate fact = getPredicate atom ∧
               length (getTerms fact) = length (getTerms atom)).

Definition same_domain (_ : nat) (t : Term) (_ : nat) (t' : Term) : bool :=
  bool_decide (getDomain t = getDomain t').

Definition at_depot : BoundedAtom := mkBoundedAtom 0 1 false [mkTerm 0 100 [1; 2]].
Definition at_market : BoundedAtom := mkBoundedAtom 1 2 false [mkTerm 1 200 [1; 2]].

Definition move : Transition :=
  mkTransition 0 0 1 [mkBoundedAtom 5 1 false [mkTerm 2 200 [1; 2]]] [200].

Definition two_nodes : list DomainTransitionGraphNode :=
  [mkDomainTransitionGraphNode [at_depot] [move];
   mkDomainTransitionGraphNode [at_market] []].

Definition truck_at_depot : BoundedAtom :=
  mkBoundedAtom 9 1 false [mkTerm 3 300 [1]].

Definition truck_at_market : BoundedAtom :=
  mkBoundedAtom 1 2 false [mkTerm 1 200 [1]].

(** The analysis of the graph from the fact that truck 1 is at the depot,
    with a manager of equivalent object groups that has no state. *)
Definition analyse (fuel : nat) : outcome (Reachability * unit) :=
  performReachabilityAnalsysis same_predicate (λ a, a) same_predicate
    same_predicate same_domain (λ _, []) (λ _, []) unit (λ _ _, Some ())
    (λ _ manager, Some manager) two_nodes fuel (DTGReachability_new two_nodes)
    [truck_at_depot].

Definition analysed : Reachability :=
  mkReachability [truck_at_depot; truck_at_market] {[0]}
    [[[mkBoundedAtom 0 1 false [mkTerm 0 100 [1]]];
      [mkBoundedAtom 0 1 false [mkTerm 0 100 [1]]]];
     [[truck_at_market]; [truck_at_market]]]
    [[1]; [1]].

Lemma analyse_returns : analyse 6 = Returns (analysed, ()).
Proof. vm_compute. reflexivity. Qed.

Lemma established_facts_only_grow_witness :
  analyse 6 ≠ OutOfFuel ∧
  ∃ trace,
    last trace = Some (analysed, ()) ∧
    ∀ i j p q, i ≤ j →
      ((with_established_facts [truck_at_depot]
          (with_achieved_transitions ∅ (DTGReachability_new two_nodes)), ())
       :: trace) !! i = Some p →
      ((with_established_facts [truck_at_depot]
          (with_achieved_transitions ∅ (DTGReachability_new two_nodes)), ())
       :: trace) !! j = Some q →
      established_facts p.1 `prefix_of` established_facts q.1.
Proof.
  destruct (established_facts_only_grow same_predicate (λ a, a) same_predicate
              same_predicate same_domain (λ _, []) (λ _, []) unit
              (λ _ _, Some ()) (λ _ manager, Some manager) two_nodes
              (DTGReachability_new two_nodes) [truck_at_depot])
    as (Hends & Hruns & _).
  split.
  - apply Hends. vm_compute. lia.
  - destruct (Hruns 6 (analysed, ()) analyse_returns)
      as (manager & trace & _ & Hlast & _ & Hprefix).
    destruct manager. exists trace. done.
Defined.





Lemma getSupportingFacts_asserts_an_atom_is_left_witness :
  getSupportingFacts same_predicate (λ a, a) [] ∅ [] [] [truck_at_depot] = None ∧
  ∃ tupples,
    getSupportingFacts same_predicate (λ a, a) [] ∅ [at_depot] [] [truck_at_depot]
    = Some tupples.
Proof.
  destruct (getSupportingFacts_asserts_an_atom_is_left same_predicate (λ a, a)
              [] ∅ [at_depot] [] [truck_at_depot]) as (_ & _ & Hreturns).
  split.
  - apply (getSupportingFacts_asserts_an_atom_is_left same_predicate (λ a, a)
             [] ∅ [] [] [truck_at_depot]).
  - apply Hreturns.
    + simpl. lia.
    + intros f a Hunify. unfold same_predicate in Hunify.
      case_bool_decide as Hsame; [|done]. destruct Hsame as [_ Hlen]. lia.
    + done.
    + intros a Ha. simpl in Ha. by apply elem_of_nil in Ha.
Defined.

(** The engine with a supporting tuple for the depot node only. *)
Definition seeded : Reachability :=
  mkReachability [truck_at_depot; truck_at_market] ∅
    [[[mkBoundedAtom 0 1 false [mkTerm 0 100 [1]]]]; []] [[]; []].

(** The market node is the last of the matching nodes, and gets no
    supporting tuple; as the first of them it gets one. *)
Lemma last_matching_dtg_is_skipped_witness :
  reach_matching_dtgs (λ a, a) same_predicate same_predicate two_nodes move
    [100] ([0] ++ [1]) seeded = Some seeded ∧
  (supported_facts_ <$>
     reach_matching_dtgs (λ a, a) same_predicate same_predicate two_nodes move
       [100] ([1] ++ [0]) seeded)
  = Some [[[mkBoundedAtom 0 1 false [mkTerm 0 100 [1]]]]; [[at_market]]].
Proof.
  split.
  - rewrite (proj1 (last_matching_dtg_is_skipped (λ a, a) same_predicate
                      same_predicate two_nodes move [100] [0] 1 seeded)).
    vm_compute. reflexivity.
  - rewrite (proj1 (last_matching_dtg_is_skipped (λ a, a) same_predicate
                      same_predicate two_nodes move [100] [1] 0 seeded)).
    vm_compute. reflexivity.
Defined.

(** ** The two trucks, again *)

Lemma two_trucks_in_step : in_step 0 two_trucks.
Proof.
  intros e g Hg. destruct e as [|[|[|[|e]]]]; simplify_eq/=; done.
Qed.

Lemma merged_trucks_in_step : in_step (0 + 1) merged_trucks.
Proof.
  intros e g Hg.
  destruct e as [|[|[|[|e]]]]; simplify_eq/=; repeat split; try done;
    try (by intros n [= <-]); lia.
Qed.

Lemma deleteRemovedFacts_keeps_unmarked_witness :
  EquivalentObjectGroup_deleteRemovedFacts merged_trucks 1 =
  Some (set_group merged_trucks 1
          (with_reachable_facts
             (filter (λ r, Is_true (unmarked merged_trucks r)) [1])
             (mkEquivalentObjectGroup false (Some 0) [true; false] 0 [1] [1]
                [1%N]))).
Proof.
  apply (deleteRemovedFacts_keeps_unmarked merged_trucks 1
           (mkEquivalentObjectGroup false (Some 0) [true; false] 0 [1] [1] [1%N])).
  - reflexivity.
  - intros r Hr. apply list_elem_of_singleton in Hr as ->. by eexists.
Defined.

(** The attempt to merge the groups of the two trucks. *)
Definition trucks_joined : Heap :=
  mkHeap
    [mkEquivalentObjectGroup false None [true; false] UINT_MAX [0; 1] [0] [];
     mkEquivalentObjectGroup false (Some 0) [true; false] 0 [1] [1] [];
     group_of [false; true] 2 [0; 1];
     mkEquivalentObjectGroup true None [] UINT_MAX [] [] []]
    [mkEquivalentObject 10 0 [0]; mkEquivalentObject 11 1 [1];
     mkEquivalentObject 12 2 [0; 1]]
    [mkReachableFact 7 [0; 2] None; mkReachableFact 7 [0; 2] (Some 0)].

Lemma trucks_join :
  EquivalentObjectGroup_tryToMergeWith same_atom same_roots two_trucks 0 1 [] 0
  = Some (trucks_joined, [0; 2], true).
Proof. vm_compute. reflexivity. Qed.

Lemma tryToMergeWith_joins_witness :
  EquivalentObjectGroup_contains_object trucks_joined 0 11 = Some true ∧
  EquivalentObjectGroup_isIdenticalTo trucks_joined 0 1 = Some true.
Proof.
  destruct (tryToMergeWith_joins same_atom same_roots two_trucks 0 1
              (group_of [true; false] 0 [0]) (group_of [true; false] 1 [1])
              [] 0%N trucks_joined [0; 2])
    as (Hobjects & _ & Hidentical & _);
    [lia|reflexivity|reflexivity|reflexivity|reflexivity|exact trucks_join|].
  split; [|exact Hidentical].
  rewrite Hobjects. reflexivity.
Defined.

Lemma merge_removes_one_group_witness :
  EquivalentObjectGroupManager_getNumberOfEquivalentGroups two_trucks =
  (EquivalentObjectGroupManager_getNumberOfEquivalentGroups trucks_joined + 1)%N.
Proof.
  apply (merge_removes_one_group same_atom same_roots two_trucks 0 1
           (group_of [true; false] 0 [0]) (group_of [true; false] 1 [1])
           [] 0%N trucks_joined [0; 2] true);
    [vm_compute; discriminate|lia|reflexivity|reflexivity|reflexivity|reflexivity|
     exact trucks_join].
Defined.

Lemma pass_never_adds_groups_witness :
  (EquivalentObjectGroupManager_getNumberOfEquivalentGroups merged_trucks
   ≤ EquivalentObjectGroupManager_getNumberOfEquivalentGroups two_trucks)%N.
Proof.
  apply (pass_never_adds_groups same_atom same_roots two_trucks 0 merged_trucks);
    [vm_compute; discriminate|exact first_pass].
Defined.

Lemma pass_forwards_roots_only_witness :
  ∃ g', groups merged_trucks !! 1 = Some g' ∧
        is_grounded_ g' = false ∧ finger_print_ g' = [true; false].
Proof.
  destruct (pass_forwards_roots_only same_atom same_roots two_trucks 0
              merged_trucks 1 (group_of [true; false] 1 [1]) first_pass eq_refl)
    as (g' & Hg' & Hgrounded & Hprint & _).
  exists g'. split; [exact Hg'|]. split; [exact Hgrounded|exact Hprint].
Defined.

Lemma pass_records_present_count_witness :
  ∃ g', groups merged_trucks !! 0 = Some g' ∧
    size_per_iteration_ g' = [] ++ [uint_of_size (length (equivalent_objects_ g'))].
Proof.
  apply (pass_records_present_count same_atom same_roots two_trucks 0
           merged_trucks 0 (group_of [true; false] 0 [0]) first_pass).
  reflexivity.
Defined.

Lemma pass_keeps_step_witness : in_step (0 + 1) merged_trucks.
Proof.
  exact (pass_keeps_step same_atom same_roots two_trucks 0 merged_trucks
           two_trucks_in_step first_pass).
Defined.

Lemma contains_at_latest_iteration_witness :
  EquivalentObjectGroup_contains merged_trucks 1 11 0 = Some true.
Proof.
  rewrite (contains_at_latest_iteration merged_trucks 0 1 11
             merged_trucks_in_step).
  - reflexivity.
  - reflexivity.
  - intros e g Hg. destruct e as [|[|[|[|e]]]]; simplify_eq/=; vm_compute;
      discriminate.
Defined.

Lemma initial_store_in_step_witness :
  in_step 0 two_trucks ∧
  EquivalentObjectGroupManager_getNumberOfEquivalentGroups two_trucks = 4%N.
Proof.
  destruct (initial_store_in_step trucks_and_depot trucks_at_depot [0; 1]
              two_trucks two_trucks_initialised) as (Hstep & _ & _ & Hnumber).
  split; [exact Hstep|]. apply Hnumber. reflexivity.
Defined.

Lemma trucks_at_depot_terms r f e :
  trucks_at_depot !! r = Some f → e ∈ term_domain_mapping_ f →
  e < length trucks_and_depot.
Proof.
  intros Hf He.
  destruct r as [|[|r]]; simplify_eq/=; set_unfold in He;
    repeat match goal with H : _ ∨ _ |- _ => destruct H as [->|H] end;
    try done; lia.
Qed.

Lemma initialise_lists_facts_by_term_witness :
  ∃ g, groups two_trucks !! 2 = Some g ∧ 1 ∈ reachable_facts_ g.
Proof.
  destruct (initialise_lists_facts_by_term trucks_and_depot trucks_at_depot
              [0; 1] two_trucks trucks_at_depot_terms two_trucks_initialised)
    as [_ Hlisted].
  apply (Hlisted 1 (mkReachableFact 7 [1; 2] None) 2).
  - set_solver.
  - reflexivity.
  - set_solver.
Defined.

Lemma getAllReachableFacts_takes_each_fact_at_its_first_group_witness :
  ∃ added,
    EquivalentObjectGroupManager_getAllReachableFacts two_trucks []
    = Some ([] ++ added) ∧ 0 ∈ added ∧ 1 ∈ added.
Proof.
  destruct (getAllReachableFacts_takes_each_fact_at_its_first_group two_trucks [])
    as (added & Hreturns & _ & Hall).
  - intros e g r Hg _ Hr.
    destruct e as [|[|[|[|e]]]]; simplify_eq/=; set_unfold in Hr;
      repeat match goal with H : _ ∨ _ |- _ => destruct H as [->|H] end;
      try done; by eexists.
  - exists added. split; [exact Hreturns|]. split.
    + apply (Hall (proj1 two_trucks_consistent) 0 0 [0; 2]).
      * eexists. split; [reflexivity|]. split; [reflexivity|]. set_solver.
      * eexists. split; [reflexivity|]. split; reflexivity.
    + apply (Hall (proj1 two_trucks_consistent) 1 1 [1; 2]).
      * eexists. split; [reflexivity|]. split; [reflexivity|]. set_solver.
      * eexists. split; [reflexivity|]. split; reflexivity.
Defined.

(** Facts that are equivalent when they are the same fact. *)
Definition same_fact (_ : Heap) (a b : fact_ref) : bool := bool_decide (a = b).

Lemma areEquivalent_preorder_witness :
  EquivalentObject_areEquivalent same_fact two_trucks
    (mkEquivalentObject 10 0 [0]) (mkEquivalentObject 10 0 [0]) = true ∧
  EquivalentObject_areEquivalent same_fact two_strangers
    (mkEquivalentObject 20 0 []) (mkEquivalentObject 20 0 []) = false.
Proof.
  split.
  - apply (areEquivalent_preorder same_fact two_trucks); [| |done].
    + intros r. by apply bool_decide_eq_true_2.
    + intros a b c ->%bool_decide_eq_true ->%bool_decide_eq_true.
      by apply bool_decide_eq_true_2.
  - apply (areEquivalent_preorder same_fact two_strangers); [| |by left].
    + intros r. by apply bool_decide_eq_true_2.
    + intros a b c ->%bool_decide_eq_true ->%bool_decide_eq_true.
      by apply bool_decide_eq_true_2.
Defined.

(** ** The truck that moves, again *)

Lemma makeReachable_adds_once_witness :
  ∃ st1 pushed,
    makeReachable same_predicate 1 [at_market] seeded = Some (st1, pushed) ∧
    makeReachable same_predicate 1 [at_market] st1 = Some (st1, false).
Proof.
  destruct (makeReachable_adds_once same_predicate 1 [at_market] seeded [] eq_refl)
    as (st1 & pushed & Hreturns & _ & _ & Htwice).
  exists st1, pushed. split; [exact Hreturns|]. apply Htwice.
  intros a. by apply bool_decide_eq_true_2.
Defined.

Lemma analysis_establishes_no_fact_twice_witness :
  ∃ added, established_facts analysed = [truck_at_depot] ++ added.
Proof.
  destruct (analysis_establishes_no_fact_twice same_predicate (λ a, a)
              same_predicate same_predicate same_domain (λ _, []) (λ _, []) unit
              (λ _ _, Some ()) (λ _ manager, Some manager) two_nodes 6
              (DTGReachability_new two_nodes) [truck_at_depot] analysed ()
              analyse_returns) as (added & Hadded & _).
  exists added. exact Hadded.
Defined.

Lemma supporting_tuples_fit_their_node_witness :
  ∃ added, supported_facts_ analysed !! 0 = Some ([] ++ added) ∧
           ∀ tuple, tuple ∈ added → length tuple = 1.
Proof.
  destruct (supporting_tuples_fit_their_node same_predicate (λ a, a)
              same_predicate same_predicate same_domain (λ _, []) (λ _, []) unit
              (λ _ _, Some ()) (λ _ manager, Some manager) two_nodes 6
              (DTGReachability_new two_nodes) [truck_at_depot] analysed ()
              analyse_returns 0 [] eq_refl) as (added & Hadded & Hfit).
  exists added. split; [exact Hadded|]. intros tuple Htuple.
  exact (Hfit _ tuple eq_refl Htuple).
Defined.

Lemma achieved_transitions_reach_their_to_node_witness :
  ∃ t l, t ∈ graph_transitions two_nodes ∧ transition_ref t = 0 ∧
         reachable_nodes_ analysed !! getFromNode t = Some l ∧ getToNode t ∈ l.
Proof.
  apply (achieved_transitions_reach_their_to_node same_predicate (λ a, a)
           same_predicate same_predicate same_domain (λ _, []) (λ _, []) unit
           (λ _ _, Some ()) (λ _ manager, Some manager) two_nodes 6
           (DTGReachability_new two_nodes) [truck_at_depot] analysed ()
           analyse_returns 0).
  simpl. set_solver.
Defined.

(** ** A group of the earlier kind

    Object 10 with the initial node 0, object 11 with the initial node 1;
    each of the two nodes is reachable from the other, and all objects
    have one type. *)

Lemma addInitialDTGNodeMapping_adds_once_witness :
  SAS_Plus.addInitialDTGNodeMapping [[5; 6]] {[10 := 0]} 10 6
  = Some ([[5; 6]], false).
Proof.
  assert (SAS_Plus.addInitialDTGNodeMapping [[5]] {[10 := 0]} 10 6
          = Some ([[5; 6]], true)) as Hfirst by reflexivity.
  destruct (addInitialDTGNodeMapping_adds_once [[5]] {[10 := 0]} 10 6
              [[5; 6]] true Hfirst)
    as [(Hnone & _)|(ref & mapping & _ & _ & _ & _ & _ & Htwice)].
  - vm_compute in Hnone. discriminate Hnone.
  - exact Htwice.
Defined.

Lemma earlier_tryToMergeWith_merges_iff_mutually_reachable_witness :
  ∃ merged,
    SAS_Plus.tryToMergeWith (λ _, ()) (λ _ _, true) [[0]; [1]]
      {[10 := 0]} {[11 := 1]} [[1]; [0]]
    = Some (if merged : bool then ({[10 := 0]} : gmap nat nat) ∪ {[11 := 1]}
            else {[10 := 0]}, merged).
Proof.
  destruct (earlier_tryToMergeWith_merges_iff_mutually_reachable
              (λ _, ()) (λ _ _, true) [[0]; [1]] {[10 := 0]} {[11 := 1]}
              [[1]; [0]]) as (merged & Hreturns & _).
  - intros object ref [[_ <-]%lookup_singleton_Some|[_ <-]%lookup_singleton_Some];
      by eexists.
  - intros object dtg_node
      [(ref & dtgs & [_ <-]%lookup_singleton_Some & Hv & Hin)
      |(ref & dtgs & [_ <-]%lookup_singleton_Some & Hv & Hin)];
      simpl in Hv; injection Hv as <-;
      apply list_elem_of_singleton in Hin as ->; by eexists.
  - exists merged. exact Hreturns.
Defined.

(** The fingerprint of truck 1 over the two nodes, where the type of a term
    is its reference and an object fits the terms of its own number. *)
Lemma fingerprint_flags_fitting_terms_witness :
  initialiseFingerPrint (λ object : Object, object) term_ref (λ _ _, false)
    Nat.eqb two_nodes 1
  = Some [false; true].
Proof.
  assert (N.of_nat (length (graph_terms two_nodes)) ≤ UINT_MAX)%N as Hle
    by (by vm_compute).
  exact (proj1 (fingerprint_flags_fitting_terms (λ object : Object, object)
                  term_ref (λ _ _, false) Nat.eqb two_nodes Hle) 1).
Defined.

(** ** Further examples *)

Lemma getEquivalentObject_round_trip_witness :
  EquivalentObjectGroupManager_getEquivalentObject
    (object_to_equivalent_object_mapping_ trucks_and_depot) 11 = Some 1 ∧
  EquivalentObjectGroup_contains_object
    (EquivalentObjectGroupManager_constructor trucks_and_depot trucks_at_depot)
    1 11 = Some true ∧
  EquivalentObjectGroupManager_getEquivalentObject
    (object_to_equivalent_object_mapping_ trucks_and_depot) 13 = None.
Proof.
  destruct (getEquivalentObject_round_trip trucks_and_depot trucks_at_depot)
    as [Hfound Hmissing].
  destruct (Hfound 1 11 false [true; false] eq_refl) as (Hget & _ & Hcontains).
  - intros [|[|[|k]]] x Hk Hx; simpl in Hx; simplify_eq; simpl; lia.
  - split; [exact Hget|]. split; [exact Hcontains|].
    apply Hmissing. simpl. set_solver.
Defined.

Lemma propagateReachableNodes_closes_witness :
  ∃ rn', propagateReachableNodes 8 two_nodes [[0; 1]; [1; 0]] = Returns rn' ∧
         length rn' = 2.
Proof.
  destruct (propagateReachableNodes_closes 8 two_nodes [[0; 1]; [1; 0]])
    as [Hfuel Hcloses].
  destruct (propagateReachableNodes 8 two_nodes [[0; 1]; [1; 0]])
    as [rn'| |] eqn:Hrun.
  - exists rn'. split; [done|]. by destruct (Hcloses rn' eq_refl) as [-> _].
  - vm_compute in Hrun. discriminate Hrun.
  - exfalso. apply Hfuel; [|done]. vm_compute. lia.
Defined.

Lemma getSupportingFacts_adds_tuples_witness :
  ∃ added,
    getSupportingFacts same_predicate (λ a, a) [] ∅ [at_depot] [] [truck_at_depot]
    = Some ([] ++ added) ∧
    Forall (λ tuple, length tuple = 1) added.
Proof.
  destruct (getSupportingFacts_adds_tuples same_predicate (λ a, a)
              [] ∅ [at_depot] [] [truck_at_depot]) as [Hadds _].
  destruct (getSupportingFacts same_predicate (λ a, a) [] ∅ [at_depot] []
              [truck_at_depot]) as [tupples|] eqn:Hrun.
  - destruct (Hadds tupples eq_refl) as (added & -> & _ & Hlen).
    exists added. split; [done|]. exact Hlen.
  - vm_compute in Hrun. discriminate Hrun.
Defined.

(** Two groups of the earlier kind that merge: the second is erased. *)
Lemma earlier_updateEquivalences_only_erases_witness :
  ∃ m',
    SAS_Plus.updateEquivalences (λ _ : Object, ()) (λ _ _, true) [[1]; [0]]
      (SAS_Plus.mkManager [[0]; [1]] [{[10 := 0]}; {[11 := 1]}] [0; 1])
    = Some m' ∧
    SAS_Plus.equivalent_groups_ m' !! 0 = Some 0.
Proof.
  destruct (earlier_updateEquivalences_only_erases (λ _ : Object, ())
              (λ _ _, true) [[1]; [0]]
              (SAS_Plus.mkManager [[0]; [1]] [{[10 := 0]}; {[11 := 1]}] [0; 1]))
    as [_ Honly].
  destruct (SAS_Plus.updateEquivalences (λ _ : Object, ()) (λ _ _, true)
              [[1]; [0]]
              (SAS_Plus.mkManager [[0]; [1]] [{[10 := 0]}; {[11 := 1]}] [0; 1]))
    as [m'|] eqn:Hrun.
  - exists m'. split; [done|]. by destruct (Honly m' eq_refl) as (_ & _ & _ & ->).
  - vm_compute in Hrun. discriminate Hrun.
Defined.
